(** Drive-through road stop platforms (roadstop.cpp): a shallow embedding of
    the attach / detach / rebuild / integrity-check operations and the
    properties of the runs of stop tiles they maintain. *)

From Stdlib Require Import ZArith Lia List Bool.
From stdpp Require Import base tactics option list gmap.

Local Open Scope Z_scope.

(** * Machine integers

    [TileIndex] is [uint32] (tile_type.h), [TileIndexDiff] and the fields of a
    platform are 32-bit [int]s, the status of a road stop is a [byte].  All of
    them are carried by [Z]; the reductions below are applied wherever the C++
    code stores a result in a variable of the corresponding type. *)

Definition to_uint32 (z : Z) : Z := z mod 2 ^ 32.
Definition to_int32 (z : Z) : Z := (z + 2 ^ 31) mod 2 ^ 32 - 2 ^ 31.
Definition to_byte (z : Z) : Z := z mod 2 ^ 8.

Abbreviation TileIndex := Z (only parsing).

(** tile_type.h *)
Definition TILE_SIZE : Z := 16.
Definition INVALID_TILE : TileIndex := to_uint32 (-1).

(** Bit helpers applied to the [byte] status (core/bitmath_func.hpp is not
    among the sources; these are the usual mask operations, the result being
    stored back into the byte). *)
Definition HasBit (x y : Z) : bool := negb (Z.land x (Z.shiftl 1 y) =? 0).
Definition SetBit (x y : Z) : Z := to_byte (Z.lor x (Z.shiftl 1 y)).
Definition ClrBit (x y : Z) : Z := to_byte (Z.land x (Z.lnot (Z.shiftl 1 y))).

(** Modelled from the spec: roadstop_base.h is not among the sources; the
    "is-base" marker is one bit of the status byte, here bit 6. *)
Definition RSSFB_BASE_ENTRY : Z := 6.

(** * Directions

    Modelled from the spec: direction_type.h and direction_func.h are not
    among the sources.  An axis has two opposing diagonal directions, and
    [AxisToDiagDir] "always returns the direction that heads south" (comment
    in [MakeDriveThrough]). *)

Inductive Axis := AXIS_X | AXIS_Y.
Inductive DiagDirection := DIAGDIR_NE | DIAGDIR_SE | DIAGDIR_SW | DIAGDIR_NW.
Inductive Direction :=
  DIR_N | DIR_NE | DIR_E | DIR_SE | DIR_S | DIR_SW | DIR_W | DIR_NW.

#[global] Instance Axis_eq_dec : EqDecision Axis.
Proof. solve_decision. Defined.
#[global] Instance DiagDirection_eq_dec : EqDecision DiagDirection.
Proof. solve_decision. Defined.
#[global] Instance Direction_eq_dec : EqDecision Direction.
Proof. solve_decision. Defined.

Definition AxisToDiagDir (a : Axis) : DiagDirection :=
  match a with AXIS_X => DIAGDIR_SW | AXIS_Y => DIAGDIR_SE end.

Definition DiagDirToDir (d : DiagDirection) : Direction :=
  match d with
  | DIAGDIR_NE => DIR_NE
  | DIAGDIR_SE => DIR_SE
  | DIAGDIR_SW => DIR_SW
  | DIAGDIR_NW => DIR_NW
  end.

Definition ReverseDir (d : Direction) : Direction :=
  match d with
  | DIR_N => DIR_S | DIR_NE => DIR_SW | DIR_E => DIR_W | DIR_SE => DIR_NW
  | DIR_S => DIR_N | DIR_SW => DIR_NE | DIR_W => DIR_E | DIR_NW => DIR_SE
  end.

(** * The map

    Modelled from the spec: the map accessors (map/road.h, map/station.h) are
    not among the sources.  A tile is the record of what the accessors used by
    roadstop.cpp read from it. *)

Inductive StationType :=
  STATION_RAIL | STATION_AIRPORT | STATION_TRUCK | STATION_BUS
| STATION_OILRIG | STATION_DOCK | STATION_BUOY | STATION_WAYPOINT.
Inductive RoadStopType := ROADSTOP_BUS | ROADSTOP_TRUCK.

#[global] Instance StationType_eq_dec : EqDecision StationType.
Proof. solve_decision. Defined.
#[global] Instance RoadStopType_eq_dec : EqDecision RoadStopType.
Proof. solve_decision. Defined.

Record MapTile := {
  tile_is_station : bool;
  tile_station_index : Z;
  tile_station_type : StationType;
  tile_drive_through : bool;
  tile_road_stop_axis : Axis;
}.

(** What [DoClearSquare] leaves behind: bare ground. *)
Definition clear_tile : MapTile :=
  {| tile_is_station := false; tile_station_index := 0;
     tile_station_type := STATION_RAIL; tile_drive_through := false;
     tile_road_stop_axis := AXIS_X |}.

(** * Vehicles

    Modelled from the spec: the vehicle model is an external collaborator; a
    vehicle exposes its type, whether it is a primary vehicle, its status
    flags, its road-vehicle state, its direction and its cached length. *)

Inductive VehicleType :=
  VEH_TRAIN | VEH_ROAD | VEH_SHIP | VEH_AIRCRAFT | VEH_EFFECT | VEH_DISASTER.

#[global] Instance VehicleType_eq_dec : EqDecision VehicleType.
Proof. solve_decision. Defined.

Record Vehicle := {
  v_type : VehicleType;
  v_IsPrimaryVehicle : bool;
  v_vehstatus : Z;
  v_state : Z;
  v_direction : Direction;
  v_cached_total_length : Z;
}.

Definition VS_CRASHED : Z := 128.
Definition RVSB_IN_ROAD_STOP : Z := 32.

(** * Road stops, platforms and the world *)

Abbreviation RoadStopPtr := nat (only parsing).
Abbreviation PlatformPtr := nat (only parsing).
Abbreviation VehiclePtr := nat (only parsing).

(** [RoadStop::Platform]: total length and the two occupancy totals.
    Modelled from the spec: the constructor (roadstop_base.h) yields a
    platform of length zero with zero occupancy. *)
Record Platform := {
  length : Z;
  occupied_east : Z;
  occupied_west : Z;
}.

Definition new_Platform_value : Platform :=
  {| length := 0; occupied_east := 0; occupied_west := 0 |}.

Record RoadStop := {
  xy : TileIndex;
  status : Z;
  platform : option PlatformPtr;
  next : option RoadStopPtr;
}.

Record Station := {
  bus_stops : option RoadStopPtr;
  truck_stops : option RoadStopPtr;
}.

Definition GetPrimaryRoadStop (st : Station) (type : RoadStopType)
  : option RoadStopPtr :=
  match type with
  | ROADSTOP_BUS => bus_stops st
  | ROADSTOP_TRUCK => truck_stops st
  end.

Record World := {
  MapSizeX : Z;
  MapSize : Z;
  map_tiles : TileIndex → MapTile;
  stations : Z → Station;
  stops : gmap RoadStopPtr RoadStop;
  platforms : gmap PlatformPtr Platform;
  vehicles_on_tile : TileIndex → list VehiclePtr;
  vehicles : VehiclePtr → Vehicle;
}.

(** Field updates. *)
Definition set_status (s : RoadStop) (v : Z) : RoadStop :=
  {| xy := xy s; status := v; platform := platform s; next := next s |}.
Definition set_platform (s : RoadStop) (p : option PlatformPtr) : RoadStop :=
  {| xy := xy s; status := status s; platform := p; next := next s |}.
Definition set_length (p : Platform) (v : Z) : Platform :=
  {| length := v; occupied_east := occupied_east p;
     occupied_west := occupied_west p |}.
Definition set_occupied_east (p : Platform) (v : Z) : Platform :=
  {| length := length p; occupied_east := v;
     occupied_west := occupied_west p |}.
Definition set_occupied_west (p : Platform) (v : Z) : Platform :=
  {| length := length p; occupied_east := occupied_east p;
     occupied_west := v |}.

Definition with_stops (w : World) (s : gmap RoadStopPtr RoadStop) : World :=
  {| MapSizeX := MapSizeX w; MapSize := MapSize w; map_tiles := map_tiles w;
     stations := stations w; stops := s; platforms := platforms w;
     vehicles_on_tile := vehicles_on_tile w; vehicles := vehicles w |}.
Definition with_platforms (w : World) (h : gmap PlatformPtr Platform) : World :=
  {| MapSizeX := MapSizeX w; MapSize := MapSize w; map_tiles := map_tiles w;
     stations := stations w; stops := stops w; platforms := h;
     vehicles_on_tile := vehicles_on_tile w; vehicles := vehicles w |}.
Definition with_map (w : World) (m : TileIndex → MapTile) : World :=
  {| MapSizeX := MapSizeX w; MapSize := MapSize w; map_tiles := m;
     stations := stations w; stops := stops w; platforms := platforms w;
     vehicles_on_tile := vehicles_on_tile w; vehicles := vehicles w |}.

(** ** Map accessors *)

Definition IsStationTile (w : World) (t : TileIndex) : bool :=
  tile_is_station (map_tiles w t).
Definition GetStationIndex (w : World) (t : TileIndex) : Z :=
  tile_station_index (map_tiles w t).
Definition GetStationType (w : World) (t : TileIndex) : StationType :=
  tile_station_type (map_tiles w t).
Definition IsDriveThroughStopTile (w : World) (t : TileIndex) : bool :=
  tile_drive_through (map_tiles w t).
Definition GetRoadStopAxis (w : World) (t : TileIndex) : Axis :=
  tile_road_stop_axis (map_tiles w t).
(** Modelled from the spec: the direction of a drive-through stop is "the
    run's canonical forward direction", the one of its axis. *)
Definition GetRoadStopDir (w : World) (t : TileIndex) : DiagDirection :=
  match GetRoadStopAxis w t with
  | AXIS_X => DIAGDIR_NE
  | AXIS_Y => DIAGDIR_SE
  end.
Definition GetRoadStopType (w : World) (t : TileIndex) : RoadStopType :=
  if decide (GetStationType w t = STATION_TRUCK) then ROADSTOP_TRUCK
  else ROADSTOP_BUS.

(** Modelled from the spec: map.h is not among the sources; the signed
    distance between a tile and its neighbour in a diagonal direction, a
    [TileIndexDiff] ([int32]). *)
Definition TileOffsByDiagDir (w : World) (d : DiagDirection) : Z :=
  to_int32
    match d with
    | DIAGDIR_NE => -1
    | DIAGDIR_SE => MapSizeX w
    | DIAGDIR_SW => 1
    | DIAGDIR_NW => - MapSizeX w
    end.

(** * The state-and-failure monad

    A computation either fails (a failed [assert], a null or dangling pointer
    dereference, a loop that leaves the map) or returns a value and the next
    world. *)

Definition M (A : Type) : Type := World → option (A * World).

Declare Scope M_scope.
Delimit Scope M_scope with M.
Bind Scope M_scope with M.

Definition M_ret {A} (a : A) : M A := λ w, Some (a, w).
Definition M_bind {A B} (m : M A) (f : A → M B) : M B := λ w,
  match m w with
  | Some (a, w') => f a w'
  | None => None
  end.

Notation "x ← y ; z" := (M_bind y (λ x, z))
  (at level 20, y at level 100, z at level 200, only parsing) : M_scope.
Notation "y ;; z" := (M_bind y (λ _, z))
  (at level 100, z at level 200, only parsing, right associativity) : M_scope.

Local Open Scope M_scope.

Definition fail {A} : M A := λ _, None.
Definition get_world : M World := λ w, Some (w, w).
Definition put_world (w : World) : M unit := λ _, Some (tt, w).
Definition assert (b : bool) : M unit := if b then M_ret tt else fail.
Definition lift_option {A} (o : option A) : M A :=
  λ w, match o with Some a => Some (a, w) | None => None end.

(** Dereferencing a possibly-null pointer. *)
Definition deref {A} (p : option A) : M A := lift_option p.

Definition load_stop (rs : RoadStopPtr) : M RoadStop :=
  w ← get_world; lift_option (stops w !! rs).
Definition store_stop (rs : RoadStopPtr) (s : RoadStop) : M unit :=
  w ← get_world;
  _ ← lift_option (stops w !! rs);
  put_world (with_stops w (<[rs := s]> (stops w))).

Definition load_platform (p : PlatformPtr) : M Platform :=
  w ← get_world; lift_option (platforms w !! p).
Definition store_platform (p : PlatformPtr) (v : Platform) : M unit :=
  w ← get_world;
  _ ← lift_option (platforms w !! p);
  put_world (with_platforms w (<[p := v]> (platforms w))).

(** [new Platform()] *)
Definition new_Platform : M PlatformPtr :=
  w ← get_world;
  let p := fresh (dom (platforms w)) in
  put_world (with_platforms w (<[p := new_Platform_value]> (platforms w)));;
  M_ret p.

(** [delete p] for a non-null [p]; deleting what is not allocated fails. *)
Definition delete_Platform (p : PlatformPtr) : M unit :=
  w ← get_world;
  _ ← lift_option (platforms w !! p);
  put_world (with_platforms w (delete p (platforms w))).

(** [DoClearSquare] *)
Definition DoClearSquare (t : TileIndex) : M unit :=
  w ← get_world;
  put_world (with_map w (λ t', if decide (t' = t) then clear_tile
                               else map_tiles w t')).

(** Statements on the fields of a road stop or of a platform. *)
Definition rs_platform (rs : option RoadStopPtr) : M (option PlatformPtr) :=
  r ← deref rs; s ← load_stop r; M_ret (platform s).
Definition rs_set_platform (rs : RoadStopPtr) (p : option PlatformPtr)
  : M unit :=
  s ← load_stop rs; store_stop rs (set_platform s p).
Definition rs_SetBit (rs : RoadStopPtr) (bit : Z) : M unit :=
  s ← load_stop rs; store_stop rs (set_status s (SetBit (status s) bit)).
Definition rs_ClrBit (rs : RoadStopPtr) (bit : Z) : M unit :=
  s ← load_stop rs; store_stop rs (set_status s (ClrBit (status s) bit)).

(** [rs->platform->f], the platform pointer being dereferenced. *)
Definition rs_platform_deref (rs : option RoadStopPtr) : M PlatformPtr :=
  p ← rs_platform rs; deref p.

(** * roadstop.cpp *)

(** [RoadStop::~RoadStop] *)
Definition RoadStop_destructor (this : RoadStopPtr) : M unit :=
  s ← load_stop this;
  if HasBit (status s) RSSFB_BASE_ENTRY then
    match platform s with
    | Some p => delete_Platform p
    | None => M_ret tt
    end
  else M_ret tt.

(** [RoadStop::IsDriveThroughRoadStopContinuation] *)
Definition IsDriveThroughRoadStopContinuation (w : World)
    (rs next : TileIndex) : bool :=
  IsStationTile w next &&
  bool_decide (GetStationIndex w next = GetStationIndex w rs) &&
  bool_decide (GetStationType w next = GetStationType w rs) &&
  IsDriveThroughStopTile w next &&
  bool_decide (GetRoadStopAxis w next = GetRoadStopAxis w rs).

Local Close Scope M_scope.

(** [RoadStop::GetByTile]: the walk along the [next] chain.  The fuel is the
    number of road stops of the pool: a walk that has not found the tile after
    that many steps is caught in a cycle and never returns. *)
Fixpoint GetByTile_walk (fuel : nat) (pool : gmap RoadStopPtr RoadStop)
    (tile : TileIndex) (rs : RoadStopPtr) : option RoadStopPtr :=
  match fuel with
  | O => None
  | S fuel' =>
      s ← pool !! rs;
      if bool_decide (xy s = tile) then Some rs
      else n ← next s; GetByTile_walk fuel' pool tile n
  end.

Definition GetByTile_in (w : World) (tile : TileIndex) (type : RoadStopType)
  : option RoadStopPtr :=
  rs ← GetPrimaryRoadStop (stations w (GetStationIndex w tile)) type;
  GetByTile_walk (size (stops w)) (stops w) tile rs.

Local Open Scope M_scope.

Definition GetByTile (tile : TileIndex) (type : RoadStopType)
  : M RoadStopPtr :=
  w ← get_world; lift_option (GetByTile_in w tile type).

(** The number of iterations granted to a loop that steps from tile to tile:
    a loop that needs more has walked through more tiles than the map has. *)
Definition map_fuel (w : World) : nat := S (Z.to_nat (MapSize w)).

(** [x += d] on an [int]. *)
Definition int_add (x d : Z) : Z := to_int32 (x + d).

(** [MakeDriveThrough], the loop "Make all 'children' of the southern tile
    take the new master"; it returns the final value of [added]. *)
Fixpoint MakeDriveThrough_join (fuel : nat) (this_xy : TileIndex)
    (rst : RoadStopType) (offset : Z) (rs_north : option RoadStopPtr)
    (south_tile : TileIndex) (added : Z) : M Z :=
  match fuel with
  | O => fail
  | S fuel' =>
      w ← get_world;
      if IsDriveThroughRoadStopContinuation w this_xy south_tile then
        rs_south ← GetByTile south_tile rst;
        p ← rs_platform (Some rs_south);
        if bool_decide (p = None) then M_ret added
        else
          np ← rs_platform rs_north;
          rs_set_platform rs_south np;;
          MakeDriveThrough_join fuel' this_xy rst offset rs_north
            (to_uint32 (south_tile + offset)) (int_add added 1)
      else M_ret added
  end.

(** [cond && rs->platform != NULL] *)
Definition has_platform (cond : bool) (rs : option RoadStopPtr) : M bool :=
  if cond then p ← rs_platform rs; M_ret (bool_decide (p ≠ None))
  else M_ret false.

(** [RoadStop::MakeDriveThrough] *)
Definition MakeDriveThrough (this : RoadStopPtr) : M unit :=
  s ← load_stop this;
  assert (bool_decide (platform s = None));;
  w ← get_world;
  let rst := GetRoadStopType w (xy s) in
  let offset := TileOffsByDiagDir w (AxisToDiagDir (GetRoadStopAxis w (xy s))) in
  (* Information about the tile north of us *)
  let north_tile := to_uint32 (xy s - offset) in
  let north := IsDriveThroughRoadStopContinuation w (xy s) north_tile in
  rs_north ← (if north then r ← GetByTile north_tile rst; M_ret (Some r)
              else M_ret None);
  (* Information about the tile south of us *)
  let south_tile := to_uint32 (xy s + offset) in
  let south := IsDriveThroughRoadStopContinuation w (xy s) south_tile in
  rs_south ← (if south then r ← GetByTile south_tile rst; M_ret (Some r)
              else M_ret None);
  c_north ← has_platform north rs_north;
  added ←
    (if (c_north : bool) return M Z then
       (* There is a more northern one, so this can join them *)
       np ← rs_platform rs_north;
       rs_set_platform this np;;
       c_south ← has_platform south rs_south;
       if (c_south : bool) then
         (* There more southern tiles too, they must 'join' us too *)
         r_south ← deref rs_south;
         rs_ClrBit r_south RSSFB_BASE_ENTRY;;
         tp ← rs_platform_deref (Some this);
         sp ← rs_platform_deref rs_south;
         sv ← load_platform sp; tv ← load_platform tp;
         store_platform tp
           (set_occupied_east tv
              (int_add (occupied_east tv) (occupied_east sv)));;
         sv ← load_platform sp; tv ← load_platform tp;
         store_platform tp
           (set_occupied_west tv
              (int_add (occupied_west tv) (occupied_west sv)));;
         (* Free the now unneeded entry structs *)
         delete_Platform sp;;
         MakeDriveThrough_join (map_fuel w) (xy s) rst offset rs_north
           south_tile 1
       else M_ret 1
     else
       c_south ← has_platform south rs_south;
       if (c_south : bool) then
         (* There is one to the south, but not to the north... *)
         sp ← rs_platform rs_south;
         rs_set_platform this sp;;
         rs_SetBit this RSSFB_BASE_ENTRY;;
         r_south ← deref rs_south;
         rs_ClrBit r_south RSSFB_BASE_ENTRY;;
         M_ret 1
       else
         (* We are the only... so we are automatically the master *)
         p ← new_Platform;
         rs_set_platform this (Some p);;
         rs_SetBit this RSSFB_BASE_ENTRY;;
         M_ret 1);
  (* Now update the lengths *)
  let added := to_int32 (added * TILE_SIZE) in
  tp ← rs_platform_deref (Some this);
  tv ← load_platform tp;
  store_platform tp (set_length tv (int_add (length tv) added)).

(** [ClearDriveThrough], the loop "Make all (even more) southern stops part
    of the new entry queue". *)
Fixpoint ClearDriveThrough_south (fuel : nat) (base_tile : TileIndex)
    (rst : RoadStopType) (offset : Z) (rs_south_base : RoadStopPtr)
    (south_tile : TileIndex) : M unit :=
  match fuel with
  | O => fail
  | S fuel' =>
      w ← get_world;
      if IsDriveThroughRoadStopContinuation w base_tile south_tile then
        rs_south ← GetByTile south_tile rst;
        bp ← rs_platform (Some rs_south_base);
        rs_set_platform rs_south bp;;
        ClearDriveThrough_south fuel' base_tile rst offset rs_south_base
          (to_uint32 (south_tile + offset))
      else M_ret tt
  end.

(** [ClearDriveThrough], the loop "Find the other end; the northern most
    tile"; it returns the final value of [rs_north]. *)
Fixpoint ClearDriveThrough_north (fuel : nat) (base_tile : TileIndex)
    (rst : RoadStopType) (offset : Z) (north_tile : TileIndex)
    (rs_north : option RoadStopPtr) : M (option RoadStopPtr) :=
  match fuel with
  | O => fail
  | S fuel' =>
      w ← get_world;
      if IsDriveThroughRoadStopContinuation w base_tile north_tile then
        r ← GetByTile north_tile rst;
        ClearDriveThrough_north fuel' base_tile rst offset
          (to_uint32 (north_tile - offset)) (Some r)
      else M_ret rs_north
  end.

(** ** [RoadStop::Platform::Rebuild] *)

Local Close Scope M_scope.

(** "Do not add duplicates!" *)
Definition RVList_add (rvlist : list VehiclePtr) (rv : VehiclePtr)
  : list VehiclePtr :=
  if bool_decide (rv ∈ rvlist) then rvlist else rvlist ++ [rv].

(** The body of the loop over the vehicles of one tile. *)
Definition Rebuild_vehicle (w : World) (dir_east : Direction)
    (lists : list VehiclePtr * list VehiclePtr) (v : VehiclePtr)
  : option (list VehiclePtr * list VehiclePtr) :=
  let veh := vehicles w v in
  (* Not a RV or not primary or crashed :( *)
  if bool_decide (v_type veh ≠ VEH_ROAD) || negb (v_IsPrimaryVehicle veh)
     || negb (Z.land (v_vehstatus veh) VS_CRASHED =? 0)
  then Some lists
  (* Don't add ones not in a road stop *)
  else if v_state veh <? RVSB_IN_ROAD_STOP then Some lists
  else if negb (bool_decide (v_direction veh = dir_east)
                || bool_decide (v_direction veh = ReverseDir dir_east))
  then None
  else if bool_decide (v_direction veh = dir_east)
  then Some (RVList_add lists.1 v, lists.2)
  else Some (lists.1, RVList_add lists.2 v).

Fixpoint Rebuild_tile (w : World) (dir_east : Direction)
    (lists : list VehiclePtr * list VehiclePtr) (vs : list VehiclePtr)
  : option (list VehiclePtr * list VehiclePtr) :=
  match vs with
  | [] => Some lists
  | v :: vs' =>
      lists' ← Rebuild_vehicle w dir_east lists v;
      Rebuild_tile w dir_east lists' vs'
  end.

(** The loop over the tiles of the platform. *)
Fixpoint Rebuild_scan (fuel : nat) (w : World) (tile : TileIndex)
    (offset : Z) (dir_east : Direction) (t : TileIndex) (len : Z)
    (lists : list VehiclePtr * list VehiclePtr)
  : option (Z * (list VehiclePtr * list VehiclePtr)) :=
  match fuel with
  | O => None
  | S fuel' =>
      if IsDriveThroughRoadStopContinuation w tile t then
        lists' ← Rebuild_tile w dir_east lists (vehicles_on_tile w t);
        Rebuild_scan fuel' w tile offset dir_east (to_uint32 (t + offset))
          (int_add len TILE_SIZE) lists'
      else Some (len, lists)
  end.

(** The loops that add up the cached total lengths of a list of vehicles,
    starting from zero. *)
Definition sum_lengths (w : World) (rvlist : list VehiclePtr) : Z :=
  fold_left (λ acc v, int_add acc (v_cached_total_length (vehicles w v)))
    rvlist 0.

(** [Platform::Rebuild] applied to the platform [this]; the result is the
    platform after the call. *)
Definition Platform_Rebuild (w : World) (this : Platform) (tile : TileIndex)
  : option Platform :=
  let dir := GetRoadStopDir w tile in
  let offset := Z.abs (TileOffsByDiagDir w dir) in
  let dir_east := DiagDirToDir dir in
  '(len, (list_east, list_west)) ←
    Rebuild_scan (map_fuel w) w tile offset dir_east tile 0 ([], []);
  let this := set_length this len in
  let this := set_occupied_east this (sum_lengths w list_east) in
  let this := set_occupied_west this (sum_lengths w list_west) in
  Some this.

Local Open Scope M_scope.

(** Modelled from the spec: [RoadStop::Rebuild] (roadstop_base.h) is not among
    the sources; it recomputes the platform of the stop "for the run anchored
    at" its own tile. *)
Definition RoadStop_Rebuild (this : RoadStopPtr) : M unit :=
  s ← load_stop this;
  p ← deref (platform s);
  v ← load_platform p;
  w ← get_world;
  v' ← lift_option (Platform_Rebuild w v (xy s));
  store_platform p v'.

(** [RoadStop::ClearDriveThrough] *)
Definition ClearDriveThrough (this : RoadStopPtr) : M unit :=
  s ← load_stop this;
  assert (bool_decide (platform s ≠ None));;
  w ← get_world;
  let rst := GetRoadStopType w (xy s) in
  let offset := TileOffsByDiagDir w (AxisToDiagDir (GetRoadStopAxis w (xy s))) in
  (* Information about the tile north of us *)
  let north_tile := to_uint32 (xy s - offset) in
  let north := IsDriveThroughRoadStopContinuation w (xy s) north_tile in
  rs_north ← (if north then r ← GetByTile north_tile rst; M_ret (Some r)
              else M_ret None);
  (* Information about the tile south of us *)
  let south_tile := to_uint32 (xy s + offset) in
  let south := IsDriveThroughRoadStopContinuation w (xy s) south_tile in
  rs_south ← (if south then r ← GetByTile south_tile rst; M_ret (Some r)
              else M_ret None);
  (* Must only be cleared after we determined which neighbours are
     part of our little entry 'queue' *)
  DoClearSquare (xy s);;
  (if north then
     if south then
       (* There are more southern tiles too, they must be split;
          first make the new southern 'base' *)
       r_south ← deref rs_south;
       rs_SetBit r_south RSSFB_BASE_ENTRY;;
       p ← new_Platform;
       rs_set_platform r_south (Some p);;
       (* Keep track of the base because we need it later on *)
       let rs_south_base := r_south in
       let base_tile := south_tile in
       w1 ← get_world;
       ClearDriveThrough_south (map_fuel w1) base_tile rst offset
         rs_south_base (to_uint32 (south_tile + offset));;
       (* Find the other end; the northern most tile *)
       rs_north ← ClearDriveThrough_north (map_fuel w1) base_tile rst offset
                    north_tile rs_north;
       RoadStop_Rebuild rs_south_base;;
       r_north ← deref rs_north;
       n ← load_stop r_north;
       assert (HasBit (status n) RSSFB_BASE_ENTRY);;
       RoadStop_Rebuild r_north
     else
       (* Only we left, so simple update the length. *)
       np ← rs_platform_deref rs_north;
       nv ← load_platform np;
       store_platform np (set_length nv (to_int32 (length nv - TILE_SIZE)))
   else if south then
     (* There is only something to the south. Hand over the base entry *)
     r_south ← deref rs_south;
     rs_SetBit r_south RSSFB_BASE_ENTRY;;
     sp ← rs_platform_deref rs_south;
     sv ← load_platform sp;
     store_platform sp (set_length sv (to_int32 (length sv - TILE_SIZE)))
   else
     (* We were the last *)
     tp ← rs_platform_deref (Some this);
     delete_Platform tp);;
  (* Make sure we don't get used for something 'incorrect' *)
  rs_ClrBit this RSSFB_BASE_ENTRY;;
  rs_set_platform this None.

(** [RoadStop::CheckIntegrity] *)
Definition CheckIntegrity (this : RoadStopPtr) : M unit :=
  s ← load_stop this;
  if negb (HasBit (status s) RSSFB_BASE_ENTRY) then M_ret tt
  else
    w ← get_world;
    (* The tile 'before' the road stop must not be part of this 'line' *)
    assert (negb (IsDriveThroughRoadStopContinuation w (xy s)
      (to_uint32 (xy s - TileOffsByDiagDir w
                           (AxisToDiagDir (GetRoadStopAxis w (xy s)))))));;
    temp ← lift_option (Platform_Rebuild w new_Platform_value (xy s));
    tp ← rs_platform_deref (Some this); tv ← load_platform tp;
    assert (bool_decide (length tv = length temp));;
    tp ← rs_platform_deref (Some this); tv ← load_platform tp;
    assert (bool_decide (occupied_east tv = occupied_east temp));;
    tp ← rs_platform_deref (Some this); tv ← load_platform tp;
    assert (bool_decide (occupied_west tv = occupied_west temp)).

Local Close Scope M_scope.

(** The values of an [int]. *)
Definition int_range (z : Z) : Prop := - 2 ^ 31 ≤ z < 2 ^ 31.

(** * Neighbours *)

(** The offset along the axis of the stop at [t], as computed at the start of
    [MakeDriveThrough] and [ClearDriveThrough], and the two neighbour tiles. *)
Definition stop_offset (w : World) (t : TileIndex) : Z :=
  TileOffsByDiagDir w (AxisToDiagDir (GetRoadStopAxis w t)).
Definition north_of (w : World) (t : TileIndex) : TileIndex :=
  to_uint32 (t - stop_offset w t).
Definition south_of (w : World) (t : TileIndex) : TileIndex :=
  to_uint32 (t + stop_offset w t).

(** The neighbour [tile] of the stop at [rs] offers no platform to join:
    either it does not continue the stop, or its road stop has a null
    platform. *)
Definition neighbour_free (w : World) (rs tile : TileIndex) : Prop :=
  IsDriveThroughRoadStopContinuation w rs tile = false ∨
  ∃ r n, IsDriveThroughRoadStopContinuation w rs tile = true ∧
         GetByTile_in w tile (GetRoadStopType w rs) = Some r ∧
         stops w !! r = Some n ∧ platform n = None.

(** The neighbour [tile] continues the stop at [rs]; its road stop is [r],
    which references the live platform [p] holding [v]. *)
Definition neighbour_platform (w : World) (rs tile : TileIndex)
    (r : RoadStopPtr) (n : RoadStop) (p : PlatformPtr) (v : Platform)
  : Prop :=
  IsDriveThroughRoadStopContinuation w rs tile = true ∧
  GetByTile_in w tile (GetRoadStopType w rs) = Some r ∧
  stops w !! r = Some n ∧ platform n = Some p ∧
  platforms w !! p = Some v.

(** The map once [DoClearSquare t] has run. *)
Definition cleared_map (w : World) (t : TileIndex) : TileIndex → MapTile :=
  λ t', if decide (t' = t) then clear_tile else map_tiles w t'.

(** * Runs and counted vehicles *)

(** The tiles of the run anchored at [tile], from [t] on: the tiles the loop
    of [Platform::Rebuild] visits. *)
Fixpoint run_tiles (fuel : nat) (w : World) (tile : TileIndex) (offset : Z)
    (t : TileIndex) : option (list TileIndex) :=
  match fuel with
  | O => None
  | S fuel' =>
      if IsDriveThroughRoadStopContinuation w tile t then
        run ← run_tiles fuel' w tile offset (to_uint32 (t + offset));
        Some (t :: run)
      else Some []
  end.

(** A vehicle that counts towards the occupancy of a platform: a primary
    road vehicle, not crashed, in a road stop. *)
Definition counted (w : World) (v : VehiclePtr) : bool :=
  let veh := vehicles w v in
  bool_decide (v_type veh = VEH_ROAD) && v_IsPrimaryVehicle veh
  && (Z.land (v_vehstatus veh) VS_CRASHED =? 0)
  && (RVSB_IN_ROAD_STOP <=? v_state veh).

(** [v] is a counted vehicle present on some tile of [run] and travelling
    in direction [dir]. *)
Definition parked_towards (w : World) (run : list TileIndex)
    (dir : Direction) (v : VehiclePtr) : Prop :=
  (∃ t, t ∈ run ∧ v ∈ vehicles_on_tile w t) ∧
  counted w v = true ∧ v_direction (vehicles w v) = dir.

(** The exact sum of the cached lengths of a list of vehicles. *)
Definition total_length (w : World) (vs : list VehiclePtr) : Z :=
  foldr (λ v acc, v_cached_total_length (vehicles w v) + acc) 0 vs.

(** The vehicles of the tiles of a run, in the order [Rebuild] meets them. *)
Definition run_vehicles (w : World) (run : list TileIndex)
  : list VehiclePtr :=
  concat (map (vehicles_on_tile w) run).

(** * Well-formed maps

    Station tiles keep away from the border of the map (the border tiles of a
    map cannot be built on), so that stepping one tile north or south of a
    stop stays inside the map; the map is small enough for the length of a
    platform to fit an [int]. *)
Definition wf_map (w : World) : Prop :=
  0 < MapSizeX w ∧ MapSizeX w ≤ MapSize w ∧ TILE_SIZE * MapSize w < 2 ^ 31 ∧
  ∀ t, IsStationTile w t = true → MapSizeX w ≤ t ∧ t + MapSizeX w < MapSize w.

(** [t] is a drive-through stop tile of a station. *)
Definition is_stop (w : World) (t : TileIndex) : bool :=
  IsStationTile w t && IsDriveThroughStopTile w t.

(** What [IsDriveThroughRoadStopContinuation] compares. *)
Definition line (w : World) (t : TileIndex) : Z * StationType * Axis :=
  (GetStationIndex w t, GetStationType w t, GetRoadStopAxis w t).

(** The road stop registered for the stop tile [t]. *)
Definition stop_ptr (w : World) (t : TileIndex) : option RoadStopPtr :=
  GetByTile_in w t (GetRoadStopType w t).
Definition stop_at (w : World) (t : TileIndex) : option RoadStop :=
  r ← stop_ptr w t; stops w !! r.
Definition tile_platform (w : World) (t : TileIndex) : option PlatformPtr :=
  s ← stop_at w t; platform s.
Definition tile_base (w : World) (t : TileIndex) : bool :=
  match stop_at w t with
  | Some s => HasBit (status s) RSSFB_BASE_ENTRY
  | None => false
  end.

(** The [i]-th tile south of [t0] along its axis. *)
Definition tile_nth (w : World) (t0 : TileIndex) (i : nat) : TileIndex :=
  t0 + Z.of_nat i * stop_offset w t0.

(** The tiles of a segment of [n] tiles starting at [t0]. *)
Definition segment (w : World) (t0 : TileIndex) (n : nat) : list TileIndex :=
  tile_nth w t0 <$> seq 0 n.

(** Two road stop pools with the same stops at the same tiles, linked the
    same way. *)
Definition same_chain (p1 p2 : gmap RoadStopPtr RoadStop) : Prop :=
  ∀ r, (λ s, (xy s, next s)) <$> p1 !! r = (λ s, (xy s, next s)) <$> p2 !! r.

(** Two worlds with the same map, stations and vehicles. *)
Definition same_env (w w' : World) : Prop :=
  MapSizeX w' = MapSizeX w ∧ MapSize w' = MapSize w ∧
  map_tiles w' = map_tiles w ∧ stations w' = stations w ∧
  vehicles_on_tile w' = vehicles_on_tile w ∧ vehicles w' = vehicles w.

(** The road stops [ptrs] are those of the tiles [tile], [tile + offset], ...
    which all continue the stop at [rs] and have a platform. *)
Definition joinable (w : World) (rs : TileIndex) (rst : RoadStopType)
    (offset : Z) (tile : TileIndex) (ptrs : list RoadStopPtr) : Prop :=
  ∀ i r, ptrs !! i = Some r →
    IsDriveThroughRoadStopContinuation w rs (tile + Z.of_nat i * offset) = true ∧
    GetByTile_in w (tile + Z.of_nat i * offset) rst = Some r ∧
    ∃ s, stops w !! r = Some s ∧ platform s ≠ None.

(** The road stops [ptrs] are those of the tiles [tile], [tile + offset], ...
    which all continue the stop at [rs]. *)
Definition walkable (w : World) (rs : TileIndex) (rst : RoadStopType)
    (offset : Z) (tile : TileIndex) (ptrs : list RoadStopPtr) : Prop :=
  ∀ i r, ptrs !! i = Some r →
    IsDriveThroughRoadStopContinuation w rs (tile + Z.of_nat i * offset) = true ∧
    GetByTile_in w (tile + Z.of_nat i * offset) rst = Some r.

(** The pool [st] once the platform pointer of each road stop of [ptrs] has
    been set to [p]. *)
Definition repointed (st st' : gmap RoadStopPtr RoadStop)
    (ptrs : list RoadStopPtr) (p : option PlatformPtr) : Prop :=
  ∀ r, st' !! r = if decide (r ∈ ptrs)
                  then (λ s, set_platform s p) <$> st !! r
                  else st !! r.

(** * Runs of attached stops and the invariant *)

(** A stop tile whose road stop has a platform. *)
Definition attached (w : World) (t : TileIndex) : bool :=
  is_stop w t && bool_decide (is_Some (tile_platform w t)).

(** [b] continues the stop at [a] and has a platform: what
    [MakeDriveThrough] tests for a neighbour before it joins it. *)
Definition acont (w : World) (a b : TileIndex) : bool :=
  IsDriveThroughRoadStopContinuation w a b &&
  bool_decide (is_Some (tile_platform w b)).

(** Every stop tile of the map has a platform (no stop is waiting for its
    [MakeDriveThrough]). *)
Definition no_pending (w : World) : Prop :=
  ∀ t, is_stop w t = true → is_Some (tile_platform w t).

(** The [n] tiles from [t0] on form a run: a maximal sequence of attached
    stops that continue one another along their axis. *)
Definition run_at (w : World) (t0 : TileIndex) (n : nat) : Prop :=
  (0 < n)%nat ∧ attached w t0 = true ∧
  (∀ i, (i < n)%nat → acont w t0 (tile_nth w t0 i) = true) ∧
  acont w t0 (t0 - stop_offset w t0) = false ∧
  acont w t0 (tile_nth w t0 n) = false.

(** All the stops of the run reference the platform [p]; the base bit is set
    on the first one and on no other. *)
Definition run_state (w : World) (t0 : TileIndex) (n : nat) (p : PlatformPtr)
  : Prop :=
  ∀ i, (i < n)%nat →
    tile_platform w (tile_nth w t0 i) = Some p ∧
    tile_base w (tile_nth w t0 i) = bool_decide (i = 0%nat).

(** The platform [p] is live and its length is that of [n] tiles. *)
Definition run_length (w : World) (n : nat) (p : PlatformPtr) : Prop :=
  ∃ v, platforms w !! p = Some v ∧ length v = TILE_SIZE * Z.of_nat n.

(** No stop outside the run references [p]. *)
Definition run_exclusive (w : World) (t0 : TileIndex) (n : nat)
    (p : PlatformPtr) : Prop :=
  ∀ t, is_stop w t = true → tile_platform w t = Some p →
       ∃ j, (j < n)%nat ∧ t = tile_nth w t0 j.

Definition good_run (w : World) (t0 : TileIndex) (n : nat) (p : PlatformPtr)
  : Prop :=
  run_at w t0 n ∧ run_state w t0 n p ∧ run_length w n p ∧
  run_exclusive w t0 n p.

(** The invariant of the platform manager. *)
Record Inv (w : World) : Prop := {
  inv_map : wf_map w;
  inv_registry : ∀ t, is_stop w t = true → is_Some (stop_at w t);
  inv_pending :
    ∀ t, is_stop w t = true → tile_platform w t = None → tile_base w t = false;
  inv_runs :
    ∀ t, attached w t = true →
         ∃ t0 n p i, good_run w t0 n p ∧ (i < n)%nat ∧ t = tile_nth w t0 i;
}.

(** ** What attaching a stop does, tile by tile

    [N] is the run that ends just north of the tile [x] (its first tile, its
    number of tiles, its platform), [S] the run that starts just south of it;
    [p] is the platform of the resulting run. *)
Definition north_case (w : World) (x : TileIndex)
    (N : option (TileIndex * nat * PlatformPtr)) : Prop :=
  match N with
  | None => acont w x (x - stop_offset w x) = false
  | Some (t0, n, p) =>
      good_run w t0 n p ∧ tile_nth w t0 n = x ∧ line w t0 = line w x
  end.

Definition south_case (w : World) (x : TileIndex)
    (S : option (nat * PlatformPtr)) : Prop :=
  match S with
  | None => acont w x (x + stop_offset w x) = false
  | Some (n, p) =>
      good_run w (x + stop_offset w x) n p ∧
      line w (x + stop_offset w x) = line w x
  end.

Definition north_head (x : TileIndex)
    (N : option (TileIndex * nat * PlatformPtr)) : TileIndex :=
  match N with Some (t0, _, _) => t0 | None => x end.
Definition north_count (N : option (TileIndex * nat * PlatformPtr)) : nat :=
  match N with Some (_, n, _) => n | None => 0 end.
Definition south_count (S : option (nat * PlatformPtr)) : nat :=
  match S with Some (n, _) => n | None => 0 end.

(** The occupancy totals of the platform of a neighbouring run. *)
Definition occupancy_of (w : World) (p : option PlatformPtr) : Z * Z :=
  match p ≫= (platforms w !!.) with
  | Some v => (occupied_east v, occupied_west v)
  | None => (0, 0)
  end.

Record attach_post (w : World) (x : TileIndex)
    (N : option (TileIndex * nat * PlatformPtr)) (S : option (nat * PlatformPtr))
    (p : PlatformPtr) (w' : World) : Prop := {
  ap_env : same_env w w';
  ap_platform :
    match N, S with
    | Some (_, _, pn), _ => p = pn
    | None, Some (_, ps) => p = ps
    | None, None => platforms w !! p = None
    end;
  ap_this : tile_platform w' x = Some p ∧
            tile_base w' x = bool_decide (N = None);
  ap_south : ∀ i, (i < south_count S)%nat →
    tile_platform w' (tile_nth w (x + stop_offset w x) i) = Some p ∧
    tile_base w' (tile_nth w (x + stop_offset w x) i) = false;
  ap_other : ∀ t, is_stop w t = true → t ≠ x →
    (∀ i, (i < south_count S)%nat → t ≠ tile_nth w (x + stop_offset w x) i) →
    stop_at w' t = stop_at w t;
  ap_length : ∃ v, platforms w' !! p = Some v ∧
    length v = TILE_SIZE * Z.of_nat (north_count N + 1 + south_count S) ∧
    (occupied_east v, occupied_west v) =
      match N, S with
      | Some (_, _, pn), Some (_, ps) =>
          (int_add (occupancy_of w (Some pn)).1 (occupancy_of w (Some ps)).1,
           int_add (occupancy_of w (Some pn)).2 (occupancy_of w (Some ps)).2)
      | Some (_, _, pn), None => occupancy_of w (Some pn)
      | None, Some (_, ps) => occupancy_of w (Some ps)
      | None, None => (0, 0)
      end;
  ap_heap : ∀ q, q ≠ p →
    match S with Some (_, ps) => q ≠ ps | None => True end →
    platforms w' !! q = platforms w !! q;
}.

(** The road stops registered for the tiles of a segment. *)
Definition segment_ptrs (w : World) (t0 : TileIndex) (n : nat)
  : list RoadStopPtr :=
  omap (stop_ptr w) (segment w t0 n).

(** A pending stop: a stop tile whose registered road stop is [this] and has
    no platform yet, as [MakeDriveThrough] expects it. *)
Definition pending_stop (w : World) (this : RoadStopPtr) (x : TileIndex)
  : Prop :=
  is_stop w x = true ∧ stop_ptr w x = Some this ∧ tile_platform w x = None.

(** An attached stop: a stop tile whose registered road stop is [this] and
    has a platform, as [ClearDriveThrough] expects it. *)
Definition attached_stop (w : World) (this : RoadStopPtr) (x : TileIndex)
  : Prop :=
  is_stop w x = true ∧ stop_ptr w x = Some this ∧
  is_Some (tile_platform w x).

(** ** Occupancy of a segment

    The totals [Platform::Rebuild] finds on the tiles [tiles], for a run of
    direction [dir]; [None] when its assertion on the directions fails. *)
Definition occupancy (w : World) (dir : DiagDirection)
    (tiles : list TileIndex) : option (Z * Z) :=
  '(list_east, list_west) ←
    Rebuild_tile w (DiagDirToDir dir) ([], []) (run_vehicles w tiles);
  Some (sum_lengths w list_east, sum_lengths w list_west).

(** The world [w'] has the map of [w] but for the tile [x], which is bare
    ground, and the same stations and vehicles. *)
Definition cleared_env (w : World) (x : TileIndex) (w' : World) : Prop :=
  MapSizeX w' = MapSizeX w ∧ MapSize w' = MapSize w ∧
  map_tiles w' = cleared_map w x ∧ stations w' = stations w ∧
  vehicles_on_tile w' = vehicles_on_tile w ∧ vehicles w' = vehicles w.

(** ** What detaching a stop does, tile by tile

    The tile [x] is the [k]-th tile (from 0) of the run of [n] tiles that
    starts at [t0] and has the platform [p]; [q] is the platform of the tiles
    south of [x] after the call. *)
Record detach_post (w : World) (x t0 : TileIndex) (n : nat) (p : PlatformPtr)
    (k : nat) (q : PlatformPtr) (w' : World) : Prop := {
  dp_env : cleared_env w x w';
  dp_platform :
    (k = 0%nat → q = p) ∧ ((0 < k)%nat → platforms w !! q = None);
  dp_south : ∀ j, (k < j < n)%nat →
    tile_platform w' (tile_nth w t0 j) = Some q ∧
    tile_base w' (tile_nth w t0 j) = bool_decide (j = S k);
  dp_other : ∀ t, is_stop w t = true → t ≠ x →
    (∀ j, (k < j < n)%nat → t ≠ tile_nth w t0 j) →
    stop_at w' t = stop_at w t;
  dp_north_length : (0 < k)%nat →
    ∃ v, platforms w' !! p = Some v ∧ length v = TILE_SIZE * Z.of_nat k ∧
         ((S k < n)%nat →
          occupancy w (GetRoadStopDir w t0) (segment w t0 k) =
            Some (occupied_east v, occupied_west v)) ∧
         (S k = n → (occupied_east v, occupied_west v) =
                      occupancy_of w (Some p));
  dp_south_length : (S k < n)%nat →
    ∃ v, platforms w' !! q = Some v ∧
         length v = TILE_SIZE * Z.of_nat (n - S k) ∧
         ((0 < k)%nat →
          occupancy w (GetRoadStopDir w t0)
            (segment w (tile_nth w t0 (S k)) (n - S k)) =
            Some (occupied_east v, occupied_west v)) ∧
         (k = 0%nat → (occupied_east v, occupied_west v) =
                        occupancy_of w (Some p));
  dp_heap : ∀ r, r ≠ p → r ≠ q → platforms w' !! r = platforms w !! r;
}.

(** * Occupancy against [Rebuild] *)

(** No counted vehicle stands on the tile [x]. *)
Definition no_counted_on (w : World) (x : TileIndex) : Prop :=
  ∀ v, v ∈ vehicles_on_tile w x → counted w v = false.

(** No counted vehicle stands on the tile [x], and none stands on both sides
    of it (a vehicle cannot straddle a tile it is not on). *)
Definition clear_of_vehicles (w : World) (x : TileIndex) : Prop :=
  no_counted_on w x ∧
  ∀ v t t', counted w v = true →
            v ∈ vehicles_on_tile w t → v ∈ vehicles_on_tile w t' →
            ¬ (t < x < t').

(** The totals of the platform [p] are those [Rebuild] finds on the run. *)
Definition run_integrity (w : World) (t0 : TileIndex) (n : nat)
    (p : PlatformPtr) : Prop :=
  ∃ v, platforms w !! p = Some v ∧
       occupancy w (GetRoadStopDir w t0) (segment w t0 n) =
         Some (occupied_east v, occupied_west v).

Definition Integrity (w : World) : Prop :=
  ∀ t0 n p, good_run w t0 n p → run_integrity w t0 n p.

(** Every counted vehicle on the tiles of the segment travels along the axis
    of the stop, one way or the other: what the assertion of [Rebuild]
    demands. *)
Definition directions_ok (w : World) (t0 : TileIndex) (n : nat) : Prop :=
  ∀ t v, t ∈ segment w t0 n → v ∈ vehicles_on_tile w t →
         counted w v = true →
         v_direction (vehicles w v) = DiagDirToDir (GetRoadStopDir w t0) ∨
         v_direction (vehicles w v) =
           ReverseDir (DiagDirToDir (GetRoadStopDir w t0)).

(** * Sequences of operations *)

(** Modelled from the spec: the builder of a stop (station_cmd.cpp, not among
    the sources) turns the tile [x] into a drive-through stop tile and
    registers for it a new road stop [this], which has no platform yet and
    whose base bit is clear; the stops that were there keep their platform
    and their base bit, and the platforms and the vehicles are left alone.
    [MakeDriveThrough] is called on the result ("invoked when a tile becomes
    a drive-through stop"). *)
Definition placed (w : World) (x : TileIndex) (this : RoadStopPtr)
    (w1 : World) : Prop :=
  wf_map w1 ∧ is_stop w x = false ∧
  MapSizeX w1 = MapSizeX w ∧ MapSize w1 = MapSize w ∧
  (∀ t, t ≠ x → map_tiles w1 t = map_tiles w t) ∧
  platforms w1 = platforms w ∧
  vehicles_on_tile w1 = vehicles_on_tile w ∧ vehicles w1 = vehicles w ∧
  is_stop w1 x = true ∧ stop_ptr w1 x = Some this ∧
  (∃ s, stops w1 !! this = Some s ∧ platform s = None ∧
        HasBit (status s) RSSFB_BASE_ENTRY = false) ∧
  (∀ t, is_stop w t = true →
        tile_platform w1 t = tile_platform w t ∧
        tile_base w1 t = tile_base w t).

(** Modelled from the spec: vehicles enter and leave the stops between two
    operations.  The bookkeeping that goes with it (roadstop_base.h, not
    among the sources) changes the occupancy totals of the platforms and
    nothing else, and keeps them equal to what [Rebuild] finds when they were
    so before ("incrementally maintained"). *)
Definition vehicles_moved (w w' : World) : Prop :=
  MapSizeX w' = MapSizeX w ∧ MapSize w' = MapSize w ∧
  map_tiles w' = map_tiles w ∧ stations w' = stations w ∧
  stops w' = stops w ∧
  (∀ p, (λ v, length v) <$> platforms w' !! p =
        (λ v, length v) <$> platforms w !! p) ∧
  (Integrity w → Integrity w').

(** The states an initial state without any drive-through stop leads to:
    stops are built and attached, attached stops are detached, vehicles move.
    [attach_ok] and [detach_ok] are what is asked of the tile an operation is
    applied to. *)
Inductive reachable (attach_ok detach_ok : World → TileIndex → Prop)
  : World → Prop :=
  | reach_init w :
      wf_map w → (∀ t, is_stop w t = false) →
      reachable attach_ok detach_ok w
  | reach_attach w w1 w' this x :
      reachable attach_ok detach_ok w →
      placed w x this w1 → attach_ok w1 x →
      MakeDriveThrough this w1 = Some (tt, w') →
      reachable attach_ok detach_ok w'
  | reach_detach w w' this x :
      reachable attach_ok detach_ok w →
      attached_stop w this x → detach_ok w x →
      ClearDriveThrough this w = Some (tt, w') →
      reachable attach_ok detach_ok w'
  | reach_vehicles w w' :
      reachable attach_ok detach_ok w →
      vehicles_moved w w' →
      reachable attach_ok detach_ok w'.

(** No condition on the vehicles. *)
Definition any_tile : World → TileIndex → Prop := λ _ _, True.

(** The [n] tiles from [t0] on are a run of the map: each continues the stop
    at [t0], and the tiles just before and just after do not. *)
Definition is_run (w : World) (t0 : TileIndex) (n : nat) : Prop :=
  (0 < n)%nat ∧
  (∀ i, (i < n)%nat →
        IsDriveThroughRoadStopContinuation w t0 (tile_nth w t0 i) = true) ∧
  IsDriveThroughRoadStopContinuation w t0 (t0 - stop_offset w t0) = false ∧
  IsDriveThroughRoadStopContinuation w t0 (tile_nth w t0 n) = false.

(** * Example worlds

    A map of 8 by 8 tiles; the stops are built on the tiles 9, 10 and 11,
    which follow one another along the X axis, for the bus stops of the
    station 0. *)
Definition ex_tile : MapTile :=
  {| tile_is_station := true; tile_station_index := 0;
     tile_station_type := STATION_BUS; tile_drive_through := true;
     tile_road_stop_axis := AXIS_X |}.

Definition ex_map (tiles : list TileIndex) : TileIndex → MapTile :=
  λ t, if decide (t ∈ tiles) then ex_tile else clear_tile.

(** A bus waiting in a stop, 8 units long. *)
Definition ex_vehicle (dir : Direction) : Vehicle :=
  {| v_type := VEH_ROAD; v_IsPrimaryVehicle := true; v_vehstatus := 0;
     v_state := RVSB_IN_ROAD_STOP; v_direction := dir;
     v_cached_total_length := 8 |}.

Definition ex_new_stop (t : TileIndex) : RoadStop :=
  {| xy := t; status := 3; platform := None; next := None |}.

Definition ex_link (n : RoadStopPtr) (s : RoadStop) : RoadStop :=
  {| xy := xy s; status := status s; platform := platform s;
     next := Some n |}.

(** The world once a stop has been built on [x], registered as [this] at the
    end of the list of the station, after [prev]; [tiles] are the stop tiles
    there were. *)
Definition ex_build (w : World) (tiles : list TileIndex) (x : TileIndex)
    (this : RoadStopPtr) (prev : option RoadStopPtr) : World :=
  {| MapSizeX := MapSizeX w; MapSize := MapSize w;
     map_tiles := ex_map (x :: tiles); stations := stations w;
     stops := <[this := ex_new_stop x]>
                (match prev with
                 | Some r => alter (ex_link this) r (stops w)
                 | None => stops w
                 end);
     platforms := platforms w;
     vehicles_on_tile := vehicles_on_tile w; vehicles := vehicles w |}.

Definition ex_run (m : M unit) (w : World) : World :=
  match m w with Some (_, w') => w' | None => w end.

Definition ex_w0 : World :=
  {| MapSizeX := 8; MapSize := 64; map_tiles := ex_map [];
     stations := λ _, {| bus_stops := Some 0%nat; truck_stops := None |};
     stops := ∅; platforms := ∅;
     vehicles_on_tile := λ _, []; vehicles := λ _, ex_vehicle DIR_NE |}.

(** Stops built and attached on 9, then 10, then 11. *)
Definition ex_w1a : World := ex_build ex_w0 [] 9 0%nat None.
Definition ex_w1 : World := ex_run (MakeDriveThrough 0%nat) ex_w1a.
Definition ex_w2a : World := ex_build ex_w1 [9] 10 1%nat (Some 0%nat).
Definition ex_w2 : World := ex_run (MakeDriveThrough 1%nat) ex_w2a.
Definition ex_w3a : World := ex_build ex_w2 [10; 9] 11 2%nat (Some 1%nat).
Definition ex_w3 : World := ex_run (MakeDriveThrough 2%nat) ex_w3a.

(** Stops built and attached on 9, then 11; a stop built on 10. *)
Definition ex_m2a : World := ex_build ex_w1 [9] 11 1%nat (Some 0%nat).
Definition ex_m2 : World := ex_run (MakeDriveThrough 1%nat) ex_m2a.
Definition ex_m3a : World := ex_build ex_m2 [11; 9] 10 2%nat (Some 1%nat).

(** A bus has entered the stop of the tile 10 of [ex_w2]; the stop of that
    tile is then detached. *)
Definition ex_v2 : World :=
  {| MapSizeX := MapSizeX ex_w2; MapSize := MapSize ex_w2;
     map_tiles := map_tiles ex_w2; stations := stations ex_w2;
     stops := stops ex_w2;
     platforms := <[0%nat := {| length := 32; occupied_east := 8;
                                occupied_west := 0 |}]> (platforms ex_w2);
     vehicles_on_tile := λ t, if decide (t = 10) then [0%nat] else [];
     vehicles := vehicles ex_w2 |}.
Definition ex_v1 : World := ex_run (ClearDriveThrough 1%nat) ex_v2.

(** The run of [ex_w3] with a bus on 9 and on 10 heading one way (the same
    bus, across the two tiles), and another on 11 heading the other way. *)
Definition ex_r3 : World :=
  {| MapSizeX := MapSizeX ex_w3; MapSize := MapSize ex_w3;
     map_tiles := map_tiles ex_w3; stations := stations ex_w3;
     stops := stops ex_w3; platforms := platforms ex_w3;
     vehicles_on_tile :=
       λ t, if decide (t = 9) then [0%nat]
            else if decide (t = 10) then [0%nat]
            else if decide (t = 11) then [1%nat] else [];
     vehicles := λ v, if decide (v = 0%nat) then ex_vehicle DIR_NE
                      else ex_vehicle DIR_SW |}.

(** The stop built on 10 between the two runs of [ex_m2], attached. *)
Definition ex_m3 : World := ex_run (MakeDriveThrough 2%nat) ex_m3a.

(** A stop built and attached on 10; a stop built on 9, north of it. *)
Definition ex_s1a : World := ex_build ex_w0 [] 10 0%nat None.
Definition ex_s1 : World := ex_run (MakeDriveThrough 0%nat) ex_s1a.
Definition ex_s2a : World := ex_build ex_s1 [10] 9 1%nat (Some 0%nat).

(** The stop of [ex_w1] detached; the stop of the tile 10 of [ex_w2]
    detached. *)
Definition ex_d1 : World := ex_run (ClearDriveThrough 0%nat) ex_w1.
Definition ex_d2 : World := ex_run (ClearDriveThrough 1%nat) ex_w2.

(** * Lists of road stops

    The road stops [l] follow one another in the pool: each but the last has
    the following one as its [next]. *)
Definition linked (pool : gmap RoadStopPtr RoadStop) (l : list RoadStopPtr)
  : Prop :=
  ∀ i a b, l !! i = Some a → l !! S i = Some b →
           ∃ s, pool !! a = Some s ∧ next s = Some b.

(** The road stop [r] is live and stands on [tile]. *)
Definition stop_on (pool : gmap RoadStopPtr RoadStop) (r : RoadStopPtr)
    (tile : TileIndex) : Prop :=
  ∃ s, pool !! r = Some s ∧ xy s = tile.

(** The road stop [r] is live and does not stand on [tile]. *)
Definition stop_off (pool : gmap RoadStopPtr RoadStop) (r : RoadStopPtr)
    (tile : TileIndex) : Prop :=
  ∃ s, pool !! r = Some s ∧ xy s ≠ tile.

(** An operation has left the map, the stations and the vehicles alone, and
    of the road stops it has changed neither which there are, nor their
    tile, nor their [next]. *)
Definition untouched (w w' : World) : Prop :=
  same_env w w' ∧ same_chain (stops w) (stops w').

(** An operation has allocated no platform: the platforms there are were
    there before. *)
Definition allocates_nothing (w w' : World) : Prop :=
  ∀ p, is_Some (platforms w' !! p) → is_Some (platforms w !! p).

(** Every call of [m] that returns relates the world it was called in to the
    one it leaves by [R]. *)
Definition maintains {A} (R : World → World → Prop) (m : M A) : Prop :=
  ∀ w a w', m w = Some (a, w') → R w w'.

(** The relations between worlds that hold across the statements that both
    operations are made of: they compose, and they hold across an
    assignment to the status or to the platform pointer of a road stop,
    across an assignment to a field of a platform, and across [delete]. *)
Class Frame (R : World → World → Prop) : Prop := {
  frame_refl w : R w w;
  frame_trans w1 w2 w3 : R w1 w2 → R w2 w3 → R w1 w3;
  frame_stop w r s s' :
    stops w !! r = Some s → xy s' = xy s → next s' = next s →
    R w (with_stops w (<[r := s']> (stops w)));
  frame_store w p v :
    is_Some (platforms w !! p) →
    R w (with_platforms w (<[p := v]> (platforms w)));
  frame_delete w p : R w (with_platforms w (delete p (platforms w)))
}.

(** No platform is lost: every allocated platform is the platform of the
    road stop of some stop tile. *)
Definition no_leak (w : World) : Prop :=
  ∀ q, is_Some (platforms w !! q) →
       ∃ t, is_stop w t = true ∧ tile_platform w t = Some q.
(** * Machine integers and status bits: basic facts *)

Lemma to_int32_id z : int_range z → to_int32 z = z.
Proof.
  unfold int_range, to_int32. intros Hz.
  rewrite Z.mod_small; lia.
Qed.

Lemma to_int32_range z : int_range (to_int32 z).
Proof.
  unfold int_range, to_int32.
  pose proof (Z.mod_pos_bound (z + 2 ^ 31) (2 ^ 32)). lia.
Qed.

Lemma to_int32_add_l a b : to_int32 (to_int32 a + b) = to_int32 (a + b).
Proof.
  unfold to_int32.
  replace ((a + 2 ^ 31) mod 2 ^ 32 - 2 ^ 31 + b + 2 ^ 31)
    with ((a + 2 ^ 31) mod 2 ^ 32 + b) by lia.
  rewrite Zplus_mod_idemp_l. do 2 f_equal. lia.
Qed.

Lemma to_int32_add_r a b : to_int32 (a + to_int32 b) = to_int32 (a + b).
Proof. rewrite Z.add_comm, to_int32_add_l. f_equal. lia. Qed.

Lemma to_int32_mod z : to_int32 z mod 2 ^ 32 = z mod 2 ^ 32.
Proof.
  unfold to_int32. rewrite Zminus_mod, Zmod_mod, <-Zminus_mod.
  f_equal. lia.
Qed.

Lemma to_int32_eqm a b : a mod 2 ^ 32 = b mod 2 ^ 32 → to_int32 a = to_int32 b.
Proof.
  intros H. unfold to_int32. f_equal.
  rewrite (Zplus_mod a), (Zplus_mod b). by rewrite H.
Qed.

Lemma to_int32_mul_l a b : to_int32 (to_int32 a * b) = to_int32 (a * b).
Proof.
  apply to_int32_eqm. rewrite Zmult_mod, to_int32_mod, <-Zmult_mod. done.
Qed.

Lemma to_uint32_id z : 0 ≤ z < 2 ^ 32 → to_uint32 z = z.
Proof. intros. unfold to_uint32. apply Z.mod_small. lia. Qed.

Lemma land_pow2 x n :
  0 ≤ n → Z.land x (Z.shiftl 1 n) = if Z.testbit x n then 2 ^ n else 0.
Proof.
  intros Hn. rewrite Z.shiftl_1_l. apply Z.bits_inj'. intros m Hm.
  rewrite Z.land_spec, Z.pow2_bits_eqb by lia.
  destruct (Z.eqb_spec n m) as [->|Hne].
  - destruct (Z.testbit x m); [|by rewrite Z.bits_0].
    by rewrite Z.pow2_bits_eqb, Z.eqb_refl by lia.
  - rewrite andb_false_r.
    destruct (Z.testbit x n); [|by rewrite Z.bits_0].
    rewrite Z.pow2_bits_eqb by lia. symmetry. by apply Z.eqb_neq.
Qed.

Lemma HasBit_testbit x n : 0 ≤ n → HasBit x n = Z.testbit x n.
Proof.
  intros Hn. unfold HasBit. rewrite land_pow2 by done.
  destruct (Z.testbit x n); [|done].
  apply negb_true_iff, Z.eqb_neq.
  pose proof (Z.pow_pos_nonneg 2 n). lia.
Qed.

Lemma HasBit_SetBit x : HasBit (SetBit x RSSFB_BASE_ENTRY) RSSFB_BASE_ENTRY = true.
Proof.
  unfold RSSFB_BASE_ENTRY. rewrite HasBit_testbit by lia.
  unfold SetBit, to_byte. rewrite Z.mod_pow2_bits_low by lia.
  rewrite Z.lor_spec, Z.shiftl_1_l, Z.pow2_bits_eqb by lia.
  apply orb_true_r.
Qed.

Lemma HasBit_ClrBit x : HasBit (ClrBit x RSSFB_BASE_ENTRY) RSSFB_BASE_ENTRY = false.
Proof.
  unfold RSSFB_BASE_ENTRY. rewrite HasBit_testbit by lia.
  unfold ClrBit, to_byte. rewrite Z.mod_pow2_bits_low by lia.
  rewrite Z.land_spec, Z.lnot_spec, Z.shiftl_1_l, Z.pow2_bits_eqb by lia.
  apply andb_false_r.
Qed.

(** * Running the monad *)

Lemma M_bind_Some {A B} (m : M A) (f : A → M B) w b w' :
  M_bind m f w = Some (b, w') ↔
  ∃ a w1, m w = Some (a, w1) ∧ f a w1 = Some (b, w').
Proof.
  unfold M_bind. split.
  - destruct (m w) as [[a w1]|]; [eauto|done].
  - intros (a & w1 & -> & Hf). done.
Qed.

Lemma M_bind_step {A B} (m : M A) (f : A → M B) w a w1 :
  m w = Some (a, w1) → M_bind m f w = f a w1.
Proof. unfold M_bind. by intros ->. Qed.

Lemma load_stop_Some rs w s w' :
  load_stop rs w = Some (s, w') ↔ stops w !! rs = Some s ∧ w' = w.
Proof.
  unfold load_stop, M_bind, get_world, lift_option.
  destruct (stops w !! rs); naive_solver.
Qed.

Lemma store_stop_Some rs s w u w' :
  store_stop rs s w = Some (u, w') ↔
  is_Some (stops w !! rs) ∧ w' = with_stops w (<[rs := s]> (stops w)).
Proof.
  unfold store_stop, M_bind, get_world, lift_option, put_world.
  destruct u. destruct (stops w !! rs); split; intros; destruct_and?;
    simplify_eq; eauto; by destruct (is_Some_None (A:=RoadStop)).
Qed.

Lemma load_platform_Some p w v w' :
  load_platform p w = Some (v, w') ↔ platforms w !! p = Some v ∧ w' = w.
Proof.
  unfold load_platform, M_bind, get_world, lift_option.
  destruct (platforms w !! p); naive_solver.
Qed.

Lemma rs_platform_Some rs w p w' :
  rs_platform rs w = Some (p, w') ↔
  ∃ r s, rs = Some r ∧ stops w !! r = Some s ∧ p = platform s ∧ w' = w.
Proof.
  unfold rs_platform, deref, lift_option. rewrite M_bind_Some. split.
  - intros (r & w1 & Hr & H). destruct rs; simplify_eq.
    apply M_bind_Some in H as (s & w2 & [Hs ->]%load_stop_Some & H).
    unfold M_ret in H. simplify_eq. eauto 10.
  - intros (r & s & -> & Hs & -> & ->). exists r, w. split; [done|].
    apply M_bind_Some. exists s, w. by rewrite load_stop_Some.
Qed.

Lemma rs_platform_deref_Some rs w p w' :
  rs_platform_deref rs w = Some (p, w') ↔
  ∃ r s, rs = Some r ∧ stops w !! r = Some s ∧ platform s = Some p ∧ w' = w.
Proof.
  unfold rs_platform_deref, deref, lift_option. rewrite M_bind_Some. split.
  - intros (o & w1 & (r & s & -> & Hs & -> & ->)%rs_platform_Some & H).
    destruct (platform s) eqn:E; simplify_eq. eauto 10.
  - intros (r & s & -> & Hs & Hp & ->). exists (Some p), w.
    rewrite rs_platform_Some. split; [|done]. exists r, s. by rewrite Hp.
Qed.

Lemma rs_set_platform_Some rs p w u w' :
  rs_set_platform rs p w = Some (u, w') ↔
  ∃ s, stops w !! rs = Some s ∧
       w' = with_stops w (<[rs := set_platform s p]> (stops w)).
Proof.
  unfold rs_set_platform. rewrite M_bind_Some. split.
  - intros (s & w1 & [Hs ->]%load_stop_Some & [_ ->]%store_stop_Some). eauto.
  - intros (s & Hs & ->). exists s, w. rewrite load_stop_Some, store_stop_Some.
    eauto.
Qed.

Lemma rs_ClrBit_Some rs bit w u w' :
  rs_ClrBit rs bit w = Some (u, w') ↔
  ∃ s, stops w !! rs = Some s ∧
       w' = with_stops w
              (<[rs := set_status s (ClrBit (status s) bit)]> (stops w)).
Proof.
  unfold rs_ClrBit. rewrite M_bind_Some. split.
  - intros (s & w1 & [Hs ->]%load_stop_Some & [_ ->]%store_stop_Some). eauto.
  - intros (s & Hs & ->). exists s, w. rewrite load_stop_Some, store_stop_Some.
    eauto.
Qed.

Lemma assert_Some b w u w' : assert b w = Some (u, w') ↔ b = true ∧ w' = w.
Proof.
  unfold assert, M_ret, fail. destruct b, u; naive_solver.
Qed.

Lemma lift_option_Some {A} (o : option A) w a w' :
  lift_option o w = Some (a, w') ↔ o = Some a ∧ w' = w.
Proof. unfold lift_option. destruct o; naive_solver. Qed.

Lemma get_world_Some w a w' : get_world w = Some (a, w') ↔ a = w ∧ w' = w.
Proof. unfold get_world. naive_solver. Qed.

Lemma store_platform_Some p v w u w' :
  store_platform p v w = Some (u, w') ↔
  is_Some (platforms w !! p) ∧
  w' = with_platforms w (<[p := v]> (platforms w)).
Proof.
  unfold store_platform, M_bind, get_world, lift_option, put_world.
  destruct u. destruct (platforms w !! p) eqn:E; split; intros;
    destruct_and?; simplify_eq; eauto.
  by destruct (is_Some_None (A:=Platform)).
Qed.

Lemma delete_Platform_Some p w u w' :
  delete_Platform p w = Some (u, w') ↔
  is_Some (platforms w !! p) ∧
  w' = with_platforms w (delete p (platforms w)).
Proof.
  unfold delete_Platform, M_bind, get_world, lift_option, put_world.
  destruct u. destruct (platforms w !! p) eqn:E; split; intros;
    destruct_and?; simplify_eq; eauto.
  by destruct (is_Some_None (A:=Platform)).
Qed.

Lemma world_eta w :
  with_stops w (stops w) = w ∧ with_platforms w (platforms w) = w.
Proof. by destruct w. Qed.

(** * The destructor *)

(** C10: destroying a road stop that references a live platform deletes
    that platform exactly when the base bit of the stop is set; when the bit
    is clear nothing at all changes. *)
Theorem destructor_deletes_platform_iff_base w this s p v :
  stops w !! this = Some s →
  platform s = Some p →
  platforms w !! p = Some v →
  ∃ w', RoadStop_destructor this w = Some (tt, w') ∧
        stops w' = stops w ∧
        (HasBit (status s) RSSFB_BASE_ENTRY = true →
         platforms w' = delete p (platforms w)) ∧
        (HasBit (status s) RSSFB_BASE_ENTRY = false → w' = w) ∧
        (platforms w' !! p = None ↔
         HasBit (status s) RSSFB_BASE_ENTRY = true).
Proof.
  intros Hs Hp Hv. unfold RoadStop_destructor.
  rewrite (M_bind_step _ _ w s w) by by apply load_stop_Some.
  rewrite Hp. destruct (HasBit (status s) RSSFB_BASE_ENTRY) eqn:Hb.
  - exists (with_platforms w (delete p (platforms w))). split_and!; try done.
    + apply delete_Platform_Some. eauto.
    + split; [done|]. intros _. apply lookup_delete_eq.
  - exists w. split_and!; try done. split; [|done]. cbn. congruence.
Qed.

(** * The integrity check *)

(** C9: [CheckIntegrity] only reads: whenever it returns, the world (every
    road stop, every platform) is the one it was called in. *)
Theorem CheckIntegrity_leaves_state_unchanged w this u w' :
  CheckIntegrity this w = Some (u, w') → w' = w.
Proof.
  unfold CheckIntegrity. intros H.
  apply M_bind_Some in H as (s & w1 & [Hs ->]%load_stop_Some & H).
  destruct (HasBit (status s) RSSFB_BASE_ENTRY); cbn [negb] in H.
  2:{ unfold M_ret in H. by simplify_eq. }
  repeat match goal with
  | H : M_bind _ _ _ = Some _ |- _ =>
      apply M_bind_Some in H as (? & ? & ? & H)
  | H : get_world _ = Some _ |- _ => apply get_world_Some in H as [-> ->]
  | H : assert _ _ = Some _ |- _ => apply assert_Some in H as [? ->]
  | H : lift_option _ _ = Some _ |- _ => apply lift_option_Some in H as [? ->]
  | H : rs_platform_deref _ _ = Some _ |- _ =>
      apply rs_platform_deref_Some in H as (? & ? & ? & ? & ? & ->)
  | H : load_platform _ _ = Some _ |- _ =>
      apply load_platform_Some in H as [? ->]
  end.
  done.
Qed.

(** * Detaching: the final statements *)

(** Whenever [ClearDriveThrough] returns (it was then called on a stop with a
    non-null platform), whichever of the four neighbour cases applied, the
    detached stop has its base bit cleared and its platform pointer null. *)
Lemma ClearDriveThrough_clears_this_post w this u w' :
  ClearDriveThrough this w = Some (u, w') →
  ∃ s s', stops w !! this = Some s ∧ platform s ≠ None ∧
          stops w' !! this = Some s' ∧
          HasBit (status s') RSSFB_BASE_ENTRY = false ∧
          platform s' = None.
Proof.
  unfold ClearDriveThrough. intros H.
  apply M_bind_Some in H as (s & w1 & [Hs ->]%load_stop_Some & H).
  apply M_bind_Some in H as (? & w1 & [Hp ->]%assert_Some & H).
  apply bool_decide_eq_true in Hp.
  apply M_bind_Some in H as (w0 & w1 & [-> ->]%get_world_Some & H).
  do 4 apply M_bind_Some in H as (? & ? & _ & H).
  apply M_bind_Some in H as (? & w5 & (s5 & Hs5 & ->)%rs_ClrBit_Some & H).
  apply rs_set_platform_Some in H as (s6 & Hs6 & ->).
  cbn in Hs6. rewrite lookup_insert_eq in Hs6. simplify_eq.
  exists s, (set_platform (set_status s5 (ClrBit (status s5) RSSFB_BASE_ENTRY))
               None).
  split_and!; try done.
  - cbn. by rewrite lookup_insert_eq.
  - cbn. apply HasBit_ClrBit.
Qed.

(** * Symbolic execution of the operations *)

Ltac mcbv :=
  cbv beta iota zeta delta
    [M_bind M_ret get_world put_world lift_option deref assert fail
     load_stop store_stop load_platform store_platform new_Platform
     delete_Platform DoClearSquare rs_platform rs_set_platform rs_SetBit
     rs_ClrBit rs_platform_deref has_platform GetByTile];
  cbn [stops platforms map_tiles stations MapSizeX MapSize vehicles_on_tile
       vehicles with_stops with_platforms with_map xy status platform next
       set_status set_platform length occupied_east occupied_west set_length
       set_occupied_east set_occupied_west new_Platform_value].

Ltac mcbv_in H :=
  cbv beta iota zeta delta
    [M_bind M_ret get_world put_world lift_option deref assert fail
     load_stop store_stop load_platform store_platform new_Platform
     delete_Platform DoClearSquare rs_platform rs_set_platform rs_SetBit
     rs_ClrBit rs_platform_deref has_platform GetByTile] in H;
  cbn [stops platforms map_tiles stations MapSizeX MapSize vehicles_on_tile
       vehicles with_stops with_platforms with_map xy status platform next
       set_status set_platform length occupied_east occupied_west set_length
       set_occupied_east set_occupied_west new_Platform_value] in H.

Lemma World_ext w1 w2 :
  MapSizeX w1 = MapSizeX w2 → MapSize w1 = MapSize w2 →
  map_tiles w1 = map_tiles w2 → stations w1 = stations w2 →
  stops w1 = stops w2 → platforms w1 = platforms w2 →
  vehicles_on_tile w1 = vehicles_on_tile w2 → vehicles w1 = vehicles w2 →
  w1 = w2.
Proof. destruct w1, w2; cbn; congruence. Qed.

Ltac world_ext :=
  apply World_ext;
  cbn [stops platforms map_tiles stations MapSizeX MapSize vehicles_on_tile
       vehicles with_stops with_platforms with_map]; try done.

Lemma fresh_platform_None w : platforms w !! fresh (dom (platforms w)) = None.
Proof. apply not_elem_of_dom, is_fresh. Qed.

Lemma to_int32_tile_size : to_int32 (1 * TILE_SIZE) = 16.
Proof. reflexivity. Qed.

Lemma int_add_0_16 : int_add 0 16 = 16.
Proof. reflexivity. Qed.

Ltac msimpl :=
  repeat first
    [ progress mcbv
    | rewrite lookup_insert_eq
    | rewrite lookup_insert_ne by (done || congruence)
    | rewrite bool_decide_eq_true_2 by (done || congruence)
    | rewrite bool_decide_eq_false_2 by (done || congruence)
    | match goal with H : ?a = _ |- context [?a] => rewrite H end ].

Lemma MakeDriveThrough_alone_eq w this s :
  stops w !! this = Some s →
  platform s = None →
  neighbour_free w (xy s) (north_of w (xy s)) →
  neighbour_free w (xy s) (south_of w (xy s)) →
  let p := fresh (dom (platforms w)) in
  platforms w !! p = None ∧
  MakeDriveThrough this w =
    Some (tt,
          with_platforms
            (with_stops w
               (<[this := {| xy := xy s;
                             status := SetBit (status s) RSSFB_BASE_ENTRY;
                             platform := Some p; next := next s |}]>
                  (stops w)))
            (<[p := {| length := TILE_SIZE; occupied_east := 0;
                       occupied_west := 0 |}]> (platforms w))).
Proof.
  intros Hs Hp Hn Hso p. pose proof (fresh_platform_None w) as Hfresh.
  split; [done|].
  unfold MakeDriveThrough, north_of, south_of, stop_offset in *.
  destruct Hn as [Hn|(rn & sn & Hn & Hrn & Hsn & Hpn)];
    destruct Hso as [Hso|(rso & sso & Hso & Hrso & Hsso & Hpso)];
    msimpl; subst p; rewrite to_int32_tile_size, int_add_0_16;
    do 2 f_equal; world_ext; by rewrite ?insert_insert_eq.
Qed.

(** C6: a stop none of whose two neighbours offers a platform gets exactly
    one brand-new platform (a pointer that was not allocated before), has its
    base bit set, and the new platform has the length of one tile and no
    occupancy; nothing else changes. *)
Theorem MakeDriveThrough_alone w this s :
  stops w !! this = Some s →
  platform s = None →
  neighbour_free w (xy s) (north_of w (xy s)) →
  neighbour_free w (xy s) (south_of w (xy s)) →
  let p := fresh (dom (platforms w)) in
  platforms w !! p = None ∧
  MakeDriveThrough this w =
    Some (tt,
          with_platforms
            (with_stops w
               (<[this := {| xy := xy s;
                             status := SetBit (status s) RSSFB_BASE_ENTRY;
                             platform := Some p; next := next s |}]>
                  (stops w)))
            (<[p := {| length := TILE_SIZE; occupied_east := 0;
                       occupied_west := 0 |}]> (platforms w))).
Proof. apply MakeDriveThrough_alone_eq. Qed.

(** * Detaching at an end of a run *)

Lemma ClearDriveThrough_one_side_eq w this s r n p v :
  stops w !! this = Some s →
  platform s ≠ None →
  let north := IsDriveThroughRoadStopContinuation w (xy s) (north_of w (xy s)) in
  let south := IsDriveThroughRoadStopContinuation w (xy s) (south_of w (xy s)) in
  north = negb south →
  neighbour_platform w (xy s)
    (if north then north_of w (xy s) else south_of w (xy s)) r n p v →
  r ≠ this →
  int_range (length v - TILE_SIZE) →
  ClearDriveThrough this w =
    Some (tt,
      with_platforms
        (with_stops (with_map w (cleared_map w (xy s)))
           (<[this := {| xy := xy s;
                         status := ClrBit (status s) RSSFB_BASE_ENTRY;
                         platform := None; next := next s |}]>
              (if south
               then <[r := set_status n (SetBit (status n) RSSFB_BASE_ENTRY)]>
                      (stops w)
               else stops w)))
        (<[p := {| length := length v - TILE_SIZE;
                   occupied_east := occupied_east v;
                   occupied_west := occupied_west v |}]> (platforms w))).
Proof.
  intros Hs Hp north south Hns (Hc & Hr & Hn & Hnp & Hv) Hne Hlen.
  unfold ClearDriveThrough, cleared_map.
  subst north south. unfold north_of, south_of, stop_offset in *.
  destruct (platform s) as [tp|] eqn:Htp; [clear Hp|done].
  match type of Hns with _ = negb ?c => destruct c eqn:Hsouth end;
    cbn [negb] in Hns; rewrite Hns in *.
  - msimpl. rewrite (to_int32_id _ Hlen).
    do 2 f_equal. world_ext. by rewrite insert_insert_eq.
  - msimpl. rewrite (to_int32_id _ Hlen).
    do 2 f_equal. world_ext. by rewrite insert_insert_eq.
Qed.

(** C7: when exactly one of the two neighbours continues the stop,
    [ClearDriveThrough] keeps the neighbour's platform object, takes one tile
    off its length and leaves its two occupancy totals alone; the only road
    stops written are the detached one and, when the continuation is on the
    south side, the south neighbour, whose base bit is set; with the
    continuation on the north side no other road stop changes at all. *)
Theorem ClearDriveThrough_one_side w this s r n p v :
  stops w !! this = Some s →
  platform s ≠ None →
  let north := IsDriveThroughRoadStopContinuation w (xy s) (north_of w (xy s)) in
  let south := IsDriveThroughRoadStopContinuation w (xy s) (south_of w (xy s)) in
  north = negb south →
  neighbour_platform w (xy s)
    (if north then north_of w (xy s) else south_of w (xy s)) r n p v →
  r ≠ this →
  int_range (length v - TILE_SIZE) →
  ClearDriveThrough this w =
    Some (tt,
      with_platforms
        (with_stops (with_map w (cleared_map w (xy s)))
           (<[this := {| xy := xy s;
                         status := ClrBit (status s) RSSFB_BASE_ENTRY;
                         platform := None; next := next s |}]>
              (if south
               then <[r := set_status n (SetBit (status n) RSSFB_BASE_ENTRY)]>
                      (stops w)
               else stops w)))
        (<[p := {| length := length v - TILE_SIZE;
                   occupied_east := occupied_east v;
                   occupied_west := occupied_west v |}]> (platforms w))).
Proof. apply ClearDriveThrough_one_side_eq. Qed.

(** * Rebuild *)

Lemma ReverseDir_ne d : ReverseDir d ≠ d.
Proof. by destruct d. Qed.

Lemma Rebuild_tile_app w de lists vs1 vs2 :
  Rebuild_tile w de lists (vs1 ++ vs2) =
  lists' ← Rebuild_tile w de lists vs1; Rebuild_tile w de lists' vs2.
Proof.
  revert lists. induction vs1 as [|v vs1 IH]; intros lists; [done|].
  cbn. destruct (Rebuild_vehicle w de lists v); cbn; [apply IH|done].
Qed.

Lemma Rebuild_vehicle_not_counted w de lists v :
  counted w v = false → Rebuild_vehicle w de lists v = Some lists.
Proof.
  unfold counted, Rebuild_vehicle. intros H.
  destruct (decide (v_type (vehicles w v) = VEH_ROAD)) as [Ht|Ht].
  2:{ by rewrite (bool_decide_eq_true_2 _ Ht). }
  rewrite (bool_decide_eq_true_2 _ Ht) in H.
  rewrite bool_decide_eq_false_2 by (by intros []).
  cbn [orb] in *. destruct (v_IsPrimaryVehicle (vehicles w v)); [|done].
  cbn [negb orb andb] in *.
  destruct (Z.land (v_vehstatus (vehicles w v)) VS_CRASHED =? 0); [|done].
  cbn [negb andb] in *. rewrite Z.ltb_antisym, H. done.
Qed.

Lemma Rebuild_vehicle_counted w de lists v :
  counted w v = true →
  Rebuild_vehicle w de lists v =
    if bool_decide (v_direction (vehicles w v) = de)
    then Some (RVList_add lists.1 v, lists.2)
    else if bool_decide (v_direction (vehicles w v) = ReverseDir de)
    then Some (lists.1, RVList_add lists.2 v)
    else None.
Proof.
  unfold counted, Rebuild_vehicle. intros H.
  apply andb_true_iff in H as [H H4]. apply andb_true_iff in H as [H H3].
  apply andb_true_iff in H as [H1 H2].
  apply bool_decide_eq_true in H1.
  rewrite bool_decide_eq_false_2 by (by intros []).
  rewrite H2, H3. cbn [negb orb]. rewrite Z.ltb_antisym, H4. cbn [negb].
  by destruct (bool_decide (v_direction (vehicles w v) = de)),
    (bool_decide (v_direction (vehicles w v) = ReverseDir de)).
Qed.

Lemma elem_of_RVList_add l v x : x ∈ RVList_add l v ↔ x ∈ l ∨ x = v.
Proof.
  unfold RVList_add. case_bool_decide.
  - naive_solver.
  - rewrite elem_of_app, list_elem_of_singleton. done.
Qed.

Lemma NoDup_RVList_add l v : NoDup l → NoDup (RVList_add l v).
Proof.
  unfold RVList_add. intros Hl. case_bool_decide; [done|].
  apply NoDup_app. split_and!; [done| |apply NoDup_singleton].
  intros x Hx ->%list_elem_of_singleton. done.
Qed.

(** The lists built while scanning the vehicles [vs]: they stay free of
    duplicates and gain exactly the counted vehicles of [vs], each on the
    side of its direction. *)
Lemma Rebuild_tile_spec w de vs : ∀ le0 lw0,
  NoDup le0 → NoDup lw0 →
  (∀ v, v ∈ vs → counted w v = true →
        v_direction (vehicles w v) = de ∨
        v_direction (vehicles w v) = ReverseDir de) →
  ∃ le lw,
    Rebuild_tile w de (le0, lw0) vs = Some (le, lw) ∧
    NoDup le ∧ NoDup lw ∧
    (∀ v, v ∈ le ↔ v ∈ le0 ∨ (v ∈ vs ∧ counted w v = true ∧
                               v_direction (vehicles w v) = de)) ∧
    (∀ v, v ∈ lw ↔ v ∈ lw0 ∨ (v ∈ vs ∧ counted w v = true ∧
                               v_direction (vehicles w v) = ReverseDir de)).
Proof.
  induction vs as [|x vs IH]; intros le0 lw0 He Hw Hdir.
  - exists le0, lw0. split_and!; try done.
    + intros v. rewrite elem_of_nil. naive_solver.
    + intros v. rewrite elem_of_nil. naive_solver.
  - cbn [Rebuild_tile]. destruct (counted w x) eqn:Hc.
    + rewrite (Rebuild_vehicle_counted _ _ _ _ Hc). cbn [fst snd].
      destruct (Hdir x) as [Hx|Hx]; [left|done| |].
      * rewrite (bool_decide_eq_true_2 _ Hx). cbn.
        destruct (IH (RVList_add le0 x) lw0) as (le & lw & -> & ? & ? & Hle & Hlw);
          [by apply NoDup_RVList_add|done|by intros; apply Hdir; [right|]|].
        exists le, lw. split_and!; try done.
        -- intros v. rewrite Hle, elem_of_RVList_add, elem_of_cons.
           naive_solver.
        -- intros v. rewrite Hlw, elem_of_cons. split; [naive_solver|].
           intros [?|([->|?] & ? & Hv)]; [by left| |naive_solver].
           rewrite Hx in Hv. by destruct (ReverseDir_ne de).
      * rewrite bool_decide_eq_false_2
          by (rewrite Hx; apply ReverseDir_ne).
        rewrite (bool_decide_eq_true_2 _ Hx). cbn.
        destruct (IH le0 (RVList_add lw0 x)) as (le & lw & -> & ? & ? & Hle & Hlw);
          [done|by apply NoDup_RVList_add|by intros; apply Hdir; [right|]|].
        exists le, lw. split_and!; try done.
        -- intros v. rewrite Hle, elem_of_cons. split; [naive_solver|].
           intros [?|([->|?] & ? & Hv)]; [by left| |naive_solver].
           rewrite Hx in Hv. by destruct (ReverseDir_ne de).
        -- intros v. rewrite Hlw, elem_of_RVList_add, elem_of_cons.
           naive_solver.
    + rewrite (Rebuild_vehicle_not_counted _ _ _ _ Hc). cbn.
      destruct (IH le0 lw0) as (le & lw & -> & ? & ? & Hle & Hlw);
        [done|done|by intros; apply Hdir; [right|]|].
      exists le, lw. split_and!; try done.
      * intros v. rewrite Hle, elem_of_cons. split; [naive_solver|].
        intros [?|([->|?] & ? & ?)]; [by left|congruence|naive_solver].
      * intros v. rewrite Hlw, elem_of_cons. split; [naive_solver|].
        intros [?|([->|?] & ? & ?)]; [by left|congruence|naive_solver].
Qed.

Lemma Rebuild_scan_spec w tile off de : ∀ fuel t len lists run,
  run_tiles fuel w tile off t = Some run →
  Rebuild_scan fuel w tile off de t len lists =
    lists' ← Rebuild_tile w de lists (run_vehicles w run);
    Some (fold_left (λ l _, int_add l TILE_SIZE) run len, lists').
Proof.
  induction fuel as [|fuel IH]; intros t len lists run Hrun; [done|].
  cbn [run_tiles Rebuild_scan] in *.
  destruct (IsDriveThroughRoadStopContinuation w tile t).
  - destruct (run_tiles fuel w tile off (to_uint32 (t + off))) as [run'|] eqn:E;
      cbn in Hrun; simplify_eq.
    unfold run_vehicles. cbn [map concat]. rewrite Rebuild_tile_app.
    destruct (Rebuild_tile w de lists (vehicles_on_tile w t)) as [lists'|];
      [|done].
    cbn. by rewrite (IH _ _ _ _ E).
  - by simplify_eq.
Qed.

Lemma fold_int_add_length {A} (l : list A) len :
  int_range len →
  fold_left (λ l _, int_add l TILE_SIZE) l len =
  to_int32 (len + TILE_SIZE * Z.of_nat (Datatypes.length l)).
Proof.
  revert len. induction l as [|x l IH]; intros len Hlen.
  - cbn. rewrite Z.mul_0_r, Z.add_0_r. by rewrite to_int32_id.
  - cbn [fold_left Datatypes.length]. rewrite IH by apply to_int32_range.
    unfold int_add. rewrite to_int32_add_l. f_equal.
    rewrite Nat2Z.inj_succ. unfold TILE_SIZE. lia.
Qed.

Lemma sum_lengths_acc w l acc :
  int_range acc →
  fold_left (λ acc v, int_add acc (v_cached_total_length (vehicles w v))) l acc
  = to_int32 (acc + total_length w l).
Proof.
  revert acc. induction l as [|x l IH]; intros acc Hacc.
  - cbn. by rewrite Z.add_0_r, to_int32_id.
  - cbn [fold_left]. rewrite IH by apply to_int32_range.
    unfold int_add. rewrite to_int32_add_l. f_equal.
    change (total_length w (x :: l))
      with (v_cached_total_length (vehicles w x) + total_length w l).
    lia.
Qed.

Lemma sum_lengths_total w l : sum_lengths w l = to_int32 (total_length w l).
Proof. unfold sum_lengths. by rewrite sum_lengths_acc. Qed.

Lemma total_length_Permutation w l1 l2 :
  l1 ≡ₚ l2 → total_length w l1 = total_length w l2.
Proof.
  induction 1 as [|x l1 l2 _ IH|x y l|l1 l2 l3 _ IH1 _ IH2].
  - done.
  - unfold total_length in *. cbn. by rewrite IH.
  - cbn. lia.
  - by rewrite IH1.
Qed.

Lemma elem_of_run_vehicles w run v :
  v ∈ run_vehicles w run ↔ ∃ t, t ∈ run ∧ v ∈ vehicles_on_tile w t.
Proof.
  unfold run_vehicles. induction run as [|t run IH]; cbn [map concat].
  - rewrite elem_of_nil. split; [done|]. by intros (t & ?%elem_of_nil & _).
  - rewrite elem_of_app, IH. split.
    + intros [?|(t' & ? & ?)]; [exists t|exists t']; by rewrite elem_of_cons; eauto.
    + intros (t' & [->|?]%elem_of_cons & ?); eauto.
Qed.

(** C5: when the walk from [tile] stays inside the map and every counted
    vehicle of the run travels along it one way or the other, [Rebuild] sets
    the length to one tile unit per tile of the run, and each occupancy total
    to the sum of the cached lengths over any duplicate-free enumeration of
    exactly the counted vehicles of the run that travel in the forward
    direction (east) and in its reverse (west): every such vehicle contributes
    once, however many tiles of the run list it. *)
Theorem Platform_Rebuild_spec w this tile run le lw :
  let dir := GetRoadStopDir w tile in
  let offset := Z.abs (TileOffsByDiagDir w dir) in
  let dir_east := DiagDirToDir dir in
  run_tiles (map_fuel w) w tile offset tile = Some run →
  (∀ t v, t ∈ run → v ∈ vehicles_on_tile w t → counted w v = true →
          v_direction (vehicles w v) = dir_east ∨
          v_direction (vehicles w v) = ReverseDir dir_east) →
  NoDup le → (∀ v, v ∈ le ↔ parked_towards w run dir_east v) →
  NoDup lw → (∀ v, v ∈ lw ↔ parked_towards w run (ReverseDir dir_east) v) →
  int_range (TILE_SIZE * Z.of_nat (Datatypes.length run)) →
  int_range (total_length w le) →
  int_range (total_length w lw) →
  Platform_Rebuild w this tile =
    Some {| length := TILE_SIZE * Z.of_nat (Datatypes.length run);
            occupied_east := total_length w le;
            occupied_west := total_length w lw |}.
Proof.
  intros dir offset dir_east Hrun Hdir Hle Hle' Hlw Hlw' Hr1 Hr2 Hr3.
  unfold Platform_Rebuild. fold dir offset dir_east.
  rewrite (Rebuild_scan_spec _ _ _ _ _ _ _ _ _ Hrun).
  destruct (Rebuild_tile_spec w dir_east (run_vehicles w run) [] [])
    as (le1 & lw1 & -> & Hnd1 & Hnd2 & He & Hw); [constructor..| |].
  { intros v (t & Ht & Hv)%elem_of_run_vehicles. eauto. }
  cbn. rewrite fold_int_add_length by done. rewrite Z.add_0_l.
  rewrite (to_int32_id _ Hr1), !sum_lengths_total.
  assert (le1 ≡ₚ le) as HPe.
  { apply NoDup_Permutation; [done..|]. intros v.
    rewrite He, Hle', elem_of_nil. unfold parked_towards.
    rewrite elem_of_run_vehicles. naive_solver. }
  assert (lw1 ≡ₚ lw) as HPw.
  { apply NoDup_Permutation; [done..|]. intros v.
    rewrite Hw, Hlw', elem_of_nil. unfold parked_towards.
    rewrite elem_of_run_vehicles. naive_solver. }
  rewrite (total_length_Permutation _ _ _ HPe),
    (total_length_Permutation _ _ _ HPw).
  by rewrite (to_int32_id _ Hr2), (to_int32_id _ Hr3).
Qed.

(** * Offsets on a well-formed map *)

Lemma wf_map_MapSizeX_int w : wf_map w → int_range (MapSizeX w).
Proof. intros (? & ? & ? & _). unfold int_range, TILE_SIZE in *. lia. Qed.

Lemma stop_offset_cases w t :
  wf_map w →
  stop_offset w t = match GetRoadStopAxis w t with
                    | AXIS_X => 1
                    | AXIS_Y => MapSizeX w
                    end.
Proof.
  intros Hwf. unfold stop_offset, TileOffsByDiagDir.
  destruct (GetRoadStopAxis w t); cbn [AxisToDiagDir].
  - done.
  - by apply to_int32_id, wf_map_MapSizeX_int.
Qed.

Lemma stop_offset_bounds w t :
  wf_map w → 1 ≤ stop_offset w t ≤ MapSizeX w.
Proof.
  intros Hwf. rewrite stop_offset_cases by done.
  destruct Hwf as (? & _). destruct (GetRoadStopAxis w t); lia.
Qed.

Lemma Rebuild_offset w t :
  wf_map w → Z.abs (TileOffsByDiagDir w (GetRoadStopDir w t)) = stop_offset w t.
Proof.
  intros Hwf. rewrite stop_offset_cases by done.
  unfold GetRoadStopDir, TileOffsByDiagDir.
  destruct (GetRoadStopAxis w t); [done|].
  rewrite to_int32_id by by apply wf_map_MapSizeX_int.
  destruct Hwf as (? & _). lia.
Qed.

Lemma wf_map_station w t :
  wf_map w → IsStationTile w t = true →
  0 ≤ t - stop_offset w t ∧ t + stop_offset w t < MapSize w ∧
  MapSize w < 2 ^ 32.
Proof.
  intros Hwf Ht. pose proof (stop_offset_bounds w t Hwf).
  destruct Hwf as (? & ? & ? & Hst). specialize (Hst t Ht).
  unfold TILE_SIZE in *. lia.
Qed.

Lemma north_of_station w t :
  wf_map w → IsStationTile w t = true → north_of w t = t - stop_offset w t.
Proof.
  intros Hwf Ht. pose proof (wf_map_station w t Hwf Ht).
  pose proof (stop_offset_bounds w t Hwf).
  unfold north_of. apply to_uint32_id. lia.
Qed.

Lemma south_of_station w t :
  wf_map w → IsStationTile w t = true → south_of w t = t + stop_offset w t.
Proof.
  intros Hwf Ht. pose proof (wf_map_station w t Hwf Ht).
  pose proof (stop_offset_bounds w t Hwf).
  unfold south_of. apply to_uint32_id. lia.
Qed.

(** * Continuations *)

Lemma cont_spec w a b :
  IsDriveThroughRoadStopContinuation w a b =
  is_stop w b && bool_decide (line w b = line w a).
Proof.
  unfold IsDriveThroughRoadStopContinuation, is_stop, line.
  destruct (IsStationTile w b), (IsDriveThroughStopTile w b);
    cbn [andb]; rewrite ?andb_false_r; try done.
  rewrite andb_true_r.
  repeat case_bool_decide; simplify_eq; try done; cbn; congruence.
Qed.

Lemma cont_true w a b :
  IsDriveThroughRoadStopContinuation w a b = true ↔
  is_stop w b = true ∧ line w b = line w a.
Proof. rewrite cont_spec, andb_true_iff, bool_decide_eq_true. done. Qed.

Lemma is_stop_station w t : is_stop w t = true → IsStationTile w t = true.
Proof. unfold is_stop. by intros [? _]%andb_true_iff. Qed.

Lemma line_offset w a b : line w a = line w b → stop_offset w a = stop_offset w b.
Proof. unfold line, stop_offset. intros [= _ _ ->]. done. Qed.

Lemma line_rst w a b :
  line w a = line w b → GetRoadStopType w a = GetRoadStopType w b.
Proof. unfold line, GetRoadStopType. intros [= _ -> _]. done. Qed.

Lemma line_dir w a b :
  line w a = line w b → GetRoadStopDir w a = GetRoadStopDir w b.
Proof. unfold line, GetRoadStopDir. intros [= _ _ ->]. done. Qed.

Lemma cont_line w a a' b :
  line w a = line w a' →
  IsDriveThroughRoadStopContinuation w a b =
  IsDriveThroughRoadStopContinuation w a' b.
Proof. intros H. by rewrite !cont_spec, H. Qed.

(** * Looking road stops up *)

Lemma GetByTile_walk_Some fuel pool tile : ∀ rs r,
  GetByTile_walk fuel pool tile rs = Some r →
  ∃ s, pool !! r = Some s ∧ xy s = tile.
Proof.
  induction fuel as [|fuel IH]; intros rs r H; [done|].
  cbn in H. destruct (pool !! rs) as [s|] eqn:Hs; [|done]. cbn in H.
  case_bool_decide.
  - simplify_eq. eauto.
  - destruct (next s); [|done]. cbn in H. eauto.
Qed.

Lemma GetByTile_in_Some w tile ty r :
  GetByTile_in w tile ty = Some r → ∃ s, stops w !! r = Some s ∧ xy s = tile.
Proof.
  unfold GetByTile_in. intros H.
  destruct (GetPrimaryRoadStop _ _); [|done]. cbn in H.
  by eapply GetByTile_walk_Some.
Qed.

Lemma same_chain_refl p : same_chain p p.
Proof. done. Qed.

Lemma same_chain_trans p1 p2 p3 :
  same_chain p1 p2 → same_chain p2 p3 → same_chain p1 p3.
Proof. intros H1 H2 r. by rewrite H1. Qed.

Lemma same_chain_insert p r s s' :
  p !! r = Some s → xy s' = xy s → next s' = next s →
  same_chain p (<[r := s']> p).
Proof.
  intros Hs Hxy Hn r'. destruct (decide (r = r')) as [<-|Hne].
  - rewrite lookup_insert_eq, Hs. cbn. by rewrite Hxy, Hn.
  - by rewrite lookup_insert_ne.
Qed.

Lemma same_chain_size p1 p2 : same_chain p1 p2 → size p1 = size p2.
Proof.
  intros H. rewrite <-!size_dom. f_equal. apply set_eq. intros r.
  rewrite !elem_of_dom. specialize (H r).
  destruct (p1 !! r), (p2 !! r); cbn in H; try done; split; eauto.
Qed.

Lemma GetByTile_walk_chain fuel p1 p2 tile :
  same_chain p1 p2 →
  ∀ rs, GetByTile_walk fuel p1 tile rs = GetByTile_walk fuel p2 tile rs.
Proof.
  intros H. induction fuel as [|fuel IH]; intros rs; [done|].
  cbn. specialize (H rs).
  destruct (p1 !! rs) as [s1|], (p2 !! rs) as [s2|]; cbn in *; simplify_eq;
    try done.
  replace (xy s2) with (xy s1) by congruence.
  replace (next s2) with (next s1) by congruence.
  case_bool_decide; [done|]. destruct (next s1); cbn; [apply IH|done].
Qed.

Lemma GetByTile_in_frame w w' tile ty :
  same_chain (stops w) (stops w') →
  stations w' = stations w →
  GetStationIndex w' tile = GetStationIndex w tile →
  GetByTile_in w' tile ty = GetByTile_in w tile ty.
Proof.
  intros Hc Hst Hi. unfold GetByTile_in. rewrite Hst, Hi.
  destruct (GetPrimaryRoadStop _ _); [|done]. cbn.
  rewrite (same_chain_size _ _ Hc). symmetry. by apply GetByTile_walk_chain.
Qed.

(** * The loops of [MakeDriveThrough] and [ClearDriveThrough] *)

Lemma same_env_refl w : same_env w w.
Proof. done. Qed.

Lemma same_env_with_stops w st : same_env w (with_stops w st).
Proof. done. Qed.

Lemma same_env_with_platforms w h : same_env w (with_platforms w h).
Proof. done. Qed.

Lemma same_env_trans w1 w2 w3 : same_env w1 w2 → same_env w2 w3 → same_env w1 w3.
Proof.
  intros (?&?&?&?&?&?) (?&?&?&?&?&?). repeat split; congruence.
Qed.

Lemma same_env_cont w w' a b :
  same_env w w' →
  IsDriveThroughRoadStopContinuation w' a b =
  IsDriveThroughRoadStopContinuation w a b.
Proof.
  intros (?&?&Hm&?). unfold IsDriveThroughRoadStopContinuation, IsStationTile,
    GetStationIndex, GetStationType, IsDriveThroughStopTile, GetRoadStopAxis.
  by rewrite Hm.
Qed.

Lemma GetByTile_in_env w w' tile ty :
  same_env w w' → same_chain (stops w) (stops w') →
  GetByTile_in w' tile ty = GetByTile_in w tile ty.
Proof.
  intros (?&?&Hm&?&?) Hc. apply GetByTile_in_frame; [done..|].
  unfold GetStationIndex. by rewrite Hm.
Qed.

Lemma repointed_chain st st' ptrs p : repointed st st' ptrs p → same_chain st st'.
Proof.
  intros H r. rewrite H. case_decide; [|done]. by destruct (st !! r).
Qed.

Lemma MakeDriveThrough_join_spec fuel this_xy rst offset rn np :
  0 < offset →
  ∀ ptrs w tile added,
  (Datatypes.length ptrs < fuel)%nat →
  0 ≤ tile → tile + Z.of_nat (Datatypes.length ptrs) * offset < 2 ^ 32 →
  int_range added →
  joinable w this_xy rst offset tile ptrs →
  (IsDriveThroughRoadStopContinuation w this_xy
     (tile + Z.of_nat (Datatypes.length ptrs) * offset) = false ∨
   ∃ r s, GetByTile_in w (tile + Z.of_nat (Datatypes.length ptrs) * offset) rst
            = Some r ∧ stops w !! r = Some s ∧ platform s = None) →
  (∃ sn, stops w !! rn = Some sn ∧ platform sn = Some np) →
  ∃ st',
    MakeDriveThrough_join fuel this_xy rst offset (Some rn) tile added w =
      Some (to_int32 (added + Z.of_nat (Datatypes.length ptrs)),
            with_stops w st') ∧
    repointed (stops w) st' ptrs (Some np).
Proof.
  intros Hoff ptrs. revert fuel.
  induction ptrs as [|r0 ptrs IH]; intros fuel w tile added Hfuel Ht0 Ht1 Hadd
    Hjoin Hstop (sn & Hsn & Hnp).
  - exists (stops w). cbn [Datatypes.length] in *.
    rewrite Z.mul_0_l, Z.add_0_r in *. rewrite to_int32_id by done.
    destruct fuel as [|fuel]; [lia|]. split; [|by intros r].
    cbn [MakeDriveThrough_join].
    destruct Hstop as [Hc|(r & s & Hr & Hs & Hp)].
    + msimpl. by destruct (world_eta w) as [-> _].
    + msimpl. destruct (IsDriveThroughRoadStopContinuation w this_xy tile);
        msimpl; by destruct (world_eta w) as [-> _].
  - destruct fuel as [|fuel]; [cbn in Hfuel; lia|].
    cbn [Datatypes.length] in *. rewrite Nat2Z.inj_succ in *.
    destruct (Hjoin 0%nat r0) as (Hc0 & Hr0 & s0 & Hs0 & Hp0); [done|].
    rewrite Z.mul_0_l, Z.add_0_r in Hc0, Hr0.
    set (w2 := with_stops w (<[r0 := set_platform s0 (Some np)]> (stops w))).
    assert (same_chain (stops w) (stops w2)) as Hchain.
    { by apply (same_chain_insert _ _ s0). }
    assert (∀ t ty, GetByTile_in w2 t ty = GetByTile_in w t ty) as Hget.
    { intros. by apply GetByTile_in_env. }
    assert (∀ a b, IsDriveThroughRoadStopContinuation w2 a b =
                   IsDriveThroughRoadStopContinuation w a b) as Hcont.
    { intros. by apply same_env_cont. }
    destruct (IH fuel w2 (tile + offset) (int_add added 1)) as (st' & Hrun & Hst').
    + lia.
    + lia.
    + lia.
    + apply to_int32_range.
    + intros i r Hi. destruct (Hjoin (S i) r Hi) as (Hc & Hr & s & Hs & Hp).
      replace (tile + offset + Z.of_nat i * offset)
        with (tile + Z.of_nat (S i) * offset) by lia.
      rewrite Hcont, Hget. split_and!; [done..|].
      cbn. destruct (decide (r = r0)) as [->|Hne].
      * rewrite lookup_insert_eq. eauto.
      * rewrite lookup_insert_ne by done. eauto.
    + replace (tile + offset + Z.of_nat (Datatypes.length ptrs) * offset)
        with (tile + Z.succ (Z.of_nat (Datatypes.length ptrs)) * offset) by lia.
      rewrite Hcont, Hget.
      destruct Hstop as [?|(r & s & Hr & Hs & Hp)]; [by left|right].
      exists r, s. split_and!; [done| |done]. cbn.
      rewrite lookup_insert_ne; [done|]. intros ->.
      apply GetByTile_in_Some in Hr0 as (s0' & ? & Hxy0).
      apply GetByTile_in_Some in Hr as (s' & ? & Hxy). simplify_eq; lia.
    + cbn. destruct (decide (rn = r0)) as [->|Hne].
      * rewrite lookup_insert_eq. eauto.
      * rewrite lookup_insert_ne by done. eauto.
    + exists st'. split.
      * cbn [MakeDriveThrough_join]. msimpl.
        destruct (platform s0) eqn:Hps0; [|done]. msimpl.
        rewrite to_uint32_id by lia. fold w2. rewrite Hrun. do 2 f_equal.
        unfold int_add. rewrite to_int32_add_l. f_equal. lia.
      * intros r. rewrite Hst'. cbn. destruct (decide (r = r0)) as [->|Hne].
        -- rewrite lookup_insert_eq, Hs0.
           rewrite (decide_True (P := r0 ∈ r0 :: ptrs)) by by left.
           by case_decide.
        -- rewrite lookup_insert_ne by done.
           destruct (decide (r ∈ ptrs)).
           ++ by rewrite (decide_True (P := r ∈ r0 :: ptrs)) by by right.
           ++ by rewrite (decide_False (P := r ∈ r0 :: ptrs))
                by by intros [?|?]%elem_of_cons.
Qed.

Lemma ClearDriveThrough_south_spec fuel base_tile rst offset rb bp :
  0 < offset →
  ∀ ptrs w tile,
  (Datatypes.length ptrs < fuel)%nat →
  0 ≤ tile → tile + Z.of_nat (Datatypes.length ptrs) * offset < 2 ^ 32 →
  walkable w base_tile rst offset tile ptrs →
  IsDriveThroughRoadStopContinuation w base_tile
    (tile + Z.of_nat (Datatypes.length ptrs) * offset) = false →
  (∃ sb, stops w !! rb = Some sb ∧ platform sb = bp) →
  ∃ st',
    ClearDriveThrough_south fuel base_tile rst offset rb tile w =
      Some (tt, with_stops w st') ∧
    repointed (stops w) st' ptrs bp.
Proof.
  intros Hoff ptrs. revert fuel.
  induction ptrs as [|r0 ptrs IH]; intros fuel w tile Hfuel Ht0 Ht1
    Hwalk Hstop (sb & Hsb & Hbp).
  - exists (stops w). cbn [Datatypes.length] in *.
    rewrite Z.mul_0_l, Z.add_0_r in *.
    destruct fuel as [|fuel]; [lia|]. split; [|by intros r].
    cbn [ClearDriveThrough_south]. msimpl.
    by destruct (world_eta w) as [-> _].
  - destruct fuel as [|fuel]; [cbn in Hfuel; lia|].
    cbn [Datatypes.length] in *. rewrite Nat2Z.inj_succ in *.
    destruct (Hwalk 0%nat r0) as (Hc0 & Hr0); [done|].
    rewrite Z.mul_0_l, Z.add_0_r in Hc0, Hr0.
    destruct (GetByTile_in_Some _ _ _ _ Hr0) as (s0 & Hs0 & Hxy0).
    set (w2 := with_stops w (<[r0 := set_platform s0 bp]> (stops w))).
    assert (same_chain (stops w) (stops w2)) as Hchain.
    { by apply (same_chain_insert _ _ s0). }
    assert (∀ t ty, GetByTile_in w2 t ty = GetByTile_in w t ty) as Hget.
    { intros. by apply GetByTile_in_env. }
    assert (∀ a b, IsDriveThroughRoadStopContinuation w2 a b =
                   IsDriveThroughRoadStopContinuation w a b) as Hcont.
    { intros. by apply same_env_cont. }
    destruct (IH fuel w2 (tile + offset)) as (st' & Hrun & Hst').
    + lia.
    + lia.
    + lia.
    + intros i r Hi. destruct (Hwalk (S i) r Hi) as (Hc & Hr).
      replace (tile + offset + Z.of_nat i * offset)
        with (tile + Z.of_nat (S i) * offset) by lia.
      by rewrite Hcont, Hget.
    + replace (tile + offset + Z.of_nat (Datatypes.length ptrs) * offset)
        with (tile + Z.succ (Z.of_nat (Datatypes.length ptrs)) * offset) by lia.
      by rewrite Hcont.
    + cbn. destruct (decide (rb = r0)) as [->|Hne].
      * rewrite lookup_insert_eq. eauto.
      * rewrite lookup_insert_ne by done. eauto.
    + exists st'. split.
      * cbn [ClearDriveThrough_south]. msimpl.
        rewrite to_uint32_id by lia. fold w2. by rewrite Hrun.
      * intros r. rewrite Hst'. cbn. destruct (decide (r = r0)) as [->|Hne].
        -- rewrite lookup_insert_eq, Hs0.
           rewrite (decide_True (P := r0 ∈ r0 :: ptrs)) by by left.
           by case_decide.
        -- rewrite lookup_insert_ne by done.
           destruct (decide (r ∈ ptrs)).
           ++ by rewrite (decide_True (P := r ∈ r0 :: ptrs)) by by right.
           ++ by rewrite (decide_False (P := r ∈ r0 :: ptrs))
                by by intros [?|?]%elem_of_cons.
Qed.

Lemma ClearDriveThrough_north_spec fuel w base_tile rst offset :
  0 < offset →
  ∀ ptrs tile rs_north,
  (Datatypes.length ptrs < fuel)%nat →
  0 ≤ tile - Z.of_nat (Datatypes.length ptrs) * offset → tile < 2 ^ 32 →
  walkable w base_tile rst (- offset) tile ptrs →
  IsDriveThroughRoadStopContinuation w base_tile
    (tile + Z.of_nat (Datatypes.length ptrs) * - offset) = false →
  ClearDriveThrough_north fuel base_tile rst offset tile rs_north w =
    Some (default rs_north (Some <$> last ptrs), w).
Proof.
  intros Hoff ptrs. revert fuel.
  induction ptrs as [|r0 ptrs IH]; intros fuel tile rs_north Hfuel Ht0 Ht1
    Hwalk Hstop.
  - cbn [Datatypes.length] in *. rewrite Z.mul_0_l, Z.add_0_r in *.
    destruct fuel as [|fuel]; [lia|].
    cbn [ClearDriveThrough_north]. by msimpl.
  - destruct fuel as [|fuel]; [cbn in Hfuel; lia|].
    cbn [Datatypes.length] in *. rewrite Nat2Z.inj_succ in *.
    destruct (Hwalk 0%nat r0) as (Hc0 & Hr0); [done|].
    rewrite Z.mul_0_l, Z.add_0_r in Hc0, Hr0.
    cbn [ClearDriveThrough_north]. msimpl.
    rewrite to_uint32_id by lia. rewrite IH.
    + do 2 f_equal. rewrite last_cons. by destruct (last ptrs).
    + lia.
    + lia.
    + lia.
    + intros i r Hi. destruct (Hwalk (S i) r Hi) as (Hc & Hr).
      replace (tile - offset + Z.of_nat i * - offset)
        with (tile + Z.of_nat (S i) * - offset) by lia.
      done.
    + replace (tile - offset + Z.of_nat (Datatypes.length ptrs) * - offset)
        with (tile + Z.succ (Z.of_nat (Datatypes.length ptrs)) * - offset)
        by lia.
      done.
Qed.

(** * Runs *)

Section same_env.
Context (w w' : World) (Henv : same_env w w').

Lemma same_env_map : map_tiles w' = map_tiles w.
  Proof. by destruct Henv as (?&?&?&?). Qed.

Lemma same_env_is_stop t : is_stop w' t = is_stop w t.
  Proof. unfold is_stop, IsStationTile, IsDriveThroughStopTile.
         by rewrite same_env_map. Qed.

Lemma same_env_line t : line w' t = line w t.
  Proof. unfold line, GetStationIndex, GetStationType, GetRoadStopAxis.
         by rewrite same_env_map. Qed.

Lemma same_env_rst t : GetRoadStopType w' t = GetRoadStopType w t.
  Proof. unfold GetRoadStopType, GetStationType. by rewrite same_env_map. Qed.

Lemma same_env_offset t : stop_offset w' t = stop_offset w t.
  Proof.
    unfold stop_offset, TileOffsByDiagDir, GetRoadStopAxis.
    rewrite same_env_map. by destruct Henv as (->&_).
  Qed.

Lemma same_env_tile_nth t i : tile_nth w' t i = tile_nth w t i.
  Proof. unfold tile_nth. by rewrite same_env_offset. Qed.

Lemma same_env_wf_map : wf_map w → wf_map w'.
  Proof.
    unfold wf_map, IsStationTile. rewrite same_env_map.
    by destruct Henv as (->&->&_).
  Qed.

Lemma same_env_stop_ptr t :
    same_chain (stops w) (stops w') → stop_ptr w' t = stop_ptr w t.
  Proof.
    intros Hc. unfold stop_ptr. rewrite same_env_rst.
    by apply GetByTile_in_env.
  Qed.
End same_env.

Lemma stop_ptr_inj w t t' r :
  stop_ptr w t = Some r → stop_ptr w t' = Some r → t = t'.
Proof.
  intros (s & Hs & <-)%GetByTile_in_Some (s' & Hs' & <-)%GetByTile_in_Some.
  congruence.
Qed.

Lemma tile_platform_stop_at w t p :
  tile_platform w t = Some p ↔ ∃ s, stop_at w t = Some s ∧ platform s = Some p.
Proof.
  unfold tile_platform. destruct (stop_at w t) as [s|]; cbn; naive_solver.
Qed.

Lemma stop_at_tile_platform w w' t t' :
  stop_at w' t' = stop_at w t → tile_platform w' t' = tile_platform w t.
Proof. unfold tile_platform. by intros ->. Qed.

Lemma stop_at_tile_base w w' t t' :
  stop_at w' t' = stop_at w t → tile_base w' t' = tile_base w t.
Proof. unfold tile_base. by intros ->. Qed.

Lemma acont_true w a b :
  acont w a b = true ↔
  is_stop w b = true ∧ line w b = line w a ∧ is_Some (tile_platform w b).
Proof.
  unfold acont. rewrite andb_true_iff, bool_decide_eq_true, cont_true.
  tauto.
Qed.

Lemma acont_false w a b :
  acont w a b = false ↔
  ¬ (is_stop w b = true ∧ line w b = line w a ∧ is_Some (tile_platform w b)).
Proof. rewrite <-acont_true. by destruct (acont w a b). Qed.

Lemma attached_true w t :
  attached w t = true ↔ is_stop w t = true ∧ is_Some (tile_platform w t).
Proof. unfold attached. by rewrite andb_true_iff, bool_decide_eq_true. Qed.

Lemma acont_line w a a' b : line w a = line w a' → acont w a b = acont w a' b.
Proof. intros H. unfold acont. by rewrite (cont_line _ _ _ _ H). Qed.

Lemma tile_nth_line w a b i :
  line w a = line w b → tile_nth w a i = a + Z.of_nat i * stop_offset w b.
Proof. intros H. unfold tile_nth. by rewrite (line_offset _ _ _ H). Qed.

Lemma tile_nth_0 w t : tile_nth w t 0 = t.
Proof. unfold tile_nth. lia. Qed.

Lemma run_at_tile w t0 n i :
  run_at w t0 n → (i < n)%nat →
  is_stop w (tile_nth w t0 i) = true ∧
  line w (tile_nth w t0 i) = line w t0 ∧
  is_Some (tile_platform w (tile_nth w t0 i)).
Proof. intros (_ & _ & H & _) Hi. by apply acont_true, H. Qed.

Lemma run_at_offset_pos w t0 n : wf_map w → run_at w t0 n → 0 < stop_offset w t0.
Proof. intros Hwf _. pose proof (stop_offset_bounds w t0 Hwf). lia. Qed.

(** A tile belongs to at most one run, at one position. *)
Lemma run_at_unique w t0 n i t0' n' i' :
  wf_map w →
  run_at w t0 n → run_at w t0' n' → (i < n)%nat → (i' < n')%nat →
  tile_nth w t0 i = tile_nth w t0' i' →
  t0 = t0' ∧ n = n' ∧ i = i'.
Proof.
  intros Hwf Hr Hr' Hi Hi' Heq.
  destruct (run_at_tile _ _ _ _ Hr Hi) as (_ & Hl & _).
  destruct (run_at_tile _ _ _ _ Hr' Hi') as (_ & Hl' & _).
  assert (line w t0 = line w t0') as Hline by congruence.
  pose proof (line_offset _ _ _ Hline) as Hoff.
  pose proof (stop_offset_bounds w t0 Hwf) as Hpos.
  assert (∀ j, tile_nth w t0' j = t0' + Z.of_nat j * stop_offset w t0) as Hn'.
  { intros. by apply tile_nth_line. }
  assert (∀ j, tile_nth w t0 j = t0 + Z.of_nat j * stop_offset w t0) as Hn
    by done.
  rewrite Hn, Hn' in Heq.
  assert (i = i') as <-.
  { destruct (Nat.lt_trichotomy i i') as [Hlt|[?|Hlt]]; [|done|]; exfalso.
    - (* t0 lies inside the other run, after its first tile *)
      destruct Hr as (_ & _ & _ & Hnorth & _).
      destruct Hr' as (_ & _ & Hin' & _).
      specialize (Hin' (i' - i - 1)%nat ltac:(lia)).
      rewrite (acont_line _ _ _ _ Hline) in Hnorth.
      replace (tile_nth w t0' (i' - i - 1)) with (t0 - stop_offset w t0)
        in Hin'; [congruence|]. rewrite Hn'. nia.
    - destruct Hr' as (_ & _ & _ & Hnorth & _).
      destruct Hr as (_ & _ & Hin & _).
      specialize (Hin (i - i' - 1)%nat ltac:(lia)).
      rewrite <-(acont_line _ _ _ _ Hline), <-Hoff in Hnorth.
      replace (tile_nth w t0 (i - i' - 1)) with (t0' - stop_offset w t0)
        in Hin; [congruence|]. rewrite Hn. nia. }
  assert (t0 = t0') as <- by lia. split_and!; try done.
  destruct (Nat.lt_trichotomy n n') as [Hlt|[?|Hlt]]; [|done|]; exfalso.
  - destruct Hr as (_ & _ & _ & _ & Hsouth).
    destruct Hr' as (_ & _ & Hin' & _). specialize (Hin' n Hlt). congruence.
  - destruct Hr' as (_ & _ & _ & _ & Hsouth).
    destruct Hr as (_ & _ & Hin & _). specialize (Hin n' Hlt). congruence.
Qed.

Lemma elem_of_segment w t0 n t :
  t ∈ segment w t0 n ↔ ∃ i, (i < n)%nat ∧ t = tile_nth w t0 i.
Proof.
  unfold segment. rewrite list_elem_of_fmap. split.
  - intros (i & -> & Hi%elem_of_seq). exists i. split; [lia|done].
  - intros (i & Hi & ->). exists i. split; [done|]. apply elem_of_seq. lia.
Qed.

Lemma good_run_attached w t0 n p i :
  good_run w t0 n p → (i < n)%nat → attached w (tile_nth w t0 i) = true.
Proof.
  intros (Hr & _) Hi. apply attached_true.
  by destruct (run_at_tile _ _ _ _ Hr Hi) as (? & _ & ?).
Qed.

(** The run a tile belongs to is determined by the tile. *)
Lemma good_run_unique w t0 n p i t0' n' p' i' :
  wf_map w →
  good_run w t0 n p → good_run w t0' n' p' → (i < n)%nat → (i' < n')%nat →
  tile_nth w t0 i = tile_nth w t0' i' →
  t0 = t0' ∧ n = n' ∧ i = i' ∧ p = p'.
Proof.
  intros Hwf Hg Hg' Hi Hi' Heq.
  destruct (run_at_unique w t0 n i t0' n' i' Hwf) as (<- & <- & <-);
    [apply Hg|apply Hg'|done..|].
  split_and!; try done.
  destruct Hg as (_ & Hs & _), Hg' as (_ & Hs' & _).
  destruct (Hs i Hi) as [H1 _], (Hs' i Hi) as [H2 _]. congruence.
Qed.

(** * Attaching preserves the invariant *)

Lemma north_cases (N : option (TileIndex * nat * PlatformPtr)) :
  N = None ∨ ∃ t0 n pn, N = Some (t0, n, pn).
Proof. destruct N as [[[??]?]|]; eauto. Qed.

Lemma south_cases (S : option (nat * PlatformPtr)) :
  S = None ∨ ∃ n ps, S = Some (n, ps).
Proof. destruct S as [[??]|]; eauto. Qed.

Section attach.
Context (w : World) (x : TileIndex)
  (N : option (TileIndex * nat * PlatformPtr))
  (S : option (nat * PlatformPtr)) (p : PlatformPtr) (w' : World).
Context (Hinv : Inv w) (Hx : is_stop w x = true)
  (Hxp : tile_platform w x = None)
  (HN : north_case w x N) (HS : south_case w x S)
  (Hpost : attach_post w x N S p w').

Local Abbreviation off := (stop_offset w x).
Local Abbreviation south := (segment w (x + off) (south_count S)).
Local Abbreviation head := (north_head x N).
Local Abbreviation total := (north_count N + 1 + south_count S)%nat.

Local Lemma attach_off : 1 ≤ off.
Proof. apply stop_offset_bounds, Hinv. Qed.

Local Lemma attach_env : same_env w w'.
Proof. apply Hpost. Qed.

Local Lemma attach_south_run n ps :
  S = Some (n, ps) →
  good_run w (x + off) n ps ∧ line w (x + off) = line w x.
Proof. intros HSe. pose proof HS as HS'. by rewrite HSe in HS'. Qed.

Local Lemma attach_north_run t0 n pn :
  N = Some (t0, n, pn) →
  good_run w t0 n pn ∧ tile_nth w t0 n = x ∧ line w t0 = line w x.
Proof. intros HNe. pose proof HN as HN'. by rewrite HNe in HN'. Qed.

Local Lemma attach_south_nth i :
  (i < south_count S)%nat →
  tile_nth w (x + off) i = x + (1 + Z.of_nat i) * off.
Proof.
  intros Hi. destruct (south_cases S) as [HSe|(n & ps & HSe)].
  - rewrite HSe in Hi. cbn in Hi. lia.
  - destruct (attach_south_run n ps HSe) as [_ Hl].
    rewrite (tile_nth_line _ _ _ _ Hl). lia.
Qed.

Local Lemma attach_north_nth t0 n pn i :
  N = Some (t0, n, pn) →
  tile_nth w t0 i = t0 + Z.of_nat i * off ∧ x = t0 + Z.of_nat n * off ∧
  line w t0 = line w x ∧ (0 < n)%nat.
Proof.
  intros HNe. destruct (attach_north_run t0 n pn HNe) as (Hg & Hn & Hl).
  rewrite <-Hn at 2. rewrite !(tile_nth_line _ _ _ _ Hl).
  split_and!; try done. apply Hg.
Qed.

Local Lemma attach_south_attached t : t ∈ south → attached w t = true.
Proof.
  intros (i & Hi & ->)%elem_of_segment.
  destruct (south_cases S) as [HSe|(n & ps & HSe)]; rewrite HSe in Hi.
  - cbn in Hi. lia.
  - destruct (attach_south_run n ps HSe) as [Hg _].
    by eapply good_run_attached.
Qed.

Local Lemma attach_unchanged t :
  is_stop w t = true → t ≠ x → t ∉ south → stop_at w' t = stop_at w t.
Proof.
  intros Ht Hne Hns. apply Hpost; [done..|].
  intros i Hi ->. apply Hns, elem_of_segment. eauto.
Qed.

Local Lemma attach_south_state t :
  t ∈ south → tile_platform w' t = Some p ∧ tile_base w' t = false.
Proof. intros (i & Hi & ->)%elem_of_segment. by apply Hpost. Qed.

(** Tiles attached after the call: the new one and those attached before. *)
Local Lemma attach_attached' t :
  attached w' t = true → t = x ∨ attached w t = true.
Proof.
  intros [Ht Hp]%attached_true. rewrite (same_env_is_stop _ _ attach_env) in Ht.
  destruct (decide (t = x)) as [|Hne]; [by left|right].
  destruct (decide (t ∈ south)) as [Hs|Hs]; [by apply attach_south_attached|].
  apply attached_true. split; [done|].
  by rewrite <-(stop_at_tile_platform _ _ _ _ (attach_unchanged t Ht Hne Hs)).
Qed.

Local Lemma attach_platform' t :
  is_stop w t = true →
  tile_platform w' t =
    if decide (t = x ∨ t ∈ south) then Some p else tile_platform w t.
Proof.
  intros Ht. case_decide as Hc.
  - destruct Hc as [->|Hs]; [apply Hpost|by apply attach_south_state].
  - apply stop_at_tile_platform, attach_unchanged; [done|..]; naive_solver.
Qed.

Local Lemma attach_acont_other a b :
  b ≠ x → b ∉ south → acont w' a b = acont w a b.
Proof.
  intros Hne Hns. unfold acont. rewrite (same_env_cont _ _ _ _ attach_env).
  destruct (IsDriveThroughRoadStopContinuation w a b) eqn:Hc; [|done].
  apply cont_true in Hc as [Hb _]. cbn.
  by rewrite (stop_at_tile_platform _ _ _ _ (attach_unchanged b Hb Hne Hns)).
Qed.

Local Lemma attach_south_gt t : t ∈ south → x < t.
Proof.
  intros (i & Hi & ->)%elem_of_segment. rewrite attach_south_nth by done.
  pose proof attach_off. nia.
Qed.

Local Lemma attach_north_tile t0 n pn j :
  N = Some (t0, n, pn) → (j < n)%nat →
  let t := t0 + Z.of_nat j * off in
  is_stop w t = true ∧ line w t = line w x ∧ t < x ∧
  tile_platform w t = Some pn ∧ tile_base w t = bool_decide (j = 0%nat) ∧
  stop_at w' t = stop_at w t.
Proof.
  intros HNe Hj t.
  destruct (attach_north_nth t0 n pn j HNe) as (Hnth & Hxe & Hl & Hn).
  destruct (attach_north_run t0 n pn HNe) as (Hg & _ & _).
  destruct Hg as (Hr & Hst & _).
  destruct (run_at_tile _ _ _ _ Hr Hj) as (Hs & Hl' & _).
  destruct (Hst j Hj) as [Hp Hb]. rewrite Hnth in *. fold t in Hs, Hl', Hp, Hb.
  pose proof attach_off.
  assert (t < x) by (subst t; nia).
  split_and!; try done; [congruence|].
  apply attach_unchanged; [done|lia|].
  intros ?%attach_south_gt. lia.
Qed.

Local Lemma attach_south_tile i :
  (i < south_count S)%nat →
  let t := x + (1 + Z.of_nat i) * off in
  t ∈ south ∧ is_stop w t = true ∧ line w t = line w x ∧
  tile_platform w' t = Some p ∧ tile_base w' t = false.
Proof.
  intros Hi t. assert (t ∈ south) as Hin.
  { apply elem_of_segment. exists i. by rewrite attach_south_nth. }
  destruct (attach_south_state t Hin) as [? ?].
  pose proof (attach_south_nth i Hi) as Hnth.
  destruct (south_cases S) as [HSe|(n & ps & HSe)]; rewrite HSe in Hi.
  { cbn in Hi. lia. }
  destruct (attach_south_run n ps HSe) as [Hg Hl]. destruct Hg as (Hr & _).
  destruct (run_at_tile _ _ _ _ Hr Hi) as (Hs & Hl' & _).
  rewrite Hnth in Hs, Hl'. fold t in Hs, Hl'.
  split_and!; try done. congruence.
Qed.

Local Lemma attach_head :
  line w head = line w x ∧ head + Z.of_nat (north_count N) * off = x.
Proof.
  destruct (north_cases N) as [HNe|(t0 & n & pn & HNe)]; rewrite HNe; cbn.
  - split; [done|lia].
  - by destruct (attach_north_nth t0 n pn 0 HNe) as (_ & <- & ? & _).
Qed.

Local Lemma attach_head_nth j : tile_nth w' head j = head + Z.of_nat j * off.
Proof.
  rewrite (same_env_tile_nth _ _ attach_env).
  apply tile_nth_line, attach_head.
Qed.

Local Lemma attach_platform_north t0 n pn : N = Some (t0, n, pn) → p = pn.
Proof.
  intros HNe. destruct Hpost as [_ Hpl _ _ _ _ _]. by rewrite HNe in Hpl.
Qed.

(** The state after the call of the [j]-th tile of the new run. *)
Local Lemma attach_new_tile j :
  (j < total)%nat →
  let t := head + Z.of_nat j * off in
  is_stop w t = true ∧ line w t = line w x ∧
  tile_platform w' t = Some p ∧ tile_base w' t = bool_decide (j = 0%nat).
Proof.
  intros Hj t. destruct attach_head as [Hl Hhx].
  destruct (decide (j < north_count N)%nat) as [Hlt|Hge].
  - destruct (north_cases N) as [HNe|(t0 & n & pn & HNe)].
    { rewrite HNe in Hlt. cbn in Hlt. lia. }
    assert (head = t0) as Hh by by rewrite HNe.
    assert (j < n)%nat as Hlt' by by rewrite HNe in Hlt.
    destruct (attach_north_tile t0 n pn j HNe Hlt')
      as (? & ? & ? & Hp & Hb & Heq).
    cbn zeta in *. rewrite <-Hh in *. fold t in Hp, Hb, Heq.
    rewrite (stop_at_tile_platform _ _ _ _ Heq),
      (stop_at_tile_base _ _ _ _ Heq).
    split_and!; try done. rewrite Hp. f_equal.
    symmetry. by eapply attach_platform_north.
  - destruct (decide (j = north_count N)) as [->|Hne].
    + subst t. rewrite Hhx. destruct Hpost as [_ _ [Hp Hb] _ _ _ _].
      split_and!; try done. rewrite Hb.
      destruct (north_cases N) as [HNe|(t0 & n & pn & HNe)]; rewrite HNe.
      * done.
      * destruct (attach_north_nth t0 n pn 0 HNe) as (_ & _ & _ & ?).
        cbn. by rewrite !bool_decide_eq_false_2 by (done || lia).
    + destruct (attach_south_tile (j - north_count N - 1))
        as (? & ? & ? & Hp & Hb); [lia|].
      assert (Z.of_nat j = Z.of_nat (north_count N) + 1 +
                Z.of_nat (j - north_count N - 1)) as Hjz by lia.
      replace (x + (1 + Z.of_nat (j - north_count N - 1)) * off) with t
        in * by (subst t; rewrite Hjz; lia).
      split_and!; try done. rewrite Hb.
      by rewrite bool_decide_eq_false_2 by lia.
Qed.

Local Lemma attach_new_run : good_run w' head total p.
Proof.
  destruct attach_head as [Hl Hhx]. pose proof attach_off as Hoff.
  pose proof attach_env as Henv.
  assert (∀ a b, acont w' a b = true ↔
            is_stop w b = true ∧ line w b = line w a ∧
            is_Some (tile_platform w' b)) as Hac.
  { intros. by rewrite acont_true, (same_env_is_stop _ _ Henv),
      !(same_env_line _ _ Henv). }
  split_and!.
  - (* run_at *)
    split_and!.
    + lia.
    + apply attached_true. rewrite (same_env_is_stop _ _ Henv).
      destruct (attach_new_tile 0) as (Hs & _ & Hp & _); [lia|].
      rewrite Z.mul_0_l, Z.add_0_r in Hs, Hp. by rewrite Hp.
    + intros j Hj. rewrite attach_head_nth. apply Hac.
      destruct (attach_new_tile j Hj) as (Hs & Hlj & Hp & _).
      rewrite Hp. split_and!; [done|congruence|done].
    + rewrite (same_env_offset _ _ Henv), (line_offset _ _ _ Hl).
      rewrite attach_acont_other.
      * destruct (north_cases N) as [HNe|(t0 & n & pn & HNe)]; rewrite HNe;
          cbn.
        -- pose proof HN as HN'. by rewrite HNe in HN'.
        -- destruct (attach_north_run t0 n pn HNe) as ((Hr & _) & _ & Hl').
           rewrite <-(line_offset _ _ _ Hl'). apply Hr.
      * lia.
      * intros ?%attach_south_gt. lia.
    + rewrite attach_head_nth.
      replace (head + Z.of_nat total * off)
        with (x + (1 + Z.of_nat (south_count S)) * off) by lia.
      rewrite attach_acont_other.
      * rewrite (acont_line _ _ _ _ Hl).
        destruct (south_cases S) as [HSe|(n & ps & HSe)]; rewrite HSe; cbn.
        -- pose proof HS as HS'. rewrite HSe in HS'. cbn in HS'.
           by rewrite Z.add_0_r, Z.mul_1_l.
        -- destruct (attach_south_run n ps HSe) as ((Hr & _) & Hl').
           destruct Hr as (_ & _ & _ & _ & Hso).
           rewrite (tile_nth_line _ _ _ _ Hl') in Hso.
           rewrite <-(acont_line _ _ _ _ Hl').
           replace (x + (1 + Z.of_nat n) * off)
             with (x + off + Z.of_nat n * off) by lia. done.
      * nia.
      * intros (i & Hi & Heq)%elem_of_segment.
        rewrite attach_south_nth in Heq by done. nia.
  - (* run_state *)
    intros j Hj. rewrite attach_head_nth.
    by destruct (attach_new_tile j Hj) as (_ & _ & ? & ?).
  - (* run_length *)
    destruct Hpost as [_ _ _ _ _ (v & Hv & Hlen & _) _]. by exists v.
  - (* run_exclusive *)
    intros t Ht Hp. rewrite (same_env_is_stop _ _ Henv) in Ht.
    rewrite attach_platform' in Hp by done. case_decide as Hc.
    + destruct Hc as [->|(i & Hi & ->)%elem_of_segment].
      * exists (north_count N). split; [lia|]. by rewrite attach_head_nth.
      * exists (north_count N + 1 + i)%nat. split; [lia|].
        rewrite attach_head_nth, attach_south_nth by done. lia.
    + assert (attached w t = true) as Hatt.
      { apply attached_true. by rewrite Hp. }
      destruct (north_cases N) as [HNe|(t0 & n & pn & HNe)].
      * destruct (south_cases S) as [HSe|(n & ps & HSe)].
        -- destruct (inv_runs _ Hinv t Hatt) as (t0 & n & q & i & Hg & Hi & ->).
           destruct Hg as (_ & Hst & (v & Hv & _) & _).
           destruct (Hst i Hi) as [Hq _].
           destruct Hpost as [_ Hpl _ _ _ _ _]. rewrite HNe, HSe in Hpl.
           congruence.
        -- destruct (attach_south_run n ps HSe) as ((_ & _ & _ & Hex) & _).
           destruct Hpost as [_ Hpl _ _ _ _ _]. rewrite HNe, HSe in Hpl.
           subst ps. destruct (Hex t Ht Hp) as (j & Hj & ->).
           destruct Hc. right. apply elem_of_segment. exists j.
           by rewrite HSe.
      * rewrite (attach_platform_north _ _ _ HNe) in Hp.
        destruct (attach_north_run t0 n pn HNe) as ((_ & _ & _ & Hex) & _).
        destruct (Hex t Ht Hp) as (j & Hj & ->).
        exists j. rewrite HNe. cbn. split; [lia|].
        by rewrite (same_env_tile_nth _ _ Henv).
Qed.

Local Lemma attach_acont_kept a b :
  acont w a b = false →
  (b = x → line w x = line w a → False) →
  acont w' a b = false.
Proof.
  intros Hpre Hbx. destruct (decide (b = x)) as [->|Hne].
  - apply acont_false. intros (_ & Hl & _).
    rewrite !(same_env_line _ _ attach_env) in Hl. by apply Hbx.
  - destruct (decide (b ∈ south)) as [Hs|Hs].
    + apply acont_false. intros (Hb & Hl & _).
      rewrite !(same_env_line _ _ attach_env) in Hl.
      rewrite (same_env_is_stop _ _ attach_env) in Hb.
      apply acont_false in Hpre. apply Hpre. split_and!; [done..|].
      by apply attach_south_attached, attached_true in Hs as [_ ?].
    + by rewrite attach_acont_other.
Qed.

(** A run that touches neither neighbour of the new tile is untouched. *)
Local Lemma attach_other_run t0 n q :
  good_run w t0 n q →
  (∀ t0N nN pN, N = Some (t0N, nN, pN) → t0 ≠ t0N) →
  (S ≠ None → t0 ≠ x + off) →
  good_run w' t0 n q.
Proof.
  intros Hg HnN HnS. pose proof attach_env as Henv.
  pose proof attach_off as Hoff. pose proof (inv_map _ Hinv) as Hwf.
  pose proof Hg as (Hr & Hst & (v & Hv & Hlen) & Hex).
  pose proof Hr as (Hn & Hatt & Hin & Hno & Hso).
  assert (∀ i, (i < n)%nat → tile_nth w t0 i ≠ x ∧ tile_nth w t0 i ∉ south)
    as Hout.
  { intros i Hi. split.
    - intros Heq. pose proof (good_run_attached _ _ _ _ _ Hg Hi) as Ha.
      rewrite Heq in Ha. apply attached_true in Ha as [_ [? ?]]. congruence.
    - intros (j & Hj & Heq)%elem_of_segment.
      destruct (south_cases S) as [HSe|(nS & ps & HSe)]; rewrite HSe in Hj.
      { cbn in Hj. lia. }
      destruct (attach_south_run nS ps HSe) as [HgS _].
      destruct (good_run_unique _ _ _ _ _ _ _ _ _ Hwf Hg HgS Hi Hj Heq)
        as (-> & _). apply HnS; [by rewrite HSe|done]. }
  assert (∀ i, (i < n)%nat →
            stop_at w' (tile_nth w t0 i) = stop_at w (tile_nth w t0 i))
    as Hsame.
  { intros i Hi. destruct (Hout i Hi).
    apply attach_unchanged; [|done..].
    by destruct (run_at_tile _ _ _ _ Hr Hi). }
  assert (q ≠ p ∧ match S with Some (_, ps) => q ≠ ps | None => True end)
    as [Hqp Hqs].
  { assert (tile_platform w t0 = Some q ∧ is_stop w t0 = true) as [Hq0 Hs0].
    { destruct (Hst 0%nat Hn) as [H0 _]. rewrite tile_nth_0 in H0.
      by apply attached_true in Hatt as [? _]. }
    assert (∀ nS ps, S = Some (nS, ps) → q ≠ ps) as HqS.
    { intros nS ps HSe ->.
      destruct (attach_south_run nS ps HSe) as [HgS _].
      pose proof HgS as (_ & _ & _ & HexS).
      destruct (HexS t0 Hs0 Hq0) as (j & Hj & Heq).
      rewrite <-(tile_nth_0 w t0) in Heq.
      destruct (good_run_unique _ _ _ _ _ _ _ _ _ Hwf Hg HgS Hn Hj Heq)
        as (-> & _). apply HnS; [by rewrite HSe|done]. }
    split.
    - intros ->. destruct Hpost as [_ Hpl _ _ _ _ _].
      destruct (north_cases N) as [HNe|(t0N & nN & pN & HNe)];
        rewrite HNe in Hpl.
      + destruct (south_cases S) as [HSe|(nS & ps & HSe)]; rewrite HSe in Hpl.
        * congruence.
        * by eapply HqS.
      + subst pN. destruct (attach_north_run t0N nN p HNe) as [HgN _].
        pose proof HgN as (_ & _ & _ & HexN).
        destruct (HexN t0 Hs0 Hq0) as (j & Hj & Heq).
        rewrite <-(tile_nth_0 w t0) in Heq.
        destruct (good_run_unique _ _ _ _ _ _ _ _ _ Hwf Hg HgN Hn Hj Heq)
          as (-> & _). by eapply HnN.
    - destruct (south_cases S) as [HSe|(nS & ps & HSe)]; rewrite HSe; [done|].
      by eapply HqS. }
  split_and!.
  - split_and!.
    + done.
    + apply attached_true. rewrite (same_env_is_stop _ _ Henv).
      apply attached_true in Hatt as [? ?]. split; [done|].
      rewrite <-(tile_nth_0 w t0).
      by rewrite (stop_at_tile_platform _ _ _ _ (Hsame 0%nat Hn)), tile_nth_0.
    + intros i Hi. rewrite (same_env_tile_nth _ _ Henv).
      destruct (Hout i Hi). rewrite attach_acont_other by done. by apply Hin.
    + rewrite (same_env_offset _ _ Henv). apply attach_acont_kept; [done|].
      intros Hbx Hl. apply HnS.
      * intros HSe. pose proof HS as HS'. rewrite HSe in HS'. cbn in HS'.
        apply acont_false in HS'. apply HS'.
        rewrite (line_offset _ _ _ Hl).
        replace (x + stop_offset w t0) with t0 by lia.
        by apply attached_true in Hatt as [? ?].
      * rewrite (line_offset _ _ _ Hl). lia.
    + rewrite (same_env_tile_nth _ _ Henv). apply attach_acont_kept; [done|].
      intros Hbx Hl. unfold tile_nth in Hbx.
      rewrite <-(line_offset _ _ _ Hl) in Hbx.
      assert (x - off = tile_nth w t0 (n - 1)) as Hprev.
      { unfold tile_nth. rewrite <-(line_offset _ _ _ Hl).
        rewrite Nat2Z.inj_sub by lia. lia. }
      assert (n - 1 < n)%nat as Hlast by lia.
      destruct (run_at_tile _ _ _ (n - 1)%nat Hr Hlast) as (Hs1 & Hl1 & Hp1).
      destruct (north_cases N) as [HNe|(t0N & nN & pN & HNe)].
      * pose proof HN as HN'. rewrite HNe in HN'. cbn in HN'.
        apply acont_false in HN'. apply HN'. rewrite Hprev.
        split_and!; [done|congruence|done].
      * destruct (attach_north_run t0N nN pN HNe) as [HgN _].
        destruct (attach_north_nth t0N nN pN (nN - 1) HNe)
          as (Hnth & Hxe & _ & HnN0).
        assert (tile_nth w t0 (n - 1) = tile_nth w t0N (nN - 1)) as Heq.
        { rewrite <-Hprev, Hnth. rewrite Nat2Z.inj_sub by lia.
          lia. }
        assert (n - 1 < n)%nat as Hi1 by lia.
        assert (nN - 1 < nN)%nat as Hi2 by lia.
        destruct (good_run_unique _ _ _ _ _ _ _ _ _ Hwf Hg HgN Hi1 Hi2 Heq)
          as (-> & _).
        by eapply HnN.
  - intros i Hi. rewrite (same_env_tile_nth _ _ Henv).
    rewrite (stop_at_tile_platform _ _ _ _ (Hsame i Hi)),
      (stop_at_tile_base _ _ _ _ (Hsame i Hi)). by apply Hst.
  - exists v. split; [|done].
    destruct Hpost as [_ _ _ _ _ _ Hheap]. by rewrite Hheap.
  - intros t Ht Hp. rewrite (same_env_is_stop _ _ Henv) in Ht.
    rewrite attach_platform' in Hp by done. case_decide; [congruence|].
    destruct (Hex t Ht Hp) as (j & Hj & ->). exists j.
    by rewrite (same_env_tile_nth _ _ Henv).
Qed.

Theorem attach_preserves : Inv w'.
Proof.
  pose proof attach_env as Henv. pose proof (inv_map _ Hinv) as Hwf.
  pose proof attach_head as [Hl Hhx].
  split.
  - by apply (same_env_wf_map w).
  - intros t Ht. rewrite (same_env_is_stop _ _ Henv) in Ht.
    pose proof (attach_platform' t Ht) as Hp. case_decide.
    + apply tile_platform_stop_at in Hp as (s & -> & _). done.
    + destruct (decide (t = x)); [naive_solver|].
      destruct (decide (t ∈ south)); [naive_solver|].
      rewrite attach_unchanged by done. by apply (inv_registry _ Hinv).
  - intros t Ht Hnone. rewrite (same_env_is_stop _ _ Henv) in Ht.
    rewrite attach_platform' in Hnone by done. case_decide; [done|].
    destruct (decide (t = x)); [naive_solver|].
    destruct (decide (t ∈ south)); [naive_solver|].
    rewrite (stop_at_tile_base _ _ _ _ (attach_unchanged t Ht ltac:(done)
               ltac:(done))).
    by apply (inv_pending _ Hinv).
  - intros t Hatt. destruct (attach_attached' t Hatt) as [->|Hpre].
    + exists head, total, p, (north_count N).
      split_and!; [apply attach_new_run|lia|].
      rewrite (same_env_tile_nth _ _ Henv), (tile_nth_line _ _ _ _ Hl). lia.
    + destruct (inv_runs _ Hinv t Hpre) as (t0 & n & q & i & Hg & Hi & ->).
      assert (0 < n)%nat as Hn by lia.
      destruct (decide (N ≠ None ∧ t0 = head)) as [[HNn Hh]|HnN].
      { destruct (north_cases N) as [?|(t0N & nN & pN & HNe)]; [done|].
        rewrite HNe in Hh. cbn in Hh. subst t0.
        destruct (attach_north_run t0N nN pN HNe) as [HgN _].
        destruct (attach_north_nth t0N nN pN 0 HNe) as (_ & _ & _ & HnN0).
        destruct (good_run_unique _ _ _ _ _ _ _ _ 0%nat Hwf Hg HgN Hn HnN0
                    eq_refl) as (_ & -> & _).
        exists head, total, p, i. split_and!; [apply attach_new_run| |].
        - rewrite HNe. cbn. lia.
        - rewrite (same_env_tile_nth _ _ Henv). by rewrite HNe. }
      destruct (decide (S ≠ None ∧ t0 = x + off)) as [[HSe ->]|HnS].
      { destruct (south_cases S) as [?|(nS & ps & HSe')]; [done|].
        destruct (attach_south_run nS ps HSe') as [HgS _].
        assert (0 < nS)%nat as HnS0 by apply HgS.
        destruct (good_run_unique _ _ _ _ _ _ _ _ 0%nat Hwf Hg HgS Hn HnS0
                    eq_refl) as (_ & -> & _).
        exists head, total, p, (north_count N + 1 + i)%nat.
        split_and!; [apply attach_new_run| |].
        - rewrite HSe'. cbn. lia.
        - rewrite (same_env_tile_nth _ _ Henv), (tile_nth_line _ _ _ _ Hl).
          rewrite attach_south_nth by (rewrite HSe'; cbn; lia). lia. }
      exists t0, n, q, i. split_and!; [|done|].
      * apply attach_other_run; [done| |naive_solver].
        intros t0N nN pN HNe ->. apply HnN. by rewrite HNe.
      * by rewrite (same_env_tile_nth _ _ Henv).
Qed.
End attach.

(** * The cases of [MakeDriveThrough] *)

Lemma MakeDriveThrough_north_only w this s rn sn np nv :
  stops w !! this = Some s →
  platform s = None →
  neighbour_platform w (xy s) (north_of w (xy s)) rn sn np nv →
  neighbour_free w (xy s) (south_of w (xy s)) →
  rn ≠ this → south_of w (xy s) ≠ xy s →
  MakeDriveThrough this w =
    Some (tt,
      with_platforms
        (with_stops w (<[this := set_platform s (Some np)]> (stops w)))
        (<[np := set_length nv (int_add (length nv) TILE_SIZE)]>
           (platforms w))).
Proof.
  intros Hs Hp (Hn & Hrn & Hsn & Hpn & Hnv) Hso Hne Hxy.
  unfold MakeDriveThrough, north_of, south_of, stop_offset in *.
  destruct Hso as [Hso|(rso & sso & Hso & Hrso & Hsso & Hpso)].
  - msimpl. rewrite to_int32_tile_size. do 2 f_equal; try by world_ext.
  - assert (rso ≠ this) as Hne'.
    { intros ->. apply GetByTile_in_Some in Hrso as (s' & ? & ?).
      by simplify_eq. }
    msimpl. rewrite to_int32_tile_size. do 2 f_equal; try by world_ext.
Qed.

Lemma MakeDriveThrough_south_only w this s rs ss sp sv :
  stops w !! this = Some s →
  platform s = None →
  neighbour_free w (xy s) (north_of w (xy s)) →
  neighbour_platform w (xy s) (south_of w (xy s)) rs ss sp sv →
  rs ≠ this →
  MakeDriveThrough this w =
    Some (tt,
      with_platforms
        (with_stops w
           (<[rs := set_status ss (ClrBit (status ss) RSSFB_BASE_ENTRY)]>
              (<[this := set_status (set_platform s (Some sp))
                           (SetBit (status s) RSSFB_BASE_ENTRY)]>
                 (stops w))))
        (<[sp := set_length sv (int_add (length sv) TILE_SIZE)]>
           (platforms w))).
Proof.
  intros Hs Hp Hn (Hso & Hrs & Hss & Hps & Hsv) Hne.
  unfold MakeDriveThrough, north_of, south_of, stop_offset in *.
  destruct Hn as [Hn|(rn & sn & Hn & Hrn & Hsn & Hpn)].
  - msimpl. rewrite to_int32_tile_size. do 2 f_equal;
      try (world_ext; by rewrite ?insert_insert_eq).
  - msimpl. rewrite to_int32_tile_size. do 2 f_equal;
      try (world_ext; by rewrite ?insert_insert_eq).
Qed.

Lemma MakeDriveThrough_merge w this s rn sn np nv rs ss sp sv ptrs :
  let off := stop_offset w (xy s) in
  let rst := GetRoadStopType w (xy s) in
  0 < off → 0 ≤ xy s →
  south_of w (xy s) = xy s + off →
  (Datatypes.length ptrs < map_fuel w)%nat →
  xy s + off + Z.of_nat (Datatypes.length ptrs) * off < 2 ^ 32 →
  stops w !! this = Some s →
  platform s = None →
  neighbour_platform w (xy s) (north_of w (xy s)) rn sn np nv →
  neighbour_platform w (xy s) (south_of w (xy s)) rs ss sp sv →
  rn ≠ this → rs ≠ this → np ≠ sp →
  joinable w (xy s) rst off (xy s + off) ptrs →
  (IsDriveThroughRoadStopContinuation w (xy s)
     (xy s + off + Z.of_nat (Datatypes.length ptrs) * off) = false ∨
   ∃ r n, GetByTile_in w (xy s + off + Z.of_nat (Datatypes.length ptrs) * off)
            rst = Some r ∧ stops w !! r = Some n ∧ platform n = None) →
  ∃ st',
    MakeDriveThrough this w =
      Some (tt,
        with_platforms (with_stops w st')
          (<[np := {| length :=
                        int_add (length nv)
                          (to_int32 ((1 + Z.of_nat (Datatypes.length ptrs))
                                     * TILE_SIZE));
                      occupied_east :=
                        int_add (occupied_east nv) (occupied_east sv);
                      occupied_west :=
                        int_add (occupied_west nv) (occupied_west sv) |}]>
             (delete sp (platforms w)))) ∧
    repointed
      (<[rs := set_status ss (ClrBit (status ss) RSSFB_BASE_ENTRY)]>
         (<[this := set_platform s (Some np)]> (stops w)))
      st' ptrs (Some np).
Proof.
  intros off rst Hoff Hxy0 Hsouth Hfuel Hrange Hs Hp
    (Hn & Hrn & Hsn & Hpn & Hnv) (Hso & Hrs & Hss & Hps & Hsv)
    Hne1 Hne2 Hne3 Hjoin Hstop.
  assert (rn ≠ rs) as Hne4 by (intros ->; simplify_eq).
  set (st1 := <[rs := set_status ss (ClrBit (status ss) RSSFB_BASE_ENTRY)]>
                (<[this := set_platform s (Some np)]> (stops w))).
  unfold MakeDriveThrough. subst off rst.
  unfold north_of, south_of, stop_offset in *. msimpl.
  rewrite ?Hsouth. fold st1.
  match goal with
  | |- context [MakeDriveThrough_join _ _ _ _ _ _ _ ?W] => set (w1 := W)
  end.
  assert (same_env w w1) as Henv by done.
  assert (stops w1 = st1) as Hst1 by done.
  assert (same_chain (stops w) (stops w1)) as Hchain.
  { rewrite Hst1.
    apply (same_chain_trans _ (<[this := set_platform s (Some np)]> (stops w)));
      [by apply (same_chain_insert _ this s)|].
    apply (same_chain_insert _ rs ss); [|done..].
    by rewrite lookup_insert_ne. }
  match goal with
  | |- context [MakeDriveThrough_join ?f ?x ?r ?o _ ?t ?a w1] =>
      destruct (MakeDriveThrough_join_spec f x r o rn np Hoff ptrs w1 t a)
        as (st' & Hloop & Hrep)
  end.
  - done.
  - lia.
  - done.
  - done.
  - intros i r Hi. destruct (Hjoin i r Hi) as (Hc & Hr & n & Hnr & Hpr).
    rewrite (same_env_cont _ _ _ _ Henv), (GetByTile_in_env _ _ _ _ Henv Hchain).
    split_and!; [done..|]. rewrite Hst1. subst st1.
    destruct (decide (r = rs)) as [->|?];
      [rewrite lookup_insert_eq; eexists; split; [done|]; cbn; congruence|].
    rewrite lookup_insert_ne by done.
    destruct (decide (r = this)) as [->|?];
      [rewrite lookup_insert_eq; eexists; split; [done|]; cbn; congruence|].
    rewrite lookup_insert_ne by done. eauto.
  - rewrite (same_env_cont _ _ _ _ Henv), (GetByTile_in_env _ _ _ _ Henv Hchain).
    destruct Hstop as [?|(r & n & Hr & Hnr & Hpr)]; [by left|right].
    exists r, n. split_and!; [done| |done]. rewrite Hst1. subst st1.
    rewrite !lookup_insert_ne; [done|..].
    + intros ->. apply GetByTile_in_Some in Hr as (s' & ? & ?).
      simplify_eq. lia.
    + intros ->. simplify_eq.
  - exists sn. rewrite Hst1. subst st1. by rewrite !lookup_insert_ne.
  - exists st'. rewrite Hst1 in Hrep. split; [|done].
    rewrite Hloop. msimpl.
    assert (∃ s', st' !! this = Some s' ∧ platform s' = Some np)
      as (s' & Hs' & Hp').
    { rewrite Hrep. subst st1. rewrite lookup_insert_ne by done.
      rewrite lookup_insert_eq. case_decide; cbn; eauto. }
    rewrite Hs'. msimpl. subst w1. msimpl.
    rewrite lookup_delete_ne by done.
    rewrite !lookup_insert_eq. msimpl. rewrite lookup_delete_ne by done.
    rewrite !lookup_insert_eq. msimpl. do 2 f_equal. world_ext.
    rewrite !insert_insert_eq. unfold set_length; cbn.
    rewrite to_int32_mul_l. rewrite !delete_insert_ne by congruence.
    by rewrite !insert_insert_eq.
Qed.

(** * From the code to the tile-wise description of attaching *)

Lemma stop_at_frame w w' t :
  same_env w w' → same_chain (stops w) (stops w') →
  stop_at w' t = stop_ptr w t ≫= (stops w' !!.).
Proof.
  intros Henv Hc. unfold stop_at. by rewrite (same_env_stop_ptr _ _ Henv).
Qed.

Lemma stop_at_ptr w t s :
  stop_at w t = Some s ↔ ∃ r, stop_ptr w t = Some r ∧ stops w !! r = Some s.
Proof.
  unfold stop_at. destruct (stop_ptr w t) as [r|]; cbn; naive_solver.
Qed.

Lemma stop_at_xy w t s : stop_at w t = Some s → xy s = t.
Proof.
  intros (r & (s' & ? & ?)%GetByTile_in_Some & ?)%stop_at_ptr. congruence.
Qed.

Lemma registry_ptr w t :
  Inv w → is_stop w t = true →
  ∃ r s, stop_ptr w t = Some r ∧ stops w !! r = Some s ∧ xy s = t.
Proof.
  intros Hinv Ht. destruct (inv_registry _ Hinv t Ht) as [s Hs].
  pose proof (stop_at_xy _ _ _ Hs).
  apply stop_at_ptr in Hs as (r & ? & ?). eauto.
Qed.

Lemma tile_platform_ptr w t r s :
  stop_ptr w t = Some r → stops w !! r = Some s →
  tile_platform w t = platform s ∧
  tile_base w t = HasBit (status s) RSSFB_BASE_ENTRY.
Proof. intros Hr Hs. unfold tile_platform, tile_base, stop_at. by rewrite Hr; cbn; rewrite Hs. Qed.

Lemma attached_platform_live w t p :
  Inv w → is_stop w t = true → tile_platform w t = Some p →
  is_Some (platforms w !! p).
Proof.
  intros Hinv Ht Hp.
  destruct (inv_runs _ Hinv t) as (t0 & n & q & i & Hg & Hi & ->).
  { apply attached_true. by rewrite Hp. }
  destruct Hg as (_ & Hst & (v & Hv & _) & _).
  destruct (Hst i Hi) as [Hq _]. simplify_eq. eauto.
Qed.

(** What [MakeDriveThrough] finds north of a pending stop. *)
Lemma attach_north_analysis w x :
  Inv w → is_stop w x = true → tile_platform w x = None →
  north_of w x = x - stop_offset w x ∧
  ((acont w x (x - stop_offset w x) = false ∧
    neighbour_free w x (north_of w x)) ∨
   (∃ t0 n pn rn sn nv,
      good_run w t0 n pn ∧ tile_nth w t0 n = x ∧ line w t0 = line w x ∧
      neighbour_platform w x (north_of w x) rn sn pn nv ∧
      stop_ptr w (x - stop_offset w x) = Some rn)).
Proof.
  intros Hinv Hx Hxp. pose proof (inv_map _ Hinv) as Hwf.
  pose proof (north_of_station w x Hwf (is_stop_station _ _ Hx)) as Hno.
  split; [done|]. rewrite Hno. set (b := x - stop_offset w x).
  destruct (IsDriveThroughRoadStopContinuation w x b) eqn:Hc.
  2:{ left. split; [|by left]. unfold acont. by rewrite Hc. }
  pose proof Hc as [Hb Hl]%cont_true.
  destruct (registry_ptr w b Hinv Hb) as (rn & sn & Hrn & Hsn & Hxy).
  destruct (tile_platform_ptr _ _ _ _ Hrn Hsn) as [Hpl _].
  assert (GetByTile_in w b (GetRoadStopType w x) = Some rn) as Hget.
  { by rewrite <-(line_rst _ _ _ Hl). }
  destruct (platform sn) as [pn|] eqn:Hpn.
  2:{ left. split; [|right; by exists rn, sn].
      apply acont_false. rewrite Hpl. by intros (_ & _ & [? ?]). }
  right.
  destruct (inv_runs _ Hinv b) as (t0 & n & q & i & Hg & Hi & Hbi).
  { apply attached_true. by rewrite Hpl. }
  pose proof Hg as (Hr & Hst & _).
  destruct (Hst i Hi) as [Hq _]. rewrite <-Hbi, Hpl in Hq.
  assert (q = pn) as -> by congruence. clear Hq.
  destruct (run_at_tile _ _ _ _ Hr Hi) as (_ & Hl0 & _). rewrite <-Hbi in Hl0.
  assert (line w t0 = line w x) as Hlx by congruence.
  assert (i = (n - 1)%nat) as ->.
  { destruct (decide (i = (n - 1)%nat)) as [|Hne]; [done|exfalso].
    assert (S i < n)%nat as Hi' by lia.
    destruct (run_at_tile _ _ _ _ Hr Hi') as (_ & _ & [? Hp']).
    replace (tile_nth w t0 (S i)) with x in Hp'; [congruence|].
    rewrite (tile_nth_line _ _ _ i Hlx) in Hbi.
    rewrite (tile_nth_line _ _ _ (S i) Hlx). subst b. lia. }
  destruct (attached_platform_live w b pn Hinv Hb) as [nv Hnv];
    [by rewrite Hpl|].
  exists t0, n, pn, rn, sn, nv. split_and!; try done.
  rewrite (tile_nth_line _ _ _ (n - 1) Hlx) in Hbi.
  rewrite (tile_nth_line _ _ _ n Hlx). subst b.
  rewrite Nat2Z.inj_sub in Hbi by lia. lia.
Qed.

(** What [MakeDriveThrough] finds south of a pending stop. *)
Lemma attach_south_analysis w x :
  Inv w → is_stop w x = true → tile_platform w x = None →
  south_of w x = x + stop_offset w x ∧
  ((acont w x (x + stop_offset w x) = false ∧
    neighbour_free w x (south_of w x)) ∨
   (∃ n ps rs ss sv,
      good_run w (x + stop_offset w x) n ps ∧
      line w (x + stop_offset w x) = line w x ∧
      neighbour_platform w x (south_of w x) rs ss ps sv ∧
      stop_ptr w (x + stop_offset w x) = Some rs ∧
      tile_base w (x + stop_offset w x) = true)).
Proof.
  intros Hinv Hx Hxp. pose proof (inv_map _ Hinv) as Hwf.
  pose proof (south_of_station w x Hwf (is_stop_station _ _ Hx)) as Hso.
  split; [done|]. rewrite Hso. set (b := x + stop_offset w x).
  destruct (IsDriveThroughRoadStopContinuation w x b) eqn:Hc.
  2:{ left. split; [|by left]. unfold acont. by rewrite Hc. }
  pose proof Hc as [Hb Hl]%cont_true.
  destruct (registry_ptr w b Hinv Hb) as (rs & ss & Hrs & Hss & Hxy).
  destruct (tile_platform_ptr _ _ _ _ Hrs Hss) as [Hpl Hba].
  assert (GetByTile_in w b (GetRoadStopType w x) = Some rs) as Hget.
  { by rewrite <-(line_rst _ _ _ Hl). }
  destruct (platform ss) as [ps|] eqn:Hps.
  2:{ left. split; [|right; by exists rs, ss].
      apply acont_false. rewrite Hpl. by intros (_ & _ & [? ?]). }
  right.
  destruct (inv_runs _ Hinv b) as (t0 & n & q & i & Hg & Hi & Hbi).
  { apply attached_true. by rewrite Hpl. }
  pose proof Hg as (Hr & Hst & _).
  destruct (Hst i Hi) as [Hq Hbase]. rewrite <-Hbi, Hpl in Hq.
  assert (q = ps) as -> by congruence. clear Hq.
  destruct (run_at_tile _ _ _ _ Hr Hi) as (_ & Hl0 & _). rewrite <-Hbi in Hl0.
  assert (line w t0 = line w x) as Hlx by congruence.
  assert (i = 0%nat) as ->.
  { destruct (decide (i = 0%nat)) as [|Hne]; [done|exfalso].
    assert (i - 1 < n)%nat as Hi' by lia.
    destruct (run_at_tile _ _ _ _ Hr Hi') as (_ & _ & [? Hp']).
    replace (tile_nth w t0 (i - 1)) with x in Hp'; [congruence|].
    rewrite (tile_nth_line _ _ _ i Hlx) in Hbi.
    rewrite (tile_nth_line _ _ _ (i - 1) Hlx). subst b.
    rewrite Nat2Z.inj_sub by lia. lia. }
  rewrite tile_nth_0 in Hbi. subst t0.
  destruct (attached_platform_live w b ps Hinv Hb) as [sv Hsv];
    [by rewrite Hpl|].
  exists n, ps, rs, ss, sv. split_and!; try done.
  by rewrite tile_nth_0 in Hbase.
Qed.

Lemma omap_lookup_total {A B} (f : A → option B) (l : list A) :
  (∀ x, x ∈ l → is_Some (f x)) →
  ∀ i, omap f l !! i = l !! i ≫= f.
Proof.
  induction l as [|a l IH]; intros Hall i; [done|].
  destruct (Hall a) as [b Hb]; [by left|].
  cbn [omap list_omap]. rewrite Hb.
  destruct i as [|i]; cbn; [done|].
  apply IH. intros y Hy. apply Hall. by right.
Qed.

Lemma segment_lookup w t0 n i :
  segment w t0 n !! i = if decide (i < n)%nat then Some (tile_nth w t0 i) else None.
Proof.
  unfold segment. rewrite list_lookup_fmap. case_decide.
  - by rewrite lookup_seq_lt.
  - by rewrite lookup_seq_ge by lia.
Qed.

Lemma segment_ptrs_lookup w t0 n i r :
  (∀ j, (j < n)%nat → is_Some (stop_ptr w (tile_nth w t0 j))) →
  segment_ptrs w t0 n !! i = Some r ↔
  (i < n)%nat ∧ stop_ptr w (tile_nth w t0 i) = Some r.
Proof.
  intros Hall. unfold segment_ptrs. rewrite omap_lookup_total.
  - rewrite segment_lookup. case_decide; cbn; naive_solver.
  - intros t (j & Hj & ->)%elem_of_segment. by apply Hall.
Qed.

Lemma segment_ptrs_length w t0 n :
  (∀ j, (j < n)%nat → is_Some (stop_ptr w (tile_nth w t0 j))) →
  Datatypes.length (segment_ptrs w t0 n) = n.
Proof.
  intros Hall.
  destruct (Nat.lt_trichotomy (Datatypes.length (segment_ptrs w t0 n)) n)
    as [Hlt|[?|Hgt]]; [exfalso|done|exfalso].
  - destruct (Hall _ Hlt) as [r Hr].
    assert (segment_ptrs w t0 n !! Datatypes.length (segment_ptrs w t0 n)
            = Some r) as Hl by by apply segment_ptrs_lookup.
    apply lookup_lt_Some in Hl. lia.
  - destruct (lookup_lt_is_Some_2 (segment_ptrs w t0 n) n Hgt) as [r Hr].
    apply segment_ptrs_lookup in Hr as [? _]; [lia|done].
Qed.

Lemma elem_of_segment_ptrs w t0 n r :
  (∀ j, (j < n)%nat → is_Some (stop_ptr w (tile_nth w t0 j))) →
  r ∈ segment_ptrs w t0 n ↔
  ∃ i, (i < n)%nat ∧ stop_ptr w (tile_nth w t0 i) = Some r.
Proof.
  intros Hall. rewrite list_elem_of_lookup.
  split; intros (i & Hi); exists i; by apply segment_ptrs_lookup.
Qed.

(** A run lies inside the map, which bounds its number of tiles. *)
Lemma run_at_bound w t0 n :
  wf_map w → run_at w t0 n →
  0 < t0 ∧ tile_nth w t0 (n - 1) + stop_offset w t0 < MapSize w ∧
  Z.of_nat n < MapSize w.
Proof.
  intros Hwf Hr. pose proof (stop_offset_bounds w t0 Hwf) as Hoff.
  assert (n - 1 < n)%nat as Hlast by (destruct Hr; lia).
  destruct (run_at_tile _ _ _ _ Hr Hlast) as (Hs & Hl & _).
  destruct Hr as (Hn & [Hs0 _]%attached_true & _).
  pose proof (wf_map_station _ _ Hwf (is_stop_station _ _ Hs)) as (? & ? & ?).
  pose proof (wf_map_station _ _ Hwf (is_stop_station _ _ Hs0)) as (? & ? & ?).
  rewrite (line_offset _ _ _ Hl) in *.
  destruct Hwf as (? & ? & ? & Hst).
  destruct (Hst t0 (is_stop_station _ _ Hs0)).
  unfold tile_nth in *. rewrite Nat2Z.inj_sub in * by lia.
  split_and!; [lia|lia|nia].
Qed.

Section make_cases.
Context (w : World) (this : RoadStopPtr) (x : TileIndex) (s : RoadStop).
Context (Hinv : Inv w) (Hx : is_stop w x = true)
  (Hptr : stop_ptr w x = Some this) (Hs : stops w !! this = Some s)
  (Hp : platform s = None).

Local Lemma make_xy : xy s = x.
Proof.
  apply GetByTile_in_Some in Hptr as (s' & ? & ?). congruence.
Qed.

Local Lemma make_pending : tile_platform w x = None.
Proof. by destruct (tile_platform_ptr _ _ _ _ Hptr Hs) as [-> _]. Qed.

Local Lemma make_base : HasBit (status s) RSSFB_BASE_ENTRY = false.
Proof.
  destruct (tile_platform_ptr _ _ _ _ Hptr Hs) as [_ <-].
  apply (inv_pending _ Hinv); [done|apply make_pending].
Qed.

Local Lemma make_ptr_this t r :
  stop_ptr w t = Some r → r = this ↔ t = x.
Proof.
  intros Hr. split; intros ->; [by eapply stop_ptr_inj|congruence].
Qed.

Local Lemma make_off : 1 ≤ stop_offset w x.
Proof. apply stop_offset_bounds, Hinv. Qed.

Local Lemma make_alone w' p :
  acont w x (x - stop_offset w x) = false →
  acont w x (x + stop_offset w x) = false →
  platforms w !! p = None →
  w' = with_platforms
         (with_stops w
            (<[this := {| xy := xy s;
                          status := SetBit (status s) RSSFB_BASE_ENTRY;
                          platform := Some p; next := next s |}]> (stops w)))
         (<[p := {| length := TILE_SIZE; occupied_east := 0;
                    occupied_west := 0 |}]> (platforms w)) →
  attach_post w x None None p w'.
Proof.
  intros Hno Hso Hfresh ->.
  assert (same_chain (stops w)
            (<[this := {| xy := xy s;
                          status := SetBit (status s) RSSFB_BASE_ENTRY;
                          platform := Some p; next := next s |}]> (stops w)))
    as Hchain by by apply (same_chain_insert _ this s).
  split.
  - done.
  - done.
  - unfold tile_platform, tile_base. rewrite (stop_at_frame w) by done.
    rewrite Hptr. cbn. rewrite lookup_insert_eq. cbn.
    by rewrite HasBit_SetBit.
  - intros i Hi. cbn in Hi. lia.
  - intros t Ht Hne _. rewrite (stop_at_frame w) by done. unfold stop_at.
    destruct (stop_ptr w t) as [r|] eqn:Hr; [|done]. cbn.
    rewrite lookup_insert_ne; [done|]. intros <-.
    by apply Hne, (make_ptr_this t this Hr).
  - eexists. split; [cbn; by rewrite lookup_insert_eq|]. done.
  - intros q Hq _. cbn. by rewrite lookup_insert_ne.
Qed.

Local Lemma make_length_range n k :
  Z.of_nat n < MapSize w → (k ≤ n)%nat →
  int_range (TILE_SIZE * Z.of_nat k).
Proof.
  intros Hn Hk. destruct (inv_map _ Hinv) as (_ & _ & Hsz & _).
  unfold int_range, TILE_SIZE in *. lia.
Qed.

Local Lemma make_north w' t0 n pn nv :
  good_run w t0 n pn → tile_nth w t0 n = x → line w t0 = line w x →
  platforms w !! pn = Some nv →
  acont w x (x + stop_offset w x) = false →
  w' = with_platforms
         (with_stops w (<[this := set_platform s (Some pn)]> (stops w)))
         (<[pn := set_length nv (int_add (length nv) TILE_SIZE)]>
            (platforms w)) →
  attach_post w x (Some (t0, n, pn)) None pn w'.
Proof.
  intros Hg Hnth Hl Hnv Hso ->.
  assert (same_chain (stops w) (<[this := set_platform s (Some pn)]> (stops w)))
    as Hchain by by apply (same_chain_insert _ this s).
  split.
  - done.
  - done.
  - unfold tile_platform, tile_base. rewrite (stop_at_frame w) by done.
    rewrite Hptr. cbn. rewrite lookup_insert_eq. cbn.
    by rewrite make_base.
  - intros i Hi. cbn in Hi. lia.
  - intros t Ht Hne _. rewrite (stop_at_frame w) by done. unfold stop_at.
    destruct (stop_ptr w t) as [r|] eqn:Hr; [|done]. cbn.
    rewrite lookup_insert_ne; [done|]. intros <-.
    by apply Hne, (make_ptr_this t this Hr).
  - eexists. split; [cbn; by rewrite lookup_insert_eq|]. cbn. split.
    + destruct Hg as (Hr & _ & (v & Hv & Hlen) & _).
      assert (v = nv) as -> by congruence.
      rewrite Hlen. unfold int_add.
      replace (TILE_SIZE * Z.of_nat n + TILE_SIZE)
        with (TILE_SIZE * Z.of_nat (n + 1 + 0)) by (unfold TILE_SIZE; lia).
      apply to_int32_id.
      destruct (inv_map _ Hinv) as (_ & _ & Hsz & _).
      pose proof (run_at_bound _ _ _ (inv_map _ Hinv) Hr) as (_ & _ & Hb).
      unfold int_range, TILE_SIZE in *. lia.
    + unfold occupancy_of. cbn. by rewrite Hnv.
  - intros q Hq _. cbn. by rewrite lookup_insert_ne.
Qed.

Local Lemma make_south w' n ps rs ss sv :
  good_run w (x + stop_offset w x) n ps →
  line w (x + stop_offset w x) = line w x →
  stop_ptr w (x + stop_offset w x) = Some rs → stops w !! rs = Some ss →
  platforms w !! ps = Some sv →
  acont w x (x - stop_offset w x) = false →
  w' = with_platforms
         (with_stops w
            (<[rs := set_status ss (ClrBit (status ss) RSSFB_BASE_ENTRY)]>
               (<[this := set_status (set_platform s (Some ps))
                            (SetBit (status s) RSSFB_BASE_ENTRY)]>
                  (stops w))))
         (<[ps := set_length sv (int_add (length sv) TILE_SIZE)]>
            (platforms w)) →
  attach_post w x None (Some (n, ps)) ps w'.
Proof.
  intros Hg Hl Hrs Hss Hsv Hno ->. pose proof make_off as Hoff.
  assert (rs ≠ this) as Hne.
  { intros ->. destruct (make_ptr_this _ _ Hrs) as [Heq _].
    specialize (Heq eq_refl). lia. }
  assert (same_chain (stops w)
    (<[rs := set_status ss (ClrBit (status ss) RSSFB_BASE_ENTRY)]>
       (<[this := set_status (set_platform s (Some ps))
                    (SetBit (status s) RSSFB_BASE_ENTRY)]> (stops w))))
    as Hchain.
  { apply (same_chain_trans _
      (<[this := set_status (set_platform s (Some ps))
                   (SetBit (status s) RSSFB_BASE_ENTRY)]> (stops w)));
      [by apply (same_chain_insert _ this s)|].
    apply (same_chain_insert _ rs ss); [|done..].
    by rewrite lookup_insert_ne. }
  pose proof Hg as (Hr & Hst & (v & Hv & Hlen) & _).
  assert (v = sv) as -> by congruence. clear Hv.
  split.
  - done.
  - done.
  - unfold tile_platform, tile_base. rewrite (stop_at_frame w) by done.
    rewrite Hptr. cbn. rewrite lookup_insert_ne, lookup_insert_eq by done.
    cbn. by rewrite HasBit_SetBit.
  - intros i Hi. cbn in Hi.
    destruct (run_at_tile _ _ _ _ Hr Hi) as (Hsi & _ & _).
    destruct (registry_ptr _ _ Hinv Hsi) as (r & si & Hri & Hsti & _).
    destruct (tile_platform_ptr _ _ _ _ Hri Hsti) as [Hpi Hbi].
    destruct (Hst i Hi) as [Hpi' Hbi'].
    unfold tile_platform, tile_base. rewrite (stop_at_frame w) by done.
    rewrite Hri. cbn. destruct (decide (r = rs)) as [->|Hners].
    + rewrite lookup_insert_eq. cbn. rewrite HasBit_ClrBit.
      split; [|done]. congruence.
    + rewrite lookup_insert_ne by done.
      assert (r ≠ this) as Hnet.
      { intros ->. destruct (make_ptr_this _ _ Hri) as [Heq _].
        specialize (Heq eq_refl). rewrite (tile_nth_line _ _ _ _ Hl) in Heq.
        nia. }
      rewrite lookup_insert_ne by done. rewrite Hsti. cbn.
      split; [congruence|]. rewrite <-Hbi, Hbi'.
      apply bool_decide_eq_false_2. intros ->.
      rewrite tile_nth_0 in Hri. congruence.
  - intros t Ht Hne' Hns. rewrite (stop_at_frame w) by done. unfold stop_at.
    destruct (stop_ptr w t) as [r|] eqn:Hr'; [|done]. cbn.
    rewrite !lookup_insert_ne; [done|..].
    + intros <-. by apply Hne', (make_ptr_this t this Hr').
    + intros <-. apply (Hns 0%nat); [cbn; apply Hr|].
      rewrite tile_nth_0. by eapply stop_ptr_inj.
  - eexists. split; [cbn; by rewrite lookup_insert_eq|]. cbn. split.
    + rewrite Hlen. unfold int_add.
      replace (TILE_SIZE * Z.of_nat n + TILE_SIZE)
        with (TILE_SIZE * Z.of_nat (0 + 1 + n)) by (unfold TILE_SIZE; lia).
      apply to_int32_id.
      destruct (inv_map _ Hinv) as (_ & _ & Hsz & _).
      pose proof (run_at_bound _ _ _ (inv_map _ Hinv) Hr) as (_ & _ & Hb).
      unfold int_range, TILE_SIZE in *. lia.
    + unfold occupancy_of. cbn. by rewrite Hsv.
  - intros q Hq _. cbn. by rewrite lookup_insert_ne.
Qed.

Local Lemma make_merge w' st' t0 nN pn nv nS ps rs ss sv :
  good_run w t0 nN pn → tile_nth w t0 nN = x → line w t0 = line w x →
  platforms w !! pn = Some nv →
  good_run w (x + stop_offset w x) nS ps →
  line w (x + stop_offset w x) = line w x →
  stop_ptr w (x + stop_offset w x) = Some rs → stops w !! rs = Some ss →
  platforms w !! ps = Some sv →
  repointed
    (<[rs := set_status ss (ClrBit (status ss) RSSFB_BASE_ENTRY)]>
       (<[this := set_platform s (Some pn)]> (stops w)))
    st' (segment_ptrs w (x + stop_offset w x) nS) (Some pn) →
  w' = with_platforms (with_stops w st')
         (<[pn := {| length :=
                       int_add (length nv)
                         (to_int32 ((1 + Z.of_nat nS) * TILE_SIZE));
                     occupied_east :=
                       int_add (occupied_east nv) (occupied_east sv);
                     occupied_west :=
                       int_add (occupied_west nv) (occupied_west sv) |}]>
            (delete ps (platforms w))) →
  attach_post w x (Some (t0, nN, pn)) (Some (nS, ps)) pn w'.
Proof.
  intros HgN Hnth HlN Hnv HgS HlS Hrs Hss Hsv Hrep ->.
  pose proof make_off as Hoff. pose proof (inv_map _ Hinv) as Hwf.
  pose proof HgS as (HrS & HstS & (v & Hv & HlenS) & _).
  assert (v = sv) as -> by congruence. clear Hv.
  pose proof HgN as (HrN & _ & (v & Hv & HlenN) & _).
  assert (v = nv) as -> by congruence. clear Hv.
  set (so := x + stop_offset w x) in *.
  assert (∀ j, (j < nS)%nat → is_Some (stop_ptr w (tile_nth w so j))) as Hall.
  { intros j Hj. destruct (run_at_tile _ _ _ _ HrS Hj) as (Hsj & _).
    destruct (registry_ptr _ _ Hinv Hsj) as (r & _ & -> & _). done. }
  assert (∀ j, tile_nth w so j = x + (1 + Z.of_nat j) * stop_offset w x)
    as Hsnth.
  { intros j. rewrite (tile_nth_line _ _ _ _ HlS). subst so. lia. }
  assert (rs ≠ this) as Hne.
  { intros ->. destruct (make_ptr_this _ _ Hrs) as [Heq _].
    specialize (Heq eq_refl). subst so. lia. }
  assert (this ∉ segment_ptrs w so nS) as Hthis.
  { intros (j & Hj & Hr)%elem_of_segment_ptrs; [|done].
    destruct (make_ptr_this _ _ Hr) as [Heq _]. specialize (Heq eq_refl).
    rewrite Hsnth in Heq. nia. }
  assert (same_chain (stops w) st') as Hchain.
  { eapply same_chain_trans; [|by eapply repointed_chain].
    apply (same_chain_trans _ (<[this := set_platform s (Some pn)]> (stops w)));
      [by apply (same_chain_insert _ this s)|].
    apply (same_chain_insert _ rs ss); [|done..].
    by rewrite lookup_insert_ne. }
  split.
  - done.
  - done.
  - unfold tile_platform, tile_base. rewrite (stop_at_frame w) by done.
    rewrite Hptr. cbn. rewrite Hrep, decide_False by done.
    rewrite lookup_insert_ne, lookup_insert_eq by done. cbn.
    by rewrite make_base.
  - intros i Hi. cbn in Hi. fold so.
    destruct (Hall i Hi) as [r Hri].
    destruct (GetByTile_in_Some _ _ _ _ Hri) as (si & Hsti & _).
    destruct (tile_platform_ptr _ _ _ _ Hri Hsti) as [Hpi Hbi].
    destruct (HstS i Hi) as [Hpi' Hbi'].
    unfold tile_platform, tile_base. rewrite (stop_at_frame w) by done.
    rewrite Hri. cbn. rewrite Hrep, decide_True
      by (apply elem_of_segment_ptrs; eauto).
    destruct (decide (r = rs)) as [->|Hners].
    + rewrite lookup_insert_eq. cbn. by rewrite HasBit_ClrBit.
    + rewrite lookup_insert_ne by done.
      rewrite lookup_insert_ne by (by intros ->; apply Hthis,
        elem_of_segment_ptrs; eauto).
      rewrite Hsti. cbn. split; [done|]. rewrite <-Hbi, Hbi'.
      apply bool_decide_eq_false_2. intros ->.
      rewrite tile_nth_0 in Hri. congruence.
  - intros t Ht Hne' Hns. fold so in Hns.
    rewrite (stop_at_frame w) by done. unfold stop_at.
    destruct (stop_ptr w t) as [r|] eqn:Hr'; [|done]. cbn.
    rewrite Hrep, decide_False.
    + rewrite !lookup_insert_ne; [done|..].
      * intros <-. by apply Hne', (make_ptr_this t this Hr').
      * intros <-. apply (Hns 0%nat); [cbn; apply HrS|].
        rewrite tile_nth_0. by eapply stop_ptr_inj.
    + intros (j & Hj & Hrj)%elem_of_segment_ptrs; [|done].
      apply (Hns j); [done|]. by eapply stop_ptr_inj.
  - eexists. split; [cbn; by rewrite lookup_insert_eq|]. cbn. split.
    + rewrite HlenN. unfold int_add. rewrite to_int32_add_r.
      replace (TILE_SIZE * Z.of_nat nN + (1 + Z.of_nat nS) * TILE_SIZE)
        with (TILE_SIZE * Z.of_nat (nN + 1 + nS)) by (unfold TILE_SIZE; lia).
      apply to_int32_id.
      destruct Hwf as (_ & _ & Hsz & _).
      pose proof (run_at_bound _ _ _ (inv_map _ Hinv) HrS) as (_ & Hb & _).
      pose proof (run_at_bound _ _ _ (inv_map _ Hinv) HrN) as (Ht0 & _ & _).
      rewrite (line_offset _ _ _ HlS), Hsnth in Hb.
      rewrite (tile_nth_line _ _ _ _ HlN) in Hnth.
      assert (0 < nS)%nat by apply HrS.
      rewrite Nat2Z.inj_sub in Hb by lia.
      unfold int_range, TILE_SIZE in *. nia.
    + unfold occupancy_of. cbn. by rewrite Hnv, Hsv.
  - intros q Hq Hq'. cbn. by rewrite lookup_insert_ne, lookup_delete_ne.
Qed.
End make_cases.

(** [MakeDriveThrough] on a pending stop returns, and what it does is what
    [attach_post] describes. *)
Lemma MakeDriveThrough_attach w this x :
  Inv w → pending_stop w this x →
  ∃ N S p w',
    north_case w x N ∧ south_case w x S ∧
    MakeDriveThrough this w = Some (tt, w') ∧
    attach_post w x N S p w'.
Proof.
  intros Hinv (Hx & Hptr & Hxp). pose proof (inv_map _ Hinv) as Hwf.
  destruct (registry_ptr _ _ Hinv Hx) as (r & s & Hr & Hs & Hxy).
  assert (r = this) as -> by congruence. clear Hr.
  assert (platform s = None) as Hp.
  { by destruct (tile_platform_ptr _ _ _ _ Hptr Hs) as [<- _]. }
  pose proof (stop_offset_bounds w x Hwf) as Hoff.
  destruct (attach_north_analysis w x Hinv Hx Hxp) as [Hno HN].
  destruct (attach_south_analysis w x Hinv Hx Hxp) as [Hso HS].
  pose proof (wf_map_station _ _ Hwf (is_stop_station _ _ Hx)) as (Hx0 & _ & _).
  destruct HN as [[HaN HfN]|(t0 & nN & pn & rn & sn & nv & HgN & Hnth & HlN & HnN & HrnN)];
    destruct HS as [[HaS HfS]|(nS & ps & rs & ss & sv & HgS & HlS & HnS & HrsS & HbS)].
  - (* no neighbour *)
    destruct (MakeDriveThrough_alone_eq w this s Hs Hp) as [Hfresh Hrun];
      [by rewrite Hxy..|].
    eexists None, None, _, _. split_and!; [done|done|exact Hrun|].
    by eapply make_alone.
  - (* a run to the south *)
    pose proof HnS as (_ & Hget & Hss & Hps & Hsv).
    assert (rs ≠ this) as Hne.
    { intros ->. pose proof (stop_ptr_inj _ _ _ _ HrsS Hptr). lia. }
    eexists None, (Some (nS, ps)), _, _. split_and!; [done|done| |].
    + apply (MakeDriveThrough_south_only w this s rs ss ps sv);
        rewrite ?Hxy; done.
    + by eapply make_south.
  - (* a run to the north *)
    pose proof HnN as (_ & Hget & Hsn & Hpn & Hnv).
    assert (rn ≠ this) as Hne.
    { intros ->. pose proof (stop_ptr_inj _ _ _ _ HrnN Hptr). lia. }
    eexists (Some (t0, nN, pn)), None, _, _. split_and!; [done|done| |].
    + apply (MakeDriveThrough_north_only w this s rn sn pn nv);
        rewrite ?Hxy; try done. rewrite Hso. lia.
    + by eapply make_north.
  - (* a run on either side *)
    pose proof HnN as (_ & HgetN & Hsn & Hpn & Hnv).
    pose proof HnS as (_ & HgetS & Hss & Hps & Hsv).
    pose proof HgS as (HrS & HstS & _).
    pose proof HgN as (HrN & _ & _ & HexN).
    assert (rn ≠ this) as Hne1.
    { intros ->. pose proof (stop_ptr_inj _ _ _ _ HrnN Hptr). lia. }
    assert (rs ≠ this) as Hne2.
    { intros ->. pose proof (stop_ptr_inj _ _ _ _ HrsS Hptr). lia. }
    set (so := x + stop_offset w x) in *.
    assert (∀ j, tile_nth w so j = x + stop_offset w x + Z.of_nat j * stop_offset w x)
      as Hsnth.
    { intros j. by rewrite (tile_nth_line _ _ _ _ HlS). }
    assert (∀ j, (j < nS)%nat → is_Some (stop_ptr w (tile_nth w so j))) as Hall.
    { intros j Hj. destruct (run_at_tile _ _ _ _ HrS Hj) as (Hsj & _).
      destruct (registry_ptr _ _ Hinv Hsj) as (r & _ & -> & _). done. }
    assert (is_stop w so = true) as Hsso.
    { destruct HrS as (_ & [? _]%attached_true & _). done. }
    assert (pn ≠ ps) as Hne3.
    { intros ->. destruct (HexN so Hsso) as (j & Hj & Heq).
      - destruct (tile_platform_ptr _ _ _ _ HrsS Hss) as [-> _]. done.
      - rewrite (tile_nth_line _ _ _ j HlN) in Heq.
        rewrite (tile_nth_line _ _ _ nN HlN) in Hnth. subst so. nia. }
    pose proof (run_at_bound _ _ _ Hwf HrS) as (_ & Hb & HbS').
    rewrite (line_offset _ _ _ HlS), Hsnth in Hb.
    assert (0 < nS)%nat as HnS0 by apply HrS.
    rewrite Nat2Z.inj_sub in Hb by lia.
    destruct (wf_map_station _ _ Hwf (is_stop_station _ _ Hx)) as (_ & _ & Hsz).
    destruct (MakeDriveThrough_merge w this s rn sn pn nv rs ss ps sv
                (segment_ptrs w so nS)) as (st' & Hrun & Hrep);
      rewrite ?Hxy, ?segment_ptrs_length by done; try done.
    + lia.
    + lia.
    + unfold map_fuel. lia.
    + change (Z.of_nat 1) with 1 in Hb. lia.
    + intros i r [Hi Hri]%segment_ptrs_lookup; [|done].
      destruct (run_at_tile _ _ _ _ HrS Hi) as (Hsi & Hli & _).
      rewrite Hsnth in Hsi, Hli.
      destruct (GetByTile_in_Some _ _ _ _ Hri) as (si & Hsti & _).
      destruct (tile_platform_ptr _ _ _ _ Hri Hsti) as [Hpi _].
      destruct (HstS i Hi) as [Hpi' _].
      split_and!.
      * apply cont_true. split; [done|congruence].
      * rewrite <-Hri. unfold stop_ptr. rewrite Hsnth. f_equal.
        apply line_rst. congruence.
      * exists si. split; [done|]. congruence.
    + destruct HrS as (_ & _ & _ & _ & Hend).
      rewrite Hsnth in Hend.
      destruct (IsDriveThroughRoadStopContinuation w x
                  (x + stop_offset w x + Z.of_nat nS * stop_offset w x))
        eqn:Hc; [right|by left].
      pose proof Hc as [Hsb Hlb]%cont_true.
      destruct (registry_ptr _ _ Hinv Hsb) as (rb & sb & Hrb & Hstb & _).
      destruct (tile_platform_ptr _ _ _ _ Hrb Hstb) as [Hpb _].
      exists rb, sb. split_and!; [|done|].
      * rewrite <-Hrb. unfold stop_ptr. f_equal. symmetry. by apply line_rst.
      * apply acont_false in Hend.
        destruct (platform sb) as [pb|] eqn:Hpsb; [|done].
        destruct Hend. split_and!; [done|congruence|by rewrite Hpb].
    + rewrite segment_ptrs_length in Hrun by done.
      rewrite ?Hxy in Hrep. fold so in Hrep.
      eexists (Some (t0, nN, pn)), (Some (nS, ps)), _, _.
      split_and!; [done|done|exact Hrun|].
      by eapply (make_merge w this x s Hinv Hx Hptr Hs Hp _ st' t0 nN pn nv nS
                   ps rs ss sv).
Qed.

(** [MakeDriveThrough] on a pending stop returns and keeps the invariant. *)
Lemma MakeDriveThrough_Inv w this x :
  Inv w → pending_stop w this x →
  ∃ w', MakeDriveThrough this w = Some (tt, w') ∧ Inv w' ∧
        same_env w w' ∧
        (∀ t, is_stop w t = true → is_Some (tile_platform w t) →
              is_Some (tile_platform w' t)) ∧
        is_Some (tile_platform w' x).
Proof.
  intros Hinv Hpend.
  destruct (MakeDriveThrough_attach w this x Hinv Hpend)
    as (N & S & p & w' & HN & HS & Hrun & Hpost).
  destruct Hpend as (Hx & Hptr & Hxp).
  exists w'. split_and!; [done| | | |].
  - by eapply attach_preserves.
  - apply Hpost.
  - intros t Ht Hsome.
    rewrite (attach_platform' w x N S p w' Hpost t Ht).
    by case_decide.
  - destruct Hpost as [_ _ [-> _] _ _ _ _]. done.
Qed.

(** * Detaching preserves the invariant *)

Section detach.
Context (w : World) (x t0 : TileIndex) (n : nat) (p : PlatformPtr)
  (k : nat) (q : PlatformPtr) (w' : World).
Context (Hinv : Inv w) (Hnp : no_pending w) (Hrun : good_run w t0 n p)
  (Hk : (k < n)%nat) (Hx : x = tile_nth w t0 k)
  (Hpost : detach_post w x t0 n p k q w').

Local Abbreviation doff := (stop_offset w t0).

Local Lemma detach_off : 1 ≤ doff.
Proof. apply stop_offset_bounds, Hinv. Qed.

Local Lemma detach_nth_inj i j : tile_nth w t0 i = tile_nth w t0 j → i = j.
Proof. unfold tile_nth. pose proof detach_off. nia. Qed.

Local Lemma detach_tile j :
  (j < n)%nat →
  is_stop w (tile_nth w t0 j) = true ∧ line w (tile_nth w t0 j) = line w t0.
Proof.
  intros Hj. destruct Hrun as (Hr & _).
  by destruct (run_at_tile _ _ _ _ Hr Hj) as (? & ? & _).
Qed.

Local Lemma detach_map t :
  map_tiles w' t = if decide (t = x) then clear_tile else map_tiles w t.
Proof. destruct Hpost as [(_ & _ & -> & _) _ _ _ _ _ _]. done. Qed.

Local Lemma detach_is_stop t :
  is_stop w' t = if decide (t = x) then false else is_stop w t.
Proof.
  unfold is_stop, IsStationTile, IsDriveThroughStopTile.
  rewrite detach_map. by case_decide.
Qed.

Local Lemma detach_is_stop' t :
  is_stop w' t = true ↔ t ≠ x ∧ is_stop w t = true.
Proof. rewrite detach_is_stop. case_decide; naive_solver. Qed.

Local Lemma detach_line t : t ≠ x → line w' t = line w t.
Proof.
  intros Hne. unfold line, GetStationIndex, GetStationType, GetRoadStopAxis.
  rewrite detach_map. by rewrite decide_False.
Qed.

Local Lemma detach_offset t : t ≠ x → stop_offset w' t = stop_offset w t.
Proof.
  intros Hne. unfold stop_offset, TileOffsByDiagDir, GetRoadStopAxis.
  rewrite detach_map, decide_False by done.
  by destruct Hpost as [(-> & _) _ _ _ _ _ _].
Qed.

Local Lemma detach_tile_nth t i : t ≠ x → tile_nth w' t i = tile_nth w t i.
Proof. intros Hne. unfold tile_nth. by rewrite detach_offset. Qed.

Local Lemma detach_wf_map : wf_map w'.
Proof.
  destruct Hinv as [(H1 & H2 & H3 & H4) _ _ _].
  unfold wf_map. destruct Hpost as [(-> & -> & Hm & _) _ _ _ _ _ _].
  split_and!; try done. intros t Ht. apply H4.
  unfold IsStationTile in *. rewrite Hm in Ht. unfold cleared_map in Ht.
  by case_decide.
Qed.

(** The tiles south of [x] in the run. *)
Local Lemma detach_south_dec t :
  (∃ j, (k < j < n)%nat ∧ t = tile_nth w t0 j) ∨
  (∀ j, (k < j < n)%nat → t ≠ tile_nth w t0 j).
Proof.
  destruct (decide (S k < n)%nat) as [Hlt|Hge]; [|right; intros; lia].
  assert (∀ i, tile_nth w (tile_nth w t0 (S k)) i = tile_nth w t0 (S k + i))
    as Hn.
  { intros i. destruct (detach_tile (S k) Hlt) as [_ Hl].
    rewrite (tile_nth_line _ _ _ _ Hl). unfold tile_nth. lia. }
  destruct (decide (t ∈ segment w (tile_nth w t0 (S k)) (n - S k)))
    as [Hin|Hnin].
  - left. apply elem_of_segment in Hin as (i & Hi & ->).
    exists (S k + i)%nat. split; [lia|]. apply Hn.
  - right. intros j Hj ->. apply Hnin, elem_of_segment.
    exists (j - S k)%nat. split; [lia|].
    rewrite Hn. f_equal. lia.
Qed.

Local Lemma detach_platform' t :
  is_stop w t = true → t ≠ x → is_Some (tile_platform w' t).
Proof.
  intros Ht Hne. destruct (detach_south_dec t) as [(j & Hj & ->)|Hns].
  - destruct Hpost as [_ _ Hs _ _ _ _]. destruct (Hs j Hj) as [-> _]. eauto.
  - destruct Hpost as [_ _ _ Ho _ _ _].
    rewrite (stop_at_tile_platform _ _ _ _ (Ho t Ht Hne Hns)). by apply Hnp.
Qed.

Local Lemma detach_no_pending : no_pending w'.
Proof. intros t [Hne Ht]%detach_is_stop'. by apply detach_platform'. Qed.

Local Lemma detach_acont a b :
  a ≠ x → acont w' a b = if decide (b = x) then false else acont w a b.
Proof.
  intros Ha. apply eq_true_iff_eq. rewrite acont_true, detach_is_stop'.
  case_decide as Hb; [naive_solver|].
  rewrite acont_true, !detach_line by done. split.
  - intros ((_ & Hs) & Hl & _). split_and!; try done. by apply Hnp.
  - intros (Hs & Hl & _). split_and!; try done. by apply detach_platform'.
Qed.

Local Lemma detach_attached t :
  attached w' t = true ↔ t ≠ x ∧ attached w t = true.
Proof.
  rewrite !attached_true, detach_is_stop'. split.
  - intros ((? & ?) & _). split_and!; try done. by apply Hnp.
  - intros (? & ? & _). split_and!; try done. by apply detach_platform'.
Qed.
Local Lemma detach_x_ne j : j ≠ k → tile_nth w t0 j ≠ x.
Proof. intros Hj Heq. rewrite Hx in Heq. by apply detach_nth_inj in Heq. Qed.

Local Lemma detach_p_live : is_Some (platforms w !! p).
Proof. destruct Hrun as (_ & _ & (v & Hv & _) & _). eauto. Qed.

Local Lemma detach_unchanged t :
  is_stop w t = true → t ≠ x →
  (∀ j, (k < j < n)%nat → t ≠ tile_nth w t0 j) →
  tile_platform w' t = tile_platform w t ∧ tile_base w' t = tile_base w t.
Proof.
  intros Ht Hne Hns. destruct Hpost as [_ _ _ Ho _ _ _].
  specialize (Ho t Ht Hne Hns).
  by rewrite (stop_at_tile_platform _ _ _ _ Ho), (stop_at_tile_base _ _ _ _ Ho).
Qed.

(** The part of the run north of [x]. *)
Local Lemma detach_north_run : (0 < k)%nat → good_run w' t0 k p.
Proof.
  intros Hk0. pose proof Hrun as (Hr & Hst & Hlen & Hex).
  assert (t0 ≠ x) as Ht0.
  { rewrite <-(tile_nth_0 w t0). apply detach_x_ne. lia. }
  assert (∀ i, tile_nth w' t0 i = tile_nth w t0 i) as Hn'
    by (intros; by apply detach_tile_nth).
  split_and!.
  - destruct Hr as (_ & Hatt & Hin & Hnorth & Hsouth). split_and!.
    + done.
    + by apply detach_attached.
    + intros i Hi. rewrite Hn', detach_acont by done.
      rewrite decide_False by (apply detach_x_ne; lia). apply Hin. lia.
    + rewrite detach_offset, detach_acont by done. by case_decide.
    + rewrite Hn', detach_acont, <-Hx by done. by rewrite decide_True.
  - intros i Hi. rewrite Hn'.
    destruct (detach_unchanged (tile_nth w t0 i)) as [-> ->].
    + apply detach_tile. lia.
    + apply detach_x_ne. lia.
    + intros j Hj Heq%detach_nth_inj. lia.
    + apply Hst. lia.
  - destruct Hpost as [_ _ _ _ Hl _ _].
    destruct (Hl Hk0) as (v & Hv & Hlv & _). by exists v.
  - intros t [Hne Ht]%detach_is_stop' Hp.
    destruct (detach_south_dec t) as [(j & Hj & ->)|Hns].
    + exfalso. destruct Hpost as [_ [_ Hq] Hs _ _ _ _].
      destruct (Hs j Hj) as [Hpq _]. rewrite Hp in Hpq.
      specialize (Hq Hk0). destruct detach_p_live as [? ?]. congruence.
    + destruct (detach_unchanged t Ht Hne Hns) as [Hp' _].
      rewrite Hp in Hp'. destruct (Hex t Ht (eq_sym Hp')) as (j & Hj & ->).
      exists j. rewrite Hn'. split; [|done].
      destruct (Nat.lt_trichotomy j k) as [?|[->|?]]; [done|..].
      * by rewrite <-Hx in Hne.
      * exfalso. eapply (Hns j); [lia|done].
Qed.

(** The part of the run south of [x]. *)
Local Lemma detach_south_run :
  (S k < n)%nat → good_run w' (tile_nth w t0 (S k)) (n - S k) q.
Proof.
  intros Hkn. pose proof Hrun as (Hr & Hst & Hlen & Hex).
  set (h := tile_nth w t0 (S k)).
  destruct (detach_tile (S k) Hkn) as [Hhs Hhl]. fold h in Hhs, Hhl.
  assert (h ≠ x) as Hhx by (apply detach_x_ne; lia).
  assert (∀ i, tile_nth w' h i = tile_nth w t0 (S k + i)) as Hn'.
  { intros i. rewrite detach_tile_nth by done.
    rewrite (tile_nth_line _ _ _ _ Hhl). unfold h, tile_nth. lia. }
  pose proof detach_off as Hoff.
  split_and!.
  - destruct Hr as (_ & Hatt & Hin & Hnorth & Hsouth). split_and!.
    + lia.
    + apply detach_attached. split; [done|].
      eapply good_run_attached; [apply Hrun|done].
    + intros i Hi. rewrite Hn', detach_acont by done.
      rewrite decide_False by (apply detach_x_ne; lia).
      rewrite (acont_line _ _ _ _ Hhl). apply Hin. lia.
    + rewrite detach_offset, detach_acont by done.
      rewrite decide_True; [done|].
      rewrite (line_offset _ _ _ Hhl), Hx. unfold h, tile_nth. lia.
    + rewrite Hn', detach_acont by done. case_decide; [done|].
      rewrite (acont_line _ _ _ _ Hhl).
      by replace (S k + (n - S k))%nat with n by lia.
  - intros i Hi. rewrite Hn'. destruct Hpost as [_ _ Hs _ _ _ _].
    destruct (Hs (S k + i)%nat ltac:(lia)) as [-> ->]. split; [done|].
    apply bool_decide_ext. lia.
  - destruct Hpost as [_ _ _ _ _ Hl _].
    destruct (Hl Hkn) as (v & Hv & Hlv & _). by exists v.
  - intros t [Hne Ht]%detach_is_stop' Hp.
    destruct (detach_south_dec t) as [(j & Hj & ->)|Hns].
    + exists (j - S k)%nat. split; [lia|]. rewrite Hn'. f_equal. lia.
    + exfalso. destruct (detach_unchanged t Ht Hne Hns) as [Hp' _].
      rewrite Hp in Hp'. symmetry in Hp'.
      destruct Hpost as [_ [Hq0 Hq] _ _ _ _ _].
      destruct (decide (k = 0%nat)) as [Hk0|Hk0].
      * rewrite (Hq0 Hk0) in Hp'. destruct (Hex t Ht Hp') as (j & Hj & ->).
        destruct (decide (j = k)) as [->|Hjk]; [by rewrite <-Hx in Hne|].
        eapply (Hns j); [lia|done].
      * destruct (attached_platform_live w t q Hinv Ht Hp') as [v Hv].
        rewrite Hq in Hv by lia. done.
Qed.

(** The other runs are left alone. *)
Local Lemma detach_other_run t0' n' p' :
  good_run w t0' n' p' → t0' ≠ t0 → good_run w' t0' n' p'.
Proof.
  intros Hg Hne0. pose proof Hg as (Hr & Hst & Hlen & Hex).
  assert (∀ i j, (i < n')%nat → (j < n)%nat →
                 tile_nth w t0' i ≠ tile_nth w t0 j) as Hdisj.
  { intros i j Hi Hj Heq.
    by destruct (good_run_unique w t0' n' p' i t0 n p j (inv_map _ Hinv))
      as (? & _). }
  assert (0 < n')%nat as Hn0 by apply Hr.
  assert (t0' ≠ x) as Ht0.
  { rewrite <-(tile_nth_0 w t0'), Hx. by apply Hdisj. }
  assert (∀ i, tile_nth w' t0' i = tile_nth w t0' i) as Hn'
    by (intros; by apply detach_tile_nth).
  assert (p' ≠ p) as Hpp.
  { intros Hpp. rewrite Hpp in Hst. destruct (Hst 0%nat Hn0) as [Hp0 _].
    pose proof (proj1 (run_at_tile _ _ _ _ Hr Hn0)) as Hs0.
    destruct (proj2 (proj2 (proj2 Hrun)) _ Hs0 Hp0) as (j & Hj & Heq).
    by eapply Hdisj. }
  split_and!.
  - destruct Hr as (_ & Hatt & Hin & Hnorth & Hsouth). split_and!.
    + done.
    + by apply detach_attached.
    + intros i Hi. rewrite Hn', detach_acont by done.
      rewrite decide_False by (rewrite Hx; by apply Hdisj). by apply Hin.
    + rewrite detach_offset, detach_acont by done. by case_decide.
    + rewrite Hn', detach_acont by done. by case_decide.
  - intros i Hi. rewrite Hn'.
    destruct (detach_unchanged (tile_nth w t0' i)) as [-> ->].
    + by destruct (run_at_tile _ _ _ _ Hr Hi).
    + rewrite Hx. by apply Hdisj.
    + intros j Hj. apply Hdisj; [done|lia].
    + by apply Hst.
  - destruct Hlen as (v & Hv & Hlv). exists v. split; [|done].
    destruct Hpost as [_ [Hq0 Hq] _ _ _ _ Hh]. rewrite Hh; [done..|].
    intros Hpq'. destruct (decide (k = 0%nat)) as [Hk0|Hk0].
    + apply Hpp. rewrite Hpq'. by apply Hq0.
    + rewrite Hpq', Hq in Hv by lia. done.
  - intros t [Hne Ht]%detach_is_stop' Hp.
    destruct (detach_south_dec t) as [(j & Hj & ->)|Hns].
    + exfalso. destruct Hpost as [_ [Hq0 Hq] Hs _ _ _ _].
      destruct (Hs j Hj) as [Hpq _]. rewrite Hp in Hpq.
      assert (p' = q) as Hpq' by congruence.
      destruct Hlen as (v & Hv & _).
      destruct (decide (k = 0%nat)) as [Hk0|Hk0].
      * apply Hpp. rewrite Hpq'. by apply Hq0.
      * rewrite Hpq', Hq in Hv by lia. done.
    + destruct (detach_unchanged t Ht Hne Hns) as [Hp' _].
      rewrite Hp in Hp'. destruct (Hex t Ht (eq_sym Hp')) as (j & Hj & ->).
      exists j. by rewrite Hn'.
Qed.

Theorem detach_preserves : Inv w' ∧ no_pending w'.
Proof.
  split; [|apply detach_no_pending]. split.
  - apply detach_wf_map.
  - intros t [Hne Ht]%detach_is_stop'.
    destruct (detach_platform' t Ht Hne) as [r Hr].
    apply tile_platform_stop_at in Hr as (s & -> & _). eauto.
  - intros t [Hne Ht]%detach_is_stop' Hnone.
    destruct (detach_platform' t Ht Hne) as [r Hr]. congruence.
  - intros t [Hne Hatt]%detach_attached.
    destruct (inv_runs _ Hinv t Hatt) as (t0' & n' & p' & i & Hg & Hi & ->).
    destruct (decide (t0' = t0)) as [->|Hne0].
    + destruct (good_run_unique w t0 n' p' 0 t0 n p 0 (inv_map _ Hinv))
        as (_ & -> & _ & ->); [done|done|apply Hg|apply Hrun|done|].
      destruct (Nat.lt_trichotomy i k) as [Hlt|[->|Hgt]].
      * exists t0, k, p, i. split_and!; [apply detach_north_run; lia|done|].
        symmetry. apply detach_tile_nth.
        rewrite <-(tile_nth_0 w t0). apply detach_x_ne. lia.
      * by rewrite <-Hx in Hne.
      * exists (tile_nth w t0 (S k)), (n - S k)%nat, q, (i - S k)%nat.
        split_and!; [apply detach_south_run; lia|lia|].
        rewrite detach_tile_nth by (apply detach_x_ne; lia).
        destruct (detach_tile (S k) ltac:(lia)) as [_ Hl].
        rewrite (tile_nth_line _ _ _ _ Hl). unfold tile_nth.
        rewrite Nat2Z.inj_sub by lia. lia.
    + exists t0', n', p', i. split_and!; [by apply detach_other_run|done|].
      symmetry. apply detach_tile_nth.
      destruct Hg as (Hr & _).
      rewrite <-(tile_nth_0 w t0'), Hx.
      intros Heq.
      by destruct (run_at_unique w t0' n' 0 t0 n k (inv_map _ Hinv))
        as (? & _); [|apply Hrun|apply Hr|..|].
Qed.
End detach.

(** * [Rebuild] on a segment of continuing tiles *)

Lemma Rebuild_tile_env w w' de vs :
  vehicles w' = vehicles w →
  ∀ lists, Rebuild_tile w' de lists vs = Rebuild_tile w de lists vs.
Proof.
  intros Hv. induction vs as [|v vs IH]; intros lists; [done|].
  cbn [Rebuild_tile]. unfold Rebuild_vehicle. rewrite Hv.
  destruct (_ || _); cbn; [apply IH|].
  repeat (case_match; cbn; try done; try apply IH).
Qed.

Lemma Rebuild_scan_env w w' tile off de :
  same_env w w' →
  ∀ fuel t len lists,
    Rebuild_scan fuel w' tile off de t len lists =
    Rebuild_scan fuel w tile off de t len lists.
Proof.
  intros Henv. pose proof Henv as (_ & _ & _ & _ & Hvt & Hv).
  induction fuel as [|fuel IH]; intros t len lists; [done|].
  cbn [Rebuild_scan]. rewrite (same_env_cont _ _ _ _ Henv), Hvt.
  rewrite (Rebuild_tile_env _ _ _ _ Hv).
  destruct (IsDriveThroughRoadStopContinuation w tile t); [|done].
  destruct (Rebuild_tile w de lists (vehicles_on_tile w t)); cbn; [|done].
  apply IH.
Qed.

Lemma sum_lengths_env w w' l :
  vehicles w' = vehicles w → sum_lengths w' l = sum_lengths w l.
Proof. intros Hv. unfold sum_lengths. by rewrite Hv. Qed.

Lemma Platform_Rebuild_env w w' v t :
  same_env w w' → Platform_Rebuild w' v t = Platform_Rebuild w v t.
Proof.
  intros Henv. pose proof Henv as (Hx & Hsz & Hm & _ & _ & Hv).
  unfold Platform_Rebuild, map_fuel, GetRoadStopDir, GetRoadStopAxis,
    TileOffsByDiagDir.
  rewrite Hx, Hsz, Hm, (Rebuild_scan_env _ _ _ _ _ Henv).
  destruct (Rebuild_scan _ _ _ _ _ _ _ _) as [[len [le lw]]|]; cbn; [|done].
  by rewrite !(sum_lengths_env _ _ _ Hv).
Qed.

Lemma occupancy_env w w' dir tiles :
  vehicles_on_tile w' = vehicles_on_tile w → vehicles w' = vehicles w →
  occupancy w' dir tiles = occupancy w dir tiles.
Proof.
  intros Hvt Hv. unfold occupancy, run_vehicles.
  rewrite Hvt, (Rebuild_tile_env _ _ _ _ Hv).
  destruct (Rebuild_tile _ _ _ _) as [[le lw]|]; cbn; [|done].
  by rewrite !(sum_lengths_env _ _ _ Hv).
Qed.

(** The tiles [Rebuild] visits from the first tile of a segment of continuing
    tiles that ends at a tile which does not continue it. *)
Lemma run_tiles_segment w t0 n :
  0 < stop_offset w t0 →
  0 ≤ t0 → tile_nth w t0 n < 2 ^ 32 →
  (∀ i, (i < n)%nat →
        IsDriveThroughRoadStopContinuation w t0 (tile_nth w t0 i) = true) →
  IsDriveThroughRoadStopContinuation w t0 (tile_nth w t0 n) = false →
  ∀ fuel, (n < fuel)%nat →
  run_tiles fuel w t0 (stop_offset w t0) t0 = Some (segment w t0 n).
Proof.
  intros Hoff Ht0 Hmax Hin Hout.
  assert (∀ m i fuel, (i + m = n)%nat → (m < fuel)%nat →
            run_tiles fuel w t0 (stop_offset w t0) (tile_nth w t0 i) =
            Some (tile_nth w t0 <$> seq i m)) as Hgen.
  { induction m as [|m IH]; intros i fuel Him Hfuel.
    - destruct fuel as [|fuel]; [lia|]. cbn [run_tiles].
      replace i with n by lia. by rewrite Hout.
    - destruct fuel as [|fuel]; [lia|]. cbn [run_tiles].
      rewrite Hin by lia.
      replace (to_uint32 (tile_nth w t0 i + stop_offset w t0))
        with (tile_nth w t0 (S i)).
      + rewrite (IH (S i) fuel) by lia. done.
      + unfold tile_nth in *. rewrite to_uint32_id; [lia|]. nia. }
  intros fuel Hfuel. specialize (Hgen n 0%nat fuel eq_refl Hfuel).
  by rewrite tile_nth_0 in Hgen.
Qed.

Lemma Platform_Rebuild_segment w v t0 n :
  wf_map w →
  0 ≤ t0 → tile_nth w t0 n < MapSize w →
  (∀ i, (i < n)%nat →
        IsDriveThroughRoadStopContinuation w t0 (tile_nth w t0 i) = true) →
  IsDriveThroughRoadStopContinuation w t0 (tile_nth w t0 n) = false →
  Platform_Rebuild w v t0 =
    o ← occupancy w (GetRoadStopDir w t0) (segment w t0 n);
    Some {| length := TILE_SIZE * Z.of_nat n;
            occupied_east := o.1; occupied_west := o.2 |}.
Proof.
  intros Hwf Ht0 Hmax Hin Hout.
  pose proof (stop_offset_bounds w t0 Hwf) as Hoff.
  pose proof Hwf as (Hx & Hxs & Hsz & _).
  assert (Z.of_nat n < MapSize w) as Hn by (unfold tile_nth in Hmax; nia).
  unfold Platform_Rebuild. rewrite (Rebuild_offset _ _ Hwf).
  rewrite (Rebuild_scan_spec _ _ _ _ _ _ _ _ (segment w t0 n)).
  - unfold occupancy.
    destruct (Rebuild_tile _ _ _ _) as [[le lw]|]; cbn; [|done].
    rewrite fold_int_add_length by done. rewrite Z.add_0_l.
    unfold segment. rewrite length_fmap, length_seq.
    rewrite to_int32_id; [done|]. unfold int_range, TILE_SIZE in *. lia.
  - apply run_tiles_segment; try done; [lia|unfold TILE_SIZE in *; lia|].
    unfold map_fuel. lia.
Qed.

(** * The cases of [ClearDriveThrough] *)

Lemma ClearDriveThrough_last_eq w this s tp tv :
  stops w !! this = Some s →
  platform s = Some tp → platforms w !! tp = Some tv →
  IsDriveThroughRoadStopContinuation w (xy s) (north_of w (xy s)) = false →
  IsDriveThroughRoadStopContinuation w (xy s) (south_of w (xy s)) = false →
  ClearDriveThrough this w =
    Some (tt,
      with_platforms
        (with_stops (with_map w (cleared_map w (xy s)))
           (<[this := {| xy := xy s;
                         status := ClrBit (status s) RSSFB_BASE_ENTRY;
                         platform := None; next := next s |}]> (stops w)))
        (delete tp (platforms w))).
Proof.
  intros Hs Hp Htv Hn Hso.
  unfold ClearDriveThrough, cleared_map, north_of, south_of, stop_offset in *.
  msimpl. do 2 f_equal. world_ext. by rewrite insert_insert_eq.
Qed.

Lemma ClearDriveThrough_split w this s tp rn rs ss r0 s0 p v0 ptrsS ptrsN :
  let x := xy s in
  let off := stop_offset w x in
  let rst := GetRoadStopType w x in
  let w0 := with_map w (cleared_map w x) in
  let q := fresh (dom (platforms w)) in
  0 < off →
  north_of w x = x - off → south_of w x = x + off →
  0 ≤ x - off - Z.of_nat (Datatypes.length ptrsN) * off →
  x + off + off + Z.of_nat (Datatypes.length ptrsS) * off < 2 ^ 32 →
  (Datatypes.length ptrsS < map_fuel w)%nat →
  (Datatypes.length ptrsN < map_fuel w)%nat →
  stops w !! this = Some s → platform s = Some tp →
  IsDriveThroughRoadStopContinuation w x (x - off) = true →
  GetByTile_in w (x - off) rst = Some rn →
  IsDriveThroughRoadStopContinuation w x (x + off) = true →
  GetByTile_in w (x + off) rst = Some rs →
  stops w !! rs = Some ss → rs ≠ this →
  walkable w0 (x + off) rst off (x + off + off) ptrsS →
  IsDriveThroughRoadStopContinuation w0 (x + off)
    (x + off + off + Z.of_nat (Datatypes.length ptrsS) * off) = false →
  walkable w0 (x + off) rst (- off) (x - off) ptrsN →
  IsDriveThroughRoadStopContinuation w0 (x + off)
    (x - off + Z.of_nat (Datatypes.length ptrsN) * - off) = false →
  last ptrsN = Some r0 →
  stops w !! r0 = Some s0 → r0 ≠ rs → r0 ∉ ptrsS → r0 ≠ this →
  this ∉ ptrsS →
  HasBit (status s0) RSSFB_BASE_ENTRY = true →
  platform s0 = Some p → platforms w !! p = Some v0 →
  ∃ st',
    ClearDriveThrough this w =
      (vS ← Platform_Rebuild w0 new_Platform_value (xy ss);
       vN ← Platform_Rebuild w0 v0 (xy s0);
       Some (tt,
         with_platforms
           (with_stops w0
              (<[this := {| xy := xy s;
                            status := ClrBit (status s) RSSFB_BASE_ENTRY;
                            platform := None; next := next s |}]> st'))
           (<[p := vN]> (<[q := vS]> (platforms w))))) ∧
    repointed
      (<[rs := set_platform (set_status ss (SetBit (status ss) RSSFB_BASE_ENTRY))
                 (Some q)]> (stops w))
      st' ptrsS (Some q).
Proof.
  intros x off rst w0 q Hoff Hnorth Hsouth HbN HbS HfS HfN Hs Hp
    Hcn Hrn Hcs Hrs Hss Hne HwS HoS HwN HoN Hlast Hs0 Hne0 Hnin0 Hne0'
    Hnin Hbase Hp0 Hv0.
  set (st1 := <[rs := set_platform
                        (set_status ss (SetBit (status ss) RSSFB_BASE_ENTRY))
                        (Some q)]> (stops w)).
  unfold ClearDriveThrough. subst x off rst.
  unfold north_of, south_of, stop_offset, cleared_map in *.
  msimpl. rewrite ?Hsouth, ?Hnorth. rewrite insert_insert_eq. fold q st1.
  match goal with
  | |- context [ClearDriveThrough_south _ _ _ _ _ _ ?W] => set (w1 := W)
  end.
  change (map_fuel w1) with (map_fuel w).
  assert (same_env w0 w1) as Henv by done.
  assert (stops w1 = st1) as Hst1 by done.
  assert (same_chain (stops w0) (stops w1)) as Hchain.
  { rewrite Hst1. by apply (same_chain_insert _ rs ss). }
  match goal with
  | |- context [ClearDriveThrough_south ?f ?b ?r ?o ?rb ?t w1] =>
      destruct (ClearDriveThrough_south_spec f b r o rb (Some q) Hoff ptrsS w1
                  (b + o))
        as (st' & Hloop & Hrep)
  end.
  - done.
  - lia.
  - lia.
  - intros i r Hi. destruct (HwS i r Hi) as (Hc & Hr).
    by rewrite (same_env_cont _ _ _ _ Henv),
      (GetByTile_in_env _ _ _ _ Henv Hchain).
  - by rewrite (same_env_cont _ _ _ _ Henv).
  - eexists. rewrite Hst1. subst st1. rewrite lookup_insert_eq. done.
  - exists st'. rewrite Hst1 in Hrep. split; [|done].
    rewrite to_uint32_id by lia. rewrite Hloop.
    set (w2 := with_stops w1 st').
    assert (same_env w0 w2) as Henv2 by done.
    assert (same_chain (stops w0) (stops w2)) as Hchain2.
    { apply (same_chain_trans _ st1); [by rewrite <-Hst1|].
      by eapply repointed_chain. }
    rewrite (ClearDriveThrough_north_spec _ w2 _ _ _ Hoff ptrsN).
    2: done. 2: lia. 2: lia.
    2: { intros i r Hi. destruct (HwN i r Hi) as (Hc & Hr).
         by rewrite (same_env_cont _ _ _ _ Henv2),
           (GetByTile_in_env _ _ _ _ Henv2 Hchain2). }
    2: by rewrite (same_env_cont _ _ _ _ Henv2).
    rewrite Hlast. cbn [fmap option_fmap option_map default].
    assert (∃ s', st' !! rs = Some s' ∧ platform s' = Some q ∧ xy s' = xy ss)
      as (s' & Hs' & Hp' & Hxy').
    { rewrite Hrep. subst st1. rewrite lookup_insert_eq.
      case_decide; cbn; eauto. }
    assert (st' !! r0 = Some s0) as Hs0'.
    { rewrite Hrep. subst st1. rewrite decide_False by done.
      by rewrite lookup_insert_ne. }
    assert (∃ s'', st' !! this = Some s'') as (s'' & Hs'').
    { rewrite Hrep. subst st1. rewrite decide_False by done.
      rewrite lookup_insert_ne by done. eauto. }
    assert (s'' = s) as ->.
    { rewrite Hrep in Hs''. subst st1. rewrite decide_False in Hs'' by done.
      rewrite lookup_insert_ne in Hs'' by done. congruence. }
    assert (p ≠ q) as Hpq.
    { intros Heq. pose proof (fresh_platform_None w) as Hf. fold q in Hf.
      rewrite <-Heq in Hf. congruence. }
    unfold RoadStop_Rebuild. subst w2 w1. msimpl.
    rewrite (Platform_Rebuild_env w0) by done.
    destruct (Platform_Rebuild w0 new_Platform_value (xy ss)) as [vS|];
      [|done].
    unfold id. msimpl.
    rewrite (Platform_Rebuild_env w0) by done.
    destruct (Platform_Rebuild w0 v0 (xy s0)) as [vN|]; [|done].
    msimpl. cbn. do 2 f_equal. world_ext.
    + by rewrite insert_insert_eq.
    + by rewrite insert_insert_eq.
Qed.

(** * Worlds with one tile cleared *)

Section cleared.
Context (w : World) (x : TileIndex) (w' : World) (Henv : cleared_env w x w').

Lemma cleared_map_tiles t :
  map_tiles w' t = if decide (t = x) then clear_tile else map_tiles w t.
Proof. destruct Henv as (_ & _ & -> & _). done. Qed.

Lemma cleared_is_stop t :
  is_stop w' t = true ↔ t ≠ x ∧ is_stop w t = true.
Proof.
  unfold is_stop, IsStationTile, IsDriveThroughStopTile.
  rewrite cleared_map_tiles. case_decide; naive_solver.
Qed.

Lemma cleared_line t : t ≠ x → line w' t = line w t.
Proof.
  intros Hne. unfold line, GetStationIndex, GetStationType, GetRoadStopAxis.
  rewrite cleared_map_tiles. by rewrite decide_False.
Qed.

Lemma cleared_rst t : t ≠ x → GetRoadStopType w' t = GetRoadStopType w t.
Proof.
  intros Hne. unfold GetRoadStopType, GetStationType.
  rewrite cleared_map_tiles.
  by rewrite (decide_False (P := t = x)) by done.
Qed.

Lemma cleared_dir t : t ≠ x → GetRoadStopDir w' t = GetRoadStopDir w t.
Proof.
  intros Hne. unfold GetRoadStopDir, GetRoadStopAxis.
  rewrite cleared_map_tiles. by rewrite decide_False.
Qed.

Lemma cleared_offset t : t ≠ x → stop_offset w' t = stop_offset w t.
Proof.
  intros Hne. unfold stop_offset, TileOffsByDiagDir, GetRoadStopAxis.
  rewrite cleared_map_tiles, decide_False by done.
  by destruct Henv as (-> & _).
Qed.

Lemma cleared_tile_nth t i : t ≠ x → tile_nth w' t i = tile_nth w t i.
Proof. intros Hne. unfold tile_nth. by rewrite cleared_offset. Qed.

Lemma cleared_segment t m : t ≠ x → segment w' t m = segment w t m.
Proof.
  intros Hne. unfold segment. apply list_fmap_ext. intros ? i _.
  by apply cleared_tile_nth.
Qed.

Lemma cleared_wf_map : wf_map w → wf_map w'.
Proof.
  intros (H1 & H2 & H3 & H4).
  unfold wf_map. destruct Henv as (-> & -> & Hm & _).
  split_and!; try done. intros t Ht. apply H4.
  unfold IsStationTile in *. rewrite Hm in Ht. unfold cleared_map in Ht.
  by case_decide.
Qed.

Lemma cleared_cont a b :
  a ≠ x →
  IsDriveThroughRoadStopContinuation w' a b =
  if decide (b = x) then false
  else IsDriveThroughRoadStopContinuation w a b.
Proof.
  intros Ha. apply eq_true_iff_eq. rewrite cont_true, cleared_is_stop.
  case_decide as Hb; [naive_solver|].
  rewrite cont_true, !cleared_line by done. tauto.
Qed.

Lemma cleared_stop_ptr t :
  same_chain (stops w) (stops w') → t ≠ x → stop_ptr w' t = stop_ptr w t.
Proof.
  intros Hc Hne. unfold stop_ptr. rewrite cleared_rst by done.
  apply GetByTile_in_frame; [done|apply Henv|].
  unfold GetStationIndex. rewrite cleared_map_tiles. by rewrite decide_False.
Qed.

Lemma cleared_stop_at t :
  same_chain (stops w) (stops w') → t ≠ x →
  stop_at w' t = stop_ptr w t ≫= (stops w' !!.).
Proof. intros Hc Hne. unfold stop_at. by rewrite cleared_stop_ptr. Qed.

Lemma cleared_occupancy dir tiles :
  occupancy w' dir tiles = occupancy w dir tiles.
Proof. apply occupancy_env; apply Henv. Qed.
End cleared.

Lemma acont_cont w a b :
  no_pending w → acont w a b = IsDriveThroughRoadStopContinuation w a b.
Proof.
  intros Hnp. unfold acont.
  destruct (IsDriveThroughRoadStopContinuation w a b) eqn:Hc; [|done].
  apply cont_true in Hc as [Hb _]. cbn.
  apply bool_decide_eq_true_2. by apply Hnp.
Qed.

(** The road stops registered for a sequence of tiles. *)
Lemma ptrs_lookup w (f : nat → TileIndex) a m i r :
  (∀ j, (j < m)%nat → is_Some (stop_ptr w (f (a + j)%nat))) →
  omap (stop_ptr w) (f <$> seq a m) !! i = Some r ↔
  (i < m)%nat ∧ stop_ptr w (f (a + i)%nat) = Some r.
Proof.
  intros Hall. rewrite omap_lookup_total.
  - rewrite list_lookup_fmap.
    destruct (decide (i < m)%nat) as [Hi|Hi].
    + rewrite lookup_seq_lt by done. cbn. naive_solver.
    + rewrite lookup_seq_ge by lia. cbn. naive_solver.
  - intros t (j & -> & Hj%elem_of_seq)%list_elem_of_fmap.
    replace j with (a + (j - a))%nat by lia. apply Hall. lia.
Qed.

Lemma ptrs_length w (f : nat → TileIndex) a m :
  (∀ j, (j < m)%nat → is_Some (stop_ptr w (f (a + j)%nat))) →
  Datatypes.length (omap (stop_ptr w) (f <$> seq a m)) = m.
Proof.
  intros Hall. set (l := omap (stop_ptr w) (f <$> seq a m)).
  destruct (Nat.lt_trichotomy (Datatypes.length l) m)
    as [Hlt|[?|Hgt]]; [exfalso|done|exfalso].
  - destruct (Hall _ Hlt) as [r Hr].
    assert (l !! Datatypes.length l = Some r) as Hl by by apply ptrs_lookup.
    apply lookup_lt_Some in Hl. lia.
  - destruct (lookup_lt_is_Some_2 l m Hgt) as [r Hr].
    apply ptrs_lookup in Hr as [? _]; [lia|done].
Qed.

(** * From the code to the tile-wise description of detaching *)

Section clear_cases.
Context (w : World) (this : RoadStopPtr) (x : TileIndex) (s : RoadStop)
  (t0 : TileIndex) (n : nat) (p : PlatformPtr) (k : nat).
Context (Hinv : Inv w) (Hnp : no_pending w)
  (Hptr : stop_ptr w x = Some this) (Hs : stops w !! this = Some s)
  (Hrun : good_run w t0 n p) (Hk : (k < n)%nat) (Hxk : x = tile_nth w t0 k).

Local Abbreviation coff := (stop_offset w t0).

Local Lemma clear_off : 1 ≤ coff.
Proof. apply stop_offset_bounds, Hinv. Qed.

Local Lemma clear_run_tile j :
  (j < n)%nat →
  is_stop w (tile_nth w t0 j) = true ∧ line w (tile_nth w t0 j) = line w t0.
Proof.
  intros Hj. destruct Hrun as (Hr & _).
  by destruct (run_at_tile _ _ _ _ Hr Hj) as (? & ? & _).
Qed.

Local Lemma clear_nth_inj i j : tile_nth w t0 i = tile_nth w t0 j → i = j.
Proof. unfold tile_nth. pose proof clear_off. nia. Qed.

Local Lemma clear_xy : xy s = x.
Proof. apply GetByTile_in_Some in Hptr as (s' & ? & ?). congruence. Qed.

Local Lemma clear_x :
  is_stop w x = true ∧ line w x = line w t0 ∧ stop_offset w x = coff ∧
  GetRoadStopType w x = GetRoadStopType w t0.
Proof.
  destruct (clear_run_tile k Hk) as [H1 H2]. rewrite <-Hxk in H1, H2.
  split_and!; [done|done|by apply line_offset|by apply line_rst].
Qed.

Local Lemma clear_stop j :
  (j < n)%nat →
  ∃ r sj, stop_ptr w (tile_nth w t0 j) = Some r ∧
          GetByTile_in w (tile_nth w t0 j) (GetRoadStopType w x) = Some r ∧
          stops w !! r = Some sj ∧ xy sj = tile_nth w t0 j ∧
          platform sj = Some p ∧
          HasBit (status sj) RSSFB_BASE_ENTRY = bool_decide (j = 0%nat) ∧
          (r = this ↔ j = k).
Proof.
  intros Hj. destruct (clear_run_tile j Hj) as [Hst Hl].
  destruct (registry_ptr _ _ Hinv Hst) as (r & sj & Hr & Hsj & Hxy).
  destruct (tile_platform_ptr _ _ _ _ Hr Hsj) as [Hp Hb].
  destruct Hrun as (_ & Hstate & _). destruct (Hstate j Hj) as [Hp' Hb'].
  exists r, sj. split_and!; try done; try congruence.
  - destruct clear_x as (_ & _ & _ & ->).
    rewrite <-(line_rst _ _ _ Hl). done.
  - split.
    + intros ->. apply clear_nth_inj. rewrite <-Hxk.
      by eapply stop_ptr_inj.
    + intros ->. rewrite <-Hxk in Hr. congruence.
Qed.

Local Lemma clear_platform :
  ∃ v, platforms w !! p = Some v ∧ length v = TILE_SIZE * Z.of_nat n ∧
       Z.of_nat n < MapSize w ∧ TILE_SIZE * MapSize w < 2 ^ 31.
Proof.
  destruct Hrun as (Hr & _ & (v & Hv & Hlen) & _).
  exists v. split_and!; [done|done|..].
  - by destruct (run_at_bound _ _ _ (inv_map _ Hinv) Hr) as (_ & _ & ?).
  - by destruct (inv_map _ Hinv) as (_ & _ & ? & _).
Qed.

Local Lemma clear_this : platform s = Some p.
Proof.
  destruct (clear_stop k Hk) as (r & sk & Hr & _ & Hsk & _ & Hp & _).
  rewrite <-Hxk in Hr. congruence.
Qed.

Local Lemma clear_bounds :
  0 < t0 ∧ tile_nth w t0 n < MapSize w ∧ MapSize w < 2 ^ 31.
Proof.
  destruct Hrun as (Hr & _).
  destruct (run_at_bound _ _ _ (inv_map _ Hinv) Hr) as (? & Hb & ?).
  destruct (inv_map _ Hinv) as (_ & _ & ? & _).
  split_and!; [done| |unfold TILE_SIZE in *; lia].
  unfold tile_nth in *. rewrite Nat2Z.inj_sub in Hb by lia. lia.
Qed.

Local Lemma clear_north :
  north_of w x = x - coff ∧
  IsDriveThroughRoadStopContinuation w x (x - coff) = bool_decide (0 < k)%nat.
Proof.
  destruct clear_x as (Hst & Hl & Hoff & _). split.
  - rewrite <-Hoff. apply north_of_station; [apply Hinv|].
    by apply is_stop_station.
  - rewrite (cont_line _ _ _ _ Hl). case_bool_decide as Hk0.
    + destruct (clear_run_tile (k - 1)) as [Hst' Hl']; [lia|].
      replace (x - coff) with (tile_nth w t0 (k - 1)).
      * by apply cont_true.
      * rewrite Hxk. unfold tile_nth. rewrite Nat2Z.inj_sub by lia. lia.
    + assert (k = 0%nat) as Hk0' by lia. rewrite Hk0', tile_nth_0 in Hxk.
      rewrite Hxk, <-acont_cont by done. apply Hrun.
Qed.

Local Lemma clear_south :
  south_of w x = x + coff ∧
  IsDriveThroughRoadStopContinuation w x (x + coff) =
    bool_decide (S k < n)%nat.
Proof.
  destruct clear_x as (Hst & Hl & Hoff & _). split.
  - rewrite <-Hoff. apply south_of_station; [apply Hinv|].
    by apply is_stop_station.
  - rewrite (cont_line _ _ _ _ Hl).
    replace (x + coff) with (tile_nth w t0 (S k))
      by (rewrite Hxk; unfold tile_nth; lia).
    case_bool_decide as Hkn.
    + destruct (clear_run_tile (S k)) as [Hst' Hl']; [lia|]. by apply cont_true.
    + assert (S k = n) as -> by lia.
      rewrite <-acont_cont by done. apply Hrun.
Qed.
Local Lemma clear_ptr_other t r :
  t ≠ x → stop_ptr w t = Some r → r ≠ this.
Proof. intros Hne Hr ->. apply Hne. by eapply stop_ptr_inj. Qed.

Local Lemma clear_this_chain s' st :
  st !! this = Some s → xy s' = x → next s' = next s →
  same_chain st (<[this := s']> st).
Proof.
  intros. apply (same_chain_insert _ this s); [done| |done].
  by rewrite clear_xy.
Qed.

(** The run has one tile. *)
Local Lemma clear_case_last :
  n = 1%nat →
  ∃ w', ClearDriveThrough this w = Some (tt, w') ∧
        detach_post w x t0 n p k p w'.
Proof.
  intros Hn1. assert (k = 0%nat) as Hk0 by lia.
  destruct clear_platform as (v & Hv & _).
  destruct clear_north as [Hno Hcn], clear_south as [Hso Hcs].
  rewrite bool_decide_eq_false_2 in Hcn, Hcs by lia.
  rewrite <-Hno in Hcn. rewrite <-Hso in Hcs. rewrite <-clear_xy in Hcn, Hcs.
  eexists. split.
  { apply (ClearDriveThrough_last_eq w this s p v); try done.
    apply clear_this. }
  rewrite clear_xy. split.
  - done.
  - split; [done|lia].
  - intros j Hj. lia.
  - intros t Ht Hne _.
    rewrite (cleared_stop_at w x) by
      (try done; cbn; by apply clear_this_chain).
    unfold stop_at. destruct (stop_ptr w t) as [r|] eqn:Hr; [|done]. cbn.
    rewrite lookup_insert_ne; [done|]. intros <-.
    by eapply clear_ptr_other.
  - lia.
  - lia.
  - intros r Hr _. cbn. by rewrite lookup_delete_ne.
Qed.

(** [x] is the last tile of a longer run. *)
Local Lemma clear_case_north :
  (0 < k)%nat → S k = n →
  ∃ q w', ClearDriveThrough this w = Some (tt, w') ∧
          detach_post w x t0 n p k q w'.
Proof.
  intros Hk0 Hkn.
  destruct clear_platform as (v & Hv & Hlen & Hn & Hsz).
  destruct clear_north as [Hno Hcn], clear_south as [Hso Hcs].
  rewrite bool_decide_eq_true_2 in Hcn by lia.
  rewrite bool_decide_eq_false_2 in Hcs by lia.
  destruct (clear_stop (k - 1)) as (r & sr & Hr & Hgr & Hsr & _ & Hpr & _ & Hrt);
    [lia|].
  assert (tile_nth w t0 (k - 1) = x - coff) as Hnth.
  { rewrite Hxk. unfold tile_nth. rewrite Nat2Z.inj_sub by lia. lia. }
  rewrite Hnth in Hr, Hgr.
  rewrite <-Hno in Hcn, Hgr. rewrite <-Hso in Hcs.
  rewrite <-clear_xy in Hcn, Hcs, Hgr.
  exists (fresh (dom (platforms w))). eexists. split.
  { apply (ClearDriveThrough_one_side_eq w this s r sr p v); try done.
    - by rewrite clear_this.
    - by rewrite Hcn, Hcs.
    - by rewrite Hcn.
    - intros ->. destruct Hrt as [Hrt _]. specialize (Hrt eq_refl). lia.
    - rewrite Hlen. unfold int_range, TILE_SIZE in *. lia. }
  rewrite Hcs, clear_xy. split.
  - done.
  - split; [lia|]. intros _. apply fresh_platform_None.
  - intros j Hj. lia.
  - intros t Ht Hne _.
    rewrite (cleared_stop_at w x) by
      (try done; cbn; by apply clear_this_chain).
    unfold stop_at. destruct (stop_ptr w t) as [r'|] eqn:Hr'; [|done]. cbn.
    rewrite lookup_insert_ne; [done|]. intros <-.
    by eapply clear_ptr_other.
  - intros _. eexists. split; [cbn; by rewrite lookup_insert_eq|]. cbn.
    split_and!.
    + rewrite Hlen, <-Hkn. unfold TILE_SIZE. lia.
    + lia.
    + intros _. unfold occupancy_of. cbn. by rewrite Hv.
  - lia.
  - intros r' Hr' _. cbn. by rewrite lookup_insert_ne.
Qed.
(** [x] is the first tile of a longer run. *)
Local Lemma clear_case_south :
  k = 0%nat → (1 < n)%nat →
  ∃ w', ClearDriveThrough this w = Some (tt, w') ∧
        detach_post w x t0 n p k p w'.
Proof.
  intros Hk0 Hn1.
  destruct clear_platform as (v & Hv & Hlen & Hn & Hsz).
  destruct clear_north as [Hno Hcn], clear_south as [Hso Hcs].
  rewrite bool_decide_eq_false_2 in Hcn by lia.
  rewrite bool_decide_eq_true_2 in Hcs by lia.
  destruct (clear_stop 1) as (r & sr & Hr & Hgr & Hsr & _ & Hpr & _ & Hrt);
    [lia|].
  assert (tile_nth w t0 1 = x + coff) as Hnth.
  { rewrite Hxk. unfold tile_nth. lia. }
  assert (r ≠ this) as Hrne.
  { intros ->. destruct Hrt as [Hrt _]. specialize (Hrt eq_refl). lia. }
  pose proof Hr as Hr1. rewrite Hnth in Hr, Hgr.
  rewrite <-Hno in Hcn. rewrite <-Hso in Hcs, Hgr.
  rewrite <-clear_xy in Hcn, Hcs, Hgr.
  eexists. split.
  { apply (ClearDriveThrough_one_side_eq w this s r sr p v); try done.
    - by rewrite clear_this.
    - by rewrite Hcn, Hcs.
    - by rewrite Hcn.
    - rewrite Hlen. unfold int_range, TILE_SIZE in *. lia. }
  rewrite Hcs, clear_xy.
  assert (same_chain (stops w)
    (<[this := {| xy := x; status := ClrBit (status s) RSSFB_BASE_ENTRY;
                  platform := None; next := next s |}]>
       (<[r := set_status sr (SetBit (status sr) RSSFB_BASE_ENTRY)]>
          (stops w)))) as Hchain.
  { apply (same_chain_trans _
      (<[r := set_status sr (SetBit (status sr) RSSFB_BASE_ENTRY)]> (stops w)));
      [by apply (same_chain_insert _ r sr)|].
    apply clear_this_chain; [|done..]. by rewrite lookup_insert_ne. }
  split.
  - done.
  - split; [done|lia].
  - intros j Hj.
    destruct (clear_stop j) as (rj & sj & Hrj & _ & Hsj & _ & Hpj & Hbj & Hjt);
      [lia|].
    assert (rj ≠ this) as Hjne.
    { intros ->. destruct Hjt as [Hjt _]. specialize (Hjt eq_refl). lia. }
    unfold tile_platform, tile_base.
    rewrite (cleared_stop_at w x); [|done|done|].
    2: { rewrite Hxk. intros Heq%clear_nth_inj. lia. }
    rewrite Hrj. cbn. rewrite lookup_insert_ne by done.
    destruct (decide (rj = r)) as [->|Hner].
    + assert (j = 1%nat) as ->.
      { apply clear_nth_inj. by eapply stop_ptr_inj. }
      rewrite lookup_insert_eq. cbn. rewrite HasBit_SetBit.
      split; [done|]. symmetry. apply bool_decide_eq_true_2. lia.
    + rewrite lookup_insert_ne by done. rewrite Hsj. cbn.
      split; [done|]. rewrite Hbj.
      rewrite !bool_decide_eq_false_2; [done|..]; [|lia].
      intros ->. apply Hner. congruence.
  - intros t Ht Hne Hns.
    rewrite (cleared_stop_at w x) by done.
    unfold stop_at. destruct (stop_ptr w t) as [r'|] eqn:Hr'; [|done]. cbn.
    rewrite !lookup_insert_ne; [done|..].
    + intros <-. apply (Hns 1%nat); [lia|]. by eapply stop_ptr_inj.
    + intros <-. by eapply clear_ptr_other.
  - lia.
  - intros _. eexists. split; [cbn; by rewrite lookup_insert_eq|]. cbn.
    split_and!.
    + rewrite Hlen, Hk0, Nat2Z.inj_sub by lia. unfold TILE_SIZE. lia.
    + lia.
    + intros _. unfold occupancy_of. cbn. by rewrite Hv.
  - intros r' Hr' _. cbn. by rewrite lookup_insert_ne.
Qed.
(** The world a split leaves, given the occupancy totals of the two parts. *)
Local Lemma clear_case_split :
  (0 < k)%nat → (S k < n)%nat →
  ∃ q W,
    ClearDriveThrough this w =
      (oS ← occupancy w (GetRoadStopDir w t0)
              (segment w (tile_nth w t0 (S k)) (n - S k));
       oN ← occupancy w (GetRoadStopDir w t0) (segment w t0 k);
       Some (tt, W oS oN)) ∧
    ∀ oS oN,
      occupancy w (GetRoadStopDir w t0)
        (segment w (tile_nth w t0 (S k)) (n - S k)) = Some oS →
      occupancy w (GetRoadStopDir w t0) (segment w t0 k) = Some oN →
      detach_post w x t0 n p k q (W oS oN).
Proof.
  intros Hk0 Hkn. pose proof clear_off as Hoff.
  destruct clear_platform as (v & Hv & Hlen & Hn & Hsz).
  destruct clear_north as [Hno Hcn], clear_south as [Hso Hcs].
  rewrite bool_decide_eq_true_2 in Hcn, Hcs by lia.
  destruct clear_bounds as (Ht0 & Hmax & Hmap).
  destruct clear_x as (Hxs & Hxl & Hxo & Hxr).
  destruct (clear_stop (k - 1)) as (rn & sn & _ & Hgrn & _); [lia|].
  destruct (clear_stop (S k))
    as (rs & ss & Hprs & Hgrs & Hss & Hxys & Hpss & _ & Hrst); [lia|].
  destruct (clear_stop 0) as (r0 & s0 & Hpr0 & _ & Hs0 & Hxy0 & Hps0 & Hb0 & Hr0t);
    [lia|].
  rewrite tile_nth_0 in Hpr0, Hxy0. rewrite bool_decide_eq_true_2 in Hb0 by done.
  assert (∀ j, tile_nth w t0 j = t0 + Z.of_nat j * coff) as Hnth by done.
  assert (x = t0 + Z.of_nat k * coff) as Hxe by (by rewrite Hxk).
  assert (tile_nth w t0 (k - 1) = x - coff) as HnthN.
  { rewrite Hnth, Nat2Z.inj_sub by lia. lia. }
  assert (tile_nth w t0 (S k) = x + coff) as HnthS by (rewrite Hnth; lia).
  set (h := tile_nth w t0 (S k)) in *.
  destruct (clear_run_tile (S k) Hkn) as [Hhs Hhl]. fold h in Hhs, Hhl.
  assert (h ≠ x) as Hhx by lia.
  assert (t0 ≠ x) as Ht0x by lia.
  set (ptrsS := omap (stop_ptr w) (tile_nth w t0 <$> seq (k + 2) (n - (k + 2)))).
  set (ptrsN := omap (stop_ptr w)
                  ((λ i, tile_nth w t0 (k - 1 - i)) <$> seq 0 k)).
  assert (∀ i r, ptrsS !! i = Some r ↔
            (i < n - (k + 2))%nat ∧
            stop_ptr w (tile_nth w t0 (k + 2 + i)) = Some r) as HlS.
  { intros i r. apply ptrs_lookup. intros j Hj.
    destruct (clear_stop (k + 2 + j)) as (r' & ? & -> & _); [lia|eauto]. }
  assert (Datatypes.length ptrsS = (n - (k + 2))%nat) as HlenS.
  { apply ptrs_length. intros j Hj.
    destruct (clear_stop (k + 2 + j)) as (r' & ? & -> & _); [lia|eauto]. }
  assert (∀ i r, ptrsN !! i = Some r ↔
            (i < k)%nat ∧
            stop_ptr w (tile_nth w t0 (k - 1 - i)) = Some r) as HlN.
  { intros i r. apply (ptrs_lookup w (λ i, tile_nth w t0 (k - 1 - i)) 0).
    intros j Hj. cbn.
    destruct (clear_stop (k - 1 - j)) as (r' & ? & -> & _); [lia|eauto]. }
  assert (Datatypes.length ptrsN = k) as HlenN.
  { apply (ptrs_length w (λ i, tile_nth w t0 (k - 1 - i)) 0). intros j Hj. cbn.
    destruct (clear_stop (k - 1 - j)) as (r' & ? & -> & _); [lia|eauto]. }
  set (w0 := with_map w (cleared_map w x)).
  assert (cleared_env w x w0) as Henv0 by done.
  assert (∀ j, (j < n)%nat → j ≠ k →
            IsDriveThroughRoadStopContinuation w0 h (tile_nth w t0 j) = true)
    as Hcont0.
  { intros j Hj Hjk. rewrite (cleared_cont w x) by done.
    rewrite decide_False by (rewrite Hxk; intros ?%clear_nth_inj; lia).
    destruct (clear_run_tile j Hj) as [Hjs Hjl]. apply cont_true.
    split; [done|congruence]. }
  assert (∀ j r, (j < n)%nat → j ≠ k →
            GetByTile_in w (tile_nth w t0 j) (GetRoadStopType w x) = Some r →
            GetByTile_in w0 (tile_nth w t0 j) (GetRoadStopType w x) = Some r)
    as Hget0.
  { intros j r Hj Hjk <-. apply GetByTile_in_frame; [done|done|].
    unfold GetStationIndex. cbn. unfold cleared_map.
    rewrite decide_False; [done|].
    rewrite Hxk. intros ?%clear_nth_inj. lia. }
  destruct (ClearDriveThrough_split w this s p rn rs ss r0 s0 p v ptrsS ptrsN)
    as (st' & Hrun' & Hrep).
  all: rewrite ?clear_xy, ?Hxo.
  1: lia.
  1: done.
  1: done.
  1: { rewrite HlenN.
       assert (is_stop w t0 = true) as Hs00.
       { rewrite <-(tile_nth_0 w t0). apply clear_run_tile. lia. }
       pose proof (wf_map_station w t0 (inv_map _ Hinv)
                     (is_stop_station _ _ Hs00)) as (? & _).
       lia. }
  1: { rewrite HlenS. rewrite Hnth in Hmax. rewrite Nat2Z.inj_sub by lia. lia. }
  1: { rewrite HlenS. unfold map_fuel. lia. }
  1: { rewrite HlenN. unfold map_fuel. lia. }
  1: done.
  1: apply clear_this.
  1: done.
  1: by rewrite <-HnthN.
  1: done.
  1: by rewrite <-HnthS.
  1: done.
  1: { intros ->. destruct Hrst as [Hrst _]. specialize (Hrst eq_refl). lia. }
  1: { intros i r [Hi Hr]%HlS.
       replace (x + coff + coff + Z.of_nat i * coff)
         with (tile_nth w t0 (k + 2 + i)) by (rewrite Hnth; lia).
       rewrite <-HnthS. split; [apply Hcont0; lia|].
       apply Hget0; [lia..|].
       destruct (clear_stop (k + 2 + i)) as (r' & ? & Hr' & -> & _); [lia|].
       congruence. }
  1: { rewrite HlenS.
       replace (x + coff + coff + Z.of_nat (n - (k + 2)) * coff)
         with (tile_nth w t0 n)
         by (rewrite Hnth, Nat2Z.inj_sub by lia; lia).
       rewrite <-HnthS, (cleared_cont w x) by done. case_decide; [done|].
       rewrite (cont_line _ _ _ _ Hhl), <-acont_cont by done. apply Hrun. }
  1: { intros i r [Hi Hr]%HlN.
       replace (x - coff + Z.of_nat i * - coff)
         with (tile_nth w t0 (k - 1 - i))
         by (rewrite Hnth, !Nat2Z.inj_sub by lia; lia).
       rewrite <-HnthS. split; [apply Hcont0; lia|].
       apply Hget0; [lia..|].
       destruct (clear_stop (k - 1 - i)) as (r' & ? & Hr' & -> & _); [lia|].
       congruence. }
  1: { rewrite HlenN.
       replace (x - coff + Z.of_nat k * - coff) with (t0 - coff) by lia.
       rewrite <-HnthS, (cleared_cont w x) by done. case_decide; [done|].
       rewrite (cont_line _ _ _ _ Hhl), <-acont_cont by done. apply Hrun. }
  1: { rewrite last_lookup, HlenN. apply HlN. split; [lia|].
       replace (k - 1 - Nat.pred k)%nat with 0%nat by lia.
       by rewrite tile_nth_0. }
  1: done.
  1: { intros ->. assert (0%nat = S k); [|lia].
       apply clear_nth_inj. rewrite tile_nth_0. by eapply stop_ptr_inj. }
  1: { intros (i & [Hi Hr]%HlS)%list_elem_of_lookup.
       assert (0%nat = (k + 2 + i)%nat); [|lia].
       apply clear_nth_inj. rewrite tile_nth_0. by eapply stop_ptr_inj. }
  1: { intros ->. destruct Hr0t as [Hr0t _]. specialize (Hr0t eq_refl). lia. }
  1: { intros (i & [Hi Hr]%HlS)%list_elem_of_lookup.
       assert (k = (k + 2 + i)%nat); [|lia].
       apply clear_nth_inj. rewrite <-Hxk. by eapply stop_ptr_inj. }
  1: done.
  1: done.
  1: done.
  set (q := fresh (dom (platforms w))) in *.
  set (this' := {| xy := x; status := ClrBit (status s) RSSFB_BASE_ENTRY;
                   platform := None; next := next s |}) in *.
  exists q, (λ oS oN,
    with_platforms (with_stops w0 (<[this := this']> st'))
      (<[p := {| length := TILE_SIZE * Z.of_nat k;
                 occupied_east := oN.1; occupied_west := oN.2 |}]>
         (<[q := {| length := TILE_SIZE * Z.of_nat (n - S k);
                    occupied_east := oS.1; occupied_west := oS.2 |}]>
            (platforms w)))).
  assert (wf_map w0) as Hwf0 by (by apply (cleared_wf_map w x), Hinv).
  assert (∀ i, tile_nth w0 h i = tile_nth w t0 (S k + i)) as HnthS0.
  { intros i. rewrite (cleared_tile_nth w x) by done.
    rewrite (tile_nth_line _ _ _ _ Hhl). rewrite Hnth. unfold h. rewrite Hnth.
    lia. }
  assert (∀ i, tile_nth w0 t0 i = tile_nth w t0 i) as HnthN0.
  { intros i. by rewrite (cleared_tile_nth w x). }
  split.
  - rewrite Hrun', Hxys, Hxy0, !clear_xy. fold w0 this'.
    rewrite (Platform_Rebuild_segment w0 _ h (n - S k)); try done.
    2: { unfold h. rewrite Hnth. lia. }
    2: { rewrite HnthS0. by replace (S k + (n - S k))%nat with n by lia. }
    2: { intros i Hi. rewrite HnthS0. apply Hcont0; lia. }
    2: { rewrite HnthS0. replace (S k + (n - S k))%nat with n by lia.
         rewrite (cleared_cont w x) by done. case_decide; [done|].
         rewrite (cont_line _ _ _ _ Hhl), <-acont_cont by done. apply Hrun. }
    rewrite (Platform_Rebuild_segment w0 _ t0 k); try done.
    2: lia.
    2: { rewrite HnthN0. cbn. pose proof (Hnth k). pose proof (Hnth n). nia. }
    2: { intros i Hi. rewrite HnthN0, (cleared_cont w x) by done.
         rewrite decide_False by (rewrite Hxk; intros ?%clear_nth_inj; lia).
         rewrite <-acont_cont by done. apply Hrun. lia. }
    2: { rewrite HnthN0, <-Hxk, (cleared_cont w x) by done.
         by rewrite decide_True. }
    rewrite !(cleared_occupancy w x w0 Henv0).
    rewrite !(cleared_dir w x w0 Henv0), !(cleared_segment w x w0 Henv0)
      by done.
    rewrite (line_dir _ _ _ Hhl).
    destruct (occupancy w (GetRoadStopDir w t0) (segment w h (n - S k)))
      as [oS|]; cbn; [|done].
    by destruct (occupancy w (GetRoadStopDir w t0) (segment w t0 k))
      as [oN|]; cbn.
  - intros oS oN HoS HoN.
    assert (rs ≠ this) as Hrsne.
    { intros ->. destruct Hrst as [Hrst _]. specialize (Hrst eq_refl). lia. }
    assert (∀ r, r ∈ ptrsS ↔
              ∃ j, (S k < j < n)%nat ∧ stop_ptr w (tile_nth w t0 j) = Some r)
      as HinS.
    { intros r. rewrite list_elem_of_lookup. split.
      - intros (i & [Hi Hr]%HlS). exists (k + 2 + i)%nat. split; [lia|done].
      - intros (j & Hj & Hr). exists (j - (k + 2))%nat. apply HlS.
        split; [lia|]. by replace (k + 2 + (j - (k + 2)))%nat with j by lia. }
    assert (this ∉ ptrsS) as Hnin.
    { intros (j & Hj & Hr)%HinS. assert (k = j); [|lia].
      apply clear_nth_inj. rewrite <-Hxk. by eapply stop_ptr_inj. }
    assert (st' !! this = Some s) as Hs'.
    { rewrite Hrep, decide_False by done. by rewrite lookup_insert_ne. }
    assert (p ≠ q) as Hpq.
    { intros Heq. pose proof (fresh_platform_None w) as Hf. fold q in Hf.
      rewrite <-Heq in Hf. congruence. }
    assert (same_chain (stops w) (<[this := this']> st')) as Hchain.
    { eapply same_chain_trans; [|by apply clear_this_chain].
      eapply same_chain_trans; [|by eapply repointed_chain].
      by apply (same_chain_insert _ rs ss). }
    split.
    + done.
    + split; [lia|]. intros _. apply fresh_platform_None.
    + intros j Hj.
      destruct (clear_stop j)
        as (rj & sj & Hrj & _ & Hsj & _ & Hpj & Hbj & Hjt); [lia|].
      assert (rj ≠ this) as Hjne.
      { intros ->. destruct Hjt as [Hjt _]. specialize (Hjt eq_refl). lia. }
      unfold tile_platform, tile_base.
      rewrite (cleared_stop_at w x); [|done|done|].
      2: { rewrite Hxk. intros Heq%clear_nth_inj. lia. }
      rewrite Hrj. cbn. rewrite lookup_insert_ne by done. rewrite Hrep.
      destruct (decide (j = S k)) as [->|Hjk].
      * assert (rj = rs) as -> by (revert Hprs; unfold h; congruence).
        rewrite lookup_insert_eq.
        destruct (decide (rs ∈ ptrsS)); unfold set_platform, set_status; cbn;
          rewrite HasBit_SetBit;
          (split; [done|]); symmetry; by apply bool_decide_eq_true_2.
      * rewrite decide_True by (apply HinS; exists j; split; [lia|done]).
        rewrite lookup_insert_ne.
        2: { intros ->. apply Hjk, clear_nth_inj. by eapply stop_ptr_inj. }
        rewrite Hsj. cbn. split; [done|]. rewrite Hbj.
        rewrite !bool_decide_eq_false_2; [done|lia..].
    + intros t Ht Hne Hns.
      rewrite (cleared_stop_at w x) by done.
      unfold stop_at. destruct (stop_ptr w t) as [r'|] eqn:Hr'; [|done]. cbn.
      rewrite lookup_insert_ne by (intros <-; by eapply clear_ptr_other).
      rewrite Hrep, decide_False.
      2: { intros (j & Hj & Hr)%HinS. apply (Hns j); [lia|].
           by eapply stop_ptr_inj. }
      rewrite lookup_insert_ne; [done|]. intros <-.
      apply (Hns (S k)); [lia|]. by eapply stop_ptr_inj.
    + intros _. eexists. split; [cbn; by rewrite lookup_insert_eq|]. cbn.
      split_and!; [done| |lia]. intros _. by destruct oN.
    + intros _. eexists. split.
      { cbn. rewrite lookup_insert_ne by done. by rewrite lookup_insert_eq. }
      cbn. split_and!; [done| |lia]. intros _. by destruct oS.
    + intros r Hr Hrq. cbn. by rewrite !lookup_insert_ne.
Qed.
End clear_cases.

(** The run an attached stop belongs to. *)
Lemma attached_stop_run w this x :
  Inv w → attached_stop w this x →
  ∃ s t0 n p k,
    stops w !! this = Some s ∧ good_run w t0 n p ∧ (k < n)%nat ∧
    x = tile_nth w t0 k.
Proof.
  intros Hinv (Hx & Hptr & Hp).
  destruct (registry_ptr _ _ Hinv Hx) as (r & s & Hr & Hs & _).
  assert (r = this) as -> by congruence.
  destruct (inv_runs _ Hinv x) as (t0 & n & p & k & Hg & Hk & Hxk).
  { by apply attached_true. }
  by exists s, t0, n, p, k.
Qed.

(** [ClearDriveThrough] on the [k]-th tile of a run: what a call that returns
    leaves behind, and when it returns. *)
Lemma ClearDriveThrough_run w this x t0 n p k :
  Inv w → no_pending w → stop_ptr w x = Some this →
  good_run w t0 n p → (k < n)%nat → x = tile_nth w t0 k →
  (∀ u w', ClearDriveThrough this w = Some (u, w') →
           ∃ q, detach_post w x t0 n p k q w') ∧
  (((0 < k)%nat → (S k < n)%nat →
    is_Some (occupancy w (GetRoadStopDir w t0)
               (segment w (tile_nth w t0 (S k)) (n - S k))) ∧
    is_Some (occupancy w (GetRoadStopDir w t0) (segment w t0 k))) →
   ∃ w', ClearDriveThrough this w = Some (tt, w')).
Proof.
  intros Hinv Hnp Hptr Hg Hk Hxk.
  assert (is_stop w x = true) as Hx.
  { rewrite Hxk. destruct Hg as (Hr & _).
    by destruct (run_at_tile _ _ _ _ Hr Hk). }
  destruct (registry_ptr _ _ Hinv Hx) as (r & s & Hr & Hs & _).
  assert (r = this) as -> by congruence.
  destruct (decide (0 < k)%nat) as [Hk0|Hk0];
    destruct (decide (S k < n)%nat) as [Hkn|Hkn].
  - destruct (clear_case_split w this x s t0 n p k) as (q & W & Hrun & Hpost);
      try done.
    split.
    + intros u w' Hc. rewrite Hrun in Hc.
      destruct (occupancy _ _ (segment w (tile_nth w t0 (S k)) _)) as [oS|];
        [|done].
      destruct (occupancy _ _ (segment w t0 k)) as [oN|]; [|done].
      cbn in Hc. exists q. assert (w' = W oS oN) as -> by congruence.
      by apply Hpost.
    + intros Hocc. destruct (Hocc Hk0 Hkn) as [[oS HoS] [oN HoN]].
      rewrite Hrun, HoS, HoN. cbn. eauto.
  - destruct (clear_case_north w this x s t0 n p k) as (q & w1 & Hrun & Hpost);
      try done; [lia|].
    split; [|eauto]. intros u w' Hc. exists q.
    by assert (w' = w1) as -> by congruence.
  - destruct (clear_case_south w this x s t0 n p k) as (w1 & Hrun & Hpost);
      try done; [lia..|].
    split; [|eauto]. intros u w' Hc. exists p.
    by assert (w' = w1) as -> by congruence.
  - destruct (clear_case_last w this x s t0 n p k) as (w1 & Hrun & Hpost);
      try done; [lia|].
    split; [|eauto]. intros u w' Hc. exists p.
    by assert (w' = w1) as -> by congruence.
Qed.

Lemma ClearDriveThrough_Inv w this x u w' :
  Inv w → no_pending w → attached_stop w this x →
  ClearDriveThrough this w = Some (u, w') →
  Inv w' ∧ no_pending w'.
Proof.
  intros Hinv Hnp Hatt Hc.
  destruct (attached_stop_run w this x Hinv Hatt)
    as (s & t0 & n & p & k & Hs & Hg & Hk & Hxk).
  destruct Hatt as (Hx & Hptr & _).
  destruct (ClearDriveThrough_run w this x t0 n p k) as [Hpost _]; try done.
  destruct (Hpost u w' Hc) as (q & Hq).
  by eapply detach_preserves.
Qed.

(** * Occupancy of joined and shortened segments *)

Lemma Rebuild_tile_free w de lists vs :
  (∀ v, v ∈ vs → counted w v = false) →
  Rebuild_tile w de lists vs = Some lists.
Proof.
  induction vs as [|v vs IH]; intros Hfree; [done|].
  cbn [Rebuild_tile].
  rewrite Rebuild_vehicle_not_counted by (apply Hfree; by left).
  cbn. apply IH. intros v' Hv'. apply Hfree. by right.
Qed.

Lemma Rebuild_tile_Some_dirs w de vs : ∀ lists lists',
  Rebuild_tile w de lists vs = Some lists' →
  ∀ v, v ∈ vs → counted w v = true →
       v_direction (vehicles w v) = de ∨
       v_direction (vehicles w v) = ReverseDir de.
Proof.
  induction vs as [|x vs IH]; intros lists lists' Hr v Hv Hc.
  - by apply elem_of_nil in Hv.
  - cbn [Rebuild_tile] in Hr.
    destruct (Rebuild_vehicle w de lists x) as [l1|] eqn:Hx; [|done].
    cbn in Hr. apply elem_of_cons in Hv as [->|Hv]; [|by eapply IH].
    rewrite (Rebuild_vehicle_counted _ _ _ _ Hc) in Hx.
    repeat case_bool_decide; cbn in Hx; try done; eauto.
Qed.

Lemma run_vehicles_app w l1 l2 :
  run_vehicles w (l1 ++ l2) = run_vehicles w l1 ++ run_vehicles w l2.
Proof. unfold run_vehicles. by rewrite map_app, concat_app. Qed.

Lemma occupancy_nil w dir : occupancy w dir [] = Some (0, 0).
Proof. done. Qed.

Lemma occupancy_free_l w dir x l :
  no_counted_on w x → occupancy w dir (x :: l) = occupancy w dir l.
Proof.
  intros Hfree. unfold occupancy.
  change (run_vehicles w (x :: l))
    with (vehicles_on_tile w x ++ run_vehicles w l).
  rewrite Rebuild_tile_app, (Rebuild_tile_free _ _ _ _ Hfree). done.
Qed.

Lemma occupancy_free_r w dir x l :
  no_counted_on w x → occupancy w dir (l ++ [x]) = occupancy w dir l.
Proof.
  intros Hfree. unfold occupancy.
  rewrite run_vehicles_app, Rebuild_tile_app.
  destruct (Rebuild_tile w (DiagDirToDir dir) ([], []) (run_vehicles w l))
    as [lists|]; [|done].
  cbn. rewrite Rebuild_tile_free; [done|].
  intros v Hv. apply Hfree. unfold run_vehicles in Hv. cbn in Hv.
  by rewrite app_nil_r in Hv.
Qed.

Lemma total_length_app w l1 l2 :
  total_length w (l1 ++ l2) = total_length w l1 + total_length w l2.
Proof.
  unfold total_length. induction l1 as [|v l1 IH]; cbn; [done|].
  rewrite IH. lia.
Qed.

Lemma int_add_to_int32 a b : int_add (to_int32 a) (to_int32 b) = to_int32 (a + b).
Proof. unfold int_add. by rewrite to_int32_add_l, to_int32_add_r. Qed.

(** The totals of two segments that share no counted vehicle add up. *)
Lemma occupancy_app w dir l1 l2 e1 w1 e2 w2 :
  occupancy w dir l1 = Some (e1, w1) →
  occupancy w dir l2 = Some (e2, w2) →
  (∀ v, counted w v = true → v ∈ run_vehicles w l1 →
        v ∈ run_vehicles w l2 → False) →
  occupancy w dir (l1 ++ l2) = Some (int_add e1 e2, int_add w1 w2).
Proof.
  unfold occupancy. intros H1 H2 Hdisj. set (de := DiagDirToDir dir) in *.
  destruct (Rebuild_tile w de ([], []) (run_vehicles w l1))
    as [[le1 lw1]|] eqn:Hr1; [|done].
  destruct (Rebuild_tile w de ([], []) (run_vehicles w l2))
    as [[le2 lw2]|] eqn:Hr2; [|done].
  cbn in H1, H2.
  pose proof (Rebuild_tile_Some_dirs _ _ _ _ _ Hr1) as Hd1.
  pose proof (Rebuild_tile_Some_dirs _ _ _ _ _ Hr2) as Hd2.
  destruct (Rebuild_tile_spec w de (run_vehicles w l1) [] [])
    as (le1' & lw1' & Hr1' & Hn1e & Hn1w & He1 & Hw1);
    [constructor..|done|].
  destruct (Rebuild_tile_spec w de (run_vehicles w l2) [] [])
    as (le2' & lw2' & Hr2' & Hn2e & Hn2w & He2 & Hw2);
    [constructor..|done|].
  assert (le1' = le1 ∧ lw1' = lw1) as [-> ->] by (split; congruence).
  assert (le2' = le2 ∧ lw2' = lw2) as [-> ->] by (split; congruence).
  destruct (Rebuild_tile_spec w de (run_vehicles w (l1 ++ l2)) [] [])
    as (le & lw & -> & Hne & Hnw & He & Hw); [constructor..| |].
  { intros v. rewrite run_vehicles_app, elem_of_app. naive_solver. }
  cbn. rewrite !sum_lengths_total.
  assert (le ≡ₚ le1 ++ le2) as HPe.
  { apply NoDup_Permutation; [done| |].
    - apply NoDup_app. split_and!; [done| |done].
      intros v [?|(? & ? & ?)]%He1 [?|(? & ? & ?)]%He2;
        try (by eapply elem_of_nil). by eapply Hdisj.
    - intros v. rewrite He, elem_of_app, He1, He2, run_vehicles_app,
        elem_of_app, !elem_of_nil. naive_solver. }
  assert (lw ≡ₚ lw1 ++ lw2) as HPw.
  { apply NoDup_Permutation; [done| |].
    - apply NoDup_app. split_and!; [done| |done].
      intros v [?|(? & ? & ?)]%Hw1 [?|(? & ? & ?)]%Hw2;
        try (by eapply elem_of_nil). by eapply Hdisj.
    - intros v. rewrite Hw, elem_of_app, Hw1, Hw2, run_vehicles_app,
        elem_of_app, !elem_of_nil. naive_solver. }
  rewrite (total_length_Permutation _ _ _ HPe),
    (total_length_Permutation _ _ _ HPw), !total_length_app.
  rewrite <-!int_add_to_int32, <-!sum_lengths_total. congruence.
Qed.

Lemma occupancy_directions w t0 n :
  is_Some (occupancy w (GetRoadStopDir w t0) (segment w t0 n)) ↔
  directions_ok w t0 n.
Proof.
  unfold occupancy, directions_ok. split.
  - intros [o Ho] t v Ht Hv Hc.
    destruct (Rebuild_tile _ _ _ _) as [lists|] eqn:Hr; [|done].
    eapply Rebuild_tile_Some_dirs; [done| |done].
    apply elem_of_run_vehicles. eauto.
  - intros Hd.
    destruct (Rebuild_tile_spec w (DiagDirToDir (GetRoadStopDir w t0))
                (run_vehicles w (segment w t0 n)) [] [])
      as (le & lw & -> & _); [constructor..| |by eexists].
    intros v (t & Ht & Hv)%elem_of_run_vehicles Hc. eauto.
Qed.

Lemma segment_app w t0 a b :
  segment w t0 (a + b) = segment w t0 a ++ (tile_nth w t0 <$> seq a b).
Proof. unfold segment. by rewrite seq_app, fmap_app. Qed.

Lemma segment_S w t0 n :
  segment w t0 (S n) = segment w t0 n ++ [tile_nth w t0 n].
Proof. replace (S n) with (n + 1)%nat by lia. by rewrite segment_app. Qed.

Lemma segment_shift w t0 a b :
  line w (tile_nth w t0 a) = line w t0 →
  tile_nth w t0 <$> seq a b = segment w (tile_nth w t0 a) b.
Proof.
  intros Hl. unfold segment. apply list_eq. intros i.
  rewrite !list_lookup_fmap. destruct (decide (i < b)%nat) as [Hi|Hi].
  - rewrite !lookup_seq_lt by done. cbn. f_equal.
    rewrite (tile_nth_line _ _ _ _ Hl). unfold tile_nth. lia.
  - by rewrite !lookup_seq_ge by lia.
Qed.

Lemma segment_cons w t0 n :
  line w (tile_nth w t0 1) = line w t0 →
  segment w t0 (S n) = t0 :: segment w (tile_nth w t0 1) n.
Proof.
  intros Hl. replace (S n) with (1 + n)%nat by lia.
  rewrite segment_app, (segment_shift _ _ _ _ Hl). cbn.
  by rewrite tile_nth_0.
Qed.

(** * Attaching keeps the totals right *)

Section attach_integrity.
Context (w : World) (x : TileIndex)
  (N : option (TileIndex * nat * PlatformPtr))
  (S : option (nat * PlatformPtr)) (p : PlatformPtr) (w' : World).
Context (Hinv : Inv w) (Hx : is_stop w x = true)
  (Hxp : tile_platform w x = None)
  (HN : north_case w x N) (HS : south_case w x S)
  (Hpost : attach_post w x N S p w').

Local Abbreviation off := (stop_offset w x).
Local Abbreviation head := (north_head x N).
Local Abbreviation total := (north_count N + 1 + south_count S)%nat.

Local Lemma attach_new_run' : good_run w' head total p.
Proof. by eapply attach_new_run. Qed.

Local Lemma attach_Inv' : Inv w'.
Proof. by eapply attach_preserves. Qed.

(** The run of a tile attached after the call: the new run, or a run that
    was there before and touches neither neighbour of [x]. *)
Local Lemma attach_runs t :
  attached w' t = true →
  (∃ i, (i < total)%nat ∧ t = tile_nth w' head i) ∨
  (∃ t0 n q i,
     good_run w t0 n q ∧
     (∀ t0N nN pN, N = Some (t0N, nN, pN) → t0 ≠ t0N) ∧
     (S ≠ None → t0 ≠ x + off) ∧
     (i < n)%nat ∧ t = tile_nth w t0 i).
Proof.
  intros Hatt.
  assert (same_env w w') as Henv by apply Hpost.
  pose proof (inv_map _ Hinv) as Hwf.
  destruct (attach_head w x N HN) as [Hl Hhx].
  destruct (attach_attached' w x N S p w' HS Hpost t Hatt) as [->|Hpre].
  - left. exists (north_count N). split; [lia|].
    rewrite (same_env_tile_nth _ _ Henv), (tile_nth_line _ _ _ _ Hl). lia.
  - destruct (inv_runs _ Hinv t Hpre) as (t0 & n & q & i & Hg & Hi & ->).
    assert (0 < n)%nat as Hn by lia.
    destruct (decide (N ≠ None ∧ t0 = head)) as [[HNn Hh]|HnN].
    { left. destruct (north_cases N) as [?|(t0N & nN & pN & HNe)]; [done|].
      pose proof HN as HN'. rewrite HNe in HN'. destruct HN' as (HgN & _).
      rewrite HNe in Hh. cbn in Hh. subst t0.
      assert (0 < nN)%nat as HnN0 by apply HgN.
      destruct (good_run_unique _ _ _ _ _ _ _ _ 0%nat Hwf Hg HgN Hn HnN0
                  eq_refl) as (_ & -> & _).
      exists i. split.
      - rewrite HNe. cbn. lia.
      - rewrite (same_env_tile_nth _ _ Henv). by rewrite HNe. }
    destruct (decide (S ≠ None ∧ t0 = x + off)) as [[HSe ->]|HnS].
    { left. destruct (south_cases S) as [?|(nS & ps & HSe')]; [done|].
      pose proof HS as HS'. rewrite HSe' in HS'. destruct HS' as (HgS & HlS).
      assert (0 < nS)%nat as HnS0 by apply HgS.
      destruct (good_run_unique _ _ _ _ _ _ _ _ 0%nat Hwf Hg HgS Hn HnS0
                  eq_refl) as (_ & -> & _).
      exists (north_count N + 1 + i)%nat. split.
      - rewrite HSe'. cbn. lia.
      - rewrite (same_env_tile_nth _ _ Henv), (tile_nth_line _ _ _ _ Hl).
        rewrite (tile_nth_line _ _ _ _ HlS). lia. }
    right. exists t0, n, q, i. split_and!; try done.
    + intros t0N nN pN HNe ->. apply HnN. by rewrite HNe.
    + naive_solver.
Qed.
Local Lemma attach_classify t0' n' q' :
  good_run w' t0' n' q' →
  (t0' = head ∧ n' = total ∧ q' = p) ∨
  (good_run w t0' n' q' ∧
   (∀ t0N nN pN, N = Some (t0N, nN, pN) → t0' ≠ t0N) ∧
   (S ≠ None → t0' ≠ x + off)).
Proof.
  intros Hg. assert (same_env w w') as Henv by apply Hpost.
  pose proof (inv_map _ attach_Inv') as Hwf'.
  assert (0 < n')%nat as Hn' by apply Hg.
  pose proof (good_run_attached _ _ _ _ _ Hg Hn') as Hatt.
  destruct (attach_runs _ Hatt)
    as [(i & Hi & Heq)|(t0 & n & q & i & Hgo & HoN & HoS & Hi & Heq)].
  - left.
    by destruct (good_run_unique _ _ _ _ _ _ _ _ _ Hwf' Hg attach_new_run'
                   Hn' Hi Heq) as (? & ? & _ & ?).
  - right. rewrite <-(same_env_tile_nth _ _ Henv) in Heq.
    assert (good_run w' t0 n q) as Hgo' by by eapply attach_other_run.
    destruct (good_run_unique _ _ _ _ _ _ _ _ _ Hwf' Hg Hgo' Hn' Hi Heq)
      as (-> & -> & _ & ->).
    done.
Qed.

Local Lemma attach_other_platform t0 n q :
  good_run w t0 n q →
  (∀ t0N nN pN, N = Some (t0N, nN, pN) → t0 ≠ t0N) →
  (S ≠ None → t0 ≠ x + off) →
  platforms w' !! q = platforms w !! q.
Proof.
  intros Hg HnN HnS. pose proof (inv_map _ Hinv) as Hwf.
  pose proof Hg as (Hr & Hst & _ & _).
  pose proof Hr as (Hn & Hatt & _).
  assert (tile_platform w t0 = Some q ∧ is_stop w t0 = true) as [Hq0 Hs0].
  { destruct (Hst 0%nat Hn) as [H0 _]. rewrite tile_nth_0 in H0.
    by apply attached_true in Hatt as [? _]. }
  assert (∀ nS ps, S = Some (nS, ps) → q ≠ ps) as HqS.
  { intros nS ps HSe Hqp. rewrite Hqp in Hq0, Hg.
    pose proof HS as HS'. rewrite HSe in HS'. destruct HS' as (HgS & _).
    pose proof HgS as (_ & _ & _ & HexS).
    destruct (HexS t0 Hs0 Hq0) as (j & Hj & Heq).
    rewrite <-(tile_nth_0 w t0) in Heq.
    destruct (good_run_unique _ _ _ _ _ _ _ _ _ Hwf Hg HgS Hn Hj Heq)
      as (Heq0 & _). apply HnS; [by rewrite HSe|done]. }
  destruct Hpost as [_ Hpl _ _ _ _ Hheap]. apply Hheap.
  - intros Hqp. rewrite Hqp in Hq0, Hg.
    destruct (north_cases N) as [HNe|(t0N & nN & pN & HNe)];
      rewrite HNe in Hpl.
    + destruct (south_cases S) as [HSe|(nS & ps & HSe)]; rewrite HSe in Hpl.
      * destruct (attached_platform_live w t0 p Hinv Hs0 Hq0). congruence.
      * eapply HqS; [done|]. congruence.
    + pose proof HN as HN'. rewrite HNe in HN'. destruct HN' as (HgN & _).
      rewrite <-Hpl in HgN.
      pose proof HgN as (_ & _ & _ & HexN).
      destruct (HexN t0 Hs0 Hq0) as (j & Hj & Heq).
      rewrite <-(tile_nth_0 w t0) in Heq.
      destruct (good_run_unique _ _ _ _ _ _ _ _ _ Hwf Hg HgN Hn Hj Heq)
        as (Heq0 & _). by eapply HnN.
  - destruct (south_cases S) as [HSe|(nS & ps & HSe)]; rewrite HSe; [done|].
    by eapply HqS.
Qed.

Local Lemma attach_segment :
  segment w head total =
  segment w head (north_count N) ++ [x] ++
  segment w (x + off) (south_count S).
Proof.
  destruct (attach_head w x N HN) as [Hl Hhx].
  assert (∀ i, tile_nth w head i = head + Z.of_nat i * off) as Hn.
  { intros. by apply tile_nth_line. }
  unfold segment. rewrite !seq_app, !fmap_app. cbn.
  rewrite Hn, Hhx, <-app_assoc. do 2 f_equal.
  apply list_eq. intros i. rewrite !list_lookup_fmap.
  destruct (decide (i < south_count S)%nat) as [Hi|Hi].
  - rewrite !lookup_seq_lt by done. cbn. f_equal.
    rewrite Hn, (attach_south_nth w x S HS) by done. lia.
  - by rewrite !lookup_seq_ge by lia.
Qed.
Context (Hint : Integrity w) (Hfree : clear_of_vehicles w x).

Local Lemma attach_env_occupancy t n :
  occupancy w' (GetRoadStopDir w' t) (segment w' t n) =
  occupancy w (GetRoadStopDir w t) (segment w t n).
Proof.
  assert (same_env w w') as Henv by apply Hpost.
  pose proof Henv as (_ & _ & Hm & _ & Hvt & Hv).
  rewrite (occupancy_env w w') by done. f_equal.
  - unfold GetRoadStopDir, GetRoadStopAxis. by rewrite Hm.
  - unfold segment. apply list_fmap_ext. intros _ i _.
    apply (same_env_tile_nth _ _ Henv).
Qed.

Local Lemma attach_integrity_new : run_integrity w' head total p.
Proof.
  destruct (attach_head w x N HN) as [Hl Hhx].
  pose proof (attach_off w x Hinv) as Hoff.
  destruct Hpost as [_ _ _ _ _ (v & Hv & _ & Hocc) _].
  exists v. split; [done|].
  rewrite attach_env_occupancy, attach_segment, (line_dir _ _ _ Hl).
  destruct Hfree as [Hfx Hsides].
  set (dir := GetRoadStopDir w x).
  assert (∀ t0 nN pn, N = Some (t0, nN, pn) →
            ∃ vn, platforms w !! pn = Some vn ∧
                  occupancy w dir (segment w t0 nN) =
                    Some (occupied_east vn, occupied_west vn) ∧
                  ∀ t, t ∈ segment w t0 nN → t < x) as HNi.
  { intros t0 nN pn HNe. pose proof HN as HN'. rewrite HNe in HN'.
    destruct HN' as (HgN & Hnth & HlN).
    destruct (Hint _ _ _ HgN) as (vn & Hvn & Ho).
    exists vn. rewrite (line_dir _ _ _ HlN) in Ho. split_and!; [done..|].
    intros t (i & Hi & ->)%elem_of_segment. rewrite <-Hnth.
    unfold tile_nth. pose proof (stop_offset_bounds w t0 (inv_map _ Hinv)).
    nia. }
  assert (∀ nS ps, S = Some (nS, ps) →
            ∃ vs, platforms w !! ps = Some vs ∧
                  occupancy w dir (segment w (x + off) nS) =
                    Some (occupied_east vs, occupied_west vs) ∧
                  ∀ t, t ∈ segment w (x + off) nS → x < t) as HSi.
  { intros nS ps HSe. pose proof HS as HS'. rewrite HSe in HS'.
    destruct HS' as (HgS & HlS).
    destruct (Hint _ _ _ HgS) as (vs & Hvs & Ho).
    exists vs. rewrite (line_dir _ _ _ HlS) in Ho. split_and!; [done..|].
    intros t (i & Hi & ->)%elem_of_segment.
    rewrite (tile_nth_line _ _ _ _ HlS). nia. }
  destruct (north_cases N) as [HNe|(t0 & nN & pn & HNe)];
    destruct (south_cases S) as [HSe|(nS & ps & HSe)];
    rewrite HNe, HSe in Hocc |- *; cbn [north_head north_count south_count].
  - cbn [segment seq fmap list_fmap app].
    rewrite occupancy_free_l by done. rewrite occupancy_nil. congruence.
  - destruct (HSi _ _ HSe) as (vs & Hvs & Ho & _).
    cbn [segment seq fmap list_fmap app].
    rewrite occupancy_free_l by done. rewrite Ho.
    unfold occupancy_of in Hocc. cbn in Hocc. rewrite Hvs in Hocc. congruence.
  - destruct (HNi _ _ _ HNe) as (vn & Hvn & Ho & _).
    cbn [segment seq fmap list_fmap app].
    rewrite occupancy_free_r by done. rewrite Ho.
    unfold occupancy_of in Hocc. cbn in Hocc. rewrite Hvn in Hocc. congruence.
  - destruct (HNi _ _ _ HNe) as (vn & Hvn & HoN & HltN).
    destruct (HSi _ _ HSe) as (vs & Hvs & HoS & HltS).
    rewrite app_assoc.
    rewrite (occupancy_app w dir _ _ (occupied_east vn) (occupied_west vn)
               (occupied_east vs) (occupied_west vs)).
    + unfold occupancy_of in Hocc. cbn in Hocc. rewrite Hvn, Hvs in Hocc.
      cbn in Hocc. congruence.
    + by rewrite occupancy_free_r.
    + done.
    + intros u Hc (t & Ht & Hu)%elem_of_run_vehicles
        (t' & Ht' & Hu')%elem_of_run_vehicles.
      apply elem_of_app in Ht as [Ht|Ht%list_elem_of_singleton].
      * apply (Hsides u t t' Hc Hu Hu'). split; [by apply HltN|by apply HltS].
      * subst t. specialize (Hfx u Hu). congruence.
Qed.

Theorem attach_integrity : Integrity w'.
Proof.
  intros t0 n q Hg.
  destruct (attach_classify _ _ _ Hg) as [(-> & -> & ->)|(Hgo & HoN & HoS)].
  - apply attach_integrity_new.
  - destruct (Hint _ _ _ Hgo) as (v & Hv & Ho).
    exists v. split.
    + by rewrite (attach_other_platform t0 n q).
    + by rewrite attach_env_occupancy.
Qed.
End attach_integrity.

(** * Detaching keeps the totals right *)

Section detach_integrity.
Context (w : World) (x t0 : TileIndex) (n : nat) (p : PlatformPtr)
  (k : nat) (q : PlatformPtr) (w' : World).
Context (Hinv : Inv w) (Hnp : no_pending w) (Hrun : good_run w t0 n p)
  (Hk : (k < n)%nat) (Hx : x = tile_nth w t0 k)
  (Hpost : detach_post w x t0 n p k q w').

Local Lemma detach_Inv' : Inv w'.
Proof. by eapply detach_preserves. Qed.

Local Lemma detach_ne j : j ≠ k → tile_nth w t0 j ≠ x.
Proof. by eapply detach_x_ne. Qed.

(** The runs after the call: the two parts of the run of [x], and the runs
    that were there before. *)
Local Lemma detach_classify t0' n' q' :
  good_run w' t0' n' q' →
  ((0 < k)%nat ∧ t0' = t0 ∧ n' = k ∧ q' = p) ∨
  ((S k < n)%nat ∧ t0' = tile_nth w t0 (S k) ∧ n' = (n - S k)%nat ∧ q' = q) ∨
  (good_run w t0' n' q' ∧ t0' ≠ t0).
Proof.
  intros Hg. pose proof (inv_map _ detach_Inv') as Hwf'.
  pose proof (inv_map _ Hinv) as Hwf.
  assert (0 < n')%nat as Hn' by apply Hg.
  pose proof (good_run_attached _ _ _ _ _ Hg Hn') as Hatt.
  rewrite tile_nth_0 in Hatt.
  apply (detach_attached w x t0 n p k q w' Hnp Hrun Hk Hx Hpost) in Hatt
    as [Hne Hatt].
  destruct (inv_runs _ Hinv _ Hatt) as (t1 & n1 & p1 & i & Hg1 & Hi & Heq).
  destruct (decide (t1 = t0)) as [->|Hne1].
  - destruct (good_run_unique w t0 n1 p1 0 t0 n p 0 Hwf)
      as (_ & -> & _ & ->); [done|done|apply Hg1|apply Hrun|done|].
    destruct (Nat.lt_trichotomy i k) as [Hlt|[->|Hgt]].
    + left. assert (0 < k)%nat as Hk0 by lia.
      assert (good_run w' t0 k p) as HgN by by eapply detach_north_run.
      assert (tile_nth w' t0' 0 = tile_nth w' t0 i) as Heq'.
      { rewrite tile_nth_0, Heq. symmetry.
        apply (detach_tile_nth w x t0 n p k q w' Hpost).
        rewrite <-(tile_nth_0 w t0). apply detach_ne. lia. }
      by destruct (good_run_unique _ _ _ _ _ _ _ _ _ Hwf' Hg HgN Hn' Hlt Heq')
        as (? & ? & _ & ?).
    + by rewrite <-Hx in Heq.
    + right. left. assert (S k < n)%nat as Hkn by lia.
      assert (good_run w' (tile_nth w t0 (S k)) (n - S k) q) as HgS
        by by eapply detach_south_run.
      destruct (detach_tile w t0 n p Hrun (S k) Hkn) as [_ Hl].
      assert (tile_nth w' t0' 0 =
              tile_nth w' (tile_nth w t0 (S k)) (i - S k)) as Heq'.
      { rewrite tile_nth_0, Heq.
        rewrite (detach_tile_nth w x t0 n p k q w' Hpost)
          by (apply detach_ne; lia).
        rewrite (tile_nth_line _ _ _ _ Hl). unfold tile_nth.
        rewrite Nat2Z.inj_sub by lia. lia. }
      assert (i - S k < n - S k)%nat as Hi' by lia.
      by destruct (good_run_unique _ _ _ _ _ _ _ _ _ Hwf' Hg HgS Hn' Hi' Heq')
        as (? & ? & _ & ?).
  - right. right.
    pose proof (detach_other_run w x t0 n p k q w' Hinv Hnp Hrun Hk Hx Hpost
                  t1 n1 p1 Hg1 Hne1) as Hg1'.
    assert (t1 ≠ x) as Ht1x.
    { rewrite <-(tile_nth_0 w t1), Hx. intros Heq0.
      assert (0 < n1)%nat as Hn1 by lia.
      by destruct (good_run_unique _ _ _ _ _ _ _ _ _ Hwf Hg1 Hrun Hn1 Hk Heq0)
        as (? & _). }
    assert (tile_nth w' t0' 0 = tile_nth w' t1 i) as Heq'.
    { rewrite tile_nth_0, Heq. symmetry.
      by apply (detach_tile_nth w x t0 n p k q w' Hpost). }
    destruct (good_run_unique _ _ _ _ _ _ _ _ _ Hwf' Hg Hg1' Hn' Hi Heq')
      as (-> & -> & _ & ->).
    done.
Qed.

Local Lemma detach_other_platform t1 n1 p1 :
  good_run w t1 n1 p1 → t1 ≠ t0 → platforms w' !! p1 = platforms w !! p1.
Proof.
  intros Hg Hne. pose proof (inv_map _ Hinv) as Hwf.
  pose proof Hg as (Hr & Hst & (v & Hv & _) & _).
  assert (0 < n1)%nat as Hn1 by apply Hr.
  assert (p1 ≠ p) as Hpp.
  { intros Hpp. rewrite Hpp in Hst, Hg. destruct (Hst 0%nat Hn1) as [Hp0 _].
    pose proof (proj1 (run_at_tile _ _ _ _ Hr Hn1)) as Hs0.
    destruct (proj2 (proj2 (proj2 Hrun)) _ Hs0 Hp0) as (j & Hj & Heq).
    by destruct (good_run_unique _ _ _ _ _ _ _ _ _ Hwf Hg Hrun Hn1 Hj Heq)
      as (? & _). }
  destruct Hpost as [_ [Hq0 Hq] _ _ _ _ Hh]. apply Hh; [done|].
  intros Hpq. destruct (decide (k = 0%nat)) as [Hk0|Hk0].
  - apply Hpp. rewrite Hpq. by apply Hq0.
  - rewrite Hpq, Hq in Hv by lia. done.
Qed.

Context (Hint : Integrity w) (Hfree : no_counted_on w x).

Local Lemma detach_env_occupancy t m :
  t ≠ x →
  occupancy w' (GetRoadStopDir w' t) (segment w' t m) =
  occupancy w (GetRoadStopDir w t) (segment w t m).
Proof.
  intros Hne. assert (cleared_env w x w') as Henv by apply Hpost.
  by rewrite (cleared_occupancy w x w' Henv), (cleared_dir w x w' Henv),
    (cleared_segment w x w' Henv).
Qed.

Theorem detach_integrity : Integrity w'.
Proof.
  intros t0' n' q' Hg.
  destruct (Hint _ _ _ Hrun) as (v0 & Hv0 & Ho0).
  destruct (detach_classify _ _ _ Hg)
    as [(Hk0 & -> & -> & ->)|[(Hkn & -> & -> & ->)|(Hgo & Hne)]].
  - destruct Hpost as [_ _ _ _ Hl _ _].
    destruct (Hl Hk0) as (v & Hv & _ & Hsplit & Hend).
    exists v. split; [done|].
    rewrite detach_env_occupancy
      by (rewrite <-(tile_nth_0 w t0); apply detach_ne; lia).
    destruct (decide (S k < n)%nat) as [Hkn|Hkn]; [by apply Hsplit|].
    assert (S k = n) as Hkn' by lia. specialize (Hend Hkn').
    unfold occupancy_of in Hend. cbn in Hend. rewrite Hv0 in Hend.
    rewrite <-Hkn', segment_S, <-Hx, occupancy_free_r in Ho0 by done.
    congruence.
  - destruct (detach_tile w t0 n p Hrun (S k) Hkn) as [_ Hl].
    destruct Hpost as [_ _ _ _ _ Hl' _].
    destruct (Hl' Hkn) as (v & Hv & _ & Hsplit & Hend).
    exists v. split; [done|].
    rewrite detach_env_occupancy by (apply detach_ne; lia).
    rewrite (line_dir _ _ _ Hl).
    destruct (decide (0 < k)%nat) as [Hk0|Hk0]; [by apply Hsplit|].
    assert (k = 0%nat) as Hk0' by lia. specialize (Hend Hk0').
    unfold occupancy_of in Hend. cbn in Hend. rewrite Hv0 in Hend.
    rewrite Hk0' in *. rewrite tile_nth_0 in Hx.
    replace n with (S (n - 1)) in Ho0 by lia.
    rewrite segment_cons, <-Hx, occupancy_free_l in Ho0 by done.
    congruence.
  - destruct (Hint _ _ _ Hgo) as (v & Hv & Ho).
    exists v. split.
    + by rewrite (detach_other_platform t0' n' q').
    + rewrite detach_env_occupancy; [done|].
      rewrite <-(tile_nth_0 w t0'), Hx. intros Heq.
      assert (0 < n')%nat as Hn' by apply Hgo.
      by destruct (good_run_unique _ _ _ _ _ _ _ _ _ (inv_map _ Hinv)
                     Hgo Hrun Hn' Hk Heq) as (? & _).
Qed.
End detach_integrity.

(** * Building a stop preserves the invariant *)

Section placed.
Context (w : World) (x : TileIndex) (this : RoadStopPtr) (w1 : World).
Context (Hinv : Inv w) (Hnp : no_pending w) (Hpl : placed w x this w1).

Local Lemma placed_map t : t ≠ x → map_tiles w1 t = map_tiles w t.
Proof. destruct Hpl as (_ & _ & _ & _ & Hm & _). apply Hm. Qed.

Local Lemma placed_is_stop t : t ≠ x → is_stop w1 t = is_stop w t.
Proof.
  intros Hne. unfold is_stop, IsStationTile, IsDriveThroughStopTile.
  by rewrite placed_map.
Qed.

Local Lemma placed_is_stop' t :
  is_stop w1 t = true ↔ t = x ∨ is_stop w t = true.
Proof.
  destruct Hpl as (_ & Hx & _ & _ & _ & _ & _ & _ & Hx1 & _).
  destruct (decide (t = x)) as [->|Hne]; [naive_solver|].
  rewrite placed_is_stop by done. naive_solver.
Qed.

Local Lemma placed_stop_ne t : is_stop w t = true → t ≠ x.
Proof.
  destruct Hpl as (_ & Hx & _). intros Ht ->. congruence.
Qed.

Local Lemma placed_line t : t ≠ x → line w1 t = line w t.
Proof.
  intros Hne. unfold line, GetStationIndex, GetStationType, GetRoadStopAxis.
  by rewrite placed_map.
Qed.

Local Lemma placed_offset t : t ≠ x → stop_offset w1 t = stop_offset w t.
Proof.
  intros Hne. unfold stop_offset, TileOffsByDiagDir, GetRoadStopAxis.
  rewrite placed_map by done.
  by destruct Hpl as (_ & _ & -> & _).
Qed.

Local Lemma placed_tile_nth t i : t ≠ x → tile_nth w1 t i = tile_nth w t i.
Proof. intros Hne. unfold tile_nth. by rewrite placed_offset. Qed.

Local Lemma placed_platform t :
  is_stop w t = true →
  tile_platform w1 t = tile_platform w t ∧ tile_base w1 t = tile_base w t.
Proof. destruct Hpl as (_ & _ & _ & _ & _ & _ & _ & _ & _ & _ & _ & H). apply H. Qed.

Local Lemma placed_this :
  ∃ s, stop_at w1 x = Some s ∧ platform s = None ∧
       HasBit (status s) RSSFB_BASE_ENTRY = false.
Proof.
  destruct Hpl as (_ & _ & _ & _ & _ & _ & _ & _ & _ & Hp & (s & Hs & ?) & _).
  exists s. split; [|done]. apply stop_at_ptr. eauto.
Qed.

Local Lemma placed_pending : pending_stop w1 this x.
Proof.
  destruct placed_this as (s & Hs & Hp & _).
  destruct Hpl as (_ & _ & _ & _ & _ & _ & _ & _ & Hx1 & Hptr & _).
  split_and!; [done..|]. unfold tile_platform. by rewrite Hs.
Qed.

Local Lemma placed_attached t :
  attached w1 t = true ↔ attached w t = true.
Proof.
  rewrite !attached_true, placed_is_stop'. split.
  - intros [[->|Ht] Hp].
    + destruct placed_pending as (_ & _ & Hnone). rewrite Hnone in Hp.
      by destruct Hp.
    + split; [done|]. by apply Hnp.
  - intros [Ht Hp]. split; [by right|].
    by destruct (placed_platform t Ht) as [-> _].
Qed.

Local Lemma placed_acont a b : a ≠ x → acont w1 a b = acont w a b.
Proof.
  intros Ha. apply eq_true_iff_eq. rewrite !acont_true, placed_is_stop'.
  split.
  - intros ([->|Hb] & Hl & Hp).
    + destruct placed_pending as (_ & _ & Hnone). rewrite Hnone in Hp.
      by destruct Hp.
    + pose proof (placed_stop_ne b Hb).
      rewrite !placed_line in Hl by done. split_and!; [done..|].
      by apply Hnp.
  - intros (Hb & Hl & Hp). pose proof (placed_stop_ne b Hb).
    rewrite !placed_line by done. split_and!; [by right|done|].
    by destruct (placed_platform b Hb) as [-> _].
Qed.

Local Lemma placed_good_run t0 n p :
  good_run w t0 n p → good_run w1 t0 n p.
Proof.
  intros (Hr & Hst & Hlen & Hex).
  pose proof Hr as (Hn & Hatt & Hin & Hno & Hso).
  assert (t0 ≠ x) as Ht0.
  { apply placed_stop_ne. by apply attached_true in Hatt as [? _]. }
  assert (∀ i, tile_nth w1 t0 i = tile_nth w t0 i) as Hnth
    by (intros; by apply placed_tile_nth).
  split_and!.
  - split_and!; [done|by apply placed_attached|..].
    + intros i Hi. rewrite Hnth, placed_acont by done. by apply Hin.
    + by rewrite placed_offset, placed_acont.
    + by rewrite Hnth, placed_acont.
  - intros i Hi. rewrite Hnth.
    destruct (run_at_tile _ _ _ _ Hr Hi) as (Hs & _).
    destruct (placed_platform _ Hs) as [-> ->]. by apply Hst.
  - destruct Hlen as (v & Hv & Hl). exists v. split; [|done].
    by destruct Hpl as (_ & _ & _ & _ & _ & -> & _).
  - intros t [->|Ht]%placed_is_stop' Hp.
    + destruct placed_pending as (_ & _ & Hnone). congruence.
    + destruct (placed_platform _ Ht) as [Hp' _]. rewrite Hp' in Hp.
      destruct (Hex t Ht Hp) as (j & Hj & ->). exists j. by rewrite Hnth.
Qed.

Theorem placed_preserves : Inv w1.
Proof.
  split.
  - apply Hpl.
  - intros t [->|Ht]%placed_is_stop'.
    + destruct placed_this as (s & -> & _). done.
    + destruct (placed_platform t Ht) as [Hp _].
      destruct (Hnp t Ht) as [p Hp']. rewrite Hp' in Hp.
      apply tile_platform_stop_at in Hp as (s & -> & _). done.
  - intros t [->|Ht]%placed_is_stop' Hnone.
    + destruct placed_this as (s & Hs & _ & Hb). unfold tile_base.
      by rewrite Hs.
    + destruct (placed_platform t Ht) as [Hp _].
      destruct (Hnp t Ht) as [p Hp']. congruence.
  - intros t Hatt%placed_attached.
    destruct (inv_runs _ Hinv t Hatt) as (t0 & n & p & i & Hg & Hi & ->).
    exists t0, n, p, i. split_and!; [by apply placed_good_run|done|].
    symmetry. apply placed_tile_nth, placed_stop_ne.
    assert (0 < n)%nat as Hn by lia.
    pose proof (good_run_attached _ _ _ _ _ Hg Hn) as Ha.
    rewrite tile_nth_0 in Ha. by apply attached_true in Ha as [? _].
Qed.

Theorem placed_integrity : Integrity w → Integrity w1.
Proof.
  intros Hint t0 n p Hg. pose proof (inv_map _ placed_preserves) as Hwf1.
  assert (0 < n)%nat as Hn by apply Hg.
  pose proof (good_run_attached _ _ _ _ _ Hg Hn) as Hatt.
  rewrite tile_nth_0 in Hatt. apply placed_attached in Hatt.
  destruct (inv_runs _ Hinv _ Hatt) as (t1 & n1 & p1 & i & Hg1 & Hi & Heq).
  assert (t1 ≠ x) as Ht1.
  { apply placed_stop_ne. assert (0 < n1)%nat as Hn1 by lia.
    pose proof (good_run_attached _ _ _ _ _ Hg1 Hn1) as Ha.
    rewrite tile_nth_0 in Ha. by apply attached_true in Ha as [? _]. }
  assert (tile_nth w1 t0 0 = tile_nth w1 t1 i) as Heq'.
  { by rewrite tile_nth_0, placed_tile_nth. }
  destruct (good_run_unique _ _ _ _ _ _ _ _ _ Hwf1 Hg
              (placed_good_run _ _ _ Hg1) Hn Hi Heq') as (-> & -> & _ & ->).
  destruct (Hint _ _ _ Hg1) as (v & Hv & Ho). exists v.
  destruct Hpl as (_ & _ & _ & _ & _ & Hh & Hvt & Hvs & _).
  split; [by rewrite Hh|].
  rewrite (occupancy_env w w1) by done. rewrite <-Ho. f_equal.
  - unfold GetRoadStopDir, GetRoadStopAxis. by rewrite placed_map.
  - unfold segment. apply list_fmap_ext. intros _ j _.
    by apply placed_tile_nth.
Qed.
End placed.

(** * Moving vehicles preserves the invariant *)

Lemma vehicles_moved_good_run w w' t0 n p :
  vehicles_moved w w' → good_run w t0 n p → good_run w' t0 n p.
Proof.
  intros (Hx & Hsz & Hm & Hst & Hstops & Hlen & _) (Hr & Hs & Hl & He).
  assert (∀ t0 n, run_at w' t0 n = run_at w t0 n) as Hrun.
  { destruct w, w'. cbn in *. by subst. }
  assert (∀ t0 n p, run_state w' t0 n p = run_state w t0 n p) as Hstate.
  { destruct w, w'. cbn in *. by subst. }
  assert (∀ t0 n p, run_exclusive w' t0 n p = run_exclusive w t0 n p) as Hex.
  { destruct w, w'. cbn in *. by subst. }
  unfold good_run. rewrite Hrun, Hstate, Hex. split_and!; try done.
  destruct Hl as (v & Hv & Hlv). specialize (Hlen p). rewrite Hv in Hlen.
  destruct (platforms w' !! p) as [v'|] eqn:Hv'; [|done].
  exists v'. split; [done|]. cbn in Hlen. congruence.
Qed.

Lemma vehicles_moved_Inv w w' :
  vehicles_moved w w' → Inv w ∧ no_pending w → Inv w' ∧ no_pending w'.
Proof.
  intros Hmv [Hinv Hnp].
  pose proof Hmv as (Hx & Hsz & Hm & Hst & Hstops & Hlen & _).
  assert (wf_map w' = wf_map w) as Hwf.
  { destruct w, w'. cbn in *. by subst. }
  assert (∀ t, is_stop w' t = is_stop w t) as Hstop.
  { destruct w, w'. cbn in *. by subst. }
  assert (∀ t, stop_at w' t = stop_at w t) as Hat.
  { destruct w, w'. cbn in *. by subst. }
  assert (∀ t i, tile_nth w' t i = tile_nth w t i) as Hnth.
  { destruct w, w'. cbn in *. by subst. }
  assert (∀ t, tile_platform w' t = tile_platform w t) as Hp.
  { intros. by apply stop_at_tile_platform. }
  assert (∀ t, tile_base w' t = tile_base w t) as Hb.
  { intros. by apply stop_at_tile_base. }
  split; [split|].
  - rewrite Hwf. apply Hinv.
  - intros t. rewrite Hstop, Hat. apply Hinv.
  - intros t. rewrite Hstop, Hp, Hb. apply Hinv.
  - intros t. unfold attached. rewrite Hstop, Hp. intros Hatt.
    destruct (inv_runs _ Hinv t Hatt) as (t0 & n & p & i & Hg & Hi & ->).
    exists t0, n, p, i. split_and!; [|done|by rewrite Hnth].
    by eapply vehicles_moved_good_run.
  - intros t. rewrite Hstop, Hp. apply Hnp.
Qed.

(** * The operations on reachable states *)

Lemma MakeDriveThrough_no_pending w this x w' :
  Inv w → pending_stop w this x →
  (∀ t, is_stop w t = true → t ≠ x → is_Some (tile_platform w t)) →
  MakeDriveThrough this w = Some (tt, w') →
  Inv w' ∧ no_pending w'.
Proof.
  intros Hinv Hpend Hothers Hrun.
  destruct (MakeDriveThrough_Inv w this x Hinv Hpend)
    as (w'' & Hrun' & Hinv' & Henv & Hkeep & Hx).
  assert (w'' = w') as -> by congruence.
  split; [done|]. intros t Ht. rewrite (same_env_is_stop _ _ Henv) in Ht.
  destruct (decide (t = x)) as [->|Hne]; [done|].
  apply Hkeep; [done|]. by apply Hothers.
Qed.

Lemma MakeDriveThrough_Integrity w this x w' :
  Inv w → pending_stop w this x → Integrity w → clear_of_vehicles w x →
  MakeDriveThrough this w = Some (tt, w') →
  Integrity w'.
Proof.
  intros Hinv Hpend Hint Hfree Hrun.
  destruct (MakeDriveThrough_attach w this x Hinv Hpend)
    as (N & S & p & w'' & HN & HS & Hrun' & Hpost).
  assert (w'' = w') as -> by congruence.
  destruct Hpend as (Hx & Hptr & Hxp).
  by eapply attach_integrity.
Qed.

Lemma ClearDriveThrough_Integrity w this x u w' :
  Inv w → no_pending w → attached_stop w this x →
  Integrity w → no_counted_on w x →
  ClearDriveThrough this w = Some (u, w') →
  Integrity w'.
Proof.
  intros Hinv Hnp Hatt Hint Hfree Hc.
  destruct (attached_stop_run w this x Hinv Hatt)
    as (s & t0 & n & p & k & Hs & Hg & Hk & Hxk).
  destruct Hatt as (Hx & Hptr & _).
  destruct (ClearDriveThrough_run w this x t0 n p k) as [Hpost _]; try done.
  destruct (Hpost u w' Hc) as (q & Hq).
  by eapply detach_integrity.
Qed.

Lemma reachable_invariants attach_ok detach_ok w :
  reachable attach_ok detach_ok w →
  Inv w ∧ no_pending w ∧
  ((∀ w x, attach_ok w x → clear_of_vehicles w x) →
   (∀ w x, detach_ok w x → no_counted_on w x) →
   Integrity w).
Proof.
  induction 1 as [w Hwf Hnone|w w1 w' this x _ (Hinv & Hnp & Hint) Hpl Hok Hrun
                 |w w' this x _ (Hinv & Hnp & Hint) Hatt Hok Hrun
                 |w w' _ (Hinv & Hnp & Hint) Hmv].
  - split_and!.
    + split; [done|intros t Ht; by rewrite Hnone in Ht..|].
      intros t [Ht _]%attached_true. by rewrite Hnone in Ht.
    + intros t Ht. by rewrite Hnone in Ht.
    + intros _ _ t0 n p (Hr & _).
      destruct Hr as (_ & [Ht _]%attached_true & _). by rewrite Hnone in Ht.
  - pose proof (placed_preserves w x this w1 Hinv Hnp Hpl) as Hinv1.
    pose proof (placed_pending w x this w1 Hpl) as Hpend.
    destruct (MakeDriveThrough_no_pending w1 this x w' Hinv1 Hpend)
      as [Hinv' Hnp']; [|done|].
    { intros t [->|Ht]%(placed_is_stop' w x this w1 Hpl) Hne; [done|].
      destruct (placed_platform w x this w1 Hpl t Ht) as [-> _].
      by apply Hnp. }
    split_and!; [done..|]. intros Ha Hd.
    apply (MakeDriveThrough_Integrity w1 this x w' Hinv1 Hpend); [| |done].
    + apply (placed_integrity w x this w1 Hinv Hnp Hpl). by apply Hint.
    + by apply Ha.
  - destruct (ClearDriveThrough_Inv w this x tt w' Hinv Hnp Hatt Hrun)
      as [Hinv' Hnp'].
    split_and!; [done..|]. intros Ha Hd.
    apply (ClearDriveThrough_Integrity w this x tt w' Hinv Hnp Hatt);
      [| |done].
    + by apply Hint.
    + by apply Hd.
  - destruct (vehicles_moved_Inv w w' Hmv (conj Hinv Hnp)) as [Hinv' Hnp'].
    split_and!; [done..|]. intros Ha Hd.
    destruct Hmv as (_ & _ & _ & _ & _ & _ & Hkeep). by apply Hkeep, Hint.
Qed.

(** * Runs of the map *)

Lemma is_run_run_at w t0 n : no_pending w → is_run w t0 n ↔ run_at w t0 n.
Proof.
  intros Hnp. unfold is_run, run_at.
  rewrite !(acont_cont w) by done. split.
  - intros (Hn & Hin & Hno & Hso). split_and!; try done.
    + specialize (Hin 0%nat Hn). rewrite tile_nth_0 in Hin.
      apply cont_true in Hin as [Hs _]. apply attached_true.
      split; [done|]. by apply Hnp.
    + intros i Hi. rewrite acont_cont by done. by apply Hin.
  - intros (Hn & _ & Hin & Hno & Hso). split_and!; try done.
    intros i Hi. rewrite <-acont_cont by done. by apply Hin.
Qed.

Lemma is_run_good_run w t0 n :
  Inv w → no_pending w → is_run w t0 n → ∃ p, good_run w t0 n p.
Proof.
  intros Hinv Hnp Hr%is_run_run_at; [|done].
  pose proof Hr as (Hn & Hatt & _).
  destruct (inv_runs _ Hinv t0 Hatt) as (t1 & n1 & p & i & Hg & Hi & Heq).
  rewrite <-(tile_nth_0 w t0) in Heq.
  destruct (run_at_unique _ _ _ _ _ _ _ (inv_map _ Hinv) Hr (proj1 Hg) Hn Hi Heq)
    as (-> & -> & _).
  by exists p.
Qed.

Lemma good_run_is_run w t0 n p :
  no_pending w → good_run w t0 n p → is_run w t0 n.
Proof. intros Hnp (Hr & _). by apply is_run_run_at. Qed.

(** What [Rebuild] computes at the first tile of a run. *)
Lemma Rebuild_good_run w t0 n p v0 :
  Inv w → no_pending w → good_run w t0 n p →
  Platform_Rebuild w v0 t0 =
    o ← occupancy w (GetRoadStopDir w t0) (segment w t0 n);
    Some {| length := TILE_SIZE * Z.of_nat n;
            occupied_east := o.1; occupied_west := o.2 |}.
Proof.
  intros Hinv Hnp Hg. pose proof (inv_map _ Hinv) as Hwf.
  pose proof (good_run_is_run _ _ _ _ Hnp Hg) as (Hn & Hin & Hno & Hso).
  destruct Hg as (Hr & _).
  destruct (run_at_bound _ _ _ Hwf Hr) as (Ht0 & Hmax & _).
  apply Platform_Rebuild_segment; try done; [lia|].
  unfold tile_nth in *. rewrite Nat2Z.inj_sub in Hmax by lia. lia.
Qed.

(** * The invariants of the platform manager *)

(** C3: in every state that a sequence of [MakeDriveThrough] and
    [ClearDriveThrough] calls (each on a stop that has just been built,
    resp. on an attached stop) leads to from a state without drive-through
    stops, every run has one platform that all its stops reference, the base
    bit is set on the first stop of the run and on no other, and the length
    of the platform is [TILE_SIZE] times the number of tiles of the run. *)
Theorem reachable_run_base_and_length attach_ok detach_ok w t0 n :
  reachable attach_ok detach_ok w → is_run w t0 n →
  ∃ p v,
    (∀ i, (i < n)%nat → tile_platform w (tile_nth w t0 i) = Some p) ∧
    (∀ i, (i < n)%nat → tile_base w (tile_nth w t0 i) = true ↔ i = 0%nat) ∧
    platforms w !! p = Some v ∧ length v = TILE_SIZE * Z.of_nat n.
Proof.
  intros (Hinv & Hnp & _)%reachable_invariants Hr.
  destruct (is_run_good_run w t0 n Hinv Hnp Hr) as (p & _ & Hst & Hlen & _).
  destruct Hlen as (v & Hv & Hlv). exists p, v. split_and!; try done.
  - intros i Hi. by destruct (Hst i Hi).
  - intros i Hi. destruct (Hst i Hi) as [_ ->].
    by rewrite bool_decide_eq_true.
Qed.

Lemma CheckIntegrity_passes w this s p v :
  wf_map w → is_stop w (xy s) = true →
  stops w !! this = Some s → platform s = Some p →
  platforms w !! p = Some v →
  IsDriveThroughRoadStopContinuation w (xy s)
    (xy s - stop_offset w (xy s)) = false →
  Platform_Rebuild w new_Platform_value (xy s) = Some v →
  CheckIntegrity this w = Some (tt, w).
Proof.
  intros Hwf Hst Hs Hp Hv Hno Hr.
  pose proof (north_of_station w (xy s) Hwf (is_stop_station _ _ Hst)) as Hn.
  unfold CheckIntegrity, north_of, stop_offset in *.
  msimpl. destruct (HasBit (status s) RSSFB_BASE_ENTRY); cbn [negb]; [|done].
  msimpl. cbn [negb]. msimpl. done.
Qed.

(** C4, amended: when no counted vehicle stands on a tile at the time its
    stop is attached or detached (and none straddles the tile attached), in
    every state reached every run has a live platform that is exactly what
    [Rebuild] computes from scratch at the first tile of the run: length and
    both occupancy totals agree, and [CheckIntegrity] passes on the stop of
    that tile. *)
Theorem reachable_integrity w t0 n :
  reachable clear_of_vehicles no_counted_on w → is_run w t0 n →
  ∃ this p v,
    stop_ptr w t0 = Some this ∧ tile_platform w t0 = Some p ∧
    platforms w !! p = Some v ∧
    Platform_Rebuild w new_Platform_value t0 = Some v ∧
    CheckIntegrity this w = Some (tt, w).
Proof.
  intros (Hinv & Hnp & Hint)%reachable_invariants Hr.
  specialize (Hint ltac:(done) ltac:(done)).
  destruct (is_run_good_run w t0 n Hinv Hnp Hr) as (p & Hg).
  destruct (Hint _ _ _ Hg) as (v & Hv & Ho).
  pose proof Hg as (Hra & Hst & (v' & Hv' & Hlen) & _).
  assert (v' = v) as -> by congruence.
  assert (0 < n)%nat as Hn by apply Hr.
  destruct (Hst 0%nat Hn) as [Hp0 Hb0]. rewrite tile_nth_0 in Hp0, Hb0.
  assert (is_stop w t0 = true) as Hs0.
  { destruct Hra as (_ & [? _]%attached_true & _). done. }
  destruct (registry_ptr _ _ Hinv Hs0) as (this & s & Hptr & Hs & Hxy).
  destruct (tile_platform_ptr _ _ _ _ Hptr Hs) as [Hps Hbs].
  assert (Platform_Rebuild w new_Platform_value t0 = Some v) as Hreb.
  { rewrite (Rebuild_good_run w t0 n p) by done. rewrite Ho. cbn.
    destruct v. cbn in *. by subst. }
  exists this, p, v. split_and!; try done.
  apply (CheckIntegrity_passes w this s p v); rewrite ?Hxy; try done.
  - apply Hinv.
  - congruence.
  - destruct Hr as (_ & _ & ? & _). done.
Qed.

Lemma occupancy_Some_sub w dir l l' :
  (∀ t, t ∈ l' → t ∈ l) →
  is_Some (occupancy w dir l) → is_Some (occupancy w dir l').
Proof.
  unfold occupancy. intros Hsub [o Ho].
  destruct (Rebuild_tile w (DiagDirToDir dir) ([], []) (run_vehicles w l))
    as [lists|] eqn:Hr; [|done].
  pose proof (Rebuild_tile_Some_dirs _ _ _ _ _ Hr) as Hd.
  destruct (Rebuild_tile_spec w (DiagDirToDir dir) (run_vehicles w l') [] [])
    as (le & lw & -> & _); [constructor..| |by eexists].
  intros v (t & Ht & Hv)%elem_of_run_vehicles Hc. apply Hd; [|done].
  apply elem_of_run_vehicles. eauto.
Qed.

(** C1: in a reachable state, [ClearDriveThrough] on the [k]-th tile
    (1 < k < L) of a run of [L] tiles, none of whose counted vehicles
    travels across the axis, returns and leaves two runs, of [k - 1] and
    [L - k] tiles, on two different platforms; each platform is exactly what
    [Rebuild] computes from scratch at the first tile of its run (length and
    both occupancy totals). *)
Theorem ClearDriveThrough_splits_run attach_ok detach_ok w this t0 L k :
  reachable attach_ok detach_ok w → is_run w t0 L → (1 < k < L)%nat →
  stop_ptr w (tile_nth w t0 (k - 1)) = Some this →
  directions_ok w t0 L →
  ∃ w' p q vN vS,
    ClearDriveThrough this w = Some (tt, w') ∧
    is_run w' t0 (k - 1) ∧ is_run w' (tile_nth w t0 k) (L - k) ∧
    (∀ i, (i < k - 1)%nat → tile_platform w' (tile_nth w t0 i) = Some p) ∧
    (∀ i, (k ≤ i < L)%nat → tile_platform w' (tile_nth w t0 i) = Some q) ∧
    p ≠ q ∧
    platforms w' !! p = Some vN ∧ platforms w' !! q = Some vS ∧
    Platform_Rebuild w' new_Platform_value t0 = Some vN ∧
    Platform_Rebuild w' new_Platform_value (tile_nth w t0 k) = Some vS.
Proof.
  intros (Hinv & Hnp & _)%reachable_invariants Hr Hk Hptr Hdir.
  destruct (is_run_good_run w t0 L Hinv Hnp Hr) as (p & Hg).
  set (x := tile_nth w t0 (k - 1)) in *.
  assert (k - 1 < L)%nat as Hk' by lia.
  assert (0 < k - 1)%nat as Hk0 by lia.
  assert (S (k - 1) < L)%nat as HkL by lia.
  destruct (ClearDriveThrough_run w this x t0 L p (k - 1)) as [Hpost Hret];
    try done.
  apply occupancy_directions in Hdir.
  destruct (detach_tile w t0 L p Hg (S (k - 1)) HkL) as [_ Hl].
  destruct Hret as (w' & Hrun).
  { intros _ _. split; (eapply occupancy_Some_sub; [|exact Hdir]).
    - intros t (i & Hi & ->)%elem_of_segment. apply elem_of_segment.
      exists (S (k - 1) + i)%nat. split; [lia|].
      rewrite (tile_nth_line _ _ _ _ Hl). unfold tile_nth. lia.
    - intros t (i & Hi & ->)%elem_of_segment. apply elem_of_segment.
      exists i. split; [lia|done]. }
  destruct (Hpost tt w' Hrun) as (q & Hq).
  destruct (detach_preserves w x t0 L p (k - 1) q w' Hinv Hnp Hg Hk' eq_refl Hq)
    as [Hinv' Hnp'].
  pose proof (detach_north_run w x t0 L p (k - 1) q w' Hinv Hnp Hg Hk' eq_refl
                Hq Hk0) as HgN.
  pose proof (detach_south_run w x t0 L p (k - 1) q w' Hinv Hnp Hg Hk' eq_refl
                Hq HkL) as HgS.
  replace (S (k - 1)) with k in * by lia.
  assert (cleared_env w x w') as Henv by apply Hq.
  assert (t0 ≠ x) as Ht0.
  { rewrite <-(tile_nth_0 w t0).
    apply (detach_x_ne w x t0 L (k - 1) Hinv Hk' eq_refl). lia. }
  assert (tile_nth w t0 k ≠ x) as Hh.
  { apply (detach_x_ne w x t0 L (k - 1) Hinv Hk' eq_refl). lia. }
  destruct (dp_north_length _ _ _ _ _ _ _ _ Hq Hk0) as (vN & HvN & HlN & HoN & _).
  destruct (dp_south_length _ _ _ _ _ _ _ _ Hq ltac:(lia))
    as (vS & HvS & HlS & HoS & _).
  specialize (HoN ltac:(lia)). specialize (HoS Hk0).
  replace (S (k - 1)) with k in * by lia.
  exists w', p, q, vN, vS. split_and!; try done.
  - by eapply good_run_is_run.
  - by eapply good_run_is_run.
  - intros i Hi. destruct HgN as (_ & Hst & _).
    destruct (Hst i Hi) as [Hp _].
    by rewrite (cleared_tile_nth w x w' Henv) in Hp.
  - intros i Hi. destruct HgS as (_ & Hst & _).
    destruct (Hst (i - k)%nat ltac:(lia)) as [Hp _].
    rewrite (cleared_tile_nth w x w' Henv) in Hp by done.
    rewrite (tile_nth_line _ _ _ _ Hl) in Hp.
    replace (tile_nth w t0 i)
      with (tile_nth w t0 k + Z.of_nat (i - k) * stop_offset w t0); [done|].
    unfold tile_nth. rewrite Nat2Z.inj_sub by lia. lia.
  - intros ->. destruct (dp_platform _ _ _ _ _ _ _ _ Hq) as [_ Hfresh].
    specialize (Hfresh Hk0). destruct Hg as (_ & _ & (v & Hv & _) & _).
    congruence.
  - rewrite (Rebuild_good_run w' t0 (k - 1) p) by done.
    rewrite (cleared_occupancy w x w' Henv), (cleared_dir w x w' Henv),
      (cleared_segment w x w' Henv) by done.
    rewrite HoN. cbn. destruct vN. cbn in *. by subst.
  - rewrite (Rebuild_good_run w' (tile_nth w t0 k) (L - k) q) by done.
    rewrite (cleared_occupancy w x w' Henv), (cleared_dir w x w' Henv),
      (cleared_segment w x w' Henv) by done.
    rewrite (line_dir _ _ _ Hl), HoS. cbn. destruct vS. cbn in *. by subst.
Qed.

(** * Joining two runs *)

Lemma north_case_run w x t0 n p :
  north_case w x (Some (t0, n, p)) →
  (n - 1 < n)%nat ∧ tile_nth w t0 (n - 1) = x - stop_offset w x ∧
  acont w x (x - stop_offset w x) = true.
Proof.
  intros (Hg & Hnth & Hl). assert (0 < n)%nat as Hn by apply Hg.
  assert (n - 1 < n)%nat as Hlast by lia. split; [done|].
  assert (tile_nth w t0 (n - 1) = x - stop_offset w x) as Heq.
  { rewrite <-(line_offset _ _ _ Hl), <-Hnth. unfold tile_nth.
    rewrite Nat2Z.inj_sub by lia. lia. }
  split; [done|]. rewrite <-Heq. apply acont_true.
  destruct (run_at_tile _ _ _ _ (proj1 Hg) Hlast) as (? & ? & ?).
  split_and!; [done|congruence|done].
Qed.

Lemma north_case_unique w x N N' :
  Inv w → north_case w x N → north_case w x N' → N = N'.
Proof.
  intros Hinv HN HN'.
  destruct N as [[[t0 n] p]|], N' as [[[t0' n'] p']|]; try done.
  - destruct (north_case_run _ _ _ _ _ HN) as (Hi & Heq & _).
    destruct (north_case_run _ _ _ _ _ HN') as (Hi' & Heq' & _).
    destruct HN as (Hg & _), HN' as (Hg' & _).
    destruct (good_run_unique w t0 n p (n - 1) t0' n' p' (n' - 1)
                (inv_map _ Hinv)) as (-> & -> & _ & ->); try done.
    congruence.
  - destruct (north_case_run _ _ _ _ _ HN) as (_ & _ & Ha).
    cbn in HN'. congruence.
  - destruct (north_case_run _ _ _ _ _ HN') as (_ & _ & Ha).
    cbn in HN. congruence.
Qed.

Lemma south_case_run w x n p :
  south_case w x (Some (n, p)) → acont w x (x + stop_offset w x) = true.
Proof.
  intros (Hg & Hl). assert (0 < n)%nat as Hn by apply Hg.
  apply acont_true.
  destruct (run_at_tile _ _ _ _ (proj1 Hg) Hn) as (Hs & _ & Hp).
  rewrite tile_nth_0 in Hs, Hp. done.
Qed.

Lemma south_case_unique w x S S' :
  Inv w → south_case w x S → south_case w x S' → S = S'.
Proof.
  intros Hinv HS HS'.
  destruct S as [[n p]|], S' as [[n' p']|]; try done.
  - destruct HS as (Hg & _), HS' as (Hg' & _).
    assert (0 < n)%nat as Hn by apply Hg.
    assert (0 < n')%nat as Hn' by apply Hg'.
    by destruct (good_run_unique _ _ _ _ 0%nat _ _ _ 0%nat (inv_map _ Hinv)
                   Hg Hg' Hn Hn' eq_refl) as (_ & -> & _ & ->).
  - pose proof (south_case_run _ _ _ _ HS). cbn in HS'. congruence.
  - pose proof (south_case_run _ _ _ _ HS'). cbn in HS. congruence.
Qed.

(** C2: two runs of [m] and [n] tiles of a reachable state are separated by
    the single tile [x]; a stop is built on [x], on the same axis and for the
    same station and stop type.  [MakeDriveThrough] on that stop returns and
    leaves one run of [m + n + 1] tiles whose stops all reference the
    platform of the northern run; its length is [TILE_SIZE] times
    [m + n + 1], and each of its occupancy totals is the sum (an addition on
    [int]; the exact sum when that fits) of the totals of the two platforms
    before the call. *)
Theorem MakeDriveThrough_merges_runs attach_ok detach_ok
    w0 w this x t0 t1 m n pn ps vn vs :
  reachable attach_ok detach_ok w0 →
  is_run w0 t0 m → is_run w0 t1 n →
  x = tile_nth w0 t0 m → t1 = tile_nth w0 t0 (m + 1) →
  placed w0 x this w →
  line w x = line w0 t0 → line w0 t1 = line w0 t0 →
  tile_platform w0 t0 = Some pn → platforms w0 !! pn = Some vn →
  tile_platform w0 t1 = Some ps → platforms w0 !! ps = Some vs →
  ∃ w' v,
    MakeDriveThrough this w = Some (tt, w') ∧
    is_run w' t0 (m + n + 1) ∧
    (∀ i, (i < m + n + 1)%nat →
          tile_platform w' (tile_nth w' t0 i) = Some pn) ∧
    platforms w' !! pn = Some v ∧
    length v = TILE_SIZE * Z.of_nat (m + n + 1) ∧
    occupied_east v = int_add (occupied_east vn) (occupied_east vs) ∧
    occupied_west v = int_add (occupied_west vn) (occupied_west vs) ∧
    (int_range (occupied_east vn + occupied_east vs) →
     occupied_east v = occupied_east vn + occupied_east vs) ∧
    (int_range (occupied_west vn + occupied_west vs) →
     occupied_west v = occupied_west vn + occupied_west vs).
Proof.
  intros (Hinv0 & Hnp0 & _)%reachable_invariants HrN HrS Hx Ht1 Hpl
    Hlx Hl1 Hpn Hvn Hps Hvs.
  destruct (is_run_good_run w0 t0 m Hinv0 Hnp0 HrN) as (pn' & HgN).
  destruct (is_run_good_run w0 t1 n Hinv0 Hnp0 HrS) as (ps' & HgS).
  assert (0 < m)%nat as Hm by apply HrN.
  assert (0 < n)%nat as Hn by apply HrS.
  assert (pn' = pn) as ->.
  { destruct HgN as (_ & Hst & _). destruct (Hst 0%nat Hm) as [H0 _].
    rewrite tile_nth_0 in H0. congruence. }
  assert (ps' = ps) as ->.
  { destruct HgS as (_ & Hst & _). destruct (Hst 0%nat Hn) as [H0 _].
    rewrite tile_nth_0 in H0. congruence. }
  pose proof (placed_preserves w0 x this w Hinv0 Hnp0 Hpl) as Hinv.
  pose proof (placed_pending w0 x this w Hpl) as Hpend.
  pose proof (placed_good_run w0 x this w Hnp0 Hpl _ _ _ HgN) as HgN'.
  pose proof (placed_good_run w0 x this w Hnp0 Hpl _ _ _ HgS) as HgS'.
  assert (is_stop w0 t0 = true ∧ is_stop w0 t1 = true) as [Hs0 Hs1].
  { pose proof (good_run_attached _ _ _ _ _ HgN Hm) as H0.
    pose proof (good_run_attached _ _ _ _ _ HgS Hn) as H1.
    rewrite tile_nth_0 in H0, H1.
    by apply attached_true in H0 as [? _], H1 as [? _]. }
  pose proof (placed_stop_ne w0 x this w Hpl t0 Hs0) as Ht0x.
  pose proof (placed_stop_ne w0 x this w Hpl t1 Hs1) as Ht1x.
  assert (line w t0 = line w x) as HlN.
  { rewrite (placed_line w0 x this w Hpl) by done. done. }
  assert (stop_offset w x = stop_offset w0 t0) as Hoff.
  { rewrite <-(line_offset _ _ _ HlN).
    by apply (placed_offset w0 x this w Hpl). }
  assert (x + stop_offset w x = t1) as Hsouth.
  { rewrite Hoff, Hx, Ht1. unfold tile_nth. lia. }
  destruct (MakeDriveThrough_attach w this x Hinv Hpend)
    as (N & S & p & w' & HN & HS & Hrun & Hpost).
  assert (N = Some (t0, m, pn)) as ->.
  { apply (north_case_unique w x); [done..|]. split_and!; [done| |done].
    by rewrite (placed_tile_nth w0 x this w Hpl). }
  assert (S = Some (n, ps)) as ->.
  { apply (south_case_unique w x); [done..|]. unfold south_case.
    rewrite Hsouth.
    split; [done|].
    rewrite (placed_line w0 x this w Hpl) by done. congruence. }
  destruct Hpend as (Hxs & Hptr & Hxp).
  pose proof (attach_new_run w x _ _ p w' Hinv Hxs HN HS Hpost) as Hnew.
  cbn [north_head north_count south_count] in Hnew.
  destruct (MakeDriveThrough_no_pending w this x w' Hinv) as [Hinv' Hnp'];
    [done| |done|].
  { intros t [->|Ht]%(placed_is_stop' w0 x this w Hpl) Hne; [done|].
    destruct (placed_platform w0 x this w Hpl t Ht) as [-> _].
    by apply Hnp0. }
  destruct Hpost as [_ Hp _ _ _ (v & Hv & Hlen & Hocc) _]. subst p.
  cbn [north_count south_count] in Hlen.
  unfold occupancy_of in Hocc. cbn in Hocc.
  destruct Hpl as (_ & _ & _ & _ & _ & Hheap & _).
  rewrite Hheap, Hvn, Hvs in Hocc. cbn in Hocc.
  replace (m + 1 + n)%nat with (m + n + 1)%nat in * by lia.
  exists w', v. split_and!; try done.
  - by eapply good_run_is_run.
  - intros i Hi. destruct Hnew as (_ & Hst & _). by destruct (Hst i Hi).
  - congruence.
  - congruence.
  - intros Hr. unfold int_add in Hocc. rewrite to_int32_id in Hocc by done.
    congruence.
  - intros Hr. unfold int_add in Hocc.
    rewrite (to_int32_id (occupied_west vn + occupied_west vs)) in Hocc
      by done.
    congruence.
Qed.

(** * The example worlds *)

Lemma reachable_mono (A A' D D' : World → TileIndex → Prop) w :
  (∀ w x, A w x → A' w x) → (∀ w x, D w x → D' w x) →
  reachable A D w → reachable A' D' w.
Proof.
  intros HA HD. induction 1.
  - by apply reach_init.
  - eapply reach_attach; eauto.
  - eapply reach_detach; eauto.
  - eapply reach_vehicles; eauto.
Qed.

Lemma ex_map_is_stop w tiles t :
  map_tiles w = ex_map tiles → is_stop w t = bool_decide (t ∈ tiles).
Proof.
  intros Hm. unfold is_stop, IsStationTile, IsDriveThroughStopTile.
  rewrite Hm. unfold ex_map. by case_decide; case_bool_decide.
Qed.

Lemma ex_wf_map w tiles :
  MapSizeX w = 8 → MapSize w = 64 → map_tiles w = ex_map tiles →
  (∀ t, t ∈ tiles → 8 ≤ t < 56) → wf_map w.
Proof.
  intros Hx Hsz Hm Hin. unfold wf_map, IsStationTile.
  rewrite Hx, Hsz, Hm. split_and!; try done.
  intros t Ht. unfold ex_map in Ht. case_decide; [|done].
  specialize (Hin t ltac:(done)). lia.
Qed.

Lemma ex_no_vehicles w x :
  vehicles_on_tile w = (λ _, []) → clear_of_vehicles w x ∧ no_counted_on w x.
Proof.
  intros Hv. unfold clear_of_vehicles, no_counted_on. rewrite Hv.
  split_and!; intros v; try by intros ?%elem_of_nil.
  by intros ? ? ? ?%elem_of_nil.
Qed.

Lemma ex_placed w tiles x this prev :
  MapSizeX w = 8 → MapSize w = 64 → map_tiles w = ex_map tiles →
  (∀ t, t ∈ x :: tiles → 8 ≤ t < 56) → x ∉ tiles →
  stop_ptr (ex_build w tiles x this prev) x = Some this →
  (∀ t, t ∈ tiles →
        tile_platform (ex_build w tiles x this prev) t = tile_platform w t ∧
        tile_base (ex_build w tiles x this prev) t = tile_base w t) →
  placed w x this (ex_build w tiles x this prev).
Proof.
  intros Hx Hsz Hm Hin Hnew Hptr Hold. unfold placed. split_and!; try done.
  - by apply (ex_wf_map _ (x :: tiles)).
  - rewrite (ex_map_is_stop w tiles) by done. by apply bool_decide_eq_false_2.
  - intros t Hne. cbn. rewrite Hm. unfold ex_map.
    repeat case_decide; try done; set_solver.
  - rewrite (ex_map_is_stop _ (x :: tiles)) by done.
    apply bool_decide_eq_true_2. by left.
  - exists (ex_new_stop x). cbn. by rewrite lookup_insert_eq.
  - intros t Ht. rewrite (ex_map_is_stop w tiles) in Ht by done.
    apply bool_decide_eq_true in Ht. by apply Hold.
Qed.

Ltac ex_tiles H :=
  repeat match type of H with
  | ?x ∈ _ :: _ =>
      let Heq := fresh "Heq" in
      apply elem_of_cons in H as [Heq|H]; [try (is_var x; subst x)|]
  | _ ∈ [] => by apply elem_of_nil in H
  end.

Lemma ex_w1_reachable : reachable clear_of_vehicles no_counted_on ex_w1.
Proof.
  apply (reach_attach _ _ ex_w0 ex_w1a ex_w1 0%nat 9).
  - apply reach_init;
      [apply (ex_wf_map _ []); [done..|by intros t ?%elem_of_nil]|].
    intros t. by rewrite (ex_map_is_stop _ []).
  - apply ex_placed; try done.
    + intros t Ht. ex_tiles Ht; lia.
    + by intros ?%elem_of_nil.
    + by intros t ?%elem_of_nil.
  - by apply ex_no_vehicles.
  - vm_compute. reflexivity.
Qed.

Lemma ex_w2_reachable : reachable clear_of_vehicles no_counted_on ex_w2.
Proof.
  apply (reach_attach _ _ ex_w1 ex_w2a ex_w2 1%nat 10).
  - apply ex_w1_reachable.
  - apply ex_placed; try done.
    + intros t Ht. ex_tiles Ht; lia.
    + intros Ht. ex_tiles Ht; done.
    + intros t Ht. ex_tiles Ht; by vm_compute.
  - by apply ex_no_vehicles.
  - vm_compute. reflexivity.
Qed.

Lemma ex_w3_reachable : reachable clear_of_vehicles no_counted_on ex_w3.
Proof.
  apply (reach_attach _ _ ex_w2 ex_w3a ex_w3 2%nat 11).
  - apply ex_w2_reachable.
  - apply ex_placed; try done.
    + intros t Ht. ex_tiles Ht; lia.
    + intros Ht. ex_tiles Ht; done.
    + intros t Ht. ex_tiles Ht; by vm_compute.
  - by apply ex_no_vehicles.
  - vm_compute. reflexivity.
Qed.

Lemma ex_m2_reachable : reachable clear_of_vehicles no_counted_on ex_m2.
Proof.
  apply (reach_attach _ _ ex_w1 ex_m2a ex_m2 1%nat 11).
  - apply ex_w1_reachable.
  - apply ex_placed; try done.
    + intros t Ht. ex_tiles Ht; lia.
    + intros Ht. ex_tiles Ht; done.
    + intros t Ht. ex_tiles Ht; by vm_compute.
  - by apply ex_no_vehicles.
  - vm_compute. reflexivity.
Qed.

Lemma ex_m3a_placed : placed ex_m2 10 2%nat ex_m3a.
Proof.
  apply ex_placed; try done.
  - intros t Ht. ex_tiles Ht; lia.
  - intros Ht. ex_tiles Ht; done.
  - intros t Ht. ex_tiles Ht; by vm_compute.
Qed.

Ltac ex_run_tiles :=
  let i := fresh "i" in let Hi := fresh "Hi" in
  intros i Hi;
  repeat (destruct i as [|i]; [by vm_compute|]); lia.

Lemma ex_w2_run : is_run ex_w2 9 2.
Proof. split_and!; [lia|ex_run_tiles|by vm_compute..]. Qed.

Lemma ex_w3_run : is_run ex_w3 9 3.
Proof. split_and!; [lia|ex_run_tiles|by vm_compute..]. Qed.

Lemma ex_m2_run_north : is_run ex_m2 9 1.
Proof. split_and!; [lia|ex_run_tiles|by vm_compute..]. Qed.

Lemma ex_m2_run_south : is_run ex_m2 11 1.
Proof. split_and!; [lia|ex_run_tiles|by vm_compute..]. Qed.

(** * Detaching on reachable states *)

Lemma ClearDriveThrough_returns w this x :
  Inv w → no_pending w → attached_stop w this x →
  (∀ t0 n, is_run w t0 n → directions_ok w t0 n) →
  ∃ w', ClearDriveThrough this w = Some (tt, w').
Proof.
  intros Hinv Hnp Hatt Hdirs.
  destruct (attached_stop_run w this x Hinv Hatt)
    as (s & t0 & n & p & k & Hs & Hg & Hk & Hxk).
  destruct Hatt as (Hx & Hptr & _).
  destruct (ClearDriveThrough_run w this x t0 n p k) as [_ Hret]; try done.
  apply Hret. intros Hk0 HkL.
  pose proof (Hdirs t0 n (good_run_is_run _ _ _ _ Hnp Hg)) as Hdir.
  apply occupancy_directions in Hdir.
  destruct (detach_tile w t0 n p Hg (S k) HkL) as [_ Hl].
  split; (eapply occupancy_Some_sub; [|exact Hdir]).
  - intros t (i & Hi & ->)%elem_of_segment. apply elem_of_segment.
    exists (S k + i)%nat. split; [lia|].
    rewrite (tile_nth_line _ _ _ _ Hl). unfold tile_nth. lia.
  - intros t (i & Hi & ->)%elem_of_segment. apply elem_of_segment.
    exists i. split; [lia|done].
Qed.

(** C8: in a reachable state none of whose counted vehicles travels across
    the axis of its stop, [ClearDriveThrough] on an attached stop (its
    platform pointer is not null) returns, and whichever of the four
    neighbour cases applied, the detached stop ends with its base bit cleared
    and its platform pointer null. *)
Theorem ClearDriveThrough_clears_this attach_ok detach_ok w this x :
  reachable attach_ok detach_ok w → attached_stop w this x →
  (∀ t0 n, is_run w t0 n → directions_ok w t0 n) →
  ∃ w' s s',
    ClearDriveThrough this w = Some (tt, w') ∧
    stops w !! this = Some s ∧ platform s ≠ None ∧
    stops w' !! this = Some s' ∧
    HasBit (status s') RSSFB_BASE_ENTRY = false ∧ platform s' = None.
Proof.
  intros (Hinv & Hnp & _)%reachable_invariants Hatt Hdirs.
  destruct (ClearDriveThrough_returns w this x Hinv Hnp Hatt Hdirs)
    as (w' & Hrun).
  destruct (ClearDriveThrough_clears_this_post w this tt w' Hrun)
    as (s & s' & ?).
  by exists w', s, s'.
Qed.

(** * A bus in the stop that is detached *)

Lemma ex_v2_Integrity : Integrity ex_v2.
Proof.
  intros t0 n p (Hr & Hst & _).
  assert (wf_map ex_v2) as Hwf.
  { apply (ex_wf_map _ [10; 9]); try done. intros t Ht. ex_tiles Ht; lia. }
  assert (run_at ex_v2 9 2) as Hr2.
  { split_and!; [lia|by vm_compute|ex_run_tiles|by vm_compute..]. }
  pose proof Hr as (Hn & [Hs _]%attached_true & _).
  rewrite (ex_map_is_stop _ [10; 9]) in Hs by done.
  apply bool_decide_eq_true in Hs. ex_tiles Hs.
  - by destruct (run_at_unique ex_v2 10 n 0 9 2 1 Hwf Hr Hr2 Hn) as (? & _);
      [lia|by vm_compute|].
  - destruct (run_at_unique ex_v2 9 n 0 9 2 0 Hwf Hr Hr2 Hn) as (_ & -> & _);
      [lia|by vm_compute|].
    destruct (Hst 0%nat) as [Hp _]; [lia|]. vm_compute in Hp.
    assert (p = 0%nat) as -> by congruence.
    eexists. split; by vm_compute.
Qed.

Lemma ex_v2_moved : vehicles_moved ex_w2 ex_v2.
Proof.
  split_and!; try done.
  - intros p. destruct (decide (p = 0%nat)) as [->|Hne]; [by vm_compute|].
    unfold ex_v2. cbn [platforms]. by rewrite lookup_insert_ne.
  - intros _. apply ex_v2_Integrity.
Qed.

Lemma ex_v1_reachable : reachable clear_of_vehicles any_tile ex_v1.
Proof.
  apply (reach_detach _ _ ex_v2 ex_v1 1%nat 10).
  - apply (reach_vehicles _ _ ex_w2); [|apply ex_v2_moved].
    apply (reachable_mono clear_of_vehicles _ no_counted_on); [done..|].
    apply ex_w2_reachable.
  - split_and!; [by vm_compute..|]. eexists. by vm_compute.
  - done.
  - vm_compute. reflexivity.
Qed.

(** C4 as stated does not hold: in [ex_w2] (stops attached on the tiles 9
    and 10, no vehicle about) a bus 8 units long enters the stop of the tile
    10 and the platform records it; the stop of the tile 10 is then
    detached.  [ClearDriveThrough] only takes one tile off the length: the
    platform of the run left, the tile 9, still counts the bus, [Rebuild]
    finds none there, and [CheckIntegrity] fails. *)
Lemma occupancy_stale_after_detach :
  reachable clear_of_vehicles any_tile ex_v1 ∧ is_run ex_v1 9 1 ∧
  stop_ptr ex_v1 9 = Some 0%nat ∧ tile_platform ex_v1 9 = Some 0%nat ∧
  platforms ex_v1 !! 0%nat =
    Some {| length := 16; occupied_east := 8; occupied_west := 0 |} ∧
  Platform_Rebuild ex_v1 new_Platform_value 9 =
    Some {| length := 16; occupied_east := 0; occupied_west := 0 |} ∧
  CheckIntegrity 0%nat ex_v1 = None.
Proof.
  split_and!; try by vm_compute.
  - apply ex_v1_reachable.
  - split_and!; [lia|ex_run_tiles|by vm_compute..].
Qed.

(** * The statements on the example worlds *)

Lemma ex_no_vehicles_directions w t0 n :
  vehicles_on_tile w = (λ _, []) → directions_ok w t0 n.
Proof. intros Hv t v _ Hin. rewrite Hv in Hin. by apply elem_of_nil in Hin. Qed.

Lemma ClearDriveThrough_splits_run_witness :
  reachable clear_of_vehicles no_counted_on ex_w3 ∧ is_run ex_w3 9 3 ∧
  (1 < 2 < 3)%nat ∧ stop_ptr ex_w3 (tile_nth ex_w3 9 (2 - 1)) = Some 1%nat ∧
  directions_ok ex_w3 9 3 ∧
  ∃ w' p q vN vS,
    ClearDriveThrough 1%nat ex_w3 = Some (tt, w') ∧
    is_run w' 9 (2 - 1) ∧ is_run w' (tile_nth ex_w3 9 2) (3 - 2) ∧
    (∀ i, (i < 2 - 1)%nat → tile_platform w' (tile_nth ex_w3 9 i) = Some p) ∧
    (∀ i, (2 ≤ i < 3)%nat → tile_platform w' (tile_nth ex_w3 9 i) = Some q) ∧
    p ≠ q ∧
    platforms w' !! p = Some vN ∧ platforms w' !! q = Some vS ∧
    Platform_Rebuild w' new_Platform_value 9 = Some vN ∧
    Platform_Rebuild w' new_Platform_value (tile_nth ex_w3 9 2) = Some vS.
Proof.
  assert (stop_ptr ex_w3 (tile_nth ex_w3 9 (2 - 1)) = Some 1%nat) as Hptr
    by (vm_compute; reflexivity).
  assert (directions_ok ex_w3 9 3) as Hdir
    by (apply ex_no_vehicles_directions; reflexivity).
  split_and!; [apply ex_w3_reachable|apply ex_w3_run|lia|lia|exact Hptr
              |exact Hdir|].
  apply (ClearDriveThrough_splits_run clear_of_vehicles no_counted_on
           ex_w3 1%nat 9 3 2 ex_w3_reachable ex_w3_run);
    [lia|exact Hptr|exact Hdir].
Defined.

Lemma MakeDriveThrough_merges_runs_witness :
  reachable clear_of_vehicles no_counted_on ex_m2 ∧
  is_run ex_m2 9 1 ∧ is_run ex_m2 11 1 ∧
  10 = tile_nth ex_m2 9 1 ∧ 11 = tile_nth ex_m2 9 (1 + 1) ∧
  placed ex_m2 10 2%nat ex_m3a ∧
  line ex_m3a 10 = line ex_m2 9 ∧ line ex_m2 11 = line ex_m2 9 ∧
  tile_platform ex_m2 9 = Some 0%nat ∧
  platforms ex_m2 !! 0%nat = Some {| length := 16; occupied_east := 0;
                                     occupied_west := 0 |} ∧
  tile_platform ex_m2 11 = Some 1%nat ∧
  platforms ex_m2 !! 1%nat = Some {| length := 16; occupied_east := 0;
                                     occupied_west := 0 |} ∧
  ∃ w' v,
    MakeDriveThrough 2%nat ex_m3a = Some (tt, w') ∧
    is_run w' 9 (1 + 1 + 1) ∧
    (∀ i, (i < 1 + 1 + 1)%nat →
          tile_platform w' (tile_nth w' 9 i) = Some 0%nat) ∧
    platforms w' !! 0%nat = Some v ∧
    length v = TILE_SIZE * Z.of_nat (1 + 1 + 1) ∧
    occupied_east v = int_add 0 0 ∧ occupied_west v = int_add 0 0 ∧
    (int_range (0 + 0) → occupied_east v = 0 + 0) ∧
    (int_range (0 + 0) → occupied_west v = 0 + 0).
Proof.
  split_and!;
    [apply ex_m2_reachable|apply ex_m2_run_north|apply ex_m2_run_south
    |vm_compute; reflexivity|vm_compute; reflexivity|apply ex_m3a_placed
    |vm_compute; reflexivity..|].
  apply (MakeDriveThrough_merges_runs clear_of_vehicles no_counted_on
           ex_m2 ex_m3a 2%nat 10 9 11 1 1 0%nat 1%nat
           {| length := 16; occupied_east := 0; occupied_west := 0 |}
           {| length := 16; occupied_east := 0; occupied_west := 0 |}
           ex_m2_reachable ex_m2_run_north ex_m2_run_south);
    [vm_compute; reflexivity|vm_compute; reflexivity|apply ex_m3a_placed
    |vm_compute; reflexivity..].
Defined.

Lemma reachable_run_base_and_length_witness :
  reachable clear_of_vehicles no_counted_on ex_w3 ∧ is_run ex_w3 9 3 ∧
  ∃ p v,
    (∀ i, (i < 3)%nat → tile_platform ex_w3 (tile_nth ex_w3 9 i) = Some p) ∧
    (∀ i, (i < 3)%nat →
          tile_base ex_w3 (tile_nth ex_w3 9 i) = true ↔ i = 0%nat) ∧
    platforms ex_w3 !! p = Some v ∧ length v = TILE_SIZE * Z.of_nat 3.
Proof.
  split_and!; [apply ex_w3_reachable|apply ex_w3_run|].
  apply (reachable_run_base_and_length clear_of_vehicles no_counted_on
           ex_w3 9 3 ex_w3_reachable ex_w3_run).
Defined.

Lemma reachable_integrity_witness :
  reachable clear_of_vehicles no_counted_on ex_w3 ∧ is_run ex_w3 9 3 ∧
  ∃ this p v,
    stop_ptr ex_w3 9 = Some this ∧ tile_platform ex_w3 9 = Some p ∧
    platforms ex_w3 !! p = Some v ∧
    Platform_Rebuild ex_w3 new_Platform_value 9 = Some v ∧
    CheckIntegrity this ex_w3 = Some (tt, ex_w3).
Proof.
  split_and!; [apply ex_w3_reachable|apply ex_w3_run|].
  apply (reachable_integrity ex_w3 9 3 ex_w3_reachable ex_w3_run).
Defined.

Lemma ClearDriveThrough_clears_this_witness :
  reachable clear_of_vehicles no_counted_on ex_w3 ∧
  attached_stop ex_w3 1%nat 10 ∧
  (∀ t0 n, is_run ex_w3 t0 n → directions_ok ex_w3 t0 n) ∧
  ∃ w' s s',
    ClearDriveThrough 1%nat ex_w3 = Some (tt, w') ∧
    stops ex_w3 !! 1%nat = Some s ∧ platform s ≠ None ∧
    stops w' !! 1%nat = Some s' ∧
    HasBit (status s') RSSFB_BASE_ENTRY = false ∧ platform s' = None.
Proof.
  assert (attached_stop ex_w3 1%nat 10) as Hatt.
  { split_and!; [vm_compute; reflexivity..|].
    eexists. vm_compute. reflexivity. }
  assert (∀ t0 n, is_run ex_w3 t0 n → directions_ok ex_w3 t0 n) as Hdir.
  { intros t0 n _. apply ex_no_vehicles_directions. reflexivity. }
  split_and!; [apply ex_w3_reachable|exact Hatt|exact Hdir|].
  apply (ClearDriveThrough_clears_this clear_of_vehicles no_counted_on
           ex_w3 1%nat 10 ex_w3_reachable Hatt Hdir).
Defined.

Lemma CheckIntegrity_leaves_state_unchanged_witness :
  CheckIntegrity 0%nat ex_w3 = Some (tt, ex_w3) ∧ ex_w3 = ex_w3.
Proof.
  assert (CheckIntegrity 0%nat ex_w3 = Some (tt, ex_w3)) as H
    by (vm_compute; reflexivity).
  split; [exact H|].
  apply (CheckIntegrity_leaves_state_unchanged ex_w3 0%nat tt ex_w3 H).
Defined.

Lemma ex_r3_vehicles t v :
  t ∈ [9; 10; 11] → v ∈ vehicles_on_tile ex_r3 t →
  (t = 9 ∧ v = 0%nat) ∨ (t = 10 ∧ v = 0%nat) ∨ (t = 11 ∧ v = 1%nat).
Proof.
  intros Ht Hv. ex_tiles Ht.
  - change (vehicles_on_tile ex_r3 9) with [0%nat] in Hv. ex_tiles Hv. eauto.
  - change (vehicles_on_tile ex_r3 10) with [0%nat] in Hv. ex_tiles Hv. eauto.
  - change (vehicles_on_tile ex_r3 11) with [1%nat] in Hv. ex_tiles Hv. eauto.
Qed.

Lemma Platform_Rebuild_spec_witness :
  run_tiles (map_fuel ex_r3) ex_r3 9
    (Z.abs (TileOffsByDiagDir ex_r3 (GetRoadStopDir ex_r3 9))) 9 =
    Some [9; 10; 11] ∧
  (∀ t v, t ∈ [9; 10; 11] → v ∈ vehicles_on_tile ex_r3 t →
          counted ex_r3 v = true →
          v_direction (vehicles ex_r3 v) =
            DiagDirToDir (GetRoadStopDir ex_r3 9) ∨
          v_direction (vehicles ex_r3 v) =
            ReverseDir (DiagDirToDir (GetRoadStopDir ex_r3 9))) ∧
  NoDup [0%nat] ∧
  (∀ v, v ∈ [0%nat] ↔
        parked_towards ex_r3 [9; 10; 11]
          (DiagDirToDir (GetRoadStopDir ex_r3 9)) v) ∧
  NoDup [1%nat] ∧
  (∀ v, v ∈ [1%nat] ↔
        parked_towards ex_r3 [9; 10; 11]
          (ReverseDir (DiagDirToDir (GetRoadStopDir ex_r3 9))) v) ∧
  int_range (TILE_SIZE * Z.of_nat (Datatypes.length [9; 10; 11])) ∧
  int_range (total_length ex_r3 [0%nat]) ∧
  int_range (total_length ex_r3 [1%nat]) ∧
  Platform_Rebuild ex_r3 new_Platform_value 9 =
    Some {| length := TILE_SIZE * Z.of_nat (Datatypes.length [9; 10; 11]);
            occupied_east := total_length ex_r3 [0%nat];
            occupied_west := total_length ex_r3 [1%nat] |}.
Proof.
  assert (run_tiles (map_fuel ex_r3) ex_r3 9
            (Z.abs (TileOffsByDiagDir ex_r3 (GetRoadStopDir ex_r3 9))) 9 =
          Some [9; 10; 11]) as Hrun by (vm_compute; reflexivity).
  assert (∀ t v, t ∈ [9; 10; 11] → v ∈ vehicles_on_tile ex_r3 t →
            counted ex_r3 v = true →
            v_direction (vehicles ex_r3 v) =
              DiagDirToDir (GetRoadStopDir ex_r3 9) ∨
            v_direction (vehicles ex_r3 v) =
              ReverseDir (DiagDirToDir (GetRoadStopDir ex_r3 9))) as Hdir.
  { intros t v Ht Hv _.
    destruct (ex_r3_vehicles t v Ht Hv) as [[-> ->]|[[-> ->]|[-> ->]]];
      [left|left|right]; vm_compute; reflexivity. }
  assert (NoDup [0%nat]) as Hnd0 by (apply NoDup_singleton).
  assert (NoDup [1%nat]) as Hnd1 by (apply NoDup_singleton).
  assert (∀ v, v ∈ [0%nat] ↔
            parked_towards ex_r3 [9; 10; 11]
              (DiagDirToDir (GetRoadStopDir ex_r3 9)) v) as He.
  { intros v. split.
    - intros ->%list_elem_of_singleton.
      split_and!; [|vm_compute; reflexivity..].
      exists 9. split; [by left|]. vm_compute. by left.
    - intros ((t & Ht & Hv) & _ & Hd).
      destruct (ex_r3_vehicles t v Ht Hv) as [[-> ->]|[[-> ->]|[-> ->]]];
        [by left|by left|]. vm_compute in Hd. discriminate Hd. }
  assert (∀ v, v ∈ [1%nat] ↔
            parked_towards ex_r3 [9; 10; 11]
              (ReverseDir (DiagDirToDir (GetRoadStopDir ex_r3 9))) v) as Hw.
  { intros v. split.
    - intros ->%list_elem_of_singleton.
      split_and!; [|vm_compute; reflexivity..].
      exists 11. split; [by (right; right; left)|]. vm_compute. by left.
    - intros ((t & Ht & Hv) & _ & Hd).
      destruct (ex_r3_vehicles t v Ht Hv) as [[-> ->]|[[-> ->]|[-> ->]]];
        [vm_compute in Hd; discriminate Hd..|by left]. }
  assert (int_range (TILE_SIZE * Z.of_nat (Datatypes.length [9; 10; 11])))
    as Hr1 by (vm_compute; split; [discriminate|reflexivity]).
  assert (int_range (total_length ex_r3 [0%nat])) as Hr2
    by (vm_compute; split; [discriminate|reflexivity]).
  assert (int_range (total_length ex_r3 [1%nat])) as Hr3
    by (vm_compute; split; [discriminate|reflexivity]).
  split_and!; [exact Hrun|exact Hdir|exact Hnd0|exact He|exact Hnd1|exact Hw
              |exact Hr1|exact Hr2|exact Hr3|].
  apply (Platform_Rebuild_spec ex_r3 new_Platform_value 9 [9; 10; 11]
           [0%nat] [1%nat] Hrun Hdir Hnd0 He Hnd1 Hw Hr1 Hr2 Hr3).
Defined.

Lemma MakeDriveThrough_alone_witness :
  stops ex_w1a !! 0%nat = Some (ex_new_stop 9) ∧
  platform (ex_new_stop 9) = None ∧
  neighbour_free ex_w1a (xy (ex_new_stop 9))
    (north_of ex_w1a (xy (ex_new_stop 9))) ∧
  neighbour_free ex_w1a (xy (ex_new_stop 9))
    (south_of ex_w1a (xy (ex_new_stop 9))) ∧
  platforms ex_w1a !! fresh (dom (platforms ex_w1a)) = None ∧
  MakeDriveThrough 0%nat ex_w1a =
    Some (tt,
          with_platforms
            (with_stops ex_w1a
               (<[0%nat := {| xy := xy (ex_new_stop 9);
                              status := SetBit (status (ex_new_stop 9))
                                          RSSFB_BASE_ENTRY;
                              platform := Some (fresh (dom (platforms ex_w1a)));
                              next := next (ex_new_stop 9) |}]>
                  (stops ex_w1a)))
            (<[fresh (dom (platforms ex_w1a)) :=
                 {| length := TILE_SIZE; occupied_east := 0;
                    occupied_west := 0 |}]> (platforms ex_w1a))).
Proof.
  assert (stops ex_w1a !! 0%nat = Some (ex_new_stop 9)) as Hs
    by (vm_compute; reflexivity).
  assert (neighbour_free ex_w1a (xy (ex_new_stop 9))
            (north_of ex_w1a (xy (ex_new_stop 9)))) as Hn
    by (left; vm_compute; reflexivity).
  assert (neighbour_free ex_w1a (xy (ex_new_stop 9))
            (south_of ex_w1a (xy (ex_new_stop 9)))) as Hso
    by (left; vm_compute; reflexivity).
  split_and!; [exact Hs|reflexivity|exact Hn|exact Hso|..];
    apply (MakeDriveThrough_alone ex_w1a 0%nat (ex_new_stop 9) Hs eq_refl
             Hn Hso).
Defined.

Lemma ClearDriveThrough_one_side_witness :
  let s := {| xy := 10; status := 3; platform := Some 0%nat; next := None |} in
  let n := {| xy := 9; status := 67; platform := Some 0%nat;
              next := Some 1%nat |} in
  let v := {| length := 32; occupied_east := 0; occupied_west := 0 |} in
  let north := IsDriveThroughRoadStopContinuation ex_w2 10 (north_of ex_w2 10) in
  let south := IsDriveThroughRoadStopContinuation ex_w2 10 (south_of ex_w2 10) in
  stops ex_w2 !! 1%nat = Some s ∧ platform s ≠ None ∧
  north = negb south ∧
  neighbour_platform ex_w2 10
    (if north then north_of ex_w2 10 else south_of ex_w2 10) 0%nat n 0%nat v ∧
  0%nat ≠ 1%nat ∧ int_range (length v - TILE_SIZE) ∧
  ClearDriveThrough 1%nat ex_w2 =
    Some (tt,
      with_platforms
        (with_stops (with_map ex_w2 (cleared_map ex_w2 10))
           (<[1%nat := {| xy := 10; status := ClrBit 3 RSSFB_BASE_ENTRY;
                          platform := None; next := None |}]>
              (if south
               then <[0%nat := set_status n (SetBit 67 RSSFB_BASE_ENTRY)]>
                      (stops ex_w2)
               else stops ex_w2)))
        (<[0%nat := {| length := 32 - TILE_SIZE; occupied_east := 0;
                       occupied_west := 0 |}]> (platforms ex_w2))).
Proof.
  intros s n v north south.
  assert (stops ex_w2 !! 1%nat = Some s) as Hs by (vm_compute; reflexivity).
  assert (platform s ≠ None) as Hp by discriminate.
  assert (north = negb south) as Hns by (vm_compute; reflexivity).
  assert (neighbour_platform ex_w2 10
            (if north then north_of ex_w2 10 else south_of ex_w2 10)
            0%nat n 0%nat v) as Hnb
    by (split_and!; vm_compute; reflexivity).
  assert (0%nat ≠ 1%nat) as Hne by discriminate.
  assert (int_range (length v - TILE_SIZE)) as Hr
    by (vm_compute; split; [discriminate|reflexivity]).
  split_and!; [exact Hs|exact Hp|exact Hns|exact Hnb|exact Hne|exact Hr|].
  apply (ClearDriveThrough_one_side ex_w2 1%nat s 0%nat n 0%nat v
           Hs Hp Hns Hnb Hne Hr).
Defined.

Lemma destructor_deletes_platform_iff_base_witness :
  let s := {| xy := 9; status := 67; platform := Some 0%nat;
              next := Some 1%nat |} in
  let v := {| length := 32; occupied_east := 0; occupied_west := 0 |} in
  stops ex_w2 !! 0%nat = Some s ∧ platform s = Some 0%nat ∧
  platforms ex_w2 !! 0%nat = Some v ∧
  ∃ w', RoadStop_destructor 0%nat ex_w2 = Some (tt, w') ∧
        stops w' = stops ex_w2 ∧
        (HasBit (status s) RSSFB_BASE_ENTRY = true →
         platforms w' = delete 0%nat (platforms ex_w2)) ∧
        (HasBit (status s) RSSFB_BASE_ENTRY = false → w' = ex_w2) ∧
        (platforms w' !! 0%nat = None ↔
         HasBit (status s) RSSFB_BASE_ENTRY = true).
Proof.
  intros s v.
  assert (stops ex_w2 !! 0%nat = Some s) as Hs by (vm_compute; reflexivity).
  assert (platforms ex_w2 !! 0%nat = Some v) as Hv
    by (vm_compute; reflexivity).
  split_and!; [exact Hs|reflexivity|exact Hv|].
  apply (destructor_deletes_platform_iff_base ex_w2 0%nat s 0%nat v
           Hs eq_refl Hv).
Defined.

(** * Further properties of the operations *)

(** ** Looking up the road stop of a tile *)

Lemma linked_tail pool a l : linked pool (a :: l) → linked pool l.
Proof. intros H i x y Hx Hy. by apply (H (S i)). Qed.

Lemma linked_head pool a l b :
  linked pool (a :: l) → head l = Some b →
  ∃ s, pool !! a = Some s ∧ next s = Some b.
Proof.
  intros H Hb. destruct l as [|b' l]; [done|]. injection Hb as ->.
  by apply (H 0%nat).
Qed.

Lemma linked_cons pool a s b l :
  pool !! a = Some s → next s = Some b → head l = Some b →
  linked pool l → linked pool (a :: l).
Proof.
  intros Hs Hn Hb Hl. destruct l as [|b' l]; [done|]. injection Hb as ->.
  intros [|i] x y Hx Hy.
  - injection Hx as <-. injection Hy as <-. eauto.
  - by apply (Hl i).
Qed.

Lemma stop_on_off pool r tile : stop_on pool r tile → ¬ stop_off pool r tile.
Proof. intros (s & Hs & Hxy) (s' & Hs' & Hne). congruence. Qed.

Lemma GetByTile_walk_path fuel pool tile r0 r :
  GetByTile_walk fuel pool tile r0 = Some r →
  ∃ l, head (l ++ [r]) = Some r0 ∧ linked pool (l ++ [r]) ∧
       (∀ q, q ∈ l → stop_off pool q tile) ∧ stop_on pool r tile.
Proof.
  revert r0. induction fuel as [|fuel IH]; intros r0 H; [done|].
  cbn in H. destruct (pool !! r0) as [s|] eqn:Hs; [|done]. cbn in H.
  case_bool_decide as Hxy.
  - injection H as <-. exists [].
    split_and!; [done| |by intros ? ?%elem_of_nil|].
    + intros [|i] a b Ha Hb; done.
    + by exists s.
  - destruct (next s) as [n|] eqn:Hn; [|done]. cbn in H.
    apply IH in H as (l & Hhd & Hl & Hoff & Hon).
    exists (r0 :: l). split_and!; [done| | |done].
    + by apply (linked_cons pool r0 s n).
    + intros q [->|Hq]%elem_of_cons; [by exists s|by apply Hoff].
Qed.

Lemma GetByTile_walk_first fuel pool tile l r r0 :
  head (l ++ [r]) = Some r0 →
  linked pool (l ++ [r]) →
  (∀ q, q ∈ l → stop_off pool q tile) →
  stop_on pool r tile →
  (Datatypes.length l < fuel)%nat →
  GetByTile_walk fuel pool tile r0 = Some r.
Proof.
  revert fuel r0. induction l as [|a l IH]; intros fuel r0 Hhd Hl Hoff Hon Hf.
  - destruct fuel as [|fuel]; [cbn in Hf; lia|].
    cbn in Hhd. injection Hhd as <-. destruct Hon as (s & Hs & Hxy).
    cbn. rewrite Hs. cbn. by rewrite bool_decide_eq_true_2.
  - destruct fuel as [|fuel]; [cbn in Hf; lia|].
    cbn in Hhd. injection Hhd as <-.
    destruct (Hoff a) as (s & Hs & Hxy); [by left|].
    assert (∃ b, head (l ++ [r]) = Some b) as [b Hb].
    { destruct l; cbn; eauto. }
    destruct (linked_head pool a (l ++ [r]) b) as (s' & Hs' & Hn);
      [done..|].
    assert (s' = s) as -> by congruence.
    cbn. rewrite Hs. cbn. rewrite bool_decide_eq_false_2 by done.
    rewrite Hn. cbn. apply IH; [done|by eapply linked_tail| |done|].
    + intros q Hq. apply Hoff. by right.
    + cbn in Hf. lia.
Qed.

Lemma GetByTile_walk_none fuel pool tile l r0 :
  head l = Some r0 →
  linked pool l →
  (∀ q, q ∈ l → stop_off pool q tile) →
  (∀ r s, last l = Some r → pool !! r = Some s → next s = None) →
  GetByTile_walk fuel pool tile r0 = None.
Proof.
  revert fuel r0. induction l as [|a l IH]; intros fuel r0 Hhd Hl Hoff Hlast;
    [done|].
  destruct fuel as [|fuel]; [done|].
  cbn in Hhd. injection Hhd as <-.
  destruct (Hoff a) as (s & Hs & Hxy); [by left|].
  cbn. rewrite Hs. cbn. rewrite bool_decide_eq_false_2 by done.
  destruct l as [|b l].
  - by rewrite (Hlast a s).
  - destruct (Hl 0%nat a b) as (s' & Hs' & Hn); [done..|].
    assert (s' = s) as -> by congruence.
    rewrite Hn. cbn. apply (IH fuel b); [done|by eapply linked_tail| |].
    + intros q Hq. apply Hoff. by right.
    + intros r t Hr. apply Hlast. by rewrite last_cons, Hr.
Qed.

(** Along a list of linked road stops, the road stop of a place determines
    the one of every place after it. *)
Lemma linked_shift pool l i j a k :
  linked pool l → (i ≤ j)%nat →
  l !! i = Some a → l !! j = Some a →
  (j + k < Datatypes.length l)%nat →
  l !! (i + k)%nat = l !! (j + k)%nat.
Proof.
  intros Hl Hij Hi Hj. induction k as [|k IH]; intros Hk.
  - rewrite !Nat.add_0_r. congruence.
  - specialize (IH ltac:(lia)).
    destruct (lookup_lt_is_Some_2 l (j + k)%nat) as [x Hx]; [lia|].
    destruct (lookup_lt_is_Some_2 l (j + S k)%nat) as [y Hy]; [lia|].
    rewrite Hx in IH.
    destruct (Hl (j + k)%nat x y) as (s & Hs & Hn);
      [done|by rewrite <-Nat.add_succ_r|].
    destruct (l !! (i + S k)%nat) as [y'|] eqn:Hy'.
    + destruct (Hl (i + k)%nat x y') as (s' & Hs' & Hn');
        [done|by rewrite <-Nat.add_succ_r|].
      rewrite Hy. congruence.
    + apply lookup_ge_None in Hy'. apply lookup_lt_Some in IH. lia.
Qed.

(** The road stops up to the first one of a tile are all different. *)
Lemma linked_first_NoDup pool tile l r :
  linked pool (l ++ [r]) →
  (∀ q, q ∈ l → stop_off pool q tile) →
  stop_on pool r tile →
  NoDup (l ++ [r]).
Proof.
  intros Hl Hoff Hon. apply NoDup_alt.
  assert (∀ i j x, (i < j)%nat → (l ++ [r]) !! i = Some x →
                   (l ++ [r]) !! j = Some x → False) as Hlt.
  { intros i j x Hij Hi Hj.
    pose proof (lookup_lt_Some _ _ _ Hj) as Hjl.
    rewrite length_app in Hjl. cbn in Hjl.
    pose proof (linked_shift pool (l ++ [r]) i j x
                  (Datatypes.length l - j) Hl ltac:(lia) Hi Hj) as Heq.
    rewrite length_app in Heq. cbn in Heq. specialize (Heq ltac:(lia)).
    replace (j + (Datatypes.length l - j))%nat with (Datatypes.length l)
      in Heq by lia.
    rewrite (lookup_app_r l [r] (Datatypes.length l)) in Heq by lia.
    rewrite Nat.sub_diag in Heq. cbn in Heq.
    rewrite lookup_app_l in Heq by lia.
    apply (stop_on_off pool r tile Hon), Hoff.
    by eapply list_elem_of_lookup_2. }
  intros i j x Hi Hj.
  destruct (Nat.lt_trichotomy i j) as [Hij|[Hij|Hij]]; [|done|];
    exfalso; eauto.
Qed.

Lemma NoDup_live_length (pool : gmap RoadStopPtr RoadStop) l :
  NoDup l → (∀ q, q ∈ l → is_Some (pool !! q)) →
  (Datatypes.length l ≤ size pool)%nat.
Proof.
  intros Hnd Hlive.
  rewrite <-(size_list_to_set (C := gset RoadStopPtr) l) by done.
  rewrite <-size_dom. apply subseteq_size.
  intros q Hq. apply elem_of_dom, Hlive. by apply elem_of_list_to_set in Hq.
Qed.

(** X1: a road stop returned by [GetByTile] is the first road stop standing
    on the tile that is met from the primary road stop of that type of the
    station of the tile, following [next]; the call changes nothing. *)
Theorem GetByTile_returns_first w tile type r w' :
  GetByTile tile type w = Some (r, w') →
  w' = w ∧
  ∃ l, head (l ++ [r]) =
         GetPrimaryRoadStop (stations w (GetStationIndex w tile)) type ∧
       linked (stops w) (l ++ [r]) ∧
       (∀ q, q ∈ l → stop_off (stops w) q tile) ∧
       stop_on (stops w) r tile.
Proof.
  unfold GetByTile. intros H.
  apply M_bind_Some in H as (w0 & w1 & [-> ->]%get_world_Some & H).
  apply lift_option_Some in H as [H ->]. split; [done|].
  unfold GetByTile_in in H.
  destruct (GetPrimaryRoadStop _ _) as [r0|]; [|done]. cbn in H.
  by apply GetByTile_walk_path in H.
Qed.

(** X2: if, following [next] from the primary road stop of the station of
    the tile, a road stop standing on the tile is met, [GetByTile] returns
    the first such one, however long the list is and whatever follows. *)
Theorem GetByTile_finds_first w tile type l r :
  head (l ++ [r]) =
    GetPrimaryRoadStop (stations w (GetStationIndex w tile)) type →
  linked (stops w) (l ++ [r]) →
  (∀ q, q ∈ l → stop_off (stops w) q tile) →
  stop_on (stops w) r tile →
  GetByTile tile type w = Some (r, w).
Proof.
  intros Hhd Hl Hoff Hon.
  assert (GetByTile_in w tile type = Some r) as Hin.
  { unfold GetByTile_in. rewrite <-Hhd.
    destruct (head (l ++ [r])) as [r0|] eqn:Hr0; [|by destruct l].
    cbn. apply (GetByTile_walk_first _ _ _ l); try done.
    pose proof (linked_first_NoDup _ _ _ _ Hl Hoff Hon) as Hnd.
    apply NoDup_live_length with (pool := stops w) in Hnd.
    - rewrite length_app in Hnd. cbn in Hnd. lia.
    - intros q [Hq| ->%list_elem_of_singleton]%elem_of_app.
      + destruct (Hoff q Hq) as (s & -> & _). eauto.
      + destruct Hon as (s & -> & _). eauto. }
  unfold GetByTile, M_bind, get_world, lift_option. by rewrite Hin.
Qed.

(** X3: if the list of the road stops of that type of the station of the tile
    ends without a road stop standing on the tile (the list may be empty),
    [GetByTile] returns no road stop: it fails. *)
Theorem GetByTile_fails_without_stop w tile type l :
  head l = GetPrimaryRoadStop (stations w (GetStationIndex w tile)) type →
  linked (stops w) l →
  (∀ q, q ∈ l → stop_off (stops w) q tile) →
  (∀ r s, last l = Some r → stops w !! r = Some s → next s = None) →
  GetByTile tile type w = None.
Proof.
  intros Hhd Hl Hoff Hlast.
  assert (GetByTile_in w tile type = None) as Hin.
  { unfold GetByTile_in. rewrite <-Hhd.
    destruct (head l) as [r0|] eqn:Hr0; [|done].
    cbn. by apply (GetByTile_walk_none _ _ _ l). }
  unfold GetByTile, M_bind, get_world, lift_option. by rewrite Hin.
Qed.

(** ** The tiles that continue a stop *)

(** X4: the tiles that continue a tile form a class: a tile that continues
    a continuation of [a] continues [a]; two continuations of [a] continue
    each other, and each continues itself. *)
Theorem continuation_class w a b c :
  IsDriveThroughRoadStopContinuation w a b = true →
  IsDriveThroughRoadStopContinuation w b c = true →
  IsDriveThroughRoadStopContinuation w a c = true ∧
  IsDriveThroughRoadStopContinuation w c b = true ∧
  IsDriveThroughRoadStopContinuation w b b = true.
Proof.
  rewrite !cont_true. intros [Hb Hab] [Hc Hbc]. split_and!; congruence.
Qed.

(** ** What the operations leave alone *)

#[global] Instance untouched_frame : Frame untouched.
Proof.
  split.
  - intros w. split; [apply same_env_refl|apply same_chain_refl].
  - intros w1 w2 w3 [He1 Hc1] [He2 Hc2].
    split; [by eapply same_env_trans|by eapply same_chain_trans].
  - intros w r s s' Hs Hxy Hn.
    split; [apply same_env_with_stops|by apply (same_chain_insert _ _ s)].
  - intros w p v _.
    split; [apply same_env_with_platforms|apply same_chain_refl].
  - intros w p. split; [apply same_env_with_platforms|apply same_chain_refl].
Qed.

#[global] Instance allocates_nothing_frame : Frame allocates_nothing.
Proof.
  split.
  - by intros w p.
  - intros w1 w2 w3 H1 H2 p Hp. by apply H1, H2.
  - by intros w r s s' _ _ _ p.
  - intros w p v Hp q. cbn. destruct (decide (q = p)) as [->|Hne].
    + by rewrite lookup_insert_eq.
    + by rewrite lookup_insert_ne.
  - intros w p q. cbn. destruct (decide (q = p)) as [->|Hne].
    + rewrite lookup_delete_eq. by intros ?%is_Some_None.
    + by rewrite lookup_delete_ne.
Qed.

Section maintains.
Context (R : World → World → Prop) `{!Frame R}.

Lemma maintains_ret {A} (a : A) : maintains R (M_ret a).
Proof. intros w a' w' [= _ <-]. apply frame_refl. Qed.

Lemma maintains_fail {A} : maintains R (@fail A).
Proof. by intros w a w'. Qed.

Lemma maintains_bind {A B} (m : M A) (f : A → M B) :
  maintains R m → (∀ a, maintains R (f a)) → maintains R (M_bind m f).
Proof.
  intros Hm Hf w b w' (a & w1 & H1 & H2)%M_bind_Some.
  eapply frame_trans; [by eapply Hm|by eapply Hf].
Qed.

Lemma maintains_read {A} (m : M A) :
  (∀ w a w', m w = Some (a, w') → w' = w) → maintains R m.
Proof. intros H w a w' ->%H. apply frame_refl. Qed.

Lemma maintains_get_world : maintains R get_world.
Proof. apply maintains_read. by intros w a w' [_ ->]%get_world_Some. Qed.

Lemma maintains_assert b : maintains R (assert b).
Proof. apply maintains_read. by intros w a w' [_ ->]%assert_Some. Qed.

Lemma maintains_lift_option {A} (o : option A) : maintains R (lift_option o).
Proof. apply maintains_read. by intros w a w' [_ ->]%lift_option_Some. Qed.

Lemma maintains_load_stop r : maintains R (load_stop r).
Proof. apply maintains_read. by intros w a w' [_ ->]%load_stop_Some. Qed.

Lemma maintains_load_platform p : maintains R (load_platform p).
Proof. apply maintains_read. by intros w a w' [_ ->]%load_platform_Some. Qed.

Lemma maintains_rs_platform rs : maintains R (rs_platform rs).
Proof.
  apply maintains_read.
  by intros w a w' (? & ? & _ & _ & _ & ->)%rs_platform_Some.
Qed.

Lemma maintains_rs_platform_deref rs : maintains R (rs_platform_deref rs).
Proof.
  apply maintains_read.
  by intros w a w' (? & ? & _ & _ & _ & ->)%rs_platform_deref_Some.
Qed.

Lemma maintains_GetByTile tile type : maintains R (GetByTile tile type).
Proof.
  unfold GetByTile. apply maintains_bind; [apply maintains_get_world|].
  intros w. apply maintains_lift_option.
Qed.

Lemma maintains_store_platform p v : maintains R (store_platform p v).
Proof. intros w a w' [Hp ->]%store_platform_Some. by apply frame_store. Qed.

Lemma maintains_delete_Platform p : maintains R (delete_Platform p).
Proof. intros w a w' [_ ->]%delete_Platform_Some. apply frame_delete. Qed.

Lemma maintains_rs_set_platform rs p : maintains R (rs_set_platform rs p).
Proof.
  intros w a w' (s & Hs & ->)%rs_set_platform_Some.
  by apply (frame_stop _ _ s).
Qed.

Lemma maintains_rs_ClrBit rs bit : maintains R (rs_ClrBit rs bit).
Proof.
  intros w a w' (s & Hs & ->)%rs_ClrBit_Some. by apply (frame_stop _ _ s).
Qed.

Lemma maintains_rs_SetBit rs bit : maintains R (rs_SetBit rs bit).
Proof.
  unfold rs_SetBit.
  intros w a w' (s & w1 & [Hs ->]%load_stop_Some & [_ ->]%store_stop_Some)
    %M_bind_Some.
  by apply (frame_stop _ _ s).
Qed.

End maintains.

Lemma maintains_new_Platform : maintains untouched new_Platform.
Proof.
  intros w a w' H.
  unfold new_Platform, M_bind, get_world, put_world, M_ret in H.
  injection H as _ <-.
  split; [apply same_env_with_platforms|apply same_chain_refl].
Qed.

Ltac maintains_leaf L := solve [apply L; try apply _].

Ltac maintains_step :=
  lazymatch goal with
  | |- maintains _ (M_bind _ _) =>
      apply maintains_bind; [try apply _..|intros ?]
  | |- maintains _ (if ?b then _ else _) => destruct b
  | |- maintains _ (M_ret _) => maintains_leaf @maintains_ret
  | |- maintains _ fail => maintains_leaf @maintains_fail
  | |- maintains _ get_world => maintains_leaf maintains_get_world
  | |- maintains _ (assert _) => maintains_leaf maintains_assert
  | |- maintains _ (lift_option _) => maintains_leaf @maintains_lift_option
  | |- maintains _ (deref _) => maintains_leaf @maintains_lift_option
  | |- maintains _ (load_stop _) => maintains_leaf maintains_load_stop
  | |- maintains _ (load_platform _) => maintains_leaf maintains_load_platform
  | |- maintains _ (rs_platform _) => maintains_leaf maintains_rs_platform
  | |- maintains _ (rs_platform_deref _) =>
      maintains_leaf maintains_rs_platform_deref
  | |- maintains _ (GetByTile _ _) => maintains_leaf maintains_GetByTile
  | |- maintains _ (store_platform _ _) =>
      maintains_leaf maintains_store_platform
  | |- maintains _ (delete_Platform _) =>
      maintains_leaf maintains_delete_Platform
  | |- maintains _ new_Platform => apply maintains_new_Platform
  | |- maintains _ (rs_set_platform _ _) =>
      maintains_leaf maintains_rs_set_platform
  | |- maintains _ (rs_ClrBit _ _) => maintains_leaf maintains_rs_ClrBit
  | |- maintains _ (rs_SetBit _ _) => maintains_leaf maintains_rs_SetBit
  end.

Section maintains_loops.
Context (R : World → World → Prop) `{!Frame R}.

Lemma maintains_has_platform c rs : maintains R (has_platform c rs).
Proof. unfold has_platform. repeat maintains_step. Qed.

Lemma maintains_neighbour (c : bool) tile rst :
  maintains R (if c then M_bind (GetByTile tile rst) (λ r, M_ret (Some r))
               else M_ret None).
Proof. repeat maintains_step. Qed.

Lemma maintains_MakeDriveThrough_join fuel this_xy rst offset rs_north :
  ∀ south_tile added,
    maintains R (MakeDriveThrough_join fuel this_xy rst offset rs_north
                   south_tile added).
Proof.
  induction fuel as [|fuel IH]; intros south_tile added;
    cbn [MakeDriveThrough_join].
  - maintains_step.
  - repeat first [apply IH|maintains_step].
Qed.

Lemma maintains_ClearDriveThrough_south fuel base_tile rst offset
    rs_south_base :
  ∀ south_tile,
    maintains R (ClearDriveThrough_south fuel base_tile rst offset
                   rs_south_base south_tile).
Proof.
  induction fuel as [|fuel IH]; intros south_tile;
    cbn [ClearDriveThrough_south].
  - maintains_step.
  - repeat first [apply IH|maintains_step].
Qed.

Lemma maintains_ClearDriveThrough_north fuel base_tile rst offset :
  ∀ north_tile rs_north,
    maintains R (ClearDriveThrough_north fuel base_tile rst offset north_tile
                   rs_north).
Proof.
  induction fuel as [|fuel IH]; intros north_tile rs_north;
    cbn [ClearDriveThrough_north].
  - maintains_step.
  - repeat first [apply IH|maintains_step].
Qed.

Lemma maintains_RoadStop_Rebuild this : maintains R (RoadStop_Rebuild this).
Proof. unfold RoadStop_Rebuild. repeat maintains_step. Qed.

End maintains_loops.

Ltac maintains_tac :=
  repeat first [maintains_leaf maintains_has_platform
               |maintains_leaf maintains_neighbour
               |maintains_leaf maintains_MakeDriveThrough_join
               |maintains_leaf maintains_ClearDriveThrough_south
               |maintains_leaf maintains_ClearDriveThrough_north
               |maintains_leaf maintains_RoadStop_Rebuild
               |maintains_step|progress cbv zeta].

Lemma maintains_MakeDriveThrough this :
  maintains untouched (MakeDriveThrough this).
Proof. unfold MakeDriveThrough. maintains_tac. Qed.

(** X5: whenever [MakeDriveThrough] returns, it has left the map, the
    stations and the vehicles as they were, and it has neither added nor
    removed a road stop nor changed the tile or the [next] of one; so every
    lookup [GetByTile] gives afterwards what it gave before. *)
Theorem MakeDriveThrough_frame w this u w' :
  MakeDriveThrough this w = Some (u, w') →
  untouched w w' ∧
  ∀ tile type, GetByTile_in w' tile type = GetByTile_in w tile type.
Proof.
  intros [He Hc]%maintains_MakeDriveThrough. split; [done|]. intros tile type.
  by apply GetByTile_in_env.
Qed.

(** X6: whenever [ClearDriveThrough] returns, the tile of the stop has been
    cleared on the map and no other tile has changed; the stations and the
    vehicles are as they were, and no road stop has been added or removed
    nor has had its tile or its [next] changed. *)
Theorem ClearDriveThrough_frame w this u w' :
  ClearDriveThrough this w = Some (u, w') →
  ∃ s, stops w !! this = Some s ∧
       cleared_env w (xy s) w' ∧
       same_chain (stops w) (stops w').
Proof.
  unfold ClearDriveThrough. intros H.
  apply M_bind_Some in H as (s & w1 & [Hs ->]%load_stop_Some & H).
  apply M_bind_Some in H as (? & w1 & [_ ->]%assert_Some & H).
  apply M_bind_Some in H as (w0 & w1 & [-> ->]%get_world_Some & H).
  cbv zeta in H.
  apply M_bind_Some in H as (rn & w1 & H1 & H).
  apply M_bind_Some in H as (rs & w2 & H2 & H).
  apply M_bind_Some in H as (? & w3 & H3 & H).
  repeat match goal with
  | H : ?m _ = Some _ |- _ =>
      lazymatch m with DoClearSquare _ => fail | _ => idtac end;
      let Hk := fresh "Hk" in
      assert (maintains untouched m) as Hk by maintains_tac;
      apply Hk in H; clear Hk
  end.
  unfold DoClearSquare, M_bind, get_world, put_world in H3.
  injection H3 as H3. subst w3.
  destruct H1 as [(Hx1 & Hm1 & Ht1 & Hst1 & Hvt1 & Hv1) Hc1].
  destruct H2 as [(Hx2 & Hm2 & Ht2 & Hst2 & Hvt2 & Hv2) Hc2].
  destruct H as [(Hx3 & Hm3 & Ht3 & Hst3 & Hvt3 & Hv3) Hc3].
  cbn in *. exists s. split; [done|]. split.
  - unfold cleared_env, cleared_map.
    split_and!; [congruence|congruence| |congruence..].
    rewrite Ht3. by rewrite Ht2, Ht1.
  - eapply same_chain_trans; [exact Hc1|].
    eapply same_chain_trans; [exact Hc2|exact Hc3].
Qed.

(** X7: whenever [MakeDriveThrough] returns, it was called on a road stop
    with no platform, and the road stop now has a platform that is
    allocated. *)
Theorem MakeDriveThrough_attaches_this w this u w' :
  MakeDriveThrough this w = Some (u, w') →
  ∃ s s' p v, stops w !! this = Some s ∧ platform s = None ∧
              stops w' !! this = Some s' ∧ platform s' = Some p ∧
              platforms w' !! p = Some v.
Proof.
  unfold MakeDriveThrough. intros H.
  apply M_bind_Some in H as (s & w1 & [Hs ->]%load_stop_Some & H).
  apply M_bind_Some in H as (? & w1 & [Hp ->]%assert_Some & H).
  apply bool_decide_eq_true in Hp.
  apply M_bind_Some in H as (w0 & w1 & [-> ->]%get_world_Some & H).
  cbv zeta in H.
  do 3 apply M_bind_Some in H as (? & ? & _ & H).
  apply M_bind_Some in H as (added & wa & _ & H).
  apply M_bind_Some in H
    as (tp & w5 & (r & s' & [= <-] & Hs' & Hp' & ->)%rs_platform_deref_Some
        & H).
  apply M_bind_Some in H as (tv & w6 & [Htv ->]%load_platform_Some & H).
  apply store_platform_Some in H as [_ ->].
  exists s, s', tp, (set_length tv
    (int_add (length tv) (to_int32 (added * TILE_SIZE)))).
  split_and!; try done. cbn. by rewrite lookup_insert_eq.
Qed.

(** X8: a road stop that [ClearDriveThrough] has detached can be destroyed:
    the destructor then returns and frees no platform, whatever the stop was
    in its run. *)
Theorem destructor_after_ClearDriveThrough w this u w' :
  ClearDriveThrough this w = Some (u, w') →
  RoadStop_destructor this w' = Some (tt, w').
Proof.
  intros (s & s' & _ & _ & Hs' & Hb & Hp)%ClearDriveThrough_clears_this_post.
  unfold RoadStop_destructor.
  rewrite (M_bind_step _ _ w' s' w') by by apply load_stop_Some.
  by rewrite Hb.
Qed.

(** ** Attaching beside one platform, detaching the last stop *)

(** X9: a stop whose northern neighbour has a platform and whose southern
    neighbour offers none joins the platform of the northern neighbour: its
    platform pointer is set to it, the length of that platform grows by one
    tile, and the status of the stop, the occupancy of the platform and
    everything else stay as they were. *)
Theorem MakeDriveThrough_joins_north w this s rn sn np nv :
  stops w !! this = Some s →
  platform s = None →
  neighbour_platform w (xy s) (north_of w (xy s)) rn sn np nv →
  neighbour_free w (xy s) (south_of w (xy s)) →
  rn ≠ this →
  south_of w (xy s) ≠ xy s →
  MakeDriveThrough this w =
    Some (tt,
          with_platforms
            (with_stops w (<[this := set_platform s (Some np)]> (stops w)))
            (<[np := set_length nv (int_add (length nv) TILE_SIZE)]>
               (platforms w))).
Proof. apply MakeDriveThrough_north_only. Qed.

(** X10: a stop whose southern neighbour has a platform and whose northern
    neighbour offers none becomes the base of that platform: it takes the
    platform of the southern neighbour and the base bit, the southern
    neighbour loses the base bit, and the length of the platform grows by
    one tile; its occupancy and everything else stay as they were. *)
Theorem MakeDriveThrough_joins_south w this s rs ss sp sv :
  stops w !! this = Some s →
  platform s = None →
  neighbour_free w (xy s) (north_of w (xy s)) →
  neighbour_platform w (xy s) (south_of w (xy s)) rs ss sp sv →
  rs ≠ this →
  MakeDriveThrough this w =
    Some (tt,
          with_platforms
            (with_stops w
               (<[rs := set_status ss (ClrBit (status ss) RSSFB_BASE_ENTRY)]>
                  (<[this := set_status (set_platform s (Some sp))
                               (SetBit (status s) RSSFB_BASE_ENTRY)]>
                     (stops w))))
            (<[sp := set_length sv (int_add (length sv) TILE_SIZE)]>
               (platforms w))).
Proof. apply MakeDriveThrough_south_only. Qed.

(** X11: detaching a stop neither of whose neighbours continues it (the last
    stop of its run) frees its platform; the tile is cleared, the stop loses
    the base bit and its platform pointer, and nothing else changes. *)
Theorem ClearDriveThrough_last w this s tp tv :
  stops w !! this = Some s →
  platform s = Some tp →
  platforms w !! tp = Some tv →
  IsDriveThroughRoadStopContinuation w (xy s) (north_of w (xy s)) = false →
  IsDriveThroughRoadStopContinuation w (xy s) (south_of w (xy s)) = false →
  ClearDriveThrough this w =
    Some (tt,
          with_platforms
            (with_stops (with_map w (cleared_map w (xy s)))
               (<[this := {| xy := xy s;
                             status := ClrBit (status s) RSSFB_BASE_ENTRY;
                             platform := None; next := next s |}]>
                  (stops w)))
            (delete tp (platforms w))).
Proof. apply ClearDriveThrough_last_eq. Qed.

Lemma ClrBit_SetBit x :
  0 ≤ x < 256 → HasBit x RSSFB_BASE_ENTRY = false →
  ClrBit (SetBit x RSSFB_BASE_ENTRY) RSSFB_BASE_ENTRY = x.
Proof.
  intros Hx Hb. unfold RSSFB_BASE_ENTRY in *.
  rewrite HasBit_testbit in Hb by lia.
  unfold ClrBit, SetBit, to_byte. apply Z.bits_inj'. intros m Hm.
  destruct (decide (m < 8)) as [Hlt|Hge].
  - rewrite Z.mod_pow2_bits_low by lia.
    rewrite Z.land_spec, Z.lnot_spec, Z.shiftl_1_l, Z.pow2_bits_eqb by lia.
    rewrite Z.mod_pow2_bits_low by lia.
    rewrite Z.lor_spec, Z.pow2_bits_eqb by lia.
    destruct (Z.eqb_spec 6 m) as [<-|Hne].
    + rewrite Hb. done.
    + cbn. by rewrite orb_false_r, andb_true_r.
  - rewrite Z.mod_pow2_bits_high by lia.
    symmetry. apply (Z.bits_above_log2 x m); [lia|].
    destruct (decide (x = 0)) as [->|Hx0]; [cbn; lia|].
    apply Z.log2_lt_pow2; [lia|].
    assert (2 ^ 8 ≤ 2 ^ m) by (apply Z.pow_le_mono_r; lia). lia.
Qed.

(** X12: attaching a stop that stands alone and detaching it again gives
    back the road stops and the platforms there were: the platform made for
    it is freed again and its status is restored; only the tile of the stop
    on the map has been cleared. *)
Theorem MakeDriveThrough_ClearDriveThrough_alone w this s :
  stops w !! this = Some s →
  platform s = None →
  0 ≤ status s < 256 →
  HasBit (status s) RSSFB_BASE_ENTRY = false →
  IsDriveThroughRoadStopContinuation w (xy s) (north_of w (xy s)) = false →
  IsDriveThroughRoadStopContinuation w (xy s) (south_of w (xy s)) = false →
  ∃ w1 w2,
    MakeDriveThrough this w = Some (tt, w1) ∧
    ClearDriveThrough this w1 = Some (tt, w2) ∧
    stops w2 = stops w ∧ platforms w2 = platforms w ∧
    cleared_env w (xy s) w2.
Proof.
  intros Hs Hp Hst Hb Hn Hso.
  destruct (MakeDriveThrough_alone_eq w this s Hs Hp) as [Hfresh Hmk];
    [by left|by left|].
  eexists _, _. split; [exact Hmk|].
  erewrite ClearDriveThrough_last_eq; cycle 1.
  - cbn. apply lookup_insert_eq.
  - done.
  - cbn. apply lookup_insert_eq.
  - done.
  - done.
  - split; [done|]. cbn. split_and!.
    + rewrite insert_insert_eq, ClrBit_SetBit by done.
      apply insert_id. rewrite Hs. f_equal. destruct s; cbn in *. congruence.
    + rewrite delete_insert_eq. by apply delete_id.
    + done.
Qed.

(** ** Rebuilding and checking *)

Lemma is_run_bounds w t0 n :
  wf_map w → is_run w t0 n →
  0 ≤ t0 ∧ tile_nth w t0 n < MapSize w.
Proof.
  intros Hwf (Hn & Hin & _).
  pose proof (Hin 0%nat Hn) as [Hs0 _]%cont_true.
  pose proof (Hin (n - 1)%nat ltac:(lia)) as [Hs1 Hl1]%cont_true.
  rewrite tile_nth_0 in Hs0.
  pose proof (wf_map_station _ _ Hwf (is_stop_station _ _ Hs0)) as (? & ? & ?).
  pose proof (wf_map_station _ _ Hwf (is_stop_station _ _ Hs1)) as (? & ? & ?).
  pose proof (stop_offset_bounds w t0 Hwf).
  rewrite (line_offset _ _ _ Hl1) in *.
  unfold tile_nth in *. rewrite Nat2Z.inj_sub in * by lia.
  split; lia.
Qed.

(** X13: on a run, [Platform::Rebuild] returns exactly when every counted
    vehicle (a primary road vehicle, not crashed, in a road stop) standing on
    a tile of the run heads along the road of the run, one way or the other;
    a vehicle heading elsewhere makes the assertion fail. *)
Theorem Platform_Rebuild_returns_iff w this t0 n :
  wf_map w → is_run w t0 n →
  is_Some (Platform_Rebuild w this t0) ↔ directions_ok w t0 n.
Proof.
  intros Hwf Hr. destruct (is_run_bounds w t0 n Hwf Hr) as [Ht0 Hmax].
  destruct Hr as (Hn & Hin & Hno & Hso).
  rewrite (Platform_Rebuild_segment w this t0 n) by done.
  rewrite <-occupancy_directions.
  destruct (occupancy w (GetRoadStopDir w t0) (segment w t0 n)); cbn.
  - split; eauto.
  - split; by intros ?%is_Some_None.
Qed.

(** X14: [CheckIntegrity] returns exactly when the stop is not a base, or
    the tile north of it does not continue it and its platform is allocated
    and equal, in length and in both occupancies, to a platform rebuilt from
    the tile of the stop. *)
Theorem CheckIntegrity_returns_iff w this s :
  stops w !! this = Some s →
  CheckIntegrity this w = Some (tt, w) ↔
  HasBit (status s) RSSFB_BASE_ENTRY = false ∨
  (IsDriveThroughRoadStopContinuation w (xy s) (north_of w (xy s)) = false ∧
   ∃ p v, platform s = Some p ∧ platforms w !! p = Some v ∧
          Platform_Rebuild w new_Platform_value (xy s) = Some v).
Proof.
  intros Hs. unfold CheckIntegrity, north_of, stop_offset.
  rewrite (M_bind_step _ _ w s w) by by apply load_stop_Some.
  destruct (HasBit (status s) RSSFB_BASE_ENTRY); cbn [negb].
  2:{ split; [by left|done]. }
  split.
  - intros H. right.
    apply M_bind_Some in H as (w0 & w1 & [-> ->]%get_world_Some & H).
    apply M_bind_Some in H as (? & w1 & [Hn ->]%assert_Some & H).
    apply M_bind_Some in H as (temp & w1 & [Hr ->]%lift_option_Some & H).
    apply M_bind_Some in H
      as (p & w1 & (r & s1 & [= <-] & Hs1 & Hp & ->)%rs_platform_deref_Some
          & H).
    apply M_bind_Some in H as (v & w1 & [Hv ->]%load_platform_Some & H).
    apply M_bind_Some in H as (? & w1 & [Hl ->]%assert_Some & H).
    apply M_bind_Some in H
      as (p2 & w1 & (r & s2 & [= <-] & Hs2 & Hp2 & ->)%rs_platform_deref_Some
          & H).
    apply M_bind_Some in H as (v2 & w1 & [Hv2 ->]%load_platform_Some & H).
    apply M_bind_Some in H as (? & w1 & [He ->]%assert_Some & H).
    apply M_bind_Some in H
      as (p3 & w1 & (r & s3 & [= <-] & Hs3 & Hp3 & ->)%rs_platform_deref_Some
          & H).
    apply M_bind_Some in H as (v3 & w1 & [Hv3 ->]%load_platform_Some & H).
    apply assert_Some in H as [Hw _].
    apply bool_decide_eq_true in Hl, He, Hw.
    assert (s1 = s) as -> by congruence.
    assert (s2 = s) as -> by congruence.
    assert (s3 = s) as -> by congruence.
    assert (p2 = p) as -> by congruence.
    assert (p3 = p) as -> by congruence.
    assert (v2 = v) as -> by congruence.
    assert (v3 = v) as -> by congruence.
    split; [by apply negb_true_iff|].
    exists p, v. split_and!; [done..|].
    rewrite Hr. f_equal. destruct temp, v; cbn in *. congruence.
  - intros [?|(Hn & p & v & Hp & Hv & Hr)]; [done|].
    msimpl. cbn [negb]. msimpl. done.
Qed.

(** ** States reached by attaching and detaching *)

(** X15: in every state reached, the precondition of [GetByTile] holds on
    every drive-through stop tile: the lookup returns a road stop, which
    stands on the tile and has a platform that is allocated. *)
Theorem reachable_GetByTile_succeeds attach_ok detach_ok w t :
  reachable attach_ok detach_ok w → is_stop w t = true →
  ∃ r s p v,
    GetByTile t (GetRoadStopType w t) w = Some (r, w) ∧
    stops w !! r = Some s ∧ xy s = t ∧
    platform s = Some p ∧ platforms w !! p = Some v.
Proof.
  intros (Hinv & Hnp & _)%reachable_invariants Ht.
  destruct (Hnp t Ht) as [p Hp].
  destruct (attached_platform_live w t p Hinv Ht Hp) as [v Hv].
  unfold tile_platform, stop_at, stop_ptr in Hp.
  destruct (GetByTile_in w t (GetRoadStopType w t)) as [r|] eqn:Hr; [|done].
  cbn in Hp. destruct (stops w !! r) as [s|] eqn:Hs; [|done]. cbn in Hp.
  destruct (GetByTile_in_Some _ _ _ _ Hr) as (s' & Hs' & Hxy).
  assert (s' = s) as -> by congruence.
  exists r, s, p, v. split_and!; try done.
  unfold GetByTile, M_bind, get_world, lift_option. by rewrite Hr.
Qed.

(** X16: in every state reached, a stop tile has the platform of a run
    exactly when it is one of the tiles of the run: no stop outside a run
    references the platform of the run. *)
Theorem reachable_platform_shared_iff_same_run attach_ok detach_ok w t0 n t :
  reachable attach_ok detach_ok w → is_run w t0 n → is_stop w t = true →
  tile_platform w t = tile_platform w t0 ↔ t ∈ segment w t0 n.
Proof.
  intros (Hinv & Hnp & _)%reachable_invariants Hr Ht.
  destruct (is_run_good_run w t0 n Hinv Hnp Hr) as (p & Hat & Hst & _ & Hex).
  assert (0 < n)%nat as Hn by by destruct Hr.
  destruct (Hst 0%nat Hn) as [Hp0 _]. rewrite tile_nth_0 in Hp0.
  rewrite Hp0, elem_of_segment. split.
  - intros Hp. by apply Hex.
  - intros (i & Hi & ->). by destruct (Hst i Hi).
Qed.

(** X17: in every state reached, the road stop of a stop tile has the base
    bit exactly when the tile north of it does not continue it: the base of
    a run is the stop of its northernmost tile. *)
Theorem reachable_base_iff_northmost attach_ok detach_ok w t :
  reachable attach_ok detach_ok w → is_stop w t = true →
  tile_base w t =
  negb (IsDriveThroughRoadStopContinuation w t (north_of w t)).
Proof.
  intros (Hinv & Hnp & _)%reachable_invariants Ht.
  pose proof (inv_map _ Hinv) as Hwf.
  rewrite (north_of_station w t Hwf (is_stop_station _ _ Ht)).
  destruct (inv_runs _ Hinv t) as (t0 & n & p & i & Hg & Hi & ->).
  { apply attached_true. split; [done|by apply Hnp]. }
  destruct Hg as (Hat & Hst & _).
  destruct (run_at_tile _ _ _ _ Hat Hi) as (_ & Hl & _).
  destruct (Hst i Hi) as [_ ->].
  rewrite (line_offset _ _ _ Hl), (cont_line _ _ t0) by done.
  destruct Hat as (Hn & _ & Hin & Hno & _).
  rewrite <-(acont_cont w) by done.
  destruct i as [|i].
  - rewrite tile_nth_0, Hno. done.
  - rewrite bool_decide_eq_false_2 by done.
    replace (tile_nth w t0 (S i) - stop_offset w t0)
      with (tile_nth w t0 i) by (unfold tile_nth; lia).
    by rewrite Hin by lia.
Qed.

(** X18: every stop tile of a state reached lies in exactly one run. *)
Theorem reachable_stop_in_one_run attach_ok detach_ok w t :
  reachable attach_ok detach_ok w → is_stop w t = true →
  ∃ t0 n, is_run w t0 n ∧ t ∈ segment w t0 n ∧
          ∀ t0' n', is_run w t0' n' → t ∈ segment w t0' n' →
                    t0' = t0 ∧ n' = n.
Proof.
  intros (Hinv & Hnp & _)%reachable_invariants Ht.
  pose proof (inv_map _ Hinv) as Hwf.
  destruct (inv_runs _ Hinv t) as (t0 & n & p & i & Hg & Hi & ->).
  { apply attached_true. split; [done|by apply Hnp]. }
  exists t0, n. split_and!.
  - by eapply good_run_is_run.
  - apply elem_of_segment. eauto.
  - intros t0' n' Hr' (i' & Hi' & Heq)%elem_of_segment.
    destruct (is_run_good_run w t0' n' Hinv Hnp Hr') as (p' & Hg').
    destruct (good_run_unique w t0 n p i t0' n' p' i' Hwf Hg Hg' Hi Hi' Heq)
      as (-> & -> & _). done.
Qed.

(** X19: in every state reached, attaching a stop that has just been built
    never fails: [MakeDriveThrough] returns, the map, the stations, the
    vehicles and the lists of road stops are as they were, and afterwards
    every stop tile has a platform. *)
Theorem reachable_attach_returns attach_ok detach_ok w x this w1 :
  reachable attach_ok detach_ok w → placed w x this w1 →
  ∃ w', MakeDriveThrough this w1 = Some (tt, w') ∧
        untouched w1 w' ∧ no_pending w'.
Proof.
  intros (Hinv & Hnp & _)%reachable_invariants Hpl.
  pose proof (placed_preserves w x this w1 Hinv Hnp Hpl) as Hinv1.
  pose proof (placed_pending w x this w1 Hpl) as Hpend.
  destruct (MakeDriveThrough_Inv w1 this x Hinv1 Hpend) as (w' & Hrun & _).
  exists w'. split; [done|]. split; [by eapply maintains_MakeDriveThrough|].
  destruct (MakeDriveThrough_no_pending w1 this x w' Hinv1 Hpend)
    as [_ Hnp']; [|done|done].
  intros t [->|Ht]%(placed_is_stop' w x this w1 Hpl) Hne; [done|].
  destruct (placed_platform w x this w1 Hpl t Ht) as [-> _].
  by apply Hnp.
Qed.

(** ** When detaching fails *)

(** X20: in a state reached, detaching a stop at an end of its run (the
    first or the last tile, or the only one) always returns, whatever the
    vehicles standing in the run: no platform is rebuilt. *)
Theorem reachable_detach_end_returns attach_ok detach_ok w this t0 n k :
  reachable attach_ok detach_ok w → is_run w t0 n → (k < n)%nat →
  stop_ptr w (tile_nth w t0 k) = Some this →
  k = 0%nat ∨ S k = n →
  ∃ w', ClearDriveThrough this w = Some (tt, w').
Proof.
  intros (Hinv & Hnp & _)%reachable_invariants Hr Hk Hptr Hend.
  destruct (is_run_good_run w t0 n Hinv Hnp Hr) as (p & Hg).
  destruct (ClearDriveThrough_run w this (tile_nth w t0 k) t0 n p k)
    as [_ Hret]; try done.
  apply Hret. lia.
Qed.

(** X21: in a state reached, detaching a stop from inside its run returns
    exactly when, both in the part of the run north of the stop and in the
    part south of it, every counted vehicle heads along the road of the
    run: the two platforms are rebuilt, and a vehicle heading elsewhere
    makes the assertion of the rebuild fail. *)
Theorem reachable_detach_split_returns_iff attach_ok detach_ok w this t0 n k :
  reachable attach_ok detach_ok w → is_run w t0 n →
  (0 < k)%nat → (S k < n)%nat →
  stop_ptr w (tile_nth w t0 k) = Some this →
  is_Some (ClearDriveThrough this w) ↔
  directions_ok w t0 k ∧
  directions_ok w (tile_nth w t0 (S k)) (n - S k).
Proof.
  intros (Hinv & Hnp & _)%reachable_invariants Hr Hk0 Hkn Hptr.
  destruct (is_run_good_run w t0 n Hinv Hnp Hr) as (p & Hg).
  destruct (GetByTile_in_Some _ _ _ _ Hptr) as (s & Hs & _).
  destruct (clear_case_split w this (tile_nth w t0 k) s t0 n p k)
    as (q & W & Heq & _); try done; [lia|].
  destruct Hg as (Hat & _).
  destruct (run_at_tile _ _ _ _ Hat Hkn) as (_ & Hl & _).
  rewrite <-!occupancy_directions, (line_dir _ _ _ Hl), Heq.
  destruct (occupancy w (GetRoadStopDir w t0)
              (segment w (tile_nth w t0 (S k)) (n - S k))) as [oS|]; cbn.
  - destruct (occupancy w (GetRoadStopDir w t0) (segment w t0 k)) as [oN|];
      cbn.
    + split; eauto.
    + split; [by intros ?%is_Some_None|by intros [?%is_Some_None _]].
  - split; [by intros ?%is_Some_None|by intros [_ ?%is_Some_None]].
Qed.

(** ** Allocating and freeing platforms *)

Lemma MakeDriveThrough_join_heap fuel this_xy rst offset rn pn this :
  ∀ south added w a w',
    (∃ sn, stops w !! rn = Some sn ∧ platform sn = Some pn) →
    (∃ s, stops w !! this = Some s ∧ platform s = Some pn) →
    MakeDriveThrough_join fuel this_xy rst offset (Some rn) south added w
      = Some (a, w') →
    platforms w' = platforms w ∧
    ∃ s', stops w' !! this = Some s' ∧ platform s' = Some pn.
Proof.
  induction fuel as [|fuel IH]; intros south added w a w' Hrn Hthis H; [done|].
  cbn [MakeDriveThrough_join] in H.
  apply M_bind_Some in H as (w0 & w1 & [-> ->]%get_world_Some & H).
  destruct (IsDriveThroughRoadStopContinuation w this_xy south).
  2:{ injection H as _ <-. done. }
  apply M_bind_Some in H as (r & w1 & Hr & H).
  unfold GetByTile in Hr.
  apply M_bind_Some in Hr as (w0 & w2 & [-> ->]%get_world_Some & Hr).
  apply lift_option_Some in Hr as [Hr ->].
  apply M_bind_Some in H
    as (p & w1 & (? & sr & [= <-] & Hsr & -> & ->)%rs_platform_Some & H).
  case_bool_decide.
  { injection H as _ <-. done. }
  apply M_bind_Some in H
    as (np & w1 & (? & sn & [= <-] & Hsn & -> & ->)%rs_platform_Some & H).
  apply M_bind_Some in H
    as (? & w1 & (sr' & Hsr' & ->)%rs_set_platform_Some & H).
  destruct Hrn as (sn' & Hsn' & Hpn). assert (sn' = sn) as -> by congruence.
  rewrite Hpn in H.
  apply IH in H as [Hpl Hth].
  - done.
  - cbn. destruct (decide (rn = r)) as [->|Hne].
    + rewrite lookup_insert_eq. eauto.
    + rewrite lookup_insert_ne by done. eauto.
  - cbn. destruct (decide (this = r)) as [->|Hne].
    + rewrite lookup_insert_eq. eauto.
    + rewrite lookup_insert_ne by done. done.
Qed.

Lemma MakeDriveThrough_merge_frees w this s rn sn pn nv rs ss ps sv u w' :
  stops w !! this = Some s →
  neighbour_platform w (xy s) (north_of w (xy s)) rn sn pn nv →
  neighbour_platform w (xy s) (south_of w (xy s)) rs ss ps sv →
  MakeDriveThrough this w = Some (u, w') →
  pn ≠ ps ∧ platforms w' !! ps = None ∧
  ∃ s', stops w' !! this = Some s' ∧ platform s' = Some pn.
Proof.
  intros Hs (Hn & Hrn & Hsn & Hpn & Hnv) (Hso & Hrs & Hss & Hps & Hsv) H.
  destruct (platform s) as [tp|] eqn:Hp.
  { unfold MakeDriveThrough in H. revert H. msimpl. done. }
  assert (rn ≠ this) as Hne1 by (intros ->; simplify_eq).
  assert (rs ≠ this) as Hne2 by (intros ->; simplify_eq).
  unfold MakeDriveThrough, north_of, south_of, stop_offset in *.
  revert H. destruct (decide (pn = ps)) as [->|Hne3].
  - msimpl.
    match goal with
    | |- context [MakeDriveThrough_join ?f ?x ?r ?o ?n ?t ?a ?W] =>
        destruct (MakeDriveThrough_join f x r o n t a W) as [[a' w2]|]
          eqn:Hloop; [|done]
    end.
    apply (MakeDriveThrough_join_heap _ _ _ _ rn ps this) in Hloop
      as [Hpl (s' & Hs' & Hp')].
    + cbn in Hpl. msimpl. by rewrite lookup_delete_eq.
    + cbn. destruct (decide (rn = rs)) as [->|Hne4].
      * rewrite lookup_insert_eq. eauto.
      * rewrite !lookup_insert_ne by congruence. eauto.
    + cbn. rewrite lookup_insert_ne, lookup_insert_eq by done. eauto.
  - msimpl.
    match goal with
    | |- context [MakeDriveThrough_join ?f ?x ?r ?o ?n ?t ?a ?W] =>
        destruct (MakeDriveThrough_join f x r o n t a W) as [[a' w2]|]
          eqn:Hloop; [|done]
    end.
    apply (MakeDriveThrough_join_heap _ _ _ _ rn pn this) in Hloop
      as [Hpl (s' & Hs' & Hp')].
    + cbn in Hpl. msimpl.
      rewrite lookup_delete_ne, lookup_insert_eq by done.
      rewrite Hpl, lookup_delete_ne, lookup_insert_eq by done.
      destruct u. intros [= <-]. split; [done|]. cbn. split; [|eauto].
      by rewrite lookup_insert_ne, lookup_delete_eq by done.
    + cbn. rewrite !lookup_insert_ne by congruence. eauto.
    + cbn. rewrite lookup_insert_ne, lookup_insert_eq by done. eauto.
Qed.

(** X22: whenever [MakeDriveThrough] returns for a stop both of whose
    neighbours have a platform, the two platforms were different ones, the
    platform of the southern neighbour has been freed, and the stop has the
    platform of the northern neighbour. *)
Theorem MakeDriveThrough_merge_frees_south w this s rn sn pn nv rs ss ps sv
    u w' :
  stops w !! this = Some s →
  neighbour_platform w (xy s) (north_of w (xy s)) rn sn pn nv →
  neighbour_platform w (xy s) (south_of w (xy s)) rs ss ps sv →
  MakeDriveThrough this w = Some (u, w') →
  pn ≠ ps ∧ platforms w' !! ps = None ∧
  ∃ s', stops w' !! this = Some s' ∧ platform s' = Some pn.
Proof. apply MakeDriveThrough_merge_frees. Qed.

Lemma neighbour_lookup_reads (c : bool) tile rst w a w' :
  (if c then M_bind (GetByTile tile rst) (λ r, M_ret (Some r))
   else M_ret None) w = Some (a, w') → w' = w.
Proof.
  destruct c.
  - intros (r & w1 & Hr & [= _ <-])%M_bind_Some. unfold GetByTile in Hr.
    apply M_bind_Some in Hr as (w0 & w2 & [-> ->]%get_world_Some & Hr).
    by apply lift_option_Some in Hr as [_ ->].
  - by intros [= _ <-].
Qed.

Lemma ClearDriveThrough_heap_cases w this s u w' :
  stops w !! this = Some s →
  ClearDriveThrough this w = Some (u, w') →
  let north :=
    IsDriveThroughRoadStopContinuation w (xy s) (north_of w (xy s)) in
  let south :=
    IsDriveThroughRoadStopContinuation w (xy s) (south_of w (xy s)) in
  (north && south = false → allocates_nothing w w') ∧
  (north = false → south = false →
   ∃ p, platform s = Some p ∧ platforms w' !! p = None).
Proof.
  intros Hs H. unfold ClearDriveThrough, north_of, south_of, stop_offset in *.
  cbv zeta in *.
  apply M_bind_Some in H as (s1 & w1 & [Hs1 ->]%load_stop_Some & H).
  assert (s1 = s) as -> by congruence.
  apply M_bind_Some in H as (? & w1 & [_ ->]%assert_Some & H).
  apply M_bind_Some in H as (w0 & w1 & [-> ->]%get_world_Some & H).
  apply M_bind_Some in H as (rn & w1 & ->%neighbour_lookup_reads & H).
  apply M_bind_Some in H as (rs & w1 & ->%neighbour_lookup_reads & H).
  apply M_bind_Some in H as (? & w3 & H3 & H).
  unfold DoClearSquare, M_bind at 1, get_world, put_world in H3.
  injection H3 as _ H3. subst w3.
  set (w3 := with_map w _) in H.
  assert (allocates_nothing w w3) as H03 by by intros p.
  destruct (IsDriveThroughRoadStopContinuation w (xy s)
              (to_uint32 (xy s - _))) eqn:Hn;
    destruct (IsDriveThroughRoadStopContinuation w (xy s)
                (to_uint32 (xy s + _))) eqn:Hso; cbn [andb].
  - split; done.
  - split; [intros _|done].
    match type of H with ?m _ = Some _ =>
      assert (maintains allocates_nothing m) as Hk by maintains_tac;
      apply Hk in H end.
    by eapply frame_trans.
  - split; [intros _|done].
    match type of H with ?m _ = Some _ =>
      assert (maintains allocates_nothing m) as Hk by maintains_tac;
      apply Hk in H end.
    by eapply frame_trans.
  - assert (allocates_nothing w w') as Hall.
    { match type of H with ?m _ = Some _ =>
        assert (maintains allocates_nothing m) as Hk by maintains_tac;
        apply Hk in H end.
      by eapply frame_trans. }
    split; [done|]. intros _ _.
    apply M_bind_Some in H as (? & w4 & H4 & H).
    apply M_bind_Some in H4
      as (tp & w5 & (r & s3 & [= <-] & Hs3 & Hp3 & ->)%rs_platform_deref_Some
          & [_ ->]%delete_Platform_Some).
    cbn in Hs3. assert (s3 = s) as -> by congruence.
    exists tp. split; [done|].
    match type of H with ?m _ = Some _ =>
      assert (maintains allocates_nothing m) as Hk by maintains_tac;
      apply Hk in H end.
    destruct (platforms w' !! tp) as [v|] eqn:Hv; [|done].
    destruct (H tp) as [v' Hv']; [by eauto|].
    cbn in Hv'. by rewrite lookup_delete_eq in Hv'.
Qed.

(** X23: [ClearDriveThrough] allocates a platform only when it splits a run:
    unless both neighbours continue the stop, every platform there is when
    it returns was there before; and when neither neighbour continues the
    stop, the platform of the stop has been freed. *)
Theorem ClearDriveThrough_heap w this s u w' :
  stops w !! this = Some s →
  ClearDriveThrough this w = Some (u, w') →
  let north :=
    IsDriveThroughRoadStopContinuation w (xy s) (north_of w (xy s)) in
  let south :=
    IsDriveThroughRoadStopContinuation w (xy s) (south_of w (xy s)) in
  (north && south = false → allocates_nothing w w') ∧
  (north = false → south = false →
   ∃ p, platform s = Some p ∧ platforms w' !! p = None).
Proof. apply ClearDriveThrough_heap_cases. Qed.

(** ** No platform is lost *)

(** X24: attaching a stop that has just been built in a state reached
    keeps the platforms accounted for: if every allocated platform was the
    platform of the road stop of some stop tile, this still holds when
    [MakeDriveThrough] returns (the platform that a merge makes redundant
    has been freed). *)
Theorem reachable_attach_no_leak attach_ok detach_ok w x this w1 u w' :
  reachable attach_ok detach_ok w → no_leak w → placed w x this w1 →
  MakeDriveThrough this w1 = Some (u, w') →
  no_leak w'.
Proof.
  intros (Hinv & Hnp & _)%reachable_invariants Hleak Hpl Hrun.
  pose proof (placed_preserves w x this w1 Hinv Hnp Hpl) as Hinv1.
  pose proof (placed_pending w x this w1 Hpl) as Hpend.
  assert (no_leak w1) as Hleak1.
  { intros q Hq.
    assert (platforms w1 = platforms w) as Hh by apply Hpl.
    rewrite Hh in Hq. destruct (Hleak q Hq) as (t & Ht & Htp).
    exists t. split; [apply (placed_is_stop' w x this w1 Hpl); by right|].
    by destruct (placed_platform w x this w1 Hpl t Ht) as [-> _]. }
  destruct (MakeDriveThrough_attach w1 this x Hinv1 Hpend)
    as (N & S & p & w'' & HN & HS & Hrun' & Hpost).
  destruct u. assert (w'' = w') as -> by congruence.
  destruct Hpend as (Hx & Hptr & Hxp).
  destruct Hpost as [Henv Hplat Hthis Hsouth Hother Hlen Hheap].
  intros q Hq.
  destruct (decide (q = p)) as [->|Hqp].
  { exists x. split; [by rewrite (same_env_is_stop _ _ Henv)|apply Hthis]. }
  assert (match S with Some (_, ps) => q ≠ ps | None => True end) as HqS.
  { destruct S as [[nS ps]|]; [|done]. intros ->.
    destruct N as [[[t0 nN] pn]|]; [|done].
    destruct (registry_ptr _ _ Hinv1 Hx) as (r & s & Hr & Hs & Hxy).
    assert (r = this) as -> by congruence.
    destruct (attach_north_analysis w1 x Hinv1 Hx Hxp)
      as [_ [[HaN _]|(t0' & n' & pn' & rn & sn & nv & _ & _ & _ & HnN & _)]].
    { destruct (north_case_run _ _ _ _ _ HN) as (_ & _ & Ha). congruence. }
    destruct (attach_south_analysis w1 x Hinv1 Hx Hxp)
      as [_ [[HaS _]|(n2 & ps' & rs & ss & sv & HgS & _ & HnS & _)]].
    { pose proof (south_case_run _ _ _ _ HS). congruence. }
    destruct HS as (HgS' & _).
    assert (0 < nS)%nat as Hn1 by apply HgS'.
    assert (0 < n2)%nat as Hn2 by apply HgS.
    destruct (good_run_unique _ _ _ _ 0%nat _ _ _ 0%nat (inv_map _ Hinv1)
                HgS' HgS Hn1 Hn2 eq_refl) as (_ & _ & _ & <-).
    rewrite <-Hxy in HnN, HnS.
    destruct (MakeDriveThrough_merge_frees w1 this s rn sn pn' nv rs ss
                ps sv tt w' Hs HnN HnS Hrun) as (_ & Hnone & _).
    rewrite Hnone in Hq. by apply is_Some_None in Hq. }
  rewrite (Hheap q Hqp HqS) in Hq.
  destruct (Hleak1 q Hq) as (t & Ht & Htp).
  exists t. split; [by rewrite (same_env_is_stop _ _ Henv)|].
  unfold tile_platform in *. rewrite Hother; [done|done| |].
  - intros ->. congruence.
  - intros i Hi ->. destruct S as [[nS ps]|]; [|cbn in Hi; lia].
    destruct HS as ((_ & Hst & _) & _).
    destruct (Hst i Hi) as [Hp _]. unfold tile_platform in Hp. congruence.
Qed.

(** X25: detaching a stop in a state reached keeps the platforms accounted
    for: if every allocated platform was the platform of the road stop of
    some stop tile, this still holds when [ClearDriveThrough] returns (the
    platform of the last stop of a run has been freed, and each part of a
    run that has been split has its platform). *)
Theorem reachable_detach_no_leak attach_ok detach_ok w this x u w' :
  reachable attach_ok detach_ok w → no_leak w → attached_stop w this x →
  ClearDriveThrough this w = Some (u, w') →
  no_leak w'.
Proof.
  intros (Hinv & Hnp & _)%reachable_invariants Hleak Hatt Hrun.
  pose proof (inv_map _ Hinv) as Hwf.
  destruct (attached_stop_run w this x Hinv Hatt)
    as (s & t0 & n & p & k & Hs & Hg & Hk & Hxk).
  destruct Hatt as (Hx & Hptr & _).
  destruct (ClearDriveThrough_run w this x t0 n p k Hinv Hnp Hptr Hg Hk Hxk)
    as [Hpost _].
  destruct (Hpost u w' Hrun) as (q & Hdp).
  pose proof (clear_xy w this x s Hptr Hs) as Hxy.
  pose proof (clear_this w this x s t0 n p k Hinv Hptr Hs Hg Hk Hxk) as Hps.
  destruct (ClearDriveThrough_heap_cases w this s u w' Hs Hrun)
    as [Hshrink Hfreed].
  destruct (clear_north w x t0 n p k Hinv Hnp Hg Hk Hxk) as [Hno Hcn].
  destruct (clear_south w x t0 n p k Hinv Hnp Hg Hk Hxk) as [Hso Hcs].
  rewrite Hxy, Hno, Hcn, Hso, Hcs in Hshrink, Hfreed.
  destruct Hdp as [Henv [Hq0 Hqk] Hsouth Hother Hnl Hsl Hheap].
  pose proof (stop_offset_bounds w t0 Hwf) as Hoff.
  assert (∀ j, (j < n)%nat → j ≠ k →
            is_stop w' (tile_nth w t0 j) = true ∧ tile_nth w t0 j ≠ x)
    as Hrun_tile.
  { intros j Hj Hjk. destruct (detach_tile w t0 n p Hg j Hj) as [Hsj _].
    assert (tile_nth w t0 j ≠ x) as Hne.
    { rewrite Hxk. unfold tile_nth. nia. }
    split; [|done]. by apply (cleared_is_stop w x w' Henv). }
  destruct Hg as (Hat & Hst & Hlen & Hex).
  intros r Hr.
  destruct (decide (r = p)) as [->|Hrp].
  - destruct (decide (0 < k)%nat) as [Hk0|Hk0].
    + destruct (Hrun_tile 0%nat) as [Ht0 Hne]; [lia..|].
      exists (tile_nth w t0 0). split; [done|].
      unfold tile_platform. rewrite Hother.
      * by destruct (Hst 0%nat ltac:(lia)) as [? _].
      * by destruct (detach_tile w t0 n p (conj Hat (conj Hst (conj Hlen Hex)))
                       0%nat ltac:(lia)).
      * done.
      * intros j Hj. unfold tile_nth. nia.
    + assert (k = 0)%nat as -> by lia. rewrite Hq0 in * by done.
      destruct (decide (1 < n)%nat) as [Hn1|Hn1].
      * destruct (Hrun_tile 1%nat) as [Ht1 Hne]; [lia..|].
        exists (tile_nth w t0 1). split; [done|].
        by destruct (Hsouth 1%nat ltac:(lia)) as [? _].
      * destruct Hfreed as (p' & Hp' & Hnone);
          [by apply bool_decide_eq_false_2; lia..|].
        assert (p' = p) as -> by congruence.
        rewrite Hnone in Hr. by apply is_Some_None in Hr.
  - destruct (decide (r = q)) as [->|Hrq].
    + assert (0 < k)%nat as Hk0.
      { destruct (decide (k = 0)%nat) as [Hk0|?]; [|lia].
        by specialize (Hq0 Hk0). }
      destruct (decide (S k < n)%nat) as [Hkn|Hkn].
      * destruct (Hrun_tile (S k)) as [Ht1 Hne]; [lia..|].
        exists (tile_nth w t0 (S k)). split; [done|].
        by destruct (Hsouth (S k) ltac:(lia)) as [? _].
      * rewrite (bool_decide_eq_false_2 (S k < n)%nat), andb_false_r
          in Hshrink by done.
        apply Hshrink in Hr; [|done]. rewrite Hqk in Hr by done.
        by apply is_Some_None in Hr.
    + rewrite (Hheap r Hrp Hrq) in Hr.
      destruct (Hleak r Hr) as (t & Ht & Htp).
      assert (∀ j, (j < n)%nat → t ≠ tile_nth w t0 j) as Hout.
      { intros j Hj ->. destruct (Hst j Hj) as [Hp _]. congruence. }
      assert (t ≠ x) as Hne by (rewrite Hxk; by apply Hout).
      exists t. split; [by apply (cleared_is_stop w x w' Henv)|].
      unfold tile_platform in *. rewrite Hother; [done..|].
      intros j Hj. apply Hout. lia.
Qed.

(** * The further properties on the example worlds *)

Lemma ex_linked_3 :
  linked (stops ex_w3) [0%nat; 1%nat; 2%nat].
Proof.
  intros [|[|i]] a b Ha Hb.
  - injection Ha as <-. injection Hb as <-. eexists.
    split; vm_compute; reflexivity.
  - injection Ha as <-. injection Hb as <-. eexists.
    split; vm_compute; reflexivity.
  - destruct i; done.
Qed.

Lemma ex_stop_off_3 tile q :
  tile ≠ 9 → tile ≠ 10 → tile ≠ 11 →
  q ∈ [0%nat; 1%nat; 2%nat] → stop_off (stops ex_w3) q tile.
Proof.
  intros H9 H10 H11 Hq.
  apply elem_of_cons in Hq as [->|Hq];
    [eexists; split; [vm_compute; reflexivity|cbn; congruence]|].
  apply elem_of_cons in Hq as [->|Hq];
    [eexists; split; [vm_compute; reflexivity|cbn; congruence]|].
  apply list_elem_of_singleton in Hq as ->.
  eexists; split; [vm_compute; reflexivity|cbn; congruence].
Qed.

Lemma GetByTile_returns_first_witness :
  GetByTile 11 ROADSTOP_BUS ex_w3 = Some (2%nat, ex_w3) ∧
  ex_w3 = ex_w3 ∧
  ∃ l, head (l ++ [2%nat]) =
         GetPrimaryRoadStop (stations ex_w3 (GetStationIndex ex_w3 11))
           ROADSTOP_BUS ∧
       linked (stops ex_w3) (l ++ [2%nat]) ∧
       (∀ q, q ∈ l → stop_off (stops ex_w3) q 11) ∧
       stop_on (stops ex_w3) 2%nat 11.
Proof.
  assert (GetByTile 11 ROADSTOP_BUS ex_w3 = Some (2%nat, ex_w3)) as H
    by (vm_compute; reflexivity).
  split; [exact H|].
  apply (GetByTile_returns_first ex_w3 11 ROADSTOP_BUS 2%nat ex_w3 H).
Defined.

Lemma GetByTile_finds_first_witness :
  head ([0%nat; 1%nat] ++ [2%nat]) =
    GetPrimaryRoadStop (stations ex_w3 (GetStationIndex ex_w3 11))
      ROADSTOP_BUS ∧
  linked (stops ex_w3) ([0%nat; 1%nat] ++ [2%nat]) ∧
  (∀ q, q ∈ [0%nat; 1%nat] → stop_off (stops ex_w3) q 11) ∧
  stop_on (stops ex_w3) 2%nat 11 ∧
  GetByTile 11 ROADSTOP_BUS ex_w3 = Some (2%nat, ex_w3).
Proof.
  assert (head ([0%nat; 1%nat] ++ [2%nat]) =
            GetPrimaryRoadStop (stations ex_w3 (GetStationIndex ex_w3 11))
              ROADSTOP_BUS) as Hhd by (vm_compute; reflexivity).
  assert (∀ q, q ∈ [0%nat; 1%nat] → stop_off (stops ex_w3) q 11) as Hoff.
  { intros q Hq.
    apply elem_of_cons in Hq as [->|Hq];
      [eexists; split; [vm_compute; reflexivity|cbn; lia]|].
    apply list_elem_of_singleton in Hq as ->.
    eexists; split; [vm_compute; reflexivity|cbn; lia]. }
  assert (stop_on (stops ex_w3) 2%nat 11) as Hon
    by (eexists; split; vm_compute; reflexivity).
  split_and!; [exact Hhd|exact ex_linked_3|exact Hoff|exact Hon|].
  apply (GetByTile_finds_first ex_w3 11 ROADSTOP_BUS [0%nat; 1%nat] 2%nat
           Hhd ex_linked_3 Hoff Hon).
Defined.

Lemma GetByTile_fails_without_stop_witness :
  head [0%nat; 1%nat; 2%nat] =
    GetPrimaryRoadStop (stations ex_w3 (GetStationIndex ex_w3 12))
      ROADSTOP_BUS ∧
  linked (stops ex_w3) [0%nat; 1%nat; 2%nat] ∧
  (∀ q, q ∈ [0%nat; 1%nat; 2%nat] → stop_off (stops ex_w3) q 12) ∧
  (∀ r s, last [0%nat; 1%nat; 2%nat] = Some r → stops ex_w3 !! r = Some s →
          next s = None) ∧
  GetByTile 12 ROADSTOP_BUS ex_w3 = None.
Proof.
  assert (head [0%nat; 1%nat; 2%nat] =
            GetPrimaryRoadStop (stations ex_w3 (GetStationIndex ex_w3 12))
              ROADSTOP_BUS) as Hhd by (vm_compute; reflexivity).
  assert (∀ q, q ∈ [0%nat; 1%nat; 2%nat] → stop_off (stops ex_w3) q 12)
    as Hoff by (intros q; apply ex_stop_off_3; lia).
  assert (∀ r s, last [0%nat; 1%nat; 2%nat] = Some r →
                 stops ex_w3 !! r = Some s → next s = None) as Hlast.
  { intros r s [= <-] Hs.
    assert (stops ex_w3 !! 2%nat =
              Some {| xy := 11; status := 3; platform := Some 0%nat;
                      next := None |}) as Hs' by (vm_compute; reflexivity).
    rewrite Hs' in Hs. by injection Hs as <-. }
  split_and!; [exact Hhd|exact ex_linked_3|exact Hoff|exact Hlast|].
  apply (GetByTile_fails_without_stop ex_w3 12 ROADSTOP_BUS
           [0%nat; 1%nat; 2%nat] Hhd ex_linked_3 Hoff Hlast).
Defined.

Lemma continuation_class_witness :
  IsDriveThroughRoadStopContinuation ex_w3 9 10 = true ∧
  IsDriveThroughRoadStopContinuation ex_w3 10 11 = true ∧
  IsDriveThroughRoadStopContinuation ex_w3 9 11 = true ∧
  IsDriveThroughRoadStopContinuation ex_w3 11 10 = true ∧
  IsDriveThroughRoadStopContinuation ex_w3 10 10 = true.
Proof.
  assert (IsDriveThroughRoadStopContinuation ex_w3 9 10 = true) as H1
    by (vm_compute; reflexivity).
  assert (IsDriveThroughRoadStopContinuation ex_w3 10 11 = true) as H2
    by (vm_compute; reflexivity).
  split_and!; [exact H1|exact H2|..];
    apply (continuation_class ex_w3 9 10 11 H1 H2).
Defined.

Lemma MakeDriveThrough_frame_witness :
  MakeDriveThrough 1%nat ex_w2a = Some (tt, ex_w2) ∧
  untouched ex_w2a ex_w2 ∧
  ∀ tile type, GetByTile_in ex_w2 tile type = GetByTile_in ex_w2a tile type.
Proof.
  assert (MakeDriveThrough 1%nat ex_w2a = Some (tt, ex_w2)) as H
    by (vm_compute; reflexivity).
  split; [exact H|].
  apply (MakeDriveThrough_frame ex_w2a 1%nat tt ex_w2 H).
Defined.

Lemma ClearDriveThrough_frame_witness :
  ClearDriveThrough 1%nat ex_w2 = Some (tt, ex_d2) ∧
  ∃ s, stops ex_w2 !! 1%nat = Some s ∧
       cleared_env ex_w2 (xy s) ex_d2 ∧
       same_chain (stops ex_w2) (stops ex_d2).
Proof.
  assert (ClearDriveThrough 1%nat ex_w2 = Some (tt, ex_d2)) as H
    by (vm_compute; reflexivity).
  split; [exact H|].
  apply (ClearDriveThrough_frame ex_w2 1%nat tt ex_d2 H).
Defined.

Lemma MakeDriveThrough_attaches_this_witness :
  MakeDriveThrough 1%nat ex_w2a = Some (tt, ex_w2) ∧
  ∃ s s' p v, stops ex_w2a !! 1%nat = Some s ∧ platform s = None ∧
              stops ex_w2 !! 1%nat = Some s' ∧ platform s' = Some p ∧
              platforms ex_w2 !! p = Some v.
Proof.
  assert (MakeDriveThrough 1%nat ex_w2a = Some (tt, ex_w2)) as H
    by (vm_compute; reflexivity).
  split; [exact H|].
  apply (MakeDriveThrough_attaches_this ex_w2a 1%nat tt ex_w2 H).
Defined.

Lemma destructor_after_ClearDriveThrough_witness :
  ClearDriveThrough 1%nat ex_w2 = Some (tt, ex_d2) ∧
  RoadStop_destructor 1%nat ex_d2 = Some (tt, ex_d2).
Proof.
  assert (ClearDriveThrough 1%nat ex_w2 = Some (tt, ex_d2)) as H
    by (vm_compute; reflexivity).
  split; [exact H|].
  apply (destructor_after_ClearDriveThrough ex_w2 1%nat tt ex_d2 H).
Defined.

Lemma MakeDriveThrough_joins_north_witness :
  let s := {| xy := 10; status := 3; platform := None; next := None |} in
  let sn := {| xy := 9; status := 67; platform := Some 0%nat;
               next := Some 1%nat |} in
  let nv := {| length := 16; occupied_east := 0; occupied_west := 0 |} in
  stops ex_w2a !! 1%nat = Some s ∧
  platform s = None ∧
  neighbour_platform ex_w2a (xy s) (north_of ex_w2a (xy s)) 0%nat sn 0%nat
    nv ∧
  neighbour_free ex_w2a (xy s) (south_of ex_w2a (xy s)) ∧
  0%nat ≠ 1%nat ∧
  south_of ex_w2a (xy s) ≠ xy s ∧
  MakeDriveThrough 1%nat ex_w2a =
    Some (tt,
          with_platforms
            (with_stops ex_w2a
               (<[1%nat := set_platform s (Some 0%nat)]> (stops ex_w2a)))
            (<[0%nat := set_length nv (int_add (length nv) TILE_SIZE)]>
               (platforms ex_w2a))).
Proof.
  intros s sn nv.
  assert (stops ex_w2a !! 1%nat = Some s) as Hs by (vm_compute; reflexivity).
  assert (neighbour_platform ex_w2a (xy s) (north_of ex_w2a (xy s)) 0%nat sn
            0%nat nv) as Hn
    by (split_and!; vm_compute; reflexivity).
  assert (neighbour_free ex_w2a (xy s) (south_of ex_w2a (xy s))) as Hso
    by (left; vm_compute; reflexivity).
  assert (0%nat ≠ 1%nat) as Hne by discriminate.
  assert (south_of ex_w2a (xy s) ≠ xy s) as Hxy
    by (vm_compute; discriminate).
  split_and!; [exact Hs|reflexivity|exact Hn|exact Hso|exact Hne|exact Hxy|].
  apply (MakeDriveThrough_joins_north ex_w2a 1%nat s 0%nat sn 0%nat nv
           Hs eq_refl Hn Hso Hne Hxy).
Defined.

Lemma MakeDriveThrough_joins_south_witness :
  let s := {| xy := 9; status := 3; platform := None; next := None |} in
  let ss := {| xy := 10; status := 67; platform := Some 0%nat;
               next := Some 1%nat |} in
  let sv := {| length := 16; occupied_east := 0; occupied_west := 0 |} in
  stops ex_s2a !! 1%nat = Some s ∧
  platform s = None ∧
  neighbour_free ex_s2a (xy s) (north_of ex_s2a (xy s)) ∧
  neighbour_platform ex_s2a (xy s) (south_of ex_s2a (xy s)) 0%nat ss 0%nat
    sv ∧
  0%nat ≠ 1%nat ∧
  MakeDriveThrough 1%nat ex_s2a =
    Some (tt,
          with_platforms
            (with_stops ex_s2a
               (<[0%nat := set_status ss
                             (ClrBit (status ss) RSSFB_BASE_ENTRY)]>
                  (<[1%nat := set_status (set_platform s (Some 0%nat))
                                (SetBit (status s) RSSFB_BASE_ENTRY)]>
                     (stops ex_s2a))))
            (<[0%nat := set_length sv (int_add (length sv) TILE_SIZE)]>
               (platforms ex_s2a))).
Proof.
  intros s ss sv.
  assert (stops ex_s2a !! 1%nat = Some s) as Hs by (vm_compute; reflexivity).
  assert (neighbour_free ex_s2a (xy s) (north_of ex_s2a (xy s))) as Hn
    by (left; vm_compute; reflexivity).
  assert (neighbour_platform ex_s2a (xy s) (south_of ex_s2a (xy s)) 0%nat ss
            0%nat sv) as Hso
    by (split_and!; vm_compute; reflexivity).
  assert (0%nat ≠ 1%nat) as Hne by discriminate.
  split_and!; [exact Hs|reflexivity|exact Hn|exact Hso|exact Hne|].
  apply (MakeDriveThrough_joins_south ex_s2a 1%nat s 0%nat ss 0%nat sv
           Hs eq_refl Hn Hso Hne).
Defined.

Lemma ClearDriveThrough_last_witness :
  let s := {| xy := 9; status := 67; platform := Some 0%nat;
              next := None |} in
  let tv := {| length := 16; occupied_east := 0; occupied_west := 0 |} in
  stops ex_w1 !! 0%nat = Some s ∧
  platform s = Some 0%nat ∧
  platforms ex_w1 !! 0%nat = Some tv ∧
  IsDriveThroughRoadStopContinuation ex_w1 (xy s) (north_of ex_w1 (xy s))
    = false ∧
  IsDriveThroughRoadStopContinuation ex_w1 (xy s) (south_of ex_w1 (xy s))
    = false ∧
  ClearDriveThrough 0%nat ex_w1 =
    Some (tt,
          with_platforms
            (with_stops (with_map ex_w1 (cleared_map ex_w1 (xy s)))
               (<[0%nat := {| xy := xy s;
                              status := ClrBit (status s) RSSFB_BASE_ENTRY;
                              platform := None; next := next s |}]>
                  (stops ex_w1)))
            (delete 0%nat (platforms ex_w1))).
Proof.
  intros s tv.
  assert (stops ex_w1 !! 0%nat = Some s) as Hs by (vm_compute; reflexivity).
  assert (platforms ex_w1 !! 0%nat = Some tv) as Hv
    by (vm_compute; reflexivity).
  assert (IsDriveThroughRoadStopContinuation ex_w1 (xy s)
            (north_of ex_w1 (xy s)) = false) as Hn
    by (vm_compute; reflexivity).
  assert (IsDriveThroughRoadStopContinuation ex_w1 (xy s)
            (south_of ex_w1 (xy s)) = false) as Hso
    by (vm_compute; reflexivity).
  split_and!; [exact Hs|reflexivity|exact Hv|exact Hn|exact Hso|].
  apply (ClearDriveThrough_last ex_w1 0%nat s 0%nat tv Hs eq_refl Hv Hn Hso).
Defined.

Lemma MakeDriveThrough_ClearDriveThrough_alone_witness :
  let s := {| xy := 9; status := 3; platform := None; next := None |} in
  stops ex_w1a !! 0%nat = Some s ∧
  platform s = None ∧
  0 ≤ status s < 256 ∧
  HasBit (status s) RSSFB_BASE_ENTRY = false ∧
  IsDriveThroughRoadStopContinuation ex_w1a (xy s) (north_of ex_w1a (xy s))
    = false ∧
  IsDriveThroughRoadStopContinuation ex_w1a (xy s) (south_of ex_w1a (xy s))
    = false ∧
  ∃ w1 w2,
    MakeDriveThrough 0%nat ex_w1a = Some (tt, w1) ∧
    ClearDriveThrough 0%nat w1 = Some (tt, w2) ∧
    stops w2 = stops ex_w1a ∧ platforms w2 = platforms ex_w1a ∧
    cleared_env ex_w1a (xy s) w2.
Proof.
  intros s.
  assert (stops ex_w1a !! 0%nat = Some s) as Hs by (vm_compute; reflexivity).
  assert (0 ≤ status s < 256) as Hst by (cbn; lia).
  assert (HasBit (status s) RSSFB_BASE_ENTRY = false) as Hb
    by (vm_compute; reflexivity).
  assert (IsDriveThroughRoadStopContinuation ex_w1a (xy s)
            (north_of ex_w1a (xy s)) = false) as Hn
    by (vm_compute; reflexivity).
  assert (IsDriveThroughRoadStopContinuation ex_w1a (xy s)
            (south_of ex_w1a (xy s)) = false) as Hso
    by (vm_compute; reflexivity).
  split_and!; [exact Hs|reflexivity|apply Hst|apply Hst|exact Hb|exact Hn
              |exact Hso|].
  apply (MakeDriveThrough_ClearDriveThrough_alone ex_w1a 0%nat s
           Hs eq_refl Hst Hb Hn Hso).
Defined.

Lemma ex_w3_wf_map : wf_map ex_w3.
Proof.
  destruct (reachable_invariants _ _ _ ex_w3_reachable) as (Hinv & _).
  apply Hinv.
Qed.

Lemma Platform_Rebuild_returns_iff_witness :
  wf_map ex_w3 ∧ is_run ex_w3 9 3 ∧
  (is_Some (Platform_Rebuild ex_w3 new_Platform_value 9) ↔
   directions_ok ex_w3 9 3).
Proof.
  split_and!; [exact ex_w3_wf_map|exact ex_w3_run|..];
    apply (Platform_Rebuild_returns_iff ex_w3 new_Platform_value 9 3
             ex_w3_wf_map ex_w3_run).
Defined.

Lemma CheckIntegrity_returns_iff_witness :
  let s := {| xy := 9; status := 67; platform := Some 0%nat;
              next := Some 1%nat |} in
  stops ex_w2 !! 0%nat = Some s ∧
  (CheckIntegrity 0%nat ex_w2 = Some (tt, ex_w2) ↔
   HasBit (status s) RSSFB_BASE_ENTRY = false ∨
   (IsDriveThroughRoadStopContinuation ex_w2 (xy s) (north_of ex_w2 (xy s))
      = false ∧
    ∃ p v, platform s = Some p ∧ platforms ex_w2 !! p = Some v ∧
           Platform_Rebuild ex_w2 new_Platform_value (xy s) = Some v)).
Proof.
  intros s.
  assert (stops ex_w2 !! 0%nat = Some s) as Hs by (vm_compute; reflexivity).
  split; [exact Hs|].
  apply (CheckIntegrity_returns_iff ex_w2 0%nat s Hs).
Defined.

Lemma reachable_GetByTile_succeeds_witness :
  reachable clear_of_vehicles no_counted_on ex_w3 ∧
  is_stop ex_w3 10 = true ∧
  ∃ r s p v,
    GetByTile 10 (GetRoadStopType ex_w3 10) ex_w3 = Some (r, ex_w3) ∧
    stops ex_w3 !! r = Some s ∧ xy s = 10 ∧
    platform s = Some p ∧ platforms ex_w3 !! p = Some v.
Proof.
  assert (is_stop ex_w3 10 = true) as Ht by (vm_compute; reflexivity).
  split_and!; [exact ex_w3_reachable|exact Ht|].
  apply (reachable_GetByTile_succeeds clear_of_vehicles no_counted_on
           ex_w3 10 ex_w3_reachable Ht).
Defined.

Lemma reachable_platform_shared_iff_same_run_witness :
  reachable clear_of_vehicles no_counted_on ex_w3 ∧ is_run ex_w3 9 3 ∧
  is_stop ex_w3 10 = true ∧
  (tile_platform ex_w3 10 = tile_platform ex_w3 9 ↔ 10 ∈ segment ex_w3 9 3).
Proof.
  assert (is_stop ex_w3 10 = true) as Ht by (vm_compute; reflexivity).
  split_and!; [exact ex_w3_reachable|exact ex_w3_run|exact Ht|..];
    apply (reachable_platform_shared_iff_same_run clear_of_vehicles
             no_counted_on ex_w3 9 3 10 ex_w3_reachable ex_w3_run Ht).
Defined.

Lemma reachable_base_iff_northmost_witness :
  reachable clear_of_vehicles no_counted_on ex_w3 ∧
  is_stop ex_w3 10 = true ∧
  tile_base ex_w3 10 =
  negb (IsDriveThroughRoadStopContinuation ex_w3 10 (north_of ex_w3 10)).
Proof.
  assert (is_stop ex_w3 10 = true) as Ht by (vm_compute; reflexivity).
  split_and!; [exact ex_w3_reachable|exact Ht|].
  apply (reachable_base_iff_northmost clear_of_vehicles no_counted_on
           ex_w3 10 ex_w3_reachable Ht).
Defined.

Lemma reachable_stop_in_one_run_witness :
  reachable clear_of_vehicles no_counted_on ex_w3 ∧
  is_stop ex_w3 10 = true ∧
  ∃ t0 n, is_run ex_w3 t0 n ∧ 10 ∈ segment ex_w3 t0 n ∧
          ∀ t0' n', is_run ex_w3 t0' n' → 10 ∈ segment ex_w3 t0' n' →
                    t0' = t0 ∧ n' = n.
Proof.
  assert (is_stop ex_w3 10 = true) as Ht by (vm_compute; reflexivity).
  split_and!; [exact ex_w3_reachable|exact Ht|].
  apply (reachable_stop_in_one_run clear_of_vehicles no_counted_on
           ex_w3 10 ex_w3_reachable Ht).
Defined.

Lemma reachable_attach_returns_witness :
  reachable clear_of_vehicles no_counted_on ex_m2 ∧
  placed ex_m2 10 2%nat ex_m3a ∧
  ∃ w', MakeDriveThrough 2%nat ex_m3a = Some (tt, w') ∧
        untouched ex_m3a w' ∧ no_pending w'.
Proof.
  split_and!; [exact ex_m2_reachable|exact ex_m3a_placed|].
  apply (reachable_attach_returns clear_of_vehicles no_counted_on
           ex_m2 10 2%nat ex_m3a ex_m2_reachable ex_m3a_placed).
Defined.

Lemma reachable_detach_end_returns_witness :
  reachable clear_of_vehicles no_counted_on ex_w3 ∧ is_run ex_w3 9 3 ∧
  (2 < 3)%nat ∧
  stop_ptr ex_w3 (tile_nth ex_w3 9 2) = Some 2%nat ∧
  (2%nat = 0%nat ∨ 3%nat = 3%nat) ∧
  ∃ w', ClearDriveThrough 2%nat ex_w3 = Some (tt, w').
Proof.
  assert (2 < 3)%nat as Hk by lia.
  assert (stop_ptr ex_w3 (tile_nth ex_w3 9 2) = Some 2%nat) as Hptr
    by (vm_compute; reflexivity).
  assert (2%nat = 0%nat ∨ 3%nat = 3%nat) as Hend by (right; reflexivity).
  split_and!; [exact ex_w3_reachable|exact ex_w3_run|exact Hk|exact Hptr
              |exact Hend|].
  apply (reachable_detach_end_returns clear_of_vehicles no_counted_on
           ex_w3 2%nat 9 3 2 ex_w3_reachable ex_w3_run Hk Hptr Hend).
Defined.

Lemma reachable_detach_split_returns_iff_witness :
  reachable clear_of_vehicles no_counted_on ex_w3 ∧ is_run ex_w3 9 3 ∧
  (0 < 1)%nat ∧ (2 < 3)%nat ∧
  stop_ptr ex_w3 (tile_nth ex_w3 9 1) = Some 1%nat ∧
  (is_Some (ClearDriveThrough 1%nat ex_w3) ↔
   directions_ok ex_w3 9 1 ∧
   directions_ok ex_w3 (tile_nth ex_w3 9 2) (3 - 2)).
Proof.
  assert (0 < 1)%nat as Hk0 by lia.
  assert (2 < 3)%nat as Hkn by lia.
  assert (stop_ptr ex_w3 (tile_nth ex_w3 9 1) = Some 1%nat) as Hptr
    by (vm_compute; reflexivity).
  split_and!; [exact ex_w3_reachable|exact ex_w3_run|exact Hk0|exact Hkn
              |exact Hptr|..];
    apply (reachable_detach_split_returns_iff clear_of_vehicles no_counted_on
             ex_w3 1%nat 9 3 1 ex_w3_reachable ex_w3_run Hk0 Hkn Hptr).
Defined.

Lemma MakeDriveThrough_merge_frees_south_witness :
  let s := {| xy := 10; status := 3; platform := None; next := None |} in
  let sn := {| xy := 9; status := 67; platform := Some 0%nat;
               next := Some 1%nat |} in
  let ss := {| xy := 11; status := 67; platform := Some 1%nat;
               next := Some 2%nat |} in
  let v := {| length := 16; occupied_east := 0; occupied_west := 0 |} in
  stops ex_m3a !! 2%nat = Some s ∧
  neighbour_platform ex_m3a (xy s) (north_of ex_m3a (xy s)) 0%nat sn 0%nat
    v ∧
  neighbour_platform ex_m3a (xy s) (south_of ex_m3a (xy s)) 1%nat ss 1%nat
    v ∧
  MakeDriveThrough 2%nat ex_m3a = Some (tt, ex_m3) ∧
  0%nat ≠ 1%nat ∧ platforms ex_m3 !! 1%nat = None ∧
  ∃ s', stops ex_m3 !! 2%nat = Some s' ∧ platform s' = Some 0%nat.
Proof.
  intros s sn ss v.
  assert (stops ex_m3a !! 2%nat = Some s) as Hs by (vm_compute; reflexivity).
  assert (neighbour_platform ex_m3a (xy s) (north_of ex_m3a (xy s)) 0%nat sn
            0%nat v) as Hn
    by (split_and!; vm_compute; reflexivity).
  assert (neighbour_platform ex_m3a (xy s) (south_of ex_m3a (xy s)) 1%nat ss
            1%nat v) as Hso
    by (split_and!; vm_compute; reflexivity).
  assert (MakeDriveThrough 2%nat ex_m3a = Some (tt, ex_m3)) as H
    by (vm_compute; reflexivity).
  split_and!; [exact Hs|exact Hn|exact Hso|exact H|..];
    apply (MakeDriveThrough_merge_frees_south ex_m3a 2%nat s 0%nat sn 0%nat
             v 1%nat ss 1%nat v tt ex_m3 Hs Hn Hso H).
Defined.

Lemma ClearDriveThrough_heap_witness :
  let s := {| xy := 9; status := 67; platform := Some 0%nat;
              next := None |} in
  stops ex_w1 !! 0%nat = Some s ∧
  ClearDriveThrough 0%nat ex_w1 = Some (tt, ex_d1) ∧
  (IsDriveThroughRoadStopContinuation ex_w1 (xy s) (north_of ex_w1 (xy s)) &&
   IsDriveThroughRoadStopContinuation ex_w1 (xy s) (south_of ex_w1 (xy s))
   = false → allocates_nothing ex_w1 ex_d1) ∧
  (IsDriveThroughRoadStopContinuation ex_w1 (xy s) (north_of ex_w1 (xy s))
   = false →
   IsDriveThroughRoadStopContinuation ex_w1 (xy s) (south_of ex_w1 (xy s))
   = false →
   ∃ p, platform s = Some p ∧ platforms ex_d1 !! p = None).
Proof.
  intros s.
  assert (stops ex_w1 !! 0%nat = Some s) as Hs by (vm_compute; reflexivity).
  assert (ClearDriveThrough 0%nat ex_w1 = Some (tt, ex_d1)) as H
    by (vm_compute; reflexivity).
  split; [exact Hs|]. split; [exact H|].
  apply (ClearDriveThrough_heap ex_w1 0%nat s tt ex_d1 Hs H).
Defined.

Lemma ex_dom_2 (h : gmap PlatformPtr Platform) q :
  dom h = {[0%nat; 1%nat]} → is_Some (h !! q) → q = 0%nat ∨ q = 1%nat.
Proof.
  intros Hd Hq%elem_of_dom. rewrite Hd in Hq.
  apply elem_of_union in Hq as [Hq|Hq]; apply elem_of_singleton in Hq; eauto.
Qed.

Lemma ex_m2_no_leak : no_leak ex_m2.
Proof.
  intros q Hq. apply ex_dom_2 in Hq as [->| ->]; [| |vm_compute; reflexivity].
  - exists 9. split; vm_compute; reflexivity.
  - exists 11. split; vm_compute; reflexivity.
Qed.

Lemma ex_w2_no_leak : no_leak ex_w2.
Proof.
  intros q Hq%elem_of_dom.
  assert (dom (platforms ex_w2) = {[0%nat]}) as Hd by (vm_compute; reflexivity).
  rewrite Hd in Hq. apply elem_of_singleton in Hq as ->.
  exists 9. split; vm_compute; reflexivity.
Qed.

Lemma reachable_attach_no_leak_witness :
  reachable clear_of_vehicles no_counted_on ex_m2 ∧ no_leak ex_m2 ∧
  placed ex_m2 10 2%nat ex_m3a ∧
  MakeDriveThrough 2%nat ex_m3a = Some (tt, ex_m3) ∧
  no_leak ex_m3.
Proof.
  assert (MakeDriveThrough 2%nat ex_m3a = Some (tt, ex_m3)) as H
    by (vm_compute; reflexivity).
  split_and!; [exact ex_m2_reachable|exact ex_m2_no_leak|exact ex_m3a_placed
              |exact H|].
  apply (reachable_attach_no_leak clear_of_vehicles no_counted_on
           ex_m2 10 2%nat ex_m3a tt ex_m3 ex_m2_reachable ex_m2_no_leak
           ex_m3a_placed H).
Defined.

Lemma reachable_detach_no_leak_witness :
  reachable clear_of_vehicles no_counted_on ex_w2 ∧ no_leak ex_w2 ∧
  attached_stop ex_w2 1%nat 10 ∧
  ClearDriveThrough 1%nat ex_w2 = Some (tt, ex_d2) ∧
  no_leak ex_d2.
Proof.
  assert (attached_stop ex_w2 1%nat 10) as Hatt.
  { split_and!; [vm_compute; reflexivity..|].
    eexists. vm_compute. reflexivity. }
  assert (ClearDriveThrough 1%nat ex_w2 = Some (tt, ex_d2)) as H
    by (vm_compute; reflexivity).
  split_and!; [exact ex_w2_reachable|exact ex_w2_no_leak|exact Hatt|exact H|].
  apply (reachable_detach_no_leak clear_of_vehicles no_counted_on
           ex_w2 1%nat 10 tt ex_d2 ex_w2_reachable ex_w2_no_leak Hatt H).
Defined.
